(** * Password generators, security estimator and comparison engine

    A shallow embedding of the generative/statistical core of the
    repository:

    - [src/generators/markovGenerator.ts]  ([Module Markov]),
    - [src/generators/randomGenerator.ts]  ([Module Heuristic]),
    - [src/analysis/passwordComparison.ts] ([Module Comparison]).

    Conventions of the embedding.

    - A JavaScript string is the list of its UTF-16 code units ([str]);
      an array of one-character strings is a list of code units too.
    - [Math.random()] is a stream of rationals in [[0,1)] threaded through
      a small monad ([Module Rand]) together with exceptions ([Thrown]) and
      the fuel of the one loop of the source that is not bounded by
      construction ([OutOfFuel]).
    - The counts and probabilities of the Markov model are exact rationals.
    - The numbers of the estimator and of the comparison engine are extended
      reals ([Num.xreal]): exact real arithmetic on finite values plus the
      three special values [NaN], [+Infinity] and [-Infinity] of a
      JavaScript number.  Rounding and overflow of finite arithmetic are not
      modelled. *)

From Stdlib Require Import List String Ascii Bool Arith NArith ZArith Lia.
From Stdlib Require Import QArith Qround Qabs.
From Stdlib Require Import Reals Lra.
From Stdlib Require Import Permutation.
Import ListNotations.

Set Implicit Arguments.

(** Numerals and operators are read in [nat] unless a scope is named. *)
Close Scope R_scope.
Close Scope Q_scope.

(* ================================================================== *)
(** * JavaScript strings and arrays *)
(* ================================================================== *)

Module JS.

(** A UTF-16 code unit, and a string of them. *)
Abbreviation char := N (only parsing).
Abbreviation str := (list N) (only parsing).

Definition char_eq_dec : forall a b : char, {a = b} + {a <> b} := N.eq_dec.
Definition str_eq_dec : forall a b : str, {a = b} + {a <> b} :=
  list_eq_dec N.eq_dec.

(** The code units of an ASCII literal. *)
Definition codes (s : string) : str :=
  map N_of_ascii (list_ascii_of_string s).

(** [s.includes(c)] for a one-character [c]; [set.has(c)]. *)
Definition includes (s : str) (c : char) : bool :=
  if in_dec char_eq_dec c s then true else false.

(** [s.substring(i, i + n)] for [0 <= i]. *)
Definition substring (s : str) (i n : nat) : str := firstn n (skipn i s).

(** [s.substring(s.length - n)]: a negative start is clamped to 0,
    as the truncated subtraction does. *)
Definition lastn (n : nat) (s : str) : str := skipn (List.length s - n) s.

(** [s.slice(0, n)] for [0 <= n]. *)
Definition slice0 (s : str) (n : nat) : str := firstn n s.

(** [a[i] = v] on an array: inside the array the element is replaced;
    at [i = a.length] the array grows by one.  (The source never writes
    beyond [a.length]: every index is [floor(random * a.length)].) *)
Fixpoint array_set (a : str) (i : nat) (v : char) : str :=
  match a, i with
  | [], _ => [v]
  | _ :: t, O => v :: t
  | x :: t, S j => x :: array_set t j v
  end.

(** [new Set(s.split("")).size]. *)
Definition distinct (s : str) : nat :=
  List.length (nodup char_eq_dec s).

(** A JavaScript [Map]: insertion-ordered association list. *)
Section JsMap.
Variables K V : Type.
Variable K_eq_dec : forall a b : K, {a = b} + {a <> b}.

Fixpoint map_get (m : list (K * V)) (k : K) : option V :=
  match m with
  | [] => None
  | (k', v) :: t => if K_eq_dec k k' then Some v else map_get t k
  end.

(** [m.set(k, v)]: an existing key keeps its place, a new one goes last. *)
Fixpoint map_set (m : list (K * V)) (k : K) (v : V) : list (K * V) :=
  match m with
  | [] => [(k, v)]
  | (k', v') :: t =>
      if K_eq_dec k k' then (k', v) :: t else (k', v') :: map_set t k v
  end.

Definition map_keys (m : list (K * V)) : list K := map fst m.
Definition map_values (m : list (K * V)) : list V := map snd m.
End JsMap.

End JS.
Import JS.

(* ================================================================== *)
(** * The random source and the effects of a generation call *)
(* ================================================================== *)

Module Rand.

(** The successive results of [Math.random()]: each in [[0,1)]. *)
Record Source := mkSource {
  draw : nat -> Q;
  draw_range : forall i, (0 <= draw i)%Q /\ (draw i < 1)%Q
}.

Inductive outcome (A : Type) : Type :=
| Returned (a : A)
| Thrown (msg : string)
| OutOfFuel.
Arguments Returned {A} a.
Arguments Thrown {A} msg.
Arguments OutOfFuel {A}.

(** A computation reads the source and counts the draws it has used. *)
Definition M (A : Type) : Type := Source -> nat -> outcome (A * nat).

Definition ret {A} (a : A) : M A := fun _ i => Returned (a, i).

Definition bind {A B} (m : M A) (k : A -> M B) : M B :=
  fun src i =>
    match m src i with
    | Returned (a, j) => k a src j
    | Thrown msg => Thrown msg
    | OutOfFuel => OutOfFuel
    end.

Definition throw {A} (msg : string) : M A := fun _ _ => Thrown msg.
Definition out_of_fuel {A} : M A := fun _ _ => OutOfFuel.

(** [Math.random()] *)
Definition Math_random : M Q := fun src i => Returned (draw src i, S i).

(** [Math.floor(r * n)] *)
Definition floor_scale (r : Q) (n : nat) : nat :=
  Z.to_nat (Qfloor (r * inject_Z (Z.of_nat n))).

(** [Math.floor(Math.random() * n)] *)
Definition random_index (n : nat) : M nat :=
  bind Math_random (fun r => ret (floor_scale r n)).

(** Left-to-right [Array.prototype.map] with an effectful callback. *)
Fixpoint mapM {A B} (f : A -> M B) (l : list A) : M (list B) :=
  match l with
  | [] => ret []
  | x :: t => bind (f x) (fun y => bind (mapM f t) (fun ys => ret (y :: ys)))
  end.

(** The value a computation returns, when it returns. *)
Definition value {A} (o : outcome (A * nat)) : option A :=
  match o with
  | Returned (a, _) => Some a
  | _ => None
  end.

End Rand.
Import Rand.

Declare Scope rand_scope.
Delimit Scope rand_scope with rand.
Notation "x <- m ;; k" := (bind m (fun x => k))
  (at level 61, m at next level, right associativity) : rand_scope.
Notation "m ;;; k" := (bind m (fun _ => k))
  (at level 61, right associativity) : rand_scope.
Open Scope rand_scope.

(* ================================================================== *)
(** * Character policy shared by both generators ([types/index.ts]) *)
(* ================================================================== *)

Record PasswordGeneratorConfig := mkConfig {
  cfg_length : nat;              (* [length] *)
  includeUppercase : bool;
  includeLowercase : bool;
  includeNumbers : bool;
  includeSymbols : bool;
  avoidSimilar : bool;
  avoidAmbiguous : bool
}.

Module Chars.

Definition lowercase : str := codes "abcdefghijklmnopqrstuvwxyz".
Definition uppercase : str := codes "ABCDEFGHIJKLMNOPQRSTUVWXYZ".
Definition numbers : str := codes "0123456789".
Definition symbols : str := codes "!@#$%^&*()_+-=[]{}|;:,.<>?".
Definition similarChars : str := codes "0O1lI".
(** Braces, brackets, parentheses, slash, backslash, apostrophe, double
    quote (code unit 34), backquote, tilde, comma, semicolon, full stop
    and the angle brackets. *)
Definition ambiguousChars : str :=
  codes "{}[]()/\'" ++ [34%N] ++ codes "`~,;.<>".

(** [char >= "A" && char <= "Z"] and its siblings: comparisons of
    one-character strings compare code units. *)
Definition isUppercase (c : char) : bool := ((65 <=? c) && (c <=? 90))%N.
Definition isLowercase (c : char) : bool := ((97 <=? c) && (c <=? 122))%N.
Definition isNumber (c : char) : bool := ((48 <=? c) && (c <=? 57))%N.
Definition isSymbol (c : char) : bool :=
  negb (isUppercase c) && negb (isLowercase c) && negb (isNumber c).

End Chars.

(* ================================================================== *)
(** * Numbers of the estimator and of the comparison engine *)
(* ================================================================== *)

Module Num.

(** A JavaScript number: a finite value or one of the special values. *)
Inductive xreal : Type :=
| NaN
| PosInf
| NegInf
| Fin (r : R).

Definition of_nat (n : nat) : xreal := Fin (INR n).
Definition of_Z (z : Z) : xreal := Fin (IZR z).

Definition is_finite (x : xreal) : Prop :=
  match x with Fin _ => True | _ => False end.

(** The sign of a real, by trichotomy. *)
Definition sgn (r : R) : comparison :=
  match total_order_T r 0 with
  | inleft (left _) => Lt
  | inleft (right _) => Eq
  | inright _ => Gt
  end.

(** [x + y] *)
Definition add (x y : xreal) : xreal :=
  match x, y with
  | NaN, _ | _, NaN => NaN
  | PosInf, NegInf | NegInf, PosInf => NaN
  | PosInf, _ | _, PosInf => PosInf
  | NegInf, _ | _, NegInf => NegInf
  | Fin a, Fin b => Fin (a + b)
  end.

(** [-x] *)
Definition neg (x : xreal) : xreal :=
  match x with
  | NaN => NaN
  | PosInf => NegInf
  | NegInf => PosInf
  | Fin a => Fin (- a)
  end.

(** [x - y] *)
Definition sub (x y : xreal) : xreal :=
  match x, y with
  | NaN, _ | _, NaN => NaN
  | PosInf, PosInf | NegInf, NegInf => NaN
  | PosInf, _ | _, NegInf => PosInf
  | NegInf, _ | _, PosInf => NegInf
  | Fin a, Fin b => Fin (a - b)
  end.

(** An infinity scaled by the sign of the other factor. *)
Definition signed_inf (positive : bool) (s : comparison) : xreal :=
  match s with
  | Eq => NaN
  | Gt => if positive then PosInf else NegInf
  | Lt => if positive then NegInf else PosInf
  end.

(** [x * y] *)
Definition mul (x y : xreal) : xreal :=
  match x, y with
  | NaN, _ | _, NaN => NaN
  | Fin a, Fin b => Fin (a * b)
  | PosInf, Fin b => signed_inf true (sgn b)
  | NegInf, Fin b => signed_inf false (sgn b)
  | Fin a, PosInf => signed_inf true (sgn a)
  | Fin a, NegInf => signed_inf false (sgn a)
  | PosInf, PosInf | NegInf, NegInf => PosInf
  | PosInf, NegInf | NegInf, PosInf => NegInf
  end.

(** [x / y]; a zero divisor is the positive zero (every divisor of the
    source is a count, a length or a positive constant). *)
Definition div (x y : xreal) : xreal :=
  match x, y with
  | NaN, _ | _, NaN => NaN
  | Fin a, Fin b =>
      match sgn b with
      | Eq => signed_inf true (sgn a)
      | _ => Fin (a / b)
      end
  | Fin _, (PosInf | NegInf) => Fin 0
  | PosInf, Fin b => match sgn b with Lt => NegInf | _ => PosInf end
  | NegInf, Fin b => match sgn b with Lt => PosInf | _ => NegInf end
  | (PosInf | NegInf), (PosInf | NegInf) => NaN
  end.

(** [x < y]: false as soon as one side is [NaN]. *)
Definition ltb (x y : xreal) : bool :=
  match x, y with
  | NaN, _ | _, NaN => false
  | _, NegInf => false
  | PosInf, _ => false
  | NegInf, _ => true
  | Fin _, PosInf => true
  | Fin a, Fin b => if Rlt_dec a b then true else false
  end.

(** [x > y], [x >= y], [x <= y] *)
Definition gtb (x y : xreal) : bool := ltb y x.
Definition geb (x y : xreal) : bool :=
  match x, y with
  | NaN, _ | _, NaN => false
  | PosInf, _ => true
  | _, NegInf => true
  | NegInf, _ => false
  | Fin _, PosInf => false
  | Fin a, Fin b => if Rle_dec b a then true else false
  end.
Definition leb (x y : xreal) : bool := geb y x.

(** [Math.min(x, y)], [Math.max(x, y)]: [NaN] is contagious. *)
Definition min2 (x y : xreal) : xreal :=
  match x, y with
  | NaN, _ | _, NaN => NaN
  | _, _ => if ltb y x then y else x
  end.
Definition max2 (x y : xreal) : xreal :=
  match x, y with
  | NaN, _ | _, NaN => NaN
  | _, _ => if ltb x y then y else x
  end.

(** [Math.min(...xs)], [Math.max(...xs)]: the empty spread gives
    [+Infinity] and [-Infinity]. *)
Definition Math_min (xs : list xreal) : xreal := fold_left min2 xs PosInf.
Definition Math_max (xs : list xreal) : xreal := fold_left max2 xs NegInf.

(** [xs.reduce((sum, x) => sum + x, 0)] *)
Definition sum (xs : list xreal) : xreal := fold_left add xs (Fin 0).

(** [Math.sqrt(x)] *)
Definition Math_sqrt (x : xreal) : xreal :=
  match x with
  | NaN | NegInf => NaN
  | PosInf => PosInf
  | Fin a => if Rlt_dec a 0 then NaN else Fin (sqrt a)
  end.

(** [Math.log2(x)] *)
Definition Math_log2 (x : xreal) : xreal :=
  match x with
  | NaN | NegInf => NaN
  | PosInf => PosInf
  | Fin a =>
      match sgn a with
      | Lt => NaN
      | Eq => NegInf
      | Gt => Fin (ln a / ln 2)
      end
  end.

(** The finite numbers lie strictly between [- 2 ^ 1024] and
    [2 ^ 1024]. *)
Definition huge : R := 2 ^ 1024.

(** The result of a power: a value of magnitude [2 ^ 1024] or more is an
    infinity.  (Rounding to the nearest number below that bound is not
    modelled; for the bases and exponents of the estimator, an integer
    below 300 to a length below 1200, the real [Math.pow] overflows
    exactly when the exact power reaches [2 ^ 1024].) *)
Definition overflow (r : R) : xreal :=
  if Rlt_dec (Rabs r) huge then Fin r
  else if Rlt_dec r 0 then NegInf else PosInf.

(** [Math.pow(2, x)] *)
Definition pow2 (x : xreal) : xreal :=
  match x with
  | NaN => NaN
  | PosInf => PosInf
  | NegInf => Fin 0
  | Fin a => overflow (Rpower 2 a)
  end.

(** [Math.pow(x, n)] for a non-negative integer exponent. *)
Definition pow_nat (x : xreal) (n : nat) : xreal :=
  match n with
  | O => Fin 1
  | _ =>
      match x with
      | NaN => NaN
      | PosInf => PosInf
      | NegInf => if Nat.even n then PosInf else NegInf
      | Fin a => overflow (a ^ n)
      end
  end.

End Num.

(* ================================================================== *)
(** * Security estimator (the same text in both generator classes) *)
(* ================================================================== *)

Inductive StrengthLevel : Type :=
| VeryWeak | Weak | Average | Strong | VeryStrong.

Inductive GenerationMethod : Type := heuristic | markov.

(** [SecurityMetrics["timeToCrack"]] *)
Record TimeToCrack := mkTimeToCrack {
  seconds : Num.xreal;
  minutes : Num.xreal;
  hours : Num.xreal;
  days : Num.xreal;
  years : Num.xreal
}.

Record GeneratedPassword := mkGenerated {
  password : str;
  entropy : Num.xreal;
  timeToCrack : TimeToCrack;
  strengthLevel : StrengthLevel;
  generationMethod : GenerationMethod
}.

Module Estimator.
Import Num.

(** The value [coef * Math.log2(arg)] of two non-negative integers, kept
    in closed form so that a comparison with a threshold is decided
    exactly ([below]). *)
Record logform := mkLog { coef : nat; arg : nat }.

Definition eval (e : logform) : xreal :=
  mul (of_nat (coef e)) (Math_log2 (of_nat (arg e))).

(** [eval e < bits], decided on integers: for [arg >= 1] it is
    [arg ^ coef < 2 ^ bits]; [Math.log2(0)] is [-Infinity], so the
    product is [NaN] when [coef] is 0 and [-Infinity] otherwise. *)
Definition below (e : logform) (bits : nat) : bool :=
  match arg e with
  | O => negb (coef e =? 0)
  | _ => (Z.of_nat (arg e) ^ Z.of_nat (coef e) <? 2 ^ Z.of_nat bits)%Z
  end.

(** [getCharacterSetSizeFromPassword] *)
Definition getCharacterSetSizeFromPassword (password : str) : nat :=
  distinct password.

(** [password.match(/[a-z]/)] and the three other classes. *)
Definition in_range (lo hi : N) (c : char) : bool :=
  ((lo <=? c) && (c <=? hi))%N.
Definition match_lower (password : str) : bool :=
  existsb (in_range 97 122) password.
Definition match_upper (password : str) : bool :=
  existsb (in_range 65 90) password.
Definition match_digit (password : str) : bool :=
  existsb (in_range 48 57) password.
Definition match_other (password : str) : bool :=
  existsb (fun c => negb (in_range 97 122 c || in_range 65 90 c
                          || in_range 48 57 c)) password.

Definition theoreticalSize (password : str) : nat :=
  (if match_lower password then 26 else 0)
  + (if match_upper password then 26 else 0)
  + (if match_digit password then 10 else 0)
  + (if match_other password then 32 else 0).

(** [calculateEntropy], before the product is evaluated. *)
Definition entropyForm (password : str) : logform :=
  let charsetSize := getCharacterSetSizeFromPassword password in
  if charsetSize <? 26 then
    mkLog (List.length password)
          (Nat.max charsetSize (theoreticalSize password))
  else
    mkLog (List.length password) charsetSize.

(** [calculateEntropy(password)] *)
Definition calculateEntropy (password : str) : xreal :=
  eval (entropyForm password).

(** [calculateEntropy(password) < 60] *)
Definition entropyBelow60 (password : str) : bool :=
  below (entropyForm password) 60.

(** [determineStrengthLevel] *)
Definition determineStrengthLevel (entropy : xreal) : StrengthLevel :=
  if ltb entropy (Fin 30) then VeryWeak
  else if ltb entropy (Fin 40) then Weak
  else if ltb entropy (Fin 50) then Average
  else if ltb entropy (Fin 60) then Strong
  else VeryStrong.

(** The tail shared by both [calculateTimeToCrack]: the fastest attack
    speed [Math.pow(10, 12)] and the unit conversions. *)
Definition speeds_fast : xreal := pow_nat (Fin 10) 12.

Definition timesFromCombinations (combinations : xreal) : TimeToCrack :=
  let timeInSeconds := div combinations speeds_fast in
  {| seconds := timeInSeconds;
     minutes := div timeInSeconds (Fin 60);
     hours := div timeInSeconds (Fin 3600);
     days := div timeInSeconds (Fin 86400);
     years := div timeInSeconds (mul (Fin (36525 / 100)) (Fin 86400)) |}.

(** [Math.ceil(60 / Math.log2(size))] for [size >= 2]: the least [n]
    with [2 ^ bits <= size ^ n], searched upwards from [n]. *)
Fixpoint ceilSearch (fuel : nat) (bits size n : nat) : nat :=
  match fuel with
  | O => n
  | S fuel' =>
      if (2 ^ Z.of_nat bits <=? Z.of_nat size ^ Z.of_nat n)%Z then n
      else ceilSearch fuel' bits size (S n)
  end.

(** [Math.ceil(bits / Math.log2(size))] as the source uses it: for
    [size = 0] the quotient is [60 / -Infinity], a zero.  A size of 1
    (a quotient [60 / 0]) is no sum of category sizes and does not
    occur. *)
Definition ceilDivLog2 (bits size : nat) : nat :=
  match size with
  | O => 0
  | _ => ceilSearch bits bits size 0
  end.

End Estimator.

(* ================================================================== *)
(** * [MarkovPasswordGenerator] ([generators/markovGenerator.ts]) *)
(* ================================================================== *)

Module Markov.
Import Num Estimator.

(** The fields of the class.  The two maps hold counts while training
    runs and probabilities once [normalizeProbabilities] has run. *)
Record MarkovPasswordGenerator := mkMarkov {
  model : list (str * list (char * Q));
  startStates : list (str * Q);
  order : nat;
  trainingData : list str
}.

(** The generator as its constructor leaves it. *)
Definition fresh : MarkovPasswordGenerator := mkMarkov [] [] 1 [].

Definition similarChars : str := Chars.similarChars.
Definition ambiguousChars : str := Chars.ambiguousChars.

(** ** Training *)

(** [(m.get(k) || 0) + 1] *)
Definition bump {K : Type} (K_eq_dec : forall a b : K, {a = b} + {a <> b})
    (m : list (K * Q)) (k : K) : list (K * Q) :=
  map_set K_eq_dec m k
    ((match map_get K_eq_dec m k with Some v => v | None => 0 end) + 1)%Q.

(** One round of the inner loop of [trainModel], at position [i]. *)
Definition recordTransition (order : nat) (password : str)
    (m : list (str * list (char * Q))) (i : nat)
    : list (str * list (char * Q)) :=
  let currentState := substring password i order in
  match nth_error password (i + order) with
  | None => m                                  (* [if (!nextChar) continue] *)
  | Some nextChar =>
      let transitions :=
        match map_get str_eq_dec m currentState with
        | Some t => t
        | None => []                           (* [new Map()] *)
        end in
      map_set str_eq_dec m currentState (bump char_eq_dec transitions nextChar)
  end.

(** One round of the outer loop of [trainModel]. *)
Definition trainOne (this : MarkovPasswordGenerator) (password : str)
    : MarkovPasswordGenerator :=
  if List.length password <? order this + 1 then this
  else
    let startState := substring password 0 (order this) in
    {| model :=
         fold_left (recordTransition (order this) password)
                   (seq 0 (List.length password - order this)) (model this);
       startStates := bump str_eq_dec (startStates this) startState;
       order := order this;
       trainingData := trainingData this |}.

(** [values.reduce((sum, count) => sum + count, 0)] *)
Definition total (values : list Q) : Q := fold_left Qplus values 0%Q.

(** Every value of a map divided by the total of the map. *)
Definition normalize {K : Type} (m : list (K * Q)) : list (K * Q) :=
  let t := total (map_values m) in
  map (fun kv => (fst kv, (snd kv / t)%Q)) m.

(** [normalizeProbabilities] *)
Definition normalizeProbabilities (this : MarkovPasswordGenerator)
    : MarkovPasswordGenerator :=
  {| model := map (fun st => (fst st, normalize (snd st))) (model this);
     startStates := normalize (startStates this);
     order := order this;
     trainingData := trainingData this |}.

(** [trainModel(passwords, order)] on the generator [this]. *)
Definition trainModel (this : MarkovPasswordGenerator)
    (passwords : list str) (order : nat) : MarkovPasswordGenerator :=
  let this1 := {| model := model this; startStates := startStates this;
                  order := order; trainingData := passwords |} in
  let this2 := {| model := [];                        (* [model.clear()] *)
                  startStates := [];                  (* [startStates.clear()] *)
                  order := Markov.order this1;
                  trainingData := trainingData this1 |} in
  normalizeProbabilities (fold_left trainOne passwords this2).

(** ** Character classes and pools *)

Definition isUppercase := Chars.isUppercase.
Definition isLowercase := Chars.isLowercase.
Definition isNumber := Chars.isNumber.
Definition isSymbol := Chars.isSymbol.

Inductive CharType : Type := uppercase | lowercase | numbers | symbols.

Definition CharType_eqb (a b : CharType) : bool :=
  match a, b with
  | uppercase, uppercase | lowercase, lowercase
  | numbers, numbers | symbols, symbols => true
  | _, _ => false
  end.

(** [getCharacterType] *)
Definition getCharacterType (c : char) : option CharType :=
  if isUppercase c then Some uppercase
  else if isLowercase c then Some lowercase
  else if isNumber c then Some numbers
  else if isSymbol c then Some symbols
  else None.

(** [Array.from({ length: n }, (_, i) => String.fromCharCode(base + i))] *)
Definition charRange (base : N) (n : nat) : str :=
  map (fun i => (base + N.of_nat i)%N) (seq 0 n).

Definition getLowercaseChars : str := charRange 97 26.
Definition getUppercaseChars : str := charRange 65 26.
Definition getNumberChars : str := charRange 48 10.   (* [i.toString()] *)
Definition getSymbolChars : str := codes "!@#$%^&*()_+-=[]{}|;:,.<>?".

(** [filterCharsForConfig] *)
Definition filterCharsForConfig (chars : str)
    (config : PasswordGeneratorConfig) : str :=
  let filtered := chars in
  let filtered :=
    if avoidSimilar config
    then filter (fun c => negb (includes similarChars c)) filtered
    else filtered in
  let filtered :=
    if avoidAmbiguous config
    then filter (fun c => negb (includes ambiguousChars c)) filtered
    else filtered in
  filtered.

(** [buildAllowedCharacterPool] *)
Definition buildAllowedCharacterPool (config : PasswordGeneratorConfig)
    : str :=
  let pool := [] in
  let pool := if includeLowercase config then pool ++ getLowercaseChars else pool in
  let pool := if includeUppercase config then pool ++ getUppercaseChars else pool in
  let pool := if includeNumbers config then pool ++ getNumberChars else pool in
  let pool := if includeSymbols config then pool ++ getSymbolChars else pool in
  let pool := match pool with [] => pool ++ getLowercaseChars | _ => pool end in
  let filtered := filterCharsForConfig pool config in
  match filtered with [] => pool | _ => filtered end.

(** [getRandomFromPool]: [pool[index] ?? pool[0] ?? "a"] *)
Definition getRandomFromPool (pool : str) : M char :=
  match pool with
  | [] => ret 97%N
  | first :: _ =>
      index <- random_index (List.length pool);;
      ret (nth index pool first)
  end.

(** [getRandomFromChars] *)
Definition getRandomFromChars (chars : str)
    (config : PasswordGeneratorConfig) : M char :=
  let filtered := filterCharsForConfig chars config in
  let pool := match filtered with [] => chars | _ => filtered end in
  getRandomFromPool pool.

(** [getRandomCharacter] *)
Definition getRandomCharacter (config : PasswordGeneratorConfig) : M char :=
  getRandomFromPool (buildAllowedCharacterPool config).

(** [getCharacterSetSize] *)
Definition getCharacterSetSize (config : PasswordGeneratorConfig) : nat :=
  (if includeLowercase config then List.length getLowercaseChars else 0)
  + (if includeUppercase config then List.length getUppercaseChars else 0)
  + (if includeNumbers config then List.length getNumberChars else 0)
  + (if includeSymbols config then List.length getSymbolChars else 0).

(** ** Sampling *)

(** The inverse-CDF walk shared by [selectRandomStartState] and
    [selectNextCharacter]: the first key whose cumulative mass reaches
    the draw. *)
Fixpoint walk {K : Type} (random cumulative : Q) (entries : list (K * Q))
    : option K :=
  match entries with
  | [] => None
  | (k, probability) :: rest =>
      let cumulative := (cumulative + probability)%Q in
      if Qle_bool random cumulative then Some k
      else walk random cumulative rest
  end.

(** [selectRandomStartState]; the fallback is [firstState || "a"], and
    the empty string is falsy. *)
Definition selectRandomStartState (this : MarkovPasswordGenerator) : M str :=
  random <- Math_random;;
  match walk random 0 (startStates this) with
  | Some state => ret state
  | None =>
      match map_keys (startStates this) with
      | (_ :: _) as firstState :: _ => ret firstState
      | _ => ret (codes "a")
      end
  end.

(** [selectNextCharacter]: no draw is made in a dead-end state. *)
Definition selectNextCharacter (this : MarkovPasswordGenerator)
    (currentState : str) : M (option char) :=
  match map_get str_eq_dec (model this) currentState with
  | None | Some [] => ret None
  | Some transitions =>
      random <- Math_random;;
      ret (walk random 0 transitions)
  end.

(** The loop [while (password.length < maxLength)] of
    [generateBasePassword]; [n] is [maxLength - password.length], which
    every round decreases by one. *)
Fixpoint chain (this : MarkovPasswordGenerator) (n : nat)
    (password currentState : str) : M str :=
  match n with
  | O => ret password
  | S n' =>
      nextChar <- selectNextCharacter this currentState;;
      match nextChar with
      | None => ret password                               (* [break] *)
      | Some c =>
          let password := password ++ [c] in
          chain this n' password (lastn (order this) password)
      end
  end.

(** [while (result.length < bound) result += getRandomCharacter(config)];
    [n] is [bound - result.length]. *)
Fixpoint pad (config : PasswordGeneratorConfig) (n : nat) (result : str)
    : M str :=
  match n with
  | O => ret result
  | S n' =>
      randomChar <- getRandomCharacter config;;
      pad config n' (result ++ [randomChar])
  end.

(** [generateBasePassword] *)
Definition generateBasePassword (this : MarkovPasswordGenerator)
    (config : PasswordGeneratorConfig) : M str :=
  match model this with
  | [] => throw "Markov model not trained. Call trainModel() first."
  | _ =>
      startState <- selectRandomStartState this;;
      let maxLength := cfg_length config in
      password <- chain this (maxLength - List.length startState)
                        startState startState;;
      pad config (cfg_length config - List.length password) password
  end.

(** ** Security improvements *)

(** [sanitizeToAllowedCharacters] *)
Definition sanitizeToAllowedCharacters (password : str)
    (config : PasswordGeneratorConfig) : M str :=
  let allowedPool := buildAllowedCharacterPool config in
  match allowedPool with
  | [] => throw "No allowed characters available for password generation"
  | _ =>
      sanitized <-
        mapM (fun c => if includes allowedPool c then ret c
                       else getRandomFromPool allowedPool) password;;
      ret (slice0 sanitized (cfg_length config))
  end.

(** The closure [ensureCategory] of [ensureCharacterCategories]. *)
Definition ensureCategory (config : PasswordGeneratorConfig)
    (isRequired : bool) (predicate : char -> bool) (pool : str)
    (chars : str) : M str :=
  if negb isRequired then ret chars
  else if existsb predicate chars then ret chars
  else if List.length chars =? 0 then ret chars
  else
    index <- random_index (List.length chars);;
    c <- getRandomFromChars pool config;;
    ret (array_set chars index c).

(** [ensureCharacterCategories] *)
Definition ensureCharacterCategories (password : str)
    (config : PasswordGeneratorConfig) : M str :=
  let chars := password in
  chars <- ensureCategory config (includeUppercase config) isUppercase
             getUppercaseChars chars;;
  chars <- ensureCategory config (includeLowercase config) isLowercase
             getLowercaseChars chars;;
  chars <- ensureCategory config (includeNumbers config) isNumber
             getNumberChars chars;;
  chars <- ensureCategory config (includeSymbols config) isSymbol
             getSymbolChars chars;;
  ret chars.

(** The objects [counts] and [minimums] of [ensureRequiredCharacters]. *)
Record Counts := mkCounts {
  n_uppercase : Z; n_lowercase : Z; n_numbers : Z; n_symbols : Z
}.

Definition cget (c : Counts) (t : CharType) : Z :=
  match t with
  | uppercase => n_uppercase c
  | lowercase => n_lowercase c
  | numbers => n_numbers c
  | symbols => n_symbols c
  end.

Definition cadd (c : Counts) (t : CharType) (d : Z) : Counts :=
  match t with
  | uppercase => mkCounts (n_uppercase c + d) (n_lowercase c) (n_numbers c) (n_symbols c)
  | lowercase => mkCounts (n_uppercase c) (n_lowercase c + d) (n_numbers c) (n_symbols c)
  | numbers => mkCounts (n_uppercase c) (n_lowercase c) (n_numbers c + d) (n_symbols c)
  | symbols => mkCounts (n_uppercase c) (n_lowercase c) (n_numbers c) (n_symbols c + d)
  end.

Definition countChars (chars : str) : Counts :=
  let count p := Z.of_nat (List.length (filter p chars)) in
  mkCounts (count isUppercase) (count isLowercase)
           (count isNumber) (count isSymbol).

Definition minimumsOf (config : PasswordGeneratorConfig) : Counts :=
  mkCounts (if includeUppercase config then 1 else 0)
           (if includeLowercase config then 1 else 0)
           (if includeNumbers config then 2 else 0)
           (if includeSymbols config then 2 else 0).

(** The closure [canReplace] of [findReplacementIndex]. *)
Definition canReplace (chars : str) (counts minimums : Counts)
    (targetType : CharType) (index : nat) : bool :=
  match nth_error chars index with
  | None => false
  | Some currentChar =>
      match getCharacterType currentChar with
      | None => true
      | Some currentType =>
          if CharType_eqb currentType targetType then false
          else (cget minimums currentType <=? cget counts currentType - 1)%Z
      end
  end.

(** The first loop of [findReplacementIndex]: up to [attempts] random
    indices. *)
Fixpoint randomSearch (chars : str) (counts minimums : Counts)
    (targetType : CharType) (attempts : nat) : M (option nat) :=
  match attempts with
  | O => ret None
  | S attempts' =>
      index <- random_index (List.length chars);;
      if canReplace chars counts minimums targetType index
      then ret (Some index)
      else randomSearch chars counts minimums targetType attempts'
  end.

(** [findReplacementIndex]: bounded random search, then the scan from
    index 0, then an unconditional random index. *)
Definition findReplacementIndex (chars : str) (counts minimums : Counts)
    (targetType : CharType) : M nat :=
  let length := List.length chars in
  found <- randomSearch chars counts minimums targetType (length * 2);;
  match found with
  | Some index => ret index
  | None =>
      match find (canReplace chars counts minimums targetType)
                 (seq 0 length) with
      | Some index => ret index
      | None => random_index length
      end
  end.

(** The closure [replaceChar]. *)
Definition replaceChar (chars : str) (counts : Counts) (index : nat)
    (newChar : char) (newType : CharType) : str * Counts :=
  let counts :=
    match nth_error chars index with
    | Some currentChar =>
        match getCharacterType currentChar with
        | Some currentType => cadd counts currentType (-1)
        | None => counts
        end
    | None => counts
    end in
  (array_set chars index newChar, cadd counts newType 1).

(** The closure [ensureType]: [while (counts[type] < required)].  This is
    the one loop of the generator that no counter bounds; [fuel] is the
    number of rounds it is allowed. *)
Fixpoint ensureType (fuel : nat) (config : PasswordGeneratorConfig)
    (minimums : Counts) (type : CharType) (pool : str)
    (chars : str) (counts : Counts) : M (str * Counts) :=
  let required := cget minimums type in
  if (cget counts type <? required)%Z then
    match fuel with
    | O => out_of_fuel
    | S fuel' =>
        index <- findReplacementIndex chars counts minimums type;;
        newChar <- getRandomFromChars pool config;;
        let (chars, counts) := replaceChar chars counts index newChar type in
        ensureType fuel' config minimums type pool chars counts
    end
  else ret (chars, counts).

(** [ensureRequiredCharacters] *)
Definition ensureRequiredCharacters (fuel : nat) (password : str)
    (config : PasswordGeneratorConfig) : M str :=
  let chars := password in
  let counts := countChars chars in
  let minimums := minimumsOf config in
  st <- (if includeSymbols config
         then ensureType fuel config minimums symbols getSymbolChars
                         chars counts
         else ret (chars, counts));;
  st <- (if includeNumbers config
         then ensureType fuel config minimums numbers getNumberChars
                         (fst st) (snd st)
         else ret st);;
  ret (fst st).

(** [addEntropy] *)
Definition addEntropy (password : str) (config : PasswordGeneratorConfig)
    : M str :=
  let result := password in
  result <-
    (if entropyBelow60 result then
       let neededLength := ceilDivLog2 60 (getCharacterSetSize config) in
       if (List.length result <? neededLength)
          && (List.length result <? cfg_length config)
       then
         let maxLength := Nat.min neededLength (cfg_length config) in
         pad config (maxLength - List.length result) result
       else ret result
     else ret result);;
  ret (slice0 result (cfg_length config)).

(** [applySecurityImprovements] *)
Definition applySecurityImprovements (fuel : nat) (password : str)
    (config : PasswordGeneratorConfig) : M str :=
  let improved := password in
  improved <- sanitizeToAllowedCharacters improved config;;
  improved <- ensureCharacterCategories improved config;;
  improved <- ensureRequiredCharacters fuel improved config;;
  if entropyBelow60 improved then addEntropy improved config
  else ret improved.

(** ** Metrics and the public entry point *)

Definition calculateEntropy (password : str) : xreal :=
  Estimator.calculateEntropy password.

(** [calculateTimeToCrack(password, config)] *)
Definition calculateTimeToCrack (password : str)
    (config : PasswordGeneratorConfig) : TimeToCrack :=
  let charsetSize :=
    Nat.max (Nat.max (getCharacterSetSize config)
                     (getCharacterSetSizeFromPassword password)) 1 in
  let combinations := pow_nat (of_nat charsetSize) (List.length password) in
  timesFromCombinations combinations.

(** The password of [generatePassword(config)]: the base password and
    its improvements. *)
Definition generatePasswordString (fuel : nat)
    (this : MarkovPasswordGenerator) (config : PasswordGeneratorConfig)
    : M str :=
  password <- generateBasePassword this config;;
  applySecurityImprovements fuel password config.

(** [generatePassword(config)] *)
Definition generatePassword (fuel : nat) (this : MarkovPasswordGenerator)
    (config : PasswordGeneratorConfig) : M GeneratedPassword :=
  password <- generatePasswordString fuel this config;;
  let entropy := calculateEntropy password in
  let timeToCrack := calculateTimeToCrack password config in
  let strengthLevel := determineStrengthLevel entropy in
  ret {| password := password;
         entropy := entropy;
         timeToCrack := timeToCrack;
         strengthLevel := strengthLevel;
         generationMethod := markov |}.

(** The loop of [generateMultiplePasswords]: [n] rounds of
    [passwords.push(this.generatePassword(config))]. *)
Fixpoint pushPasswords (fuel : nat) (this : MarkovPasswordGenerator)
    (config : PasswordGeneratorConfig) (n : nat)
    (passwords : list GeneratedPassword) : M (list GeneratedPassword) :=
  match n with
  | O => ret passwords
  | S n' =>
      p <- generatePassword fuel this config;;
      pushPasswords fuel this config n' (passwords ++ [p])
  end.

(** [generateMultiplePasswords(config, count)]; [fuel] is given to every
    call of [generatePassword]. *)
Definition generateMultiplePasswords (fuel : nat)
    (this : MarkovPasswordGenerator) (config : PasswordGeneratorConfig)
    (count : nat) : M (list GeneratedPassword) :=
  pushPasswords fuel this config count [].

(** The object returned by [getModelStatistics]. *)
Record ModelStatistics := mkModelStatistics {
  totalStates : nat;
  totalTransitions : nat;
  startStatesSize : nat;                    (* the field [startStates] *)
  averageTransitionsPerState : xreal;
  modelOrder : nat;
  trainingDataSize : nat
}.

(** [getModelStatistics] *)
Definition getModelStatistics (this : MarkovPasswordGenerator)
    : ModelStatistics :=
  let totalStates := List.length (model this) in
  let totalTransitions :=
    fold_left (fun sum transitions => sum + List.length transitions)
              (map_values (model this)) 0 in
  {| totalStates := totalStates;
     totalTransitions := totalTransitions;
     startStatesSize := List.length (startStates this);
     averageTransitionsPerState :=
       div (of_nat totalTransitions) (of_nat totalStates);
     modelOrder := order this;
     trainingDataSize := List.length (trainingData this) |}.

End Markov.

(* ================================================================== *)
(** * [RandomPasswordGenerator] ([generators/randomGenerator.ts]) *)
(* ================================================================== *)

Module Heuristic.
Import Num Estimator.

Definition lowercase : str := Chars.lowercase.
Definition uppercase : str := Chars.uppercase.
Definition numbers : str := Chars.numbers.
Definition symbols : str := Chars.symbols.
Definition similarChars : str := Chars.similarChars.
Definition ambiguousChars : str := Chars.ambiguousChars.

(** [s[i]] inside a concatenation: an index outside [s] reads
    [undefined], which concatenates as the text of that word. *)
Definition at_index (s : str) (i : nat) : str :=
  match nth_error s i with
  | Some c => [c]
  | None => codes "undefined"
  end.

(** The character set that [generateBasePassword] and [addEntropy] both
    build from the four flags. *)
Definition configuredCharset (config : PasswordGeneratorConfig) : str :=
  let charset := [] in
  let charset := if includeLowercase config then charset ++ lowercase else charset in
  let charset := if includeUppercase config then charset ++ uppercase else charset in
  let charset := if includeNumbers config then charset ++ numbers else charset in
  let charset := if includeSymbols config then charset ++ symbols else charset in
  charset.

(** The character set of [generateBasePassword], exclusions applied. *)
Definition baseCharset (config : PasswordGeneratorConfig) : str :=
  let charset := configuredCharset config in
  let charset :=
    if avoidSimilar config
    then filter (fun c => negb (includes similarChars c)) charset
    else charset in
  let charset :=
    if avoidAmbiguous config
    then filter (fun c => negb (includes ambiguousChars c)) charset
    else charset in
  charset.

(** [for (i = 0; i < n; i++) result += charset[random index]] *)
Fixpoint appendRandom (charset : str) (n : nat) (result : str) : M str :=
  match n with
  | O => ret result
  | S n' =>
      index <- random_index (List.length charset);;
      appendRandom charset n' (result ++ at_index charset index)
  end.

(** [generateBasePassword] *)
Definition generateBasePassword (config : PasswordGeneratorConfig) : M str :=
  let charset := baseCharset config in
  match charset with
  | [] => throw "No character set available for password generation"
  | _ => appendRandom charset (cfg_length config) []
  end.

(** One of the four blocks of [ensureCharacterCategories]: [chars] is
    the split of the password as it came in, [result] the running
    string. *)
Definition ensureCategory (required : bool) (category : str)
    (chars result : str) : M str :=
  if required && negb (existsb (includes category) chars) then
    randomPos <- random_index (List.length result);;
    index <- random_index (List.length category);;
    ret (firstn randomPos result ++ at_index category index
         ++ skipn (randomPos + 1) result)
  else ret result.

(** [ensureCharacterCategories] *)
Definition ensureCharacterCategories (password : str)
    (config : PasswordGeneratorConfig) : M str :=
  let result := password in
  let chars := result in
  result <- ensureCategory (includeUppercase config) uppercase chars result;;
  result <- ensureCategory (includeLowercase config) lowercase chars result;;
  result <- ensureCategory (includeNumbers config) numbers chars result;;
  result <- ensureCategory (includeSymbols config) symbols chars result;;
  ret result.

(** [getAlternativeChars] *)
Definition getAlternativeChars (c : char) : str :=
  if includes lowercase c then lowercase
  else if includes uppercase c then uppercase
  else if includes numbers c then numbers
  else if includes symbols c then symbols
  else lowercase ++ uppercase ++ numbers ++ symbols.

(** The dot of a regular expression matches every code unit but the
    four line terminators. *)
Definition isLineTerminator (c : char) : bool :=
  ((c =? 10) || (c =? 13) || (c =? 8232) || (c =? 8233))%N.

(** The number of leading code units of [s] equal to [c]. *)
Fixpoint runLength (c : char) (s : str) : nat :=
  match s with
  | x :: t => if (x =? c)%N then S (runLength c t) else 0
  | [] => 0
  end.

(** The callback of [breakCommonPatterns] on a match of [n + 1] equal
    characters: the first is kept, each other one is drawn anew. *)
Fixpoint replacementFor (c : char) (n : nat) (replacement : str) : M str :=
  match n with
  | O => ret replacement
  | S n' =>
      let alternatives := getAlternativeChars c in
      index <- random_index (List.length alternatives);;
      replacementFor c n' (replacement ++ at_index alternatives index)
  end.

(** [result.replace(/(.)\1{2,}/g, callback)], scanning from the left:
    a match is a maximal run of three or more equal characters; [fuel]
    bounds the scan and [List.length s] always suffices. *)
Fixpoint replaceRuns (fuel : nat) (s : str) : M str :=
  match fuel with
  | O => ret s
  | S fuel' =>
      match s with
      | [] => ret []
      | c :: t =>
          let k := runLength c t in
          if (2 <=? k) && negb (isLineTerminator c) then
            replacement <- replacementFor c k [c];;
            rest <- replaceRuns fuel' (skipn k t);;
            ret (replacement ++ rest)
          else
            rest <- replaceRuns fuel' t;;
            ret (c :: rest)
      end
  end.

(** [breakCommonPatterns] *)
Definition breakCommonPatterns (password : str) : M str :=
  replaceRuns (List.length password) password.

(** [c.toLowerCase().charCodeAt(0)], exact on ASCII; the generator only
    ever holds characters of its four ASCII pools. *)
Definition lowerCode (c : char) : N :=
  if ((65 <=? c) && (c <=? 90))%N then (c + 32)%N else c.

(** [isAlphaSequential] *)
Definition isAlphaSequential (char1 char2 char3 : char) : bool :=
  let code1 := lowerCode char1 in
  let code2 := lowerCode char2 in
  let code3 := lowerCode char3 in
  ((code2 =? code1 + 1) && (code3 =? code2 + 1))%N.

(** [parseInt(c)] of a one-character string; [None] is [NaN]. *)
Definition parseInt (c : char) : option N :=
  if ((48 <=? c) && (c <=? 57))%N then Some (c - 48)%N else None.

(** [isNumericSequential] *)
Definition isNumericSequential (char1 char2 char3 : char) : bool :=
  match parseInt char1, parseInt char2, parseInt char3 with
  | Some num1, Some num2, Some num3 =>
      ((num2 =? num1 + 1) && (num3 =? num2 + 1))%N
  | _, _, _ => false
  end.

(** [isSequential] *)
Definition isSequential (char1 char2 char3 : char) : bool :=
  let isAlphaSeq := isAlphaSequential char1 char2 char3 in
  let isNumericSeq := isNumericSequential char1 char2 char3 in
  isAlphaSeq || isNumericSeq.

(** The loop of [avoidSequentialChars] from index [i], [n] rounds left. *)
Fixpoint sequentialLoop (n i : nat) (chars : str) : M str :=
  match n with
  | O => ret chars
  | S n' =>
      match nth_error chars i, nth_error chars (i + 1),
            nth_error chars (i + 2) with
      | Some char1, Some char2, Some char3 =>
          if isSequential char1 char2 char3 then
            let alternatives := getAlternativeChars char2 in
            index <- random_index (List.length alternatives);;
            match nth_error alternatives index with
            | Some randomChar =>
                sequentialLoop n' (S i) (array_set chars (i + 1) randomChar)
            | None => sequentialLoop n' (S i) chars
            end
          else sequentialLoop n' (S i) chars
      | _, _, _ => sequentialLoop n' (S i) chars
      end
  end.

(** [avoidSequentialChars] *)
Definition avoidSequentialChars (password : str) : M str :=
  sequentialLoop (List.length password - 2) 0 password.

(** [getCharacterSetSize] *)
Definition getCharacterSetSize (config : PasswordGeneratorConfig) : nat :=
  (if includeLowercase config then List.length lowercase else 0)
  + (if includeUppercase config then List.length uppercase else 0)
  + (if includeNumbers config then List.length numbers else 0)
  + (if includeSymbols config then List.length symbols else 0).

(** [addEntropy] *)
Definition addEntropy (password : str) (config : PasswordGeneratorConfig)
    : M str :=
  let result := password in
  if entropyBelow60 result then
    let neededLength := ceilDivLog2 60 (getCharacterSetSize config) in
    let additionalLength := neededLength - List.length result in
    let charset := configuredCharset config in
    appendRandom charset additionalLength result
  else ret result.

(** [applyHeuristics] *)
Definition applyHeuristics (password : str)
    (config : PasswordGeneratorConfig) : M str :=
  let improved := password in
  improved <- ensureCharacterCategories improved config;;
  improved <- breakCommonPatterns improved;;
  improved <- avoidSequentialChars improved;;
  if entropyBelow60 improved then addEntropy improved config
  else ret improved.

Definition calculateEntropy (password : str) : xreal :=
  Estimator.calculateEntropy password.

(** [calculateTimeToCrack(entropy)] *)
Definition calculateTimeToCrack (entropy : xreal) : TimeToCrack :=
  let combinations := pow2 entropy in
  timesFromCombinations combinations.

(** The password of [generatePassword(config)]. *)
Definition generatePasswordString (config : PasswordGeneratorConfig)
    : M str :=
  password <- generateBasePassword config;;
  applyHeuristics password config.

(** [generatePassword(config)] *)
Definition generatePassword (config : PasswordGeneratorConfig)
    : M GeneratedPassword :=
  password <- generatePasswordString config;;
  let entropy := calculateEntropy password in
  let timeToCrack := calculateTimeToCrack entropy in
  let strengthLevel := determineStrengthLevel entropy in
  ret {| password := password;
         entropy := entropy;
         timeToCrack := timeToCrack;
         strengthLevel := strengthLevel;
         generationMethod := heuristic |}.

(** The loop of [generateMultiplePasswords]: [n] rounds of
    [passwords.push(this.generatePassword(config))]. *)
Fixpoint pushPasswords (config : PasswordGeneratorConfig) (n : nat)
    (passwords : list GeneratedPassword) : M (list GeneratedPassword) :=
  match n with
  | O => ret passwords
  | S n' =>
      p <- generatePassword config;;
      pushPasswords config n' (passwords ++ [p])
  end.

(** [generateMultiplePasswords(config, count)] *)
Definition generateMultiplePasswords (config : PasswordGeneratorConfig)
    (count : nat) : M (list GeneratedPassword) :=
  pushPasswords config count [].

End Heuristic.

(* ================================================================== *)
(** * [getPasswordStatistics] (the same text in both generator classes) *)
(* ================================================================== *)

Module Batch.
Import Num.

(** The object returned by [getPasswordStatistics]. *)
Record Statistics := mkStatistics {
  count : nat;
  averageEntropy : xreal;
  minEntropy : xreal;
  maxEntropy : xreal;
  averageCrackingTimeYears : xreal;
  passwordsAbove60Bits : nat;
  passwordsAbove10Years : nat
}.

(** [getPasswordStatistics] *)
Definition getPasswordStatistics (passwords : list GeneratedPassword)
    : Statistics :=
  let entropies := map entropy passwords in
  let avgEntropy := div (sum entropies) (of_nat (List.length entropies)) in
  let minEntropy := Math_min entropies in
  let maxEntropy := Math_max entropies in
  let avgCrackingTime :=
    div (fold_left (fun sum p => add sum (years (timeToCrack p)))
                   passwords (Fin 0))
        (of_nat (List.length passwords)) in
  {| count := List.length passwords;
     averageEntropy := avgEntropy;
     minEntropy := minEntropy;
     maxEntropy := maxEntropy;
     averageCrackingTimeYears := avgCrackingTime;
     passwordsAbove60Bits :=
       List.length (filter (fun p => geb (entropy p) (Fin 60)) passwords);
     passwordsAbove10Years :=
       List.length (filter (fun p => geb (years (timeToCrack p)) (Fin 10))
                           passwords) |}.

End Batch.

(* ================================================================== *)
(** * [PasswordComparisonAnalyzer] ([analysis/passwordComparison.ts]) *)
(* ================================================================== *)

Module Comparison.
Import Num.

Record EntropyStatistics := mkEntropyStatistics {
  e_average : xreal;
  e_median : xreal;
  e_min : xreal;
  e_max : xreal;
  standardDeviation : xreal;
  above60Bits : nat;
  above60BitsPercentage : xreal
}.

Record TimeStatistics := mkTimeStatistics {
  t_average : xreal;
  t_median : xreal;
  t_min : xreal;
  t_max : xreal;
  above10Years : nat;
  above10YearsPercentage : xreal
}.

Record StrengthDistribution := mkStrengthDistribution {
  pctVeryWeak : xreal;
  pctWeak : xreal;
  pctAverage : xreal;
  pctStrong : xreal;
  pctVeryStrong : xreal
}.

Record ReadabilityScore := mkReadabilityScore {
  averageScore : xreal;
  percentage : xreal;
  description : string
}.

Record SecurityCompliance := mkSecurityCompliance {
  entropyAbove60Bits : nat;
  entropyAbove60BitsPercentage : xreal;
  timeAbove10Years : nat;
  timeAbove10YearsPercentage : xreal;
  bothRequirementsMet : nat;
  bothRequirementsMetPercentage : xreal
}.

Record PasswordStatistics := mkPasswordStatistics {
  count : nat;
  s_entropy : EntropyStatistics;
  crackingTime : TimeStatistics;
  strengthDistribution : StrengthDistribution;
  readabilityScore : ReadabilityScore;
  securityCompliance : SecurityCompliance
}.

(** The tag ["random" | "markov"]. *)
Inductive Approach : Type := random | markov.

Record ComparisonMetric := mkComparisonMetric {
  m_random : xreal;
  m_markov : xreal;
  difference : xreal;
  better : Approach
}.

Record ApproachComparison := mkApproachComparison {
  entropyComparison : ComparisonMetric;
  timeComparison : ComparisonMetric;
  readabilityComparison : ComparisonMetric;
  securityComplianceComparison : ComparisonMetric
}.

Record Recommendations := mkRecommendations {
  recommendations : list string;
  overallWinner : Approach;
  randomScore : xreal;
  markovScore : xreal
}.

Record ComparisonAnalysis := mkComparisonAnalysis {
  a_random : PasswordStatistics;
  a_markov : PasswordStatistics;
  comparison : ApproachComparison;
  a_recommendations : Recommendations
}.

(** ** Order statistics *)

(** [[...xs].sort((a, b) => a - b)] as a stable insertion sort: [y]
    stays in front of [x] when [y - x < 0].  (With a [NaN] in the array
    the comparator is inconsistent and the order is left to the
    engine.) *)
Fixpoint insert (x : xreal) (sorted : list xreal) : list xreal :=
  match sorted with
  | [] => [x]
  | y :: rest =>
      if ltb (sub y x) (Fin 0) then y :: insert x rest
      else x :: y :: rest
  end.

Definition sort (xs : list xreal) : list xreal :=
  fold_right insert [] xs.

(** [sorted[i]] read inside an arithmetic expression: outside the array
    it is [undefined], a [NaN] once added. *)
Definition item (sorted : list xreal) (i : Z) : xreal :=
  if (i <? 0)%Z then NaN
  else match nth_error sorted (Z.to_nat i) with
       | Some x => x
       | None => NaN
       end.

(** The [median] field of both statistics. *)
Definition medianOf (values : list xreal) : xreal :=
  let sorted := sort values in
  let n := List.length values in
  if n mod 2 =? 0
  then div (add (item sorted (Z.of_nat n / 2 - 1))
                (item sorted (Z.of_nat n / 2))) (Fin 2)
  else item sorted (Z.of_nat (n / 2)).

Definition countIf {A : Type} (p : A -> bool) (l : list A) : nat :=
  List.length (filter p l).

(** [(k / n) * 100] *)
Definition percentOf (k n : nat) : xreal :=
  mul (div (of_nat k) (of_nat n)) (Fin 100).

(** [calculateStandardDeviation] *)
Definition calculateStandardDeviation (values : list xreal) : xreal :=
  let n := of_nat (List.length values) in
  let mean := div (sum values) n in
  let variance :=
    div (fold_left (fun acc val => add acc (pow_nat (sub val mean) 2))
                   values (Fin 0)) n in
  Math_sqrt variance.

(** [calculateEntropyStatistics] *)
Definition calculateEntropyStatistics (entropies : list xreal)
    : EntropyStatistics :=
  let n := List.length entropies in
  {| e_average := div (sum entropies) (of_nat n);
     e_median := medianOf entropies;
     e_min := Math_min entropies;
     e_max := Math_max entropies;
     standardDeviation := calculateStandardDeviation entropies;
     above60Bits := countIf (fun e => geb e (Fin 60)) entropies;
     above60BitsPercentage :=
       percentOf (countIf (fun e => geb e (Fin 60)) entropies) n |}.

(** [calculateTimeStatistics] *)
Definition calculateTimeStatistics (times : list xreal) : TimeStatistics :=
  let n := List.length times in
  {| t_average := div (sum times) (of_nat n);
     t_median := medianOf times;
     t_min := Math_min times;
     t_max := Math_max times;
     above10Years := countIf (fun t => geb t (Fin 10)) times;
     above10YearsPercentage :=
       percentOf (countIf (fun t => geb t (Fin 10)) times) n |}.

Definition StrengthLevel_eqb (a b : StrengthLevel) : bool :=
  match a, b with
  | VeryWeak, VeryWeak | Weak, Weak | Average, Average
  | Strong, Strong | VeryStrong, VeryStrong => true
  | _, _ => false
  end.

(** [calculateStrengthDistribution] *)
Definition calculateStrengthDistribution (passwords : list GeneratedPassword)
    : StrengthDistribution :=
  let tally level :=
    countIf (fun p => StrengthLevel_eqb (strengthLevel p) level) passwords in
  let total := List.length passwords in
  {| pctVeryWeak := percentOf (tally VeryWeak) total;
     pctWeak := percentOf (tally Weak) total;
     pctAverage := percentOf (tally Average) total;
     pctStrong := percentOf (tally Strong) total;
     pctVeryStrong := percentOf (tally VeryStrong) total |}.

(** ** Readability *)

(** [s.toLowerCase()], code unit by code unit, as far as the tests below
    can tell.  The letters [A] to [Z] and the Kelvin sign (code unit
    8490, which lowers to [k]) are the only code units that lower to an
    ASCII letter.  Code unit 304 lowers to an [i] followed by a combining
    dot, which completes none of the common words and is no vowel on its
    own; every other code unit lowers to text without an ASCII letter,
    which no test below tells from the code unit itself. *)
Definition toLowerCase (s : str) : str :=
  map (fun c => if ((65 <=? c) && (c <=? 90))%N then (c + 32)%N
                else if (c =? 8490)%N then 107%N
                else c) s.

Fixpoint startsWith (s word : str) : bool :=
  match word, s with
  | [], _ => true
  | _ :: _, [] => false
  | w :: word', c :: s' => (c =? w)%N && startsWith s' word'
  end.

(** [s.includes(word)] *)
Fixpoint includesWord (s word : str) : bool :=
  startsWith s word ||
  match s with
  | [] => false
  | _ :: s' => includesWord s' word
  end.

Definition commonWords : list str :=
  map codes ["password"; "admin"; "user"; "test"; "login"; "welcome"]%string.

(** [hasCommonWords] *)
Definition hasCommonWords (password : str) : bool :=
  let lower := toLowerCase password in
  existsb (includesWord lower) commonWords.

Definition vowels : str := codes "aeiou".
Definition consonants : str := codes "bcdfghjklmnpqrstvwxyz".

(** [hasPronounceablePatterns]: a consonant immediately followed by a
    vowel. *)
Fixpoint pronounceableFrom (lower : str) : bool :=
  match lower with
  | current :: ((next :: _) as rest) =>
      (includes consonants current && includes vowels next)
      || pronounceableFrom rest
  | _ => false
  end.

Definition hasPronounceablePatterns (password : str) : bool :=
  pronounceableFrom (toLowerCase password).

(** [hasReasonableLength] *)
Definition hasReasonableLength (password : str) : bool :=
  (8 <=? List.length password) && (List.length password <=? 20).

Definition isAlphanumeric (c : char) : bool :=
  Estimator.in_range 97 122 c || Estimator.in_range 65 90 c
  || Estimator.in_range 48 57 c.

(** [hasExcessiveSymbols]: [symbolCount > password.length * 0.3], on
    integers. *)
Definition hasExcessiveSymbols (password : str) : bool :=
  let symbolCount := countIf (fun c => negb (isAlphanumeric c)) password in
  3 * List.length password <? 10 * symbolCount.

(** [hasMixedCase] *)
Definition hasMixedCase (password : str) : bool :=
  Estimator.match_lower password && Estimator.match_upper password.

(** The score of one password in [calculateReadabilityScore]. *)
Definition readabilityOf (password : str) : nat :=
  (if hasCommonWords password then 2 else 0)
  + (if hasPronounceablePatterns password then 1 else 0)
  + (if hasReasonableLength password then 1 else 0)
  + (if negb (hasExcessiveSymbols password) then 1 else 0)
  + (if hasMixedCase password then 1 else 0).

(** [getReadabilityDescription] *)
Definition getReadabilityDescription (score : xreal) : string :=
  if geb score (Fin 4) then "Very Readable"
  else if geb score (Fin 3) then "Readable"
  else if geb score (Fin 2) then "Moderately Readable"
  else if geb score (Fin 1) then "Less Readable"
  else "Not Readable".

(** [calculateReadabilityScore] *)
Definition calculateReadabilityScore (passwords : list GeneratedPassword)
    : ReadabilityScore :=
  let totalScore :=
    fold_left (fun acc p => acc + readabilityOf (password p)) passwords 0 in
  let maxScore := List.length passwords * 6 in
  {| averageScore := div (of_nat totalScore) (of_nat (List.length passwords));
     percentage := mul (div (of_nat totalScore) (of_nat maxScore)) (Fin 100);
     description :=
       getReadabilityDescription
         (div (of_nat totalScore) (of_nat (List.length passwords))) |}.

(** [calculateSecurityCompliance] *)
Definition calculateSecurityCompliance (passwords : list GeneratedPassword)
    : SecurityCompliance :=
  let total := List.length passwords in
  let strong p := geb (entropy p) (Fin 60) in
  let slow p := geb (years (timeToCrack p)) (Fin 10) in
  let both p := strong p && slow p in
  {| entropyAbove60Bits := countIf strong passwords;
     entropyAbove60BitsPercentage := percentOf (countIf strong passwords) total;
     timeAbove10Years := countIf slow passwords;
     timeAbove10YearsPercentage := percentOf (countIf slow passwords) total;
     bothRequirementsMet := countIf both passwords;
     bothRequirementsMetPercentage := percentOf (countIf both passwords) total |}.

(** [calculateStatistics] *)
Definition calculateStatistics (passwords : list GeneratedPassword)
    : PasswordStatistics :=
  let entropies := map entropy passwords in
  let crackingTimes := map (fun p => years (timeToCrack p)) passwords in
  {| count := List.length passwords;
     s_entropy := calculateEntropyStatistics entropies;
     crackingTime := calculateTimeStatistics crackingTimes;
     strengthDistribution := calculateStrengthDistribution passwords;
     readabilityScore := calculateReadabilityScore passwords;
     securityCompliance := calculateSecurityCompliance passwords |}.

(** ** Comparison and recommendation *)

(** One entry of [generateComparison]: the difference is Markov minus
    random, and Markov is better only when strictly greater. *)
Definition compareMetric (randomValue markovValue : xreal)
    : ComparisonMetric :=
  {| m_random := randomValue;
     m_markov := markovValue;
     difference := sub markovValue randomValue;
     better := if gtb markovValue randomValue then markov else random |}.

(** [generateComparison] *)
Definition generateComparison (randomStats markovStats : PasswordStatistics)
    : ApproachComparison :=
  {| entropyComparison :=
       compareMetric (e_average (s_entropy randomStats))
                     (e_average (s_entropy markovStats));
     timeComparison :=
       compareMetric (t_average (crackingTime randomStats))
                     (t_average (crackingTime markovStats));
     readabilityComparison :=
       compareMetric (averageScore (readabilityScore randomStats))
                     (averageScore (readabilityScore markovStats));
     securityComplianceComparison :=
       compareMetric
         (bothRequirementsMetPercentage (securityCompliance randomStats))
         (bothRequirementsMetPercentage (securityCompliance markovStats)) |}.

(** [Math.min(x, 1)] *)
Definition capAt1 (x : xreal) : xreal := min2 x (Fin 1).

(** [calculateOverallScore] *)
Definition calculateOverallScore (stats : PasswordStatistics) : xreal :=
  let entropyScore :=
    mul (capAt1 (div (e_average (s_entropy stats)) (Fin 60))) (Fin 25) in
  let timeScore :=
    mul (capAt1 (div (t_average (crackingTime stats)) (Fin 10))) (Fin 25) in
  let readabilityScore' :=
    mul (div (percentage (readabilityScore stats)) (Fin 100)) (Fin 25) in
  let complianceScore :=
    mul (div (bothRequirementsMetPercentage (securityCompliance stats))
             (Fin 100)) (Fin 25) in
  add (add (add entropyScore timeScore) readabilityScore') complianceScore.

(** [generateRecommendations] *)
Definition generateRecommendations
    (randomStats markovStats : PasswordStatistics) : Recommendations :=
  let r1 : string :=
    if gtb (e_average (s_entropy markovStats))
           (e_average (s_entropy randomStats))
    then "Markov approach generates passwords with higher average entropy"%string
    else "Random approach generates passwords with higher average entropy"%string in
  let r2 : string :=
    if gtb (t_average (crackingTime markovStats))
           (t_average (crackingTime randomStats))
    then "Markov approach generates passwords with longer average cracking time"%string
    else "Random approach generates passwords with longer average cracking time"%string in
  let r3 : string :=
    if gtb (averageScore (readabilityScore markovStats))
           (averageScore (readabilityScore randomStats))
    then "Markov approach generates more readable passwords"%string
    else "Random approach generates more readable passwords"%string in
  let r4 : string :=
    if gtb (bothRequirementsMetPercentage (securityCompliance markovStats))
           (bothRequirementsMetPercentage (securityCompliance randomStats))
    then "Markov approach better meets security requirements (60+ bits, 10+ years)"%string
    else "Random approach better meets security requirements (60+ bits, 10+ years)"%string in
  let randomScore := calculateOverallScore randomStats in
  let markovScore := calculateOverallScore markovStats in
  let r5 : string :=
    if gtb markovScore randomScore
    then "Overall recommendation: Markov approach is better for this use case"%string
    else "Overall recommendation: Random approach is better for this use case"%string in
  {| recommendations := [r1; r2; r3; r4; r5];
     overallWinner := if gtb markovScore randomScore then markov else random;
     randomScore := randomScore;
     markovScore := markovScore |}.

(** [compareApproaches] *)
Definition compareApproaches
    (randomPasswords markovPasswords : list GeneratedPassword)
    : ComparisonAnalysis :=
  let randomStats := calculateStatistics randomPasswords in
  let markovStats := calculateStatistics markovPasswords in
  {| a_random := randomStats;
     a_markov := markovStats;
     comparison := generateComparison randomStats markovStats;
     a_recommendations := generateRecommendations randomStats markovStats |}.

End Comparison.

(* ================================================================== *)
(** * The estimator in the words of the specification *)
(* ================================================================== *)

Module Spec.

(** Section 4.1: [classify] puts every character in exactly one category;
    whatever is neither a letter nor a digit is a symbol. *)
Inductive Category : Type := uppercase | lowercase | numbers | symbols.

Definition Category_eqb (a b : Category) : bool :=
  match a, b with
  | uppercase, uppercase | lowercase, lowercase
  | numbers, numbers | symbols, symbols => true
  | _, _ => false
  end.

Definition classify (c : char) : Category :=
  if Chars.isUppercase c then uppercase
  else if Chars.isLowercase c then lowercase
  else if Chars.isNumber c then numbers
  else symbols.

(** Section 4.4: the category sizes 26/26/10/32. *)
Definition categorySize (k : Category) : nat :=
  match k with
  | uppercase => 26
  | lowercase => 26
  | numbers => 10
  | symbols => 32
  end.

Definition represented (password : str) (k : Category) : bool :=
  existsb (fun c => Category_eqb (classify c) k) password.

(** The sum of the sizes of the categories represented in the password. *)
Definition theoreticalSize (password : str) : nat :=
  fold_right
    (fun k acc => (if represented password k then categorySize k else 0) + acc)
    0 [lowercase; uppercase; numbers; symbols].

(** The effective alphabet size. *)
Definition effectiveAlphabetSize (password : str) : nat :=
  let observedSize := distinct password in
  if observedSize <? 26
  then Nat.max observedSize (theoreticalSize password)
  else observedSize.

End Spec.

(* ================================================================== *)
(** * Code without randomness that may throw *)
(* ================================================================== *)

Module Fallible.

Inductive result (A : Type) : Type :=
| Ok (a : A)
| Error (msg : string).
Arguments Ok {A} a.
Arguments Error {A} msg.

(** [(m[k] || 0) + 1] on an object used as a table of counts.  The order
    in which a JavaScript object enumerates its keys is not modelled: a
    table is only ever looked up and summed. *)
Definition tally {K : Type} (K_eq_dec : forall a b : K, {a = b} + {a <> b})
    (m : list (K * nat)) (k : K) : list (K * nat) :=
  map_set K_eq_dec m k
    ((match map_get K_eq_dec m k with Some v => v | None => 0 end) + 1).

End Fallible.
Import Fallible.

(* ================================================================== *)
(** * Random samples by a Fisher-Yates shuffle *)
(* ================================================================== *)

Module Sampling.

(** [a[i] = v] for an index inside the array; the shuffle writes at no
    other index. *)
Fixpoint put (a : list str) (i : nat) (v : str) : list str :=
  match a, i with
  | [], _ => []
  | _ :: t, O => v :: t
  | x :: t, S j => x :: put t j v
  end.

(** [temp = a[i]; a[i] = a[j]; a[j] = temp]: both indices are inside the
    array. *)
Definition swap (a : list str) (i j : nat) : list str :=
  match nth_error a i, nth_error a j with
  | Some x, Some y => put (put a i y) j x
  | _, _ => a
  end.

(** The loop [for (let i = shuffled.length - 1; i > 0; i--)]. *)
Fixpoint shuffleFrom (i : nat) (shuffled : list str) : M (list str) :=
  match i with
  | O => ret shuffled
  | S i' =>
      j <- random_index (i + 1);;
      shuffleFrom i' (swap shuffled i j)
  end.

(** [DataFetcher.randomSample] *)
Definition randomSample (passwords : list str) (sampleSize : nat)
    : M (list str) :=
  if List.length passwords <=? sampleSize then ret passwords
  else
    shuffled <- shuffleFrom (List.length passwords - 1) passwords;;
    ret (firstn sampleSize shuffled).

(** [getRandomSample] of [Part1PasswordAnalysis] and of
    [Part2PasswordGeneration] *)
Definition getRandomSample (passwords : list str) (sampleSize : nat)
    : M (list str) :=
  if List.length passwords =? 0
  then throw "No passwords provided for sampling"
  else if List.length passwords <=? sampleSize then ret passwords
  else
    shuffled <- shuffleFrom (List.length passwords - 1) passwords;;
    ret (firstn sampleSize shuffled).

End Sampling.

(* ================================================================== *)
(** * [PasswordAnalyzer.analyzePasswords] *)
(* ================================================================== *)

Module Analyzer.
Import Num.

Record Composition := mkComposition {
  uppercase : nat;
  lowercase : nat;
  numbers : nat;
  symbols : nat
}.

Record PasswordAnalysis := mkPasswordAnalysis {
  sampleSize : nat;
  averageLength : xreal;
  composition : Composition;
  lengthFrequency : list (nat * nat);
  characterFrequency : list (str * nat);
  samplePasswords : list str
}.

(** [for (const char of password)] walks the string by code points: a
    high surrogate followed by a low surrogate is one character. *)
Definition isHighSurrogate (c : char) : bool :=
  ((55296 <=? c) && (c <=? 56319))%N.
Definition isLowSurrogate (c : char) : bool :=
  ((56320 <=? c) && (c <=? 57343))%N.

Fixpoint codePoints (s : str) : list str :=
  match s with
  | [] => []
  | c :: t =>
      match t with
      | d :: t' =>
          if isHighSurrogate c && isLowSurrogate d
          then [c; d] :: codePoints t'
          else [c] :: codePoints t
      | [] => [[c]]
      end
  end.

(** The three tables that the callback of [passwords.forEach] updates. *)
Record Tables := mkTables {
  t_composition : Composition;
  t_lengthFrequency : list (nat * nat);
  t_characterFrequency : list (str * nat)
}.

Definition one (b : bool) : nat := if b then 1 else 0.

(** The callback of [passwords.forEach]. *)
Definition analyzeOne (t : Tables) (password : str) : Tables :=
  let c := t_composition t in
  {| t_composition :=
       {| uppercase := uppercase c + one (Estimator.match_upper password);
          lowercase := lowercase c + one (Estimator.match_lower password);
          numbers := numbers c + one (Estimator.match_digit password);
          symbols := symbols c + one (Estimator.match_other password) |};
     t_lengthFrequency :=
       tally Nat.eq_dec (t_lengthFrequency t) (List.length password);
     t_characterFrequency :=
       fold_left (tally str_eq_dec) (codePoints password)
                 (t_characterFrequency t) |}.

(** [analyzePasswords] *)
Definition analyzePasswords (passwords : list str) : result PasswordAnalysis :=
  if List.length passwords =? 0
  then Error "No passwords provided for analysis"
  else
    let totalLength :=
      fold_left (fun sum pwd => sum + List.length pwd) passwords 0 in
    let averageLength :=
      div (of_nat totalLength) (of_nat (List.length passwords)) in
    let t := fold_left analyzeOne passwords
                       (mkTables (mkComposition 0 0 0 0) [] []) in
    Ok {| sampleSize := List.length passwords;
          averageLength := averageLength;
          composition := t_composition t;
          lengthFrequency := t_lengthFrequency t;
          characterFrequency := t_characterFrequency t;
          samplePasswords := firstn 20 passwords |}.

End Analyzer.

(* ================================================================== *)
(** * [DataFetcher] ([data/dataFetcher.ts]) *)
(* ================================================================== *)

Module DataFetcher.

(** The file system as far as the class reads and writes it: the text of
    [./pwlds_combined.csv], when the file exists. *)
Definition FileSystem : Type := option str.

(** [hasLocalData] *)
Definition hasLocalData (fs : FileSystem) : bool :=
  match fs with Some _ => true | None => false end.

(** The white space and the line terminators that [trim] and [parseInt]
    skip: tab, line feed, vertical tab, form feed, carriage return,
    space, no-break space, the space separators of Unicode, the line and
    paragraph separators and the byte order mark. *)
Definition isWhiteSpace (c : char) : bool :=
  (((9 <=? c) && (c <=? 13)) || (c =? 32) || (c =? 160) || (c =? 5760)
   || ((8192 <=? c) && (c <=? 8202)) || (c =? 8232) || (c =? 8233)
   || (c =? 8239) || (c =? 8287) || (c =? 12288) || (c =? 65279))%N.

Fixpoint trimStart (s : str) : str :=
  match s with
  | c :: t => if isWhiteSpace c then trimStart t else s
  | [] => []
  end.

Definition trimEnd (s : str) : str := rev (trimStart (rev s)).

(** [s.trim()] *)
Definition trim (s : str) : str := trimEnd (trimStart s).

(** [s.split(sep)] for a separator of one character. *)
Fixpoint split (sep : char) (s : str) : list str :=
  match s with
  | [] => [[]]
  | c :: t =>
      if (c =? sep)%N then [] :: split sep t
      else match split sep t with
           | h :: r => (c :: h) :: r
           | [] => [[c]]
           end
  end.

(** [lines.join(sep)] for a separator of one character. *)
Fixpoint join (sep : char) (lines : list str) : str :=
  match lines with
  | [] => []
  | [l] => l
  | l :: rest => l ++ sep :: join sep rest
  end.

Definition lineFeed : char := 10%N.
Definition comma : char := 44%N.

(** A string is truthy when it is not empty. *)
Definition truthy (s : str) : bool :=
  match s with [] => false | _ => true end.

(** [content.split("\n").filter((line) => line.trim())] and the header
    test [lines[0]?.includes("Password") ? lines.slice(1) : lines]. *)
Definition dataLinesOf (content : str) : list str :=
  let lines := filter (fun line => truthy (trim line)) (split lineFeed content) in
  match lines with
  | first :: rest =>
      if Comparison.includesWord first (codes "Password") then rest else lines
  | [] => lines
  end.

(** [loadPasswordsFromFile] *)
Definition loadPasswordsFromFile (fs : FileSystem) : result (list str) :=
  match fs with
  | None => Error "No local data file found. Please fetch data first."
  | Some content =>
      let dataLines := dataLinesOf content in
      let passwords :=
        filter (fun password => 0 <? List.length password)
          (map (fun line =>
                  let parts := split comma line in
                  match parts with
                  | password :: _ =>
                      if truthy password then trim password else []
                  | [] => []
                  end) dataLines) in
      Ok passwords
  end.

(** The text of a strength level from 1 to 5 inside a template string. *)
Definition levelText (strengthLevel : nat) : str :=
  [(48 + N.of_nat strengthLevel)%N].

(** [`${trimmedLine},${strengthLevel}`] *)
Definition entry (trimmedLine : str) (strengthLevel : nat) : str :=
  trimmedLine ++ comma :: levelText strengthLevel.

(** ["Password,Strength_Level\n" + sampledPasswords.join("\n")], the text
    that [fetchAndCombineData] writes to the local file. *)
Definition csvContent (sampledPasswords : list str) : str :=
  codes "Password,Strength_Level" ++ lineFeed :: join lineFeed sampledPasswords.

(** [parseInt(s)] with no radix: white space is skipped, a sign is read,
    a prefix [0x] or [0X] selects base 16, and the longest run of digits
    is the value; [None] is [NaN].  The value is the exact integer; the
    source rounds one beyond [2 ^ 53], which never moves it across 1
    or 5. *)
Definition digitValue (radix : N) (c : char) : option N :=
  let v :=
    if ((48 <=? c) && (c <=? 57))%N then Some (c - 48)%N
    else if ((97 <=? c) && (c <=? 122))%N then Some (c - 87)%N
    else if ((65 <=? c) && (c <=? 90))%N then Some (c - 55)%N
    else None in
  match v with
  | Some d => if (d <? radix)%N then Some d else None
  | None => None
  end.

Fixpoint digits (radix : N) (s : str) (acc : option N) : option N :=
  match s with
  | [] => acc
  | c :: t =>
      match digitValue radix c with
      | Some d =>
          digits radix t
                 (Some (match acc with Some a => a * radix + d | None => d end)%N)
      | None => acc
      end
  end.

Definition parseInt (s : str) : option Z :=
  let s := trimStart s in
  let (negative, s) :=
    match s with
    | 45%N :: t => (true, t)
    | 43%N :: t => (false, t)
    | _ => (false, s)
    end in
  let (radix, s) :=
    match s with
    | 48%N :: 120%N :: t => (16%N, t)
    | 48%N :: 88%N :: t => (16%N, t)
    | _ => (10%N, s)
    end in
  match digits radix s None with
  | Some v => Some (if negative then (- Z.of_N v)%Z else Z.of_N v)
  | None => None
  end.

(** [getStrengthLevelName]; the argument is a whole number or [NaN]. *)
Definition getStrengthLevelName (level : option Z) : string :=
  match level with
  | None => "Unknown"
  | Some z =>
      if ((z <? 1) || (5 <? z))%Z then "Unknown"
      else if (z =? 1)%Z then "Very Weak"
      else if (z =? 2)%Z then "Weak"
      else if (z =? 3)%Z then "Average"
      else if (z =? 4)%Z then "Strong"
      else "Very Strong"
  end.

(** [getDistribution] *)
Definition getDistribution (passwords : list str) : list (string * nat) :=
  fold_left
    (fun distribution passwordLine =>
       let parts := split comma passwordLine in
       match nth_error parts 1 with
       | Some strengthLevel =>
           if truthy strengthLevel then
             let level := parseInt strengthLevel in
             let levelName := getStrengthLevelName level in
             tally string_dec distribution levelName
           else distribution
       | None => distribution
       end)
    passwords [].

(** The level names that [fetchAndCombineData] prints beside the rows of
    the distribution: [getStrengthLevelName(parseInt(level))] for every
    key [level] of [Object.entries(distribution)]. *)
Definition printedLevelNames (distribution : list (string * nat))
    : list string :=
  map (fun row => getStrengthLevelName (parseInt (codes (fst row))))
      distribution.

End DataFetcher.

(* ================================================================== *)
(** * The entropy histogram ([part2-password-generation.ts]) *)
(* ================================================================== *)

Module Histogram.
Import Num.

Definition xreal_eq_dec : forall a b : xreal, {a = b} + {a <> b}.
Proof.
  intros [| | |a] [| | |b];
    try (left; reflexivity); try (right; discriminate).
  destruct (Req_dec_T a b) as [E|E].
  - left. rewrite E. reflexivity.
  - right. intros H. injection H as H. contradiction.
Defined.

(** [Math.floor(x)] *)
Definition Math_floor (x : xreal) : xreal :=
  match x with
  | Fin r => Fin (IZR (Int_part r))
  | other => other
  end.

Definition binSize : xreal := Fin 5.

(** The lower bound of the bin of an entropy,
    [Math.floor(entropy / binSize) * binSize]. *)
Definition binOf (entropy : xreal) : xreal :=
  mul (Math_floor (div entropy binSize)) binSize.

(** [createHistogramData].  The key of the source is the text
    [`${bin}-${bin + binSize}`]; two bins have the same text exactly when
    they have the same lower bound, which is the key here. *)
Definition createHistogramData (entropies : list xreal) : list (xreal * nat) :=
  fold_left (fun histogram entropy => tally xreal_eq_dec histogram (binOf entropy))
            entropies [].

End Histogram.

(* ================================================================== *)
(** * Concrete inputs used by the examples *)
(* ================================================================== *)

Module Inputs.

(** The random source whose every draw is 0. *)
Definition zeroSource : Source.
Proof.
  refine (mkSource (fun _ => 0%Q) _).
  intros i. split; [ apply Qle_refl | reflexivity ].
Defined.

(** The random source that replays a list of draws, then draws 0. *)
Definition in_unit (q : Q) : bool := Qle_bool 0 q && negb (Qle_bool 1 q).

Definition replay (l : list Q) (H : forallb in_unit l = true) : Source.
Proof.
  refine (mkSource (fun i => nth i l 0%Q) _).
  intros i. destruct (nth_in_or_default i l 0%Q) as [Hin|Hd].
  - rewrite forallb_forall in H. specialize (H _ Hin).
    unfold in_unit in H. apply andb_true_iff in H. destruct H as [H0 H1].
    split; [ apply Qle_bool_iff; exact H0 | ].
    apply Qnot_le_lt. intros Hle. apply Qle_bool_iff in Hle.
    rewrite Hle in H1. discriminate.
  - rewrite Hd. split; [ apply Qle_refl | reflexivity ].
Defined.

(** Twelve draws of 0 for the base password; then, for each of the three
    categories it misses, a draw for the position (0, 0.125 and 0.1875,
    which twelve positions turn into 0, 1 and 2) and the draw 0 for the
    character. *)
Definition positionDraws : list Q :=
  (repeat 0 12 ++ [0; 0; 1 # 8; 0; 3 # 16; 0])%Q.

Definition positionSource : Source := replay positionDraws eq_refl.

(** The training corpus of the scenario of the specification. *)
Definition scenarioCorpus : list str :=
  map codes ["password123"; "letmein42"; "dragon99"]%string.

Definition trained : Markov.MarkovPasswordGenerator :=
  Markov.trainModel Markov.fresh scenarioCorpus 1.

(** [{ length: 8 }] with the four categories enabled. *)
Definition eightOfAll : PasswordGeneratorConfig :=
  {| cfg_length := 8; includeUppercase := true; includeLowercase := true;
     includeNumbers := true; includeSymbols := true;
     avoidSimilar := false; avoidAmbiguous := false |}.

(** [{ length: 12, includeLowercase, includeSymbols }] *)
Definition lettersAndSymbols : PasswordGeneratorConfig :=
  {| cfg_length := 12; includeUppercase := false; includeLowercase := true;
     includeNumbers := false; includeSymbols := true;
     avoidSimilar := false; avoidAmbiguous := false |}.

(** [{ length: 4, includeLowercase }] *)
Definition fourLetters : PasswordGeneratorConfig :=
  {| cfg_length := 4; includeUppercase := false; includeLowercase := true;
     includeNumbers := false; includeSymbols := false;
     avoidSimilar := false; avoidAmbiguous := false |}.

(** [{ length: 1, includeSymbols }] *)
Definition oneSymbol : PasswordGeneratorConfig :=
  {| cfg_length := 1; includeUppercase := false; includeLowercase := false;
     includeNumbers := false; includeSymbols := true;
     avoidSimilar := false; avoidAmbiguous := false |}.

(** The configuration of [part2-password-generation.ts]. *)
Definition part2Config : PasswordGeneratorConfig :=
  {| cfg_length := 12; includeUppercase := true; includeLowercase := true;
     includeNumbers := true; includeSymbols := true;
     avoidSimilar := true; avoidAmbiguous := false |}.

(** A generated password of 250 characters: its entropy is about 1175
    bits, and [Math.pow(2, 1175)] is beyond the largest finite number, so
    every field of its time to crack is [Infinity]. *)
Definition longPassword : GeneratedPassword :=
  {| password := repeat 97%N 250;
     entropy := Estimator.calculateEntropy (repeat 97%N 250);
     timeToCrack := {| seconds := Num.PosInf; minutes := Num.PosInf;
                       hours := Num.PosInf; days := Num.PosInf;
                       years := Num.PosInf |};
     strengthLevel := VeryStrong;
     generationMethod := heuristic |}.

Definition unboundedBatch : list GeneratedPassword := [longPassword].

(** A generated password with finite metrics. *)
Definition finitePassword : GeneratedPassword :=
  {| password := codes "!!aaaaaaaaaa";
     entropy := Num.Fin 70;
     timeToCrack := {| seconds := Num.Fin 31557600000; minutes := Num.Fin 525960000;
                       hours := Num.Fin 8766000; days := Num.Fin 365250;
                       years := Num.Fin 1000 |};
     strengthLevel := VeryStrong;
     generationMethod := heuristic |}.

Definition finiteBatch : list GeneratedPassword := [finitePassword].

End Inputs.

(* ================================================================== *)
(** * Properties of the estimator *)
(* ================================================================== *)

Module EstimatorFacts.
Import Num Estimator.
Local Open Scope R_scope.

(** ** Signs *)

Lemma sgn_0 : sgn 0 = Eq.
Proof.
  unfold sgn. destruct (total_order_T 0 0) as [[H|H]|H]; try reflexivity; lra.
Qed.

Lemma sgn_pos (r : R) : 0 < r -> sgn r = Gt.
Proof.
  intros Hr. unfold sgn.
  destruct (total_order_T r 0) as [[H|H]|H]; try reflexivity; lra.
Qed.

Lemma sgn_neg (r : R) : r < 0 -> sgn r = Lt.
Proof.
  intros Hr. unfold sgn.
  destruct (total_order_T r 0) as [[H|H]|H]; try reflexivity; lra.
Qed.

Lemma sgn_INR (n : nat) : sgn (INR n) = match n with O => Eq | S _ => Gt end.
Proof.
  destruct n as [|n].
  - simpl. apply sgn_0.
  - apply sgn_pos. apply lt_0_INR. lia.
Qed.

Lemma ltb_Fin (a b : R) : ltb (Fin a) (Fin b) = true <-> a < b.
Proof.
  simpl. destruct (Rlt_dec a b); split; intros; try assumption;
    try reflexivity; try discriminate; contradiction.
Qed.

Lemma ltb_irrefl (x : xreal) : ltb x x = false.
Proof.
  destruct x as [| | |a]; try reflexivity.
  simpl. destruct (Rlt_dec a a); [ lra | reflexivity ].
Qed.

(** ** Logarithms and integer powers *)

Lemma ln_2_pos : 0 < ln 2.
Proof. rewrite <- ln_1. apply ln_increasing; lra. Qed.

(** [n * log2(a) < b] exactly when [a ^ n < 2 ^ b]. *)
Lemma log2_lt_pow (a : R) (n b : nat) :
  0 < a -> (INR n * (ln a / ln 2) < INR b <-> a ^ n < 2 ^ b).
Proof.
  intros Ha. pose proof ln_2_pos as H2.
  assert (Hpa : 0 < a ^ n) by (apply pow_lt; exact Ha).
  assert (Hp2 : 0 < 2 ^ b) by (apply pow_lt; lra).
  assert (E : INR n * (ln a / ln 2) = ln (a ^ n) / ln 2).
  { rewrite ln_pow by exact Ha. unfold Rdiv. ring. }
  assert (E2 : INR b = ln (2 ^ b) / ln 2).
  { rewrite ln_pow by lra. field. lra. }
  rewrite E, E2. split; intros H.
  - apply ln_lt_inv; try assumption.
    apply Rmult_lt_reg_r with (/ ln 2); [ apply Rinv_0_lt_compat; exact H2 | ].
    exact H.
  - apply Rmult_lt_compat_r; [ apply Rinv_0_lt_compat; exact H2 | ].
    apply ln_increasing; assumption.
Qed.

(** [b < n * log2(a)] exactly when [2 ^ b < a ^ n]. *)
Lemma pow_lt_log2 (a : R) (n b : nat) :
  0 < a -> (INR b < INR n * (ln a / ln 2) <-> 2 ^ b < a ^ n).
Proof.
  intros Ha. pose proof ln_2_pos as H2.
  assert (Hpa : 0 < a ^ n) by (apply pow_lt; exact Ha).
  assert (Hp2 : 0 < 2 ^ b) by (apply pow_lt; lra).
  assert (E : INR n * (ln a / ln 2) = ln (a ^ n) / ln 2).
  { rewrite ln_pow by exact Ha. unfold Rdiv. ring. }
  assert (E2 : INR b = ln (2 ^ b) / ln 2).
  { rewrite ln_pow by lra. field. lra. }
  rewrite E, E2. split; intros H.
  - apply ln_lt_inv; try assumption.
    apply Rmult_lt_reg_r with (/ ln 2); [ apply Rinv_0_lt_compat; exact H2 | ].
    exact H.
  - apply Rmult_lt_compat_r; [ apply Rinv_0_lt_compat; exact H2 | ].
    apply ln_increasing; assumption.
Qed.


Lemma pow_INR_IZR (a n : nat) :
  INR a ^ n = IZR (Z.of_nat a ^ Z.of_nat n).
Proof. rewrite INR_IZR_INZ. apply pow_IZR. Qed.

Lemma pow_2_IZR (b : nat) : 2 ^ b = IZR (2 ^ Z.of_nat b).
Proof. apply pow_IZR. Qed.

(** ** The closed form and its value *)

Lemma eval_zero_zero : eval (mkLog 0 0) = NaN.
Proof.
  unfold eval, of_nat. cbn [coef arg Math_log2].
  change (INR 0) with 0. rewrite sgn_0.
  cbn [mul]. rewrite sgn_0. reflexivity.
Qed.

Lemma eval_arg_zero (n : nat) : eval (mkLog (S n) 0) = NegInf.
Proof.
  unfold eval, of_nat. cbn [coef arg Math_log2].
  change (INR 0) with 0. rewrite sgn_0.
  cbn [mul]. rewrite sgn_INR. reflexivity.
Qed.

Lemma eval_pos (n a : nat) :
  eval (mkLog n (S a)) = Fin (INR n * (ln (INR (S a)) / ln 2)).
Proof.
  unfold eval, of_nat. cbn [coef arg Math_log2].
  rewrite sgn_INR. reflexivity.
Qed.

(** The integer test decides the comparison of the value with the
    threshold. *)
Lemma below_spec (e : logform) (bits : nat) :
  below e bits = ltb (eval e) (of_nat bits).
Proof.
  destruct e as [n [|a]]; unfold below; cbn [coef arg].
  - destruct n as [|n].
    + rewrite eval_zero_zero. reflexivity.
    + rewrite eval_arg_zero. reflexivity.
  - rewrite eval_pos. unfold of_nat.
    assert (Ha : 0 < INR (S a)) by (apply lt_0_INR; lia).
    destruct (Z.ltb_spec (Z.of_nat (S a) ^ Z.of_nat n) (2 ^ Z.of_nat bits)) as [H|H].
    + symmetry. apply ltb_Fin. apply log2_lt_pow; [ exact Ha | ].
      rewrite pow_INR_IZR, pow_2_IZR. apply IZR_lt. exact H.
    + symmetry. apply not_true_is_false. intros Hlt.
      apply ltb_Fin in Hlt. apply log2_lt_pow in Hlt; [ | exact Ha ].
      rewrite pow_INR_IZR, pow_2_IZR in Hlt. apply lt_IZR in Hlt. lia.
Qed.

Lemma entropyBelow60_spec (password : str) :
  entropyBelow60 password = ltb (calculateEntropy password) (Fin 60).
Proof.
  unfold entropyBelow60, calculateEntropy. rewrite below_spec.
  unfold of_nat. do 2 f_equal. simpl. lra.
Qed.

(** ** The needed length is a ceiling *)

Lemma ceilSearch_spec (bits size : nat) :
  (2 <= size)%nat ->
  forall fuel n,
    (n + fuel = bits)%nat ->
    (forall m, (m < n)%nat ->
       (Z.of_nat size ^ Z.of_nat m < 2 ^ Z.of_nat bits)%Z) ->
    (2 ^ Z.of_nat bits
     <= Z.of_nat size ^ Z.of_nat (ceilSearch fuel bits size n))%Z
    /\ (forall m, (m < ceilSearch fuel bits size n)%nat ->
          (Z.of_nat size ^ Z.of_nat m < 2 ^ Z.of_nat bits)%Z).
Proof.
  intros Hsize. induction fuel as [|fuel IH]; intros n Hn Hbelow; simpl.
  - split; [ | exact Hbelow ].
    replace n with bits by lia.
    apply Z.pow_le_mono_l. lia.
  - destruct (Z.leb_spec (2 ^ Z.of_nat bits) (Z.of_nat size ^ Z.of_nat n))
      as [H|H].
    + split; [ exact H | exact Hbelow ].
    + apply IH; [ lia | ].
      intros m Hm. destruct (Nat.eq_dec m n) as [->|Hne]; [ exact H | ].
      apply Hbelow. lia.
Qed.

(** For a character set of two or more characters, [ceilDivLog2 bits size]
    is the least integer not below [bits / log2(size)]. *)
Lemma ceilDivLog2_ceiling (bits size : nat) :
  (2 <= size)%nat ->
  INR (ceilDivLog2 bits size) - 1 < INR bits / (ln (INR size) / ln 2)
  /\ INR bits / (ln (INR size) / ln 2) <= INR (ceilDivLog2 bits size).
Proof.
  intros Hsize. pose proof ln_2_pos as H2.
  assert (Hs : 0 < INR size) by (apply lt_0_INR; lia).
  assert (HL : 0 < ln (INR size) / ln 2).
  { apply Rdiv_lt_0_compat; [ | exact H2 ].
    rewrite <- ln_1. apply ln_increasing; [ lra | ].
    change 1 with (INR 1). apply lt_INR. lia. }
  unfold ceilDivLog2. destruct size as [|size']; [ lia | ].
  set (size := S size') in *.
  destruct (@ceilSearch_spec bits size Hsize bits 0) as [Hup Hlow];
    [ lia | intros m Hm; lia | ].
  set (n := ceilSearch bits bits size 0) in *.
  assert (Hlast : ~ INR n * (ln (INR size) / ln 2) < INR bits).
  { intros Hlt. apply (log2_lt_pow n bits Hs) in Hlt.
    rewrite pow_INR_IZR, pow_2_IZR in Hlt. apply lt_IZR in Hlt. lia. }
  assert (Hprev : forall n', n = S n' ->
            INR n' * (ln (INR size) / ln 2) < INR bits).
  { intros n' En. apply (log2_lt_pow n' bits Hs).
    rewrite pow_INR_IZR, pow_2_IZR. apply IZR_lt. apply Hlow. lia. }
  set (L := ln (INR size) / ln 2) in *.
  assert (E : INR bits / L * L = INR bits) by (field; lra).
  split.
  - apply Rmult_lt_reg_r with L; [ exact HL | ]. rewrite E.
    destruct n as [|n'].
    + pose proof (pos_INR bits). simpl. nra.
    + specialize (Hprev n' eq_refl). rewrite S_INR. lra.
  - apply Rmult_le_reg_r with L; [ exact HL | ]. rewrite E.
    apply Rnot_lt_le. exact Hlast.
Qed.

End EstimatorFacts.

(* ================================================================== *)
(** * The entropy and the time to crack of a password *)
(* ================================================================== *)

Module EntropyFacts.
Import Num Estimator EstimatorFacts.
Local Open Scope R_scope.

Lemma existsb_same {A : Type} (f g : A -> bool) (l : list A) :
  (forall x, f x = g x) -> existsb f l = existsb g l.
Proof.
  intros H. induction l as [|x l IH]; simpl; [ reflexivity | ].
  rewrite H, IH. reflexivity.
Qed.

(** The four regular expressions of [calculateEntropy] test the four
    categories of [classify]. *)
Lemma classify_cases (c : char) :
  in_range 97 122 c = Spec.Category_eqb (Spec.classify c) Spec.lowercase
  /\ in_range 65 90 c = Spec.Category_eqb (Spec.classify c) Spec.uppercase
  /\ in_range 48 57 c = Spec.Category_eqb (Spec.classify c) Spec.numbers
  /\ negb (in_range 97 122 c || in_range 65 90 c || in_range 48 57 c)
     = Spec.Category_eqb (Spec.classify c) Spec.symbols.
Proof.
  unfold Spec.classify, Chars.isUppercase, Chars.isLowercase, Chars.isNumber,
    in_range.
  destruct (N.leb_spec 97 c), (N.leb_spec c 122), (N.leb_spec 65 c),
    (N.leb_spec c 90), (N.leb_spec 48 c), (N.leb_spec c 57);
    simpl; repeat split; try reflexivity; lia.
Qed.

Lemma theoreticalSize_spec (password : str) :
  theoreticalSize password = Spec.theoreticalSize password.
Proof.
  unfold theoreticalSize, Spec.theoreticalSize, Spec.represented,
    match_lower, match_upper, match_digit, match_other. simpl.
  rewrite (existsb_same _ _ password (fun c => proj1 (classify_cases c))).
  rewrite (existsb_same _ _ password
             (fun c => proj1 (proj2 (classify_cases c)))).
  rewrite (existsb_same _ _ password
             (fun c => proj1 (proj2 (proj2 (classify_cases c))))).
  rewrite (existsb_same _ _ password
             (fun c => proj2 (proj2 (proj2 (classify_cases c))))).
  simpl. lia.
Qed.

(** [calculateEntropy] multiplies the length by the logarithm of the
    effective alphabet size of the specification. *)
Lemma entropyForm_spec (password : str) :
  entropyForm password
  = mkLog (List.length password) (Spec.effectiveAlphabetSize password).
Proof.
  unfold entropyForm, Spec.effectiveAlphabetSize,
    getCharacterSetSizeFromPassword.
  rewrite theoreticalSize_spec.
  destruct (distinct password <? 26); reflexivity.
Qed.

Lemma distinct_positive (password : str) :
  password <> [] -> (1 <= distinct password)%nat.
Proof.
  intros Hne. unfold distinct.
  destruct password as [|c t]; [ congruence | ].
  destruct (nodup char_eq_dec (c :: t)) as [|x l] eqn:E.
  - assert (Hin : In c (nodup char_eq_dec (c :: t))).
    { apply nodup_In. left. reflexivity. }
    rewrite E in Hin. destruct Hin.
  - simpl. lia.
Qed.

Lemma effectiveAlphabetSize_positive (password : str) :
  password <> [] -> (1 <= Spec.effectiveAlphabetSize password)%nat.
Proof.
  intros Hne. pose proof (distinct_positive Hne) as Hd.
  unfold Spec.effectiveAlphabetSize.
  destruct (distinct password <? 26); lia.
Qed.

(** The entropy of a non-empty password is the finite number
    [length * log2(size)]. *)
Lemma calculateEntropy_nonempty (password : str) :
  password <> [] ->
  calculateEntropy password
  = Fin (INR (List.length password)
         * (ln (INR (Spec.effectiveAlphabetSize password)) / ln 2)).
Proof.
  intros Hne. unfold calculateEntropy. rewrite entropyForm_spec.
  pose proof (effectiveAlphabetSize_positive Hne) as Hpos.
  destruct (Spec.effectiveAlphabetSize password) as [|a]; [ lia | ].
  apply eval_pos.
Qed.

(** The entropy of the empty password is [0 * log2(0)]. *)
Lemma calculateEntropy_empty : calculateEntropy [] = NaN.
Proof. unfold calculateEntropy. apply eval_zero_zero. Qed.

(** ** Division by the attack speed and the unit conversions *)

Lemma div_Fin_pos (a b : R) : 0 < b -> div (Fin a) (Fin b) = Fin (a / b).
Proof. intros Hb. simpl. rewrite (sgn_pos Hb). reflexivity. Qed.

Lemma pow_10_12_pos : 0 < 10 ^ 12.
Proof. apply pow_lt. lra. Qed.

(** ** Powers inside and outside the range of the finite numbers *)


Lemma overflow_small (r : R) : Rabs r < huge -> overflow r = Fin r.
Proof.
  intros H. unfold overflow.
  destruct (Rlt_dec (Rabs r) huge) as [_|N]; [ reflexivity | contradiction ].
Qed.

Lemma overflow_nonneg (r : R) :
  0 <= r -> overflow r = if Rlt_dec r huge then Fin r else PosInf.
Proof.
  intros H. unfold overflow. rewrite (Rabs_right r) by lra.
  destruct (Rlt_dec r huge) as [_|_]; [ reflexivity | ].
  destruct (Rlt_dec r 0) as [N|_]; [ lra | reflexivity ].
Qed.

(** An integer power is inside the range when it is so over the
    integers. *)
Lemma pow_small (a n : nat) :
  (Z.of_nat a ^ Z.of_nat n < 2 ^ 1024)%Z -> INR a ^ n < huge.
Proof.
  intros H. rewrite pow_INR_IZR. unfold huge. rewrite pow_IZR.
  apply IZR_lt. exact H.
Qed.

Lemma speeds_fast_value : speeds_fast = Fin (10 ^ 12).
Proof.
  unfold speeds_fast. cbn [pow_nat]. apply overflow_small.
  rewrite (Rabs_right (10 ^ 12)) by (pose proof pow_10_12_pos; lra).
  replace 10 with (INR 10) by (rewrite INR_IZR_INZ; reflexivity).
  apply pow_small. vm_compute. reflexivity.
Qed.

(** The seconds of a number of combinations that is not negative. *)
Lemma seconds_overflow (r : R) :
  0 <= r ->
  div (overflow r) (Fin (10 ^ 12))
  = if Rlt_dec r huge then Fin (r / 10 ^ 12) else PosInf.
Proof.
  intros H. rewrite (@overflow_nonneg r H).
  destruct (Rlt_dec r huge) as [_|_].
  - apply div_Fin_pos. apply pow_10_12_pos.
  - cbn [div]. rewrite (sgn_pos pow_10_12_pos). reflexivity.
Qed.





End EntropyFacts.

(* ================================================================== *)
(** * Properties of the comparison engine *)
(* ================================================================== *)

Module ComparisonFacts.
Import Num Estimator EstimatorFacts EntropyFacts Comparison.
Local Open Scope R_scope.

Lemma gtb_irrefl (x : xreal) : gtb x x = false.
Proof. apply ltb_irrefl. Qed.

Lemma sub_diag (x : xreal) : is_finite x -> sub x x = Fin 0.
Proof.
  destruct x as [| | |a]; simpl; try contradiction.
  intros _. f_equal. ring.
Qed.

Lemma sub_diag_inf : sub PosInf PosInf = NaN.
Proof. reflexivity. Qed.

(** A metric compared with itself. *)
Lemma compareMetric_tie (v : xreal) : better (compareMetric v v) = random.
Proof. unfold compareMetric. simpl. rewrite gtb_irrefl. reflexivity. Qed.

Lemma compareMetric_zero (v : xreal) :
  is_finite v -> difference (compareMetric v v) = Fin 0.
Proof. intros Hv. unfold compareMetric. simpl. apply sub_diag. exact Hv. Qed.

(** Quotients by a positive count are finite. *)
Lemma div_count (a : R) (n : nat) :
  (0 < n)%nat -> div (Fin a) (of_nat n) = Fin (a / INR n).
Proof.
  intros Hn. unfold of_nat. apply div_Fin_pos. apply lt_0_INR. exact Hn.
Qed.

Lemma percentOf_finite (k n : nat) :
  (0 < n)%nat -> percentOf k n = Fin (INR k / INR n * 100).
Proof.
  intros Hn. unfold percentOf. unfold of_nat at 1.
  rewrite (div_count _ Hn). reflexivity.
Qed.

Lemma length_positive {A : Type} (l : list A) : l <> [] -> (0 < List.length l)%nat.
Proof. destruct l; [ congruence | simpl; lia ]. Qed.

Lemma averageScore_finite (passwords : list GeneratedPassword) :
  passwords <> [] ->
  is_finite (averageScore (calculateReadabilityScore passwords)).
Proof.
  intros Hne. unfold calculateReadabilityScore. cbn [averageScore].
  unfold of_nat at 1. rewrite (div_count _ (length_positive Hne)). exact I.
Qed.

Lemma bothRequirements_finite (passwords : list GeneratedPassword) :
  passwords <> [] ->
  is_finite (bothRequirementsMetPercentage
               (calculateSecurityCompliance passwords)).
Proof.
  intros Hne. unfold calculateSecurityCompliance.
  cbn [bothRequirementsMetPercentage].
  rewrite (percentOf_finite _ (length_positive Hne)). exact I.
Qed.

(** ** Statistics of the empty and of the one-element batch *)

Lemma div_zero_zero : div (Fin 0) (Fin 0) = NaN.
Proof. cbn [div]. rewrite sgn_0. reflexivity. Qed.




Lemma average_single (r : R) : div (sum [Fin r]) (of_nat 1) = Fin r.
Proof.
  unfold sum. cbn [fold_left add].
  rewrite div_count by lia. f_equal. simpl. field.
Qed.


Lemma Math_min_single (r : R) : Math_min [Fin r] = Fin r.
Proof. reflexivity. Qed.

Lemma Math_max_single (r : R) : Math_max [Fin r] = Fin r.
Proof. reflexivity. Qed.

Lemma medianOf_single (r : R) : medianOf [Fin r] = Fin r.
Proof. reflexivity. Qed.

Lemma medianOf_empty : medianOf [] = NaN.
Proof. reflexivity. Qed.

End ComparisonFacts.

(* ================================================================== *)
(** * Properties of training *)
(* ================================================================== *)

Module TrainingFacts.
Import Markov.

(** ** Sums of rationals *)

Lemma total_acc (l : list Q) (a : Q) :
  (fold_left Qplus l a == a + total l)%Q.
Proof.
  unfold total. revert a.
  induction l as [|x l IH]; intros a; simpl.
  - ring.
  - rewrite IH. rewrite (IH (0 + x)%Q). ring.
Qed.

Lemma total_cons (x : Q) (l : list Q) : (total (x :: l) == x + total l)%Q.
Proof.
  unfold total at 1. simpl. rewrite total_acc. ring.
Qed.

Lemma total_scaled {K : Type} (m : list (K * Q)) (t : Q) :
  (total (map_values (map (fun kv => (fst kv, (snd kv / t)%Q)) m))
   == total (map_values m) / t)%Q.
Proof.
  unfold map_values.
  induction m as [|[k v] m IH]; simpl.
  - unfold total; simpl. unfold Qdiv. ring.
  - rewrite !total_cons, IH. unfold Qdiv. ring.
Qed.

(** A map whose counts are all at least one. *)
Definition counted {K : Type} (m : list (K * Q)) : Prop :=
  Forall (fun kv => (1 <= snd kv)%Q) m.

Lemma total_nonneg {K : Type} (m : list (K * Q)) :
  counted m -> (0 <= total (map_values m))%Q.
Proof.
  unfold map_values.
  induction 1 as [|[k v] m Hv _ IH]; simpl.
  - unfold total; simpl. apply Qle_refl.
  - rewrite total_cons. simpl in Hv.
    apply Qle_trans with (0 + 0)%Q; [ apply Qle_refl | ].
    apply Qplus_le_compat; [ | exact IH ].
    apply Qle_trans with 1%Q; [ discriminate | exact Hv ].
Qed.

Lemma total_positive {K : Type} (m : list (K * Q)) :
  counted m -> m <> [] -> (0 < total (map_values m))%Q.
Proof.
  intros Hc Hne. destruct m as [|[k v] m]; [ congruence | ].
  inversion Hc as [|? ? Hv Hm]; subst. simpl in Hv.
  unfold map_values; simpl. rewrite total_cons.
  apply Qlt_le_trans with (1 + 0)%Q; [ reflexivity | ].
  apply Qplus_le_compat; [ exact Hv | ].
  apply (total_nonneg Hm).
Qed.

(** Normalising a non-empty map of counts yields masses that add up to
    one. *)
Lemma normalize_total {K : Type} (m : list (K * Q)) :
  counted m -> m <> [] -> (total (map_values (normalize m)) == 1)%Q.
Proof.
  intros Hc Hne. unfold normalize. rewrite total_scaled.
  apply Qmult_inv_r.
  intros H0. pose proof (total_positive Hc Hne) as Hp.
  rewrite H0 in Hp. discriminate.
Qed.

(** ** The training loops keep the counts positive *)

Section Bump.
Variable K : Type.
Variable K_eq_dec : forall a b : K, {a = b} + {a <> b}.

Lemma map_get_counted (m : list (K * Q)) (k : K) (v : Q) :
  counted m -> map_get K_eq_dec m k = Some v -> (1 <= v)%Q.
Proof.
  induction 1 as [|[k' v'] m Hv _ IH]; simpl; [ discriminate | ].
  destruct (K_eq_dec k k'); [ | exact IH ].
  intros E; injection E as <-. exact Hv.
Qed.

Lemma map_set_Forall (V : Type) (P : K * V -> Prop)
    (m : list (K * V)) (k : K) (v : V) :
  Forall P m -> (forall k', P (k', v)) ->
  Forall P (map_set K_eq_dec m k v).
Proof.
  intros Hm Hv. induction Hm as [|[k' v'] m Hx Hm IH]; simpl.
  - constructor; [ apply Hv | constructor ].
  - destruct (K_eq_dec k k'); constructor; auto.
Qed.

Lemma map_set_nonempty (V : Type) (m : list (K * V)) (k : K) (v : V) :
  map_set K_eq_dec m k v <> [].
Proof.
  destruct m as [|[k' v'] m]; simpl; [ discriminate | ].
  destruct (K_eq_dec k k'); discriminate.
Qed.

Lemma bump_counted (m : list (K * Q)) (k : K) :
  counted m -> counted (bump K_eq_dec m k).
Proof.
  intros Hm. unfold bump. apply map_set_Forall; [ exact Hm | ].
  intros k'. simpl.
  destruct (map_get K_eq_dec m k) as [v|] eqn:E.
  - pose proof (map_get_counted _ Hm E) as Hv.
    apply Qle_trans with (1 + 0)%Q; [ discriminate | ].
    apply Qplus_le_compat; [ exact Hv | discriminate ].
  - discriminate.
Qed.

Lemma bump_nonempty (m : list (K * Q)) (k : K) :
  bump K_eq_dec m k <> [].
Proof. apply map_set_nonempty. Qed.
End Bump.

(** Every state of the table has at least one transition, and every
    count is at least one. *)
Definition model_counted (m : list (str * list (char * Q))) : Prop :=
  Forall (fun st => snd st <> [] /\ counted (snd st)) m.

Lemma map_get_model_counted m state transitions :
  model_counted m ->
  map_get str_eq_dec m state = Some transitions ->
  counted transitions.
Proof.
  induction 1 as [|[k' v'] m [_ Hv] _ IH]; simpl; [ discriminate | ].
  destruct (str_eq_dec state k'); [ | exact IH ].
  intros E; injection E as <-. exact Hv.
Qed.

Lemma recordTransition_counted order password m i :
  model_counted m -> model_counted (recordTransition order password m i).
Proof.
  intros Hm. unfold recordTransition.
  destruct (nth_error password (i + order)) as [nextChar|]; [ | exact Hm ].
  apply map_set_Forall; [ exact Hm | ].
  intros k'. simpl. split; [ apply bump_nonempty | ].
  apply bump_counted.
  destruct (map_get str_eq_dec m (substring password i order)) eqn:E.
  - exact (map_get_model_counted _ Hm E).
  - constructor.
Qed.

Lemma transitions_counted order password (l : list nat) m :
  model_counted m ->
  model_counted (fold_left (recordTransition order password) l m).
Proof.
  revert m. induction l as [|i l IH]; intros m Hm; simpl; [ exact Hm | ].
  apply IH. apply recordTransition_counted. exact Hm.
Qed.

(** The invariant of the outer loop. *)
Definition training_inv (g : MarkovPasswordGenerator) : Prop :=
  model_counted (model g) /\ counted (startStates g).

Lemma trainOne_order g p : order (trainOne g p) = order g.
Proof.
  unfold trainOne. destruct (List.length p <? order g + 1); reflexivity.
Qed.

Lemma trainOne_inv g p : training_inv g -> training_inv (trainOne g p).
Proof.
  intros [Hm Hs]. unfold trainOne.
  destruct (List.length p <? order g + 1); [ split; assumption | ].
  split; simpl.
  - apply transitions_counted. exact Hm.
  - apply bump_counted. exact Hs.
Qed.

Lemma train_all_inv (passwords : list str) g :
  training_inv g -> training_inv (fold_left trainOne passwords g).
Proof.
  revert g. induction passwords as [|p l IH]; intros g Hg; simpl.
  - exact Hg.
  - apply IH. apply trainOne_inv. exact Hg.
Qed.

Lemma train_all_order (passwords : list str) g :
  order (fold_left trainOne passwords g) = order g.
Proof.
  revert g. induction passwords as [|p l IH]; intros g; simpl.
  - reflexivity.
  - rewrite IH. apply trainOne_order.
Qed.

(** Start states are never removed, and a password long enough adds
    one. *)
Lemma trainOne_keeps_start g p :
  startStates g <> [] -> startStates (trainOne g p) <> [].
Proof.
  intros H. unfold trainOne.
  destruct (List.length p <? order g + 1); [ exact H | ].
  simpl. apply bump_nonempty.
Qed.

Lemma train_all_keeps_start (passwords : list str) g :
  startStates g <> [] ->
  startStates (fold_left trainOne passwords g) <> [].
Proof.
  revert g. induction passwords as [|p l IH]; intros g Hg; simpl.
  - exact Hg.
  - apply IH. apply trainOne_keeps_start. exact Hg.
Qed.

Lemma train_all_start (passwords : list str) g p :
  In p passwords -> order g + 1 <= List.length p ->
  startStates (fold_left trainOne passwords g) <> [].
Proof.
  revert g. induction passwords as [|q l IH]; intros g Hin Hlen.
  - destruct Hin.
  - simpl. destruct Hin as [-> | Hin].
    + apply train_all_keeps_start. unfold trainOne.
      destruct (List.length p <? order g + 1) eqn:E.
      * apply Nat.ltb_lt in E. lia.
      * simpl. apply bump_nonempty.
    + apply IH; [ exact Hin | ]. rewrite trainOne_order. exact Hlen.
Qed.

(** Both tables of a trained model carry probabilities that add up to
    one, exactly. *)
Lemma trained_transitions_total this passwords order state transitions :
  In (state, transitions) (model (trainModel this passwords order)) ->
  (total (map_values transitions) == 1)%Q.
Proof.
  unfold trainModel, normalizeProbabilities. simpl.
  intros Hin. apply in_map_iff in Hin.
  destruct Hin as [[k counts] [E Hin]]. simpl in E.
  injection E as _ <-.
  set (g0 := {| model := []; startStates := []; order := order;
                trainingData := passwords |}) in *.
  assert (Hinv : training_inv (fold_left trainOne passwords g0)).
  { apply train_all_inv. split; constructor. }
  destruct Hinv as [Hm _].
  unfold model_counted in Hm. rewrite Forall_forall in Hm.
  destruct (Hm _ Hin) as [Hne Hc]. simpl in Hne, Hc.
  apply normalize_total; assumption.
Qed.

Lemma trained_starts_total this passwords order :
  (exists p, In p passwords /\ order + 1 <= List.length p) ->
  (total (map_values (startStates (trainModel this passwords order))) == 1)%Q.
Proof.
  intros [p [Hin Hlen]].
  unfold trainModel, normalizeProbabilities. simpl.
  set (g0 := {| model := []; startStates := []; order := order;
                trainingData := passwords |}) in *.
  apply normalize_total.
  - apply train_all_inv. split; constructor.
  - apply (@train_all_start passwords g0 p Hin). exact Hlen.
Qed.

(** A sum equal to one is within any tolerance of one. *)
Lemma within_tolerance (x : Q) :
  (x == 1)%Q -> (Qabs (x - 1) <= 1 # 1000000000)%Q.
Proof.
  intros H. rewrite H. discriminate.
Qed.

End TrainingFacts.

(* ================================================================== *)
(** * Reasoning about computations that draw random numbers *)
(* ================================================================== *)

Module RandFacts.

(** [sure m P]: from every state of the source [m] returns, and its
    value satisfies [P]. *)
Definition sure {A : Type} (m : M A) (P : A -> Prop) : Prop :=
  forall src i, exists a j, m src i = Returned (a, j) /\ P a.

(** [whenever m P]: when [m] returns, its value satisfies [P]. *)
Definition whenever {A : Type} (m : M A) (P : A -> Prop) : Prop :=
  forall src i a j, m src i = Returned (a, j) -> P a.

Lemma sure_ret {A : Type} (a : A) (P : A -> Prop) : P a -> sure (ret a) P.
Proof. intros H src i. exists a, i. split; [ reflexivity | exact H ]. Qed.

Lemma sure_bind {A B : Type} (m : M A) (k : A -> M B)
    (Q : A -> Prop) (P : B -> Prop) :
  sure m Q -> (forall a, Q a -> sure (k a) P) -> sure (bind m k) P.
Proof.
  intros Hm Hk src i.
  destruct (Hm src i) as [a [j [E Ha]]].
  destruct (Hk a Ha src j) as [b [j' [E' Hb]]].
  exists b, j'. unfold bind. rewrite E. split; assumption.
Qed.

Lemma sure_weaken {A : Type} (m : M A) (P Q : A -> Prop) :
  sure m P -> (forall a, P a -> Q a) -> sure m Q.
Proof.
  intros Hm HPQ src i. destruct (Hm src i) as [a [j [E Ha]]].
  exists a, j. split; [ exact E | apply HPQ; exact Ha ].
Qed.

Lemma sure_whenever {A : Type} (m : M A) (P : A -> Prop) :
  sure m P -> whenever m P.
Proof.
  intros Hm src i a j E. destruct (Hm src i) as [a' [j' [E' Ha]]].
  rewrite E in E'. injection E' as -> ->. exact Ha.
Qed.

Lemma whenever_ret {A : Type} (a : A) (P : A -> Prop) :
  P a -> whenever (ret a) P.
Proof. intros H src i a' j E. injection E as <- _. exact H. Qed.

Lemma whenever_bind {A B : Type} (m : M A) (k : A -> M B)
    (Q : A -> Prop) (P : B -> Prop) :
  whenever m Q -> (forall a, Q a -> whenever (k a) P) ->
  whenever (bind m k) P.
Proof.
  intros Hm Hk src i b j E. unfold bind in E.
  destruct (m src i) as [[a j']| |] eqn:Em; try discriminate.
  exact (Hk a (Hm _ _ _ _ Em) _ _ _ _ E).
Qed.

Lemma whenever_out_of_fuel {A : Type} (P : A -> Prop) :
  whenever (@out_of_fuel A) P.
Proof. intros src i a j E. discriminate. Qed.

Lemma whenever_throw {A : Type} (msg : string) (P : A -> Prop) :
  whenever (@throw A msg) P.
Proof. intros src i a j E. discriminate. Qed.

Lemma whenever_weaken {A : Type} (m : M A) (P Q : A -> Prop) :
  whenever m P -> (forall a, P a -> Q a) -> whenever m Q.
Proof. intros Hm HPQ src i a j E. apply HPQ. exact (Hm _ _ _ _ E). Qed.

(** ** Indices drawn from the source *)

Lemma floor_scale_lt (r : Q) (n : nat) :
  (0 <= r)%Q -> (r < 1)%Q -> 0 < n -> floor_scale r n < n.
Proof.
  intros H0 H1 Hn. unfold floor_scale.
  set (x := (r * inject_Z (Z.of_nat n))%Q).
  assert (Hpos : (0 < inject_Z (Z.of_nat n))%Q).
  { change 0%Q with (inject_Z 0). rewrite <- Zlt_Qlt. lia. }
  assert (Hx0 : (0 <= x)%Q).
  { unfold x. apply Qmult_le_0_compat; [ exact H0 | apply Qlt_le_weak; exact Hpos ]. }
  assert (Hx1 : (x < inject_Z (Z.of_nat n))%Q).
  { unfold x.
    setoid_replace (inject_Z (Z.of_nat n)) with (1 * inject_Z (Z.of_nat n))%Q at 2
      by ring.
    apply Qmult_lt_compat_r; assumption. }
  assert (Hf0 : (0 <= Qfloor x)%Z).
  { change 0%Z with (Qfloor 0). apply Qfloor_resp_le. exact Hx0. }
  assert (Hf1 : (Qfloor x < Z.of_nat n)%Z).
  { rewrite Zlt_Qlt. apply Qle_lt_trans with x; [ apply Qfloor_le | exact Hx1 ]. }
  lia.
Qed.

Lemma floor_scale_zero (r : Q) : floor_scale r 0 = 0.
Proof.
  unfold floor_scale. change (Z.of_nat 0) with 0%Z.
  assert (E : (r * inject_Z 0 == 0)%Q) by ring.
  rewrite (Qfloor_comp _ _ E). reflexivity.
Qed.

Lemma random_index_eq (n : nat) (src : Source) (i : nat) :
  random_index n src i = Returned (floor_scale (draw src i) n, S i).
Proof. reflexivity. Qed.

Lemma random_index_sure (n : nat) :
  0 < n -> sure (random_index n) (fun k => k < n).
Proof.
  intros Hn src i. exists (floor_scale (draw src i) n), (S i).
  split; [ reflexivity | ].
  destruct (draw_range src i) as [H0 H1].
  apply floor_scale_lt; assumption.
Qed.

Lemma random_index_total (n : nat) : sure (random_index n) (fun _ => True).
Proof.
  intros src i. exists (floor_scale (draw src i) n), (S i).
  split; [ reflexivity | exact I ].
Qed.

Lemma Math_random_sure : sure Math_random (fun _ => True).
Proof. intros src i. exists (draw src i), (S i). split; [ reflexivity | exact I ]. Qed.

(** ** Effectful maps *)

Lemma mapM_sure {A B : Type} (f : A -> M B) (P : B -> Prop) (l : list A) :
  (forall x, sure (f x) P) ->
  sure (mapM f l) (fun l' => List.length l' = List.length l /\ Forall P l').
Proof.
  intros Hf. induction l as [|x l IH]; simpl.
  - apply sure_ret. split; [ reflexivity | constructor ].
  - eapply sure_bind; [ apply Hf | ]. intros y Hy.
    eapply sure_bind; [ apply IH | ]. intros ys [Hlen Hys].
    apply sure_ret. split; [ simpl; congruence | constructor; assumption ].
Qed.

End RandFacts.

(* ================================================================== *)
(** * Properties of the Markov generator *)
(* ================================================================== *)

Module MarkovFacts.
Import Markov RandFacts.

(** ** Pools *)

Lemma filterCharsForConfig_subset chars config c :
  In c (filterCharsForConfig chars config) -> In c chars.
Proof.
  unfold filterCharsForConfig.
  destruct (avoidSimilar config), (avoidAmbiguous config); intros H;
    repeat (apply filter_In in H; destruct H as [H _]); exact H.
Qed.

(** The pool [getRandomFromChars] draws from. *)
Definition effectivePool (chars : str) (config : PasswordGeneratorConfig) : str :=
  match filterCharsForConfig chars config with
  | [] => chars
  | _ => filterCharsForConfig chars config
  end.

Lemma effectivePool_subset chars config c :
  In c (effectivePool chars config) -> In c chars.
Proof.
  unfold effectivePool.
  destruct (filterCharsForConfig chars config) as [|x l] eqn:E; intros H.
  - exact H.
  - apply (filterCharsForConfig_subset chars config). rewrite E. exact H.
Qed.

Lemma effectivePool_nonempty chars config :
  chars <> [] -> effectivePool chars config <> [].
Proof.
  intros Hne. unfold effectivePool.
  destruct (filterCharsForConfig chars config); [ exact Hne | discriminate ].
Qed.

Lemma getRandomFromPool_sure (pool : str) :
  pool <> [] -> sure (getRandomFromPool pool) (fun c => In c pool).
Proof.
  intros Hne. destruct pool as [|first rest]; [ congruence | ].
  unfold getRandomFromPool.
  eapply sure_bind; [ apply random_index_sure; simpl; lia | ].
  intros index Hlt. apply sure_ret. apply nth_In. exact Hlt.
Qed.

Lemma getRandomFromPool_total (pool : str) :
  sure (getRandomFromPool pool) (fun _ => True).
Proof.
  destruct pool as [|first rest].
  - apply sure_ret. exact I.
  - eapply sure_weaken; [ apply getRandomFromPool_sure; discriminate | ].
    intros; exact I.
Qed.

Lemma getRandomFromChars_sure (chars : str) config :
  chars <> [] ->
  sure (getRandomFromChars chars config)
       (fun c => In c (effectivePool chars config)).
Proof.
  intros Hne. unfold getRandomFromChars.
  apply (getRandomFromPool_sure (effectivePool_nonempty config Hne)).
Qed.

Lemma buildAllowedCharacterPool_nonempty config :
  buildAllowedCharacterPool config <> [].
Proof.
  unfold buildAllowedCharacterPool.
  destruct (includeLowercase config), (includeUppercase config),
    (includeNumbers config), (includeSymbols config);
    cbn [app getLowercaseChars getUppercaseChars getNumberChars getSymbolChars];
    match goal with
    | |- context [filterCharsForConfig ?p config] =>
        destruct (filterCharsForConfig p config); discriminate
    end.
Qed.

Lemma getRandomCharacter_sure config :
  sure (getRandomCharacter config)
       (fun c => In c (buildAllowedCharacterPool config)).
Proof.
  apply getRandomFromPool_sure. apply buildAllowedCharacterPool_nonempty.
Qed.

(** ** Lengths *)

Lemma firstn_In {A : Type} (n : nat) (l : list A) (x : A) :
  In x (firstn n l) -> In x l.
Proof.
  intros H. rewrite <- (firstn_skipn n l). apply in_or_app. left. exact H.
Qed.

Lemma array_set_length (a : str) (i : nat) (v : char) :
  i < List.length a -> List.length (array_set a i v) = List.length a.
Proof.
  revert i. induction a as [|x a IH]; intros i Hi; simpl in *; [ lia | ].
  destruct i as [|i]; simpl; [ reflexivity | ].
  rewrite IH by lia. reflexivity.
Qed.

Lemma pad_sure config (n : nat) (result : str) (P : char -> Prop) :
  Forall P result ->
  (forall c, In c (buildAllowedCharacterPool config) -> P c) ->
  sure (pad config n result)
       (fun s => List.length s = List.length result + n /\ Forall P s).
Proof.
  intros Hres HP. revert result Hres.
  induction n as [|n IH]; intros result Hres; simpl.
  - apply sure_ret. split; [ lia | exact Hres ].
  - eapply sure_bind; [ apply getRandomCharacter_sure | ].
    intros c Hc. eapply sure_weaken.
    + apply IH. apply Forall_app. split; [ exact Hres | ].
      constructor; [ apply HP; exact Hc | constructor ].
    + intros s [Hlen Hs]. split; [ | exact Hs ].
      rewrite Hlen, length_app. simpl. lia.
Qed.

Lemma selectNextCharacter_sure this currentState :
  sure (selectNextCharacter this currentState) (fun _ => True).
Proof.
  unfold selectNextCharacter.
  destruct (map_get str_eq_dec (model this) currentState) as [[|t ts]|].
  - apply sure_ret. exact I.
  - eapply sure_bind; [ apply Math_random_sure | ].
    intros r _. apply sure_ret. exact I.
  - apply sure_ret. exact I.
Qed.

Lemma chain_sure this (n : nat) (password currentState : str) :
  sure (chain this n password currentState)
       (fun s => List.length password <= List.length s).
Proof.
  revert password currentState.
  induction n as [|n IH]; intros password currentState; simpl.
  - apply sure_ret. lia.
  - eapply sure_bind; [ apply selectNextCharacter_sure | ].
    intros [c|] _.
    + eapply sure_weaken; [ apply IH | ].
      intros s Hs. rewrite length_app in Hs. simpl in Hs. lia.
    + apply sure_ret. lia.
Qed.

Lemma selectRandomStartState_sure this :
  sure (selectRandomStartState this) (fun _ => True).
Proof.
  unfold selectRandomStartState.
  eapply sure_bind; [ apply Math_random_sure | ].
  intros r _.
  destruct (walk r 0 (startStates this)).
  - apply sure_ret. exact I.
  - destruct (map_keys (startStates this)) as [|[|c k] ks];
      apply sure_ret; exact I.
Qed.

(** The base password is at least as long as the target. *)
Lemma generateBasePassword_sure this config :
  model this <> [] ->
  sure (generateBasePassword this config)
       (fun s => cfg_length config <= List.length s).
Proof.
  intros Hm. unfold generateBasePassword.
  destruct (model this) as [|st rest]; [ congruence | ].
  eapply sure_bind; [ apply selectRandomStartState_sure | ].
  intros startState _.
  eapply sure_bind; [ apply chain_sure | ].
  intros password Hp.
  eapply sure_weaken.
  - apply (@pad_sure config _ password (fun _ => True)).
    + apply Forall_forall. intros; exact I.
    + intros; exact I.
  - intros s [Hlen _]. lia.
Qed.

(** Sanitising cuts to the target length and leaves allowed characters
    only. *)
Lemma sanitizeToAllowedCharacters_sure password config :
  sure (sanitizeToAllowedCharacters password config)
       (fun s => List.length s = Nat.min (cfg_length config) (List.length password)
                 /\ Forall (fun c => In c (buildAllowedCharacterPool config)) s).
Proof.
  unfold sanitizeToAllowedCharacters.
  pose proof (buildAllowedCharacterPool_nonempty config) as Hne.
  destruct (buildAllowedCharacterPool config) as [|p0 pool] eqn:E;
    [ congruence | ].
  eapply sure_bind.
  - apply (@mapM_sure _ _ _ (fun c => In c (p0 :: pool))).
    intros c. unfold includes.
    destruct (in_dec char_eq_dec c (p0 :: pool)) as [Hin|Hout].
    + apply sure_ret. exact Hin.
    + apply getRandomFromPool_sure. discriminate.
  - intros sanitized [Hlen Hall]. apply sure_ret. unfold slice0. split.
    + rewrite length_firstn, Hlen. reflexivity.
    + apply Forall_forall. intros c Hc.
      rewrite Forall_forall in Hall. apply Hall.
      apply (firstn_In _ _ _ Hc).
Qed.

(** ** Character types and counts *)

(** The type [getCharacterType] finds; it always finds one. *)
Definition typeOf (c : char) : CharType :=
  if isUppercase c then uppercase
  else if isLowercase c then lowercase
  else if isNumber c then numbers
  else symbols.

Lemma getCharacterType_typeOf (c : char) :
  getCharacterType c = Some (typeOf c).
Proof.
  unfold getCharacterType, typeOf, isSymbol, Chars.isSymbol,
    isUppercase, isLowercase, isNumber.
  destruct (Chars.isUppercase c), (Chars.isLowercase c), (Chars.isNumber c);
    reflexivity.
Qed.

Definition isType (t : CharType) : char -> bool :=
  match t with
  | uppercase => isUppercase
  | lowercase => isLowercase
  | numbers => isNumber
  | symbols => isSymbol
  end.

Lemma isType_typeOf (t : CharType) (c : char) :
  isType t c = CharType_eqb (typeOf c) t.
Proof.
  unfold isType, typeOf, isSymbol, Chars.isSymbol, isUppercase, isLowercase,
    isNumber, Chars.isUppercase, Chars.isLowercase, Chars.isNumber.
  destruct t;
    destruct (N.leb_spec 65 c), (N.leb_spec c 90), (N.leb_spec 97 c),
      (N.leb_spec c 122), (N.leb_spec 48 c), (N.leb_spec c 57);
    simpl; try reflexivity; lia.
Qed.

Lemma CharType_eqb_eq (a b : CharType) : CharType_eqb a b = true <-> a = b.
Proof. destruct a, b; simpl; split; intros H; congruence. Qed.

Lemma CharType_eqb_refl (a : CharType) : CharType_eqb a a = true.
Proof. destruct a; reflexivity. Qed.

(** The number of characters of type [t]. *)
Definition cnt (t : CharType) (chars : str) : Z :=
  Z.of_nat (List.length (filter (isType t) chars)).

Lemma cget_countChars (t : CharType) (chars : str) :
  cget (countChars chars) t = cnt t chars.
Proof. destruct t; reflexivity. Qed.

Definition one_if (b : bool) : Z := if b then 1%Z else 0%Z.

Lemma cnt_cons (t : CharType) (c : char) (chars : str) :
  cnt t (c :: chars) = (one_if (isType t c) + cnt t chars)%Z.
Proof.
  unfold cnt, one_if. cbn [filter].
  destruct (isType t c); cbn [List.length]; lia.
Qed.

Lemma cnt_nil (t : CharType) : cnt t [] = 0%Z.
Proof. reflexivity. Qed.

Lemma cnt_nonneg (t : CharType) (chars : str) : (0 <= cnt t chars)%Z.
Proof. unfold cnt. lia. Qed.

Lemma cnt_total (chars : str) :
  (cnt uppercase chars + cnt lowercase chars + cnt numbers chars
   + cnt symbols chars = Z.of_nat (List.length chars))%Z.
Proof.
  induction chars as [|c chars IH]; [ reflexivity | ].
  rewrite !cnt_cons, !isType_typeOf.
  destruct (typeOf c); simpl List.length; unfold one_if; simpl CharType_eqb; lia.
Qed.

Lemma cnt_array_set (t : CharType) (chars : str) (idx : nat) (old v : char) :
  nth_error chars idx = Some old ->
  cnt t (array_set chars idx v)
  = (cnt t chars - one_if (isType t old) + one_if (isType t v))%Z.
Proof.
  revert idx. induction chars as [|c chars IH]; intros idx E.
  - destruct idx; discriminate.
  - destruct idx as [|idx]; simpl in E.
    + injection E as ->. simpl array_set. rewrite !cnt_cons. lia.
    + simpl array_set. rewrite !cnt_cons, (IH _ E). lia.
Qed.

Lemma cnt_positive_index (t : CharType) (chars : str) :
  (0 < cnt t chars)%Z ->
  exists idx c, nth_error chars idx = Some c /\ isType t c = true.
Proof.
  induction chars as [|c chars IH]; intros H.
  - rewrite cnt_nil in H. lia.
  - rewrite cnt_cons in H. destruct (isType t c) eqn:E.
    + exists 0, c. split; [ reflexivity | exact E ].
    + unfold one_if in H. destruct IH as [idx [c' [E1 E2]]]; [ lia | ].
      exists (S idx), c'. split; assumption.
Qed.

Lemma cget_cadd (c : Counts) (t t' : CharType) (d : Z) :
  cget (cadd c t d) t'
  = (cget c t' + (if CharType_eqb t t' then d else 0))%Z.
Proof. destruct t, t'; simpl; lia. Qed.

Lemma minimumsOf_range config (t : CharType) :
  (0 <= cget (minimumsOf config) t <= 2)%Z.
Proof.
  unfold minimumsOf.
  destruct t, (includeUppercase config), (includeLowercase config),
    (includeNumbers config), (includeSymbols config); simpl; lia.
Qed.

(** The sum of the four minimums of a configuration. *)
Definition sumOfMinimums (config : PasswordGeneratorConfig) : nat :=
  (if includeUppercase config then 1 else 0)
  + (if includeLowercase config then 1 else 0)
  + (if includeNumbers config then 2 else 0)
  + (if includeSymbols config then 2 else 0).

Lemma sumOfMinimums_cget config :
  (cget (minimumsOf config) uppercase + cget (minimumsOf config) lowercase
   + cget (minimumsOf config) numbers + cget (minimumsOf config) symbols
   = Z.of_nat (sumOfMinimums config))%Z.
Proof.
  unfold minimumsOf, sumOfMinimums.
  destruct (includeUppercase config), (includeLowercase config),
    (includeNumbers config), (includeSymbols config); reflexivity.
Qed.

(** ** Arrays of allowed characters *)

Lemma array_set_Forall (P : char -> Prop) (a : str) (i : nat) (v : char) :
  Forall P a -> P v -> Forall P (array_set a i v).
Proof.
  intros Ha Hv. revert i.
  induction Ha as [|x a Hx Ha IH]; intros i; simpl.
  - constructor; [ exact Hv | constructor ].
  - destruct i; constructor; auto.
Qed.

(** One category check keeps the length, and what it writes comes from
    the pool of the category with the exclusions applied. *)
Lemma ensureCategory_sure config (isRequired : bool)
    (predicate : char -> bool) (pool chars : str) (P : char -> Prop) :
  pool <> [] ->
  Forall P chars ->
  (isRequired = true -> forall c, In c (effectivePool pool config) -> P c) ->
  sure (ensureCategory config isRequired predicate pool chars)
       (fun s => List.length s = List.length chars /\ Forall P s).
Proof.
  intros Hpool Hchars HP. unfold ensureCategory.
  destruct isRequired; simpl negb; cbv iota;
    [ | apply sure_ret; split; [ reflexivity | exact Hchars ] ].
  destruct (existsb predicate chars);
    [ apply sure_ret; split; [ reflexivity | exact Hchars ] | ].
  destruct (List.length chars =? 0) eqn:E;
    [ apply sure_ret; split; [ reflexivity | exact Hchars ] | ].
  apply Nat.eqb_neq in E.
  eapply sure_bind; [ apply random_index_sure; lia | ].
  intros index Hidx.
  eapply sure_bind; [ apply (getRandomFromChars_sure config Hpool) | ].
  intros c Hc. apply sure_ret. split.
  - apply array_set_length. exact Hidx.
  - apply array_set_Forall; [ exact Hchars | apply HP; [ reflexivity | exact Hc ] ].
Qed.

Lemma pools_nonempty :
  getUppercaseChars <> [] /\ getLowercaseChars <> []
  /\ getNumberChars <> [] /\ getSymbolChars <> [].
Proof. repeat split; discriminate. Qed.

Lemma ensureCharacterCategories_sure config (password : str)
    (P : char -> Prop) :
  Forall P password ->
  (includeUppercase config = true ->
   forall c, In c (effectivePool getUppercaseChars config) -> P c) ->
  (includeLowercase config = true ->
   forall c, In c (effectivePool getLowercaseChars config) -> P c) ->
  (includeNumbers config = true ->
   forall c, In c (effectivePool getNumberChars config) -> P c) ->
  (includeSymbols config = true ->
   forall c, In c (effectivePool getSymbolChars config) -> P c) ->
  sure (ensureCharacterCategories password config)
       (fun s => List.length s = List.length password /\ Forall P s).
Proof.
  intros Hp HU HL HN HS. unfold ensureCharacterCategories.
  destruct pools_nonempty as [NU [NL [NN NS]]].
  eapply sure_bind;
    [ apply ensureCategory_sure; [ exact NU | exact Hp | exact HU ] | ].
  intros s1 [L1 P1].
  eapply sure_bind;
    [ apply ensureCategory_sure; [ exact NL | exact P1 | exact HL ] | ].
  intros s2 [L2 P2].
  eapply sure_bind;
    [ apply ensureCategory_sure; [ exact NN | exact P2 | exact HN ] | ].
  intros s3 [L3 P3].
  eapply sure_bind;
    [ apply ensureCategory_sure; [ exact NS | exact P3 | exact HS ] | ].
  intros s4 [L4 P4].
  apply sure_ret. split; [ congruence | exact P4 ].
Qed.

(** ** The search for an index to replace *)

Lemma canReplace_lt chars counts minimums targetType index :
  canReplace chars counts minimums targetType index = true ->
  index < List.length chars.
Proof.
  unfold canReplace. destruct (nth_error chars index) eqn:E; [ | discriminate ].
  intros _. apply nth_error_Some. congruence.
Qed.

Lemma canReplace_spec chars counts minimums targetType index :
  canReplace chars counts minimums targetType index = true <->
  exists c, nth_error chars index = Some c
            /\ typeOf c <> targetType
            /\ (cget minimums (typeOf c) <= cget counts (typeOf c) - 1)%Z.
Proof.
  unfold canReplace. destruct (nth_error chars index) as [c|].
  - rewrite getCharacterType_typeOf.
    destruct (CharType_eqb (typeOf c) targetType) eqn:E.
    + apply CharType_eqb_eq in E. split; [ discriminate | ].
      intros [c' [E' [Hne _]]]. injection E' as <-. contradiction.
    + assert (Hne : typeOf c <> targetType).
      { intros H. apply CharType_eqb_eq in H. congruence. }
      rewrite Z.leb_le. split.
      * intros H. exists c. repeat split; assumption.
      * intros [c' [E' [_ H]]]. injection E' as <-. exact H.
  - split; [ discriminate | ]. intros [c [E _]]. discriminate.
Qed.

Lemma randomSearch_sure chars counts minimums targetType attempts :
  sure (randomSearch chars counts minimums targetType attempts)
       (fun found => forall index, found = Some index ->
          canReplace chars counts minimums targetType index = true).
Proof.
  induction attempts as [|n IH]; simpl.
  - apply sure_ret. intros index E. discriminate.
  - eapply sure_bind; [ apply random_index_total | ].
    intros index _.
    destruct (canReplace chars counts minimums targetType index) eqn:E.
    + apply sure_ret. intros index' E'. injection E' as <-. exact E.
    + exact IH.
Qed.

(** On a non-empty array the index found lies inside the array. *)
Lemma findReplacementIndex_lt chars counts minimums targetType :
  0 < List.length chars ->
  sure (findReplacementIndex chars counts minimums targetType)
       (fun index => index < List.length chars).
Proof.
  intros Hlen. unfold findReplacementIndex.
  eapply sure_bind; [ apply randomSearch_sure | ].
  intros [index|] Hfound.
  - apply sure_ret. apply (canReplace_lt _ _ _ _ _ (Hfound _ eq_refl)).
  - destruct (find (canReplace chars counts minimums targetType)
                   (seq 0 (List.length chars))) as [index|] eqn:E.
    + apply sure_ret. apply find_some in E. destruct E as [_ E].
      apply (canReplace_lt _ _ _ _ _ E).
    + apply random_index_sure. exact Hlen.
Qed.

(** When some index can be replaced, the index found can be. *)
Lemma findReplacementIndex_good chars counts minimums targetType :
  (exists index, canReplace chars counts minimums targetType index = true) ->
  sure (findReplacementIndex chars counts minimums targetType)
       (fun index => canReplace chars counts minimums targetType index = true).
Proof.
  intros [good Hgood]. unfold findReplacementIndex.
  eapply sure_bind; [ apply randomSearch_sure | ].
  intros [index|] Hfound.
  - apply sure_ret. apply Hfound. reflexivity.
  - destruct (find (canReplace chars counts minimums targetType)
                   (seq 0 (List.length chars))) as [index|] eqn:E.
    + apply sure_ret. apply find_some in E. apply E.
    + exfalso. pose proof (find_none _ _ E good) as Hnone.
      rewrite Hgood in Hnone.
      assert (Hin : In good (seq 0 (List.length chars))).
      { apply in_seq. pose proof (canReplace_lt _ _ _ _ _ Hgood). lia. }
      specialize (Hnone Hin). discriminate.
Qed.

(** ** The replacement loop *)

Lemma whenever_true {A : Type} (m : M A) : whenever m (fun _ => True).
Proof. intros src i a j _. exact I. Qed.

Lemma replaceChar_counts chars counts index newChar newType old :
  nth_error chars index = Some old ->
  typeOf newChar = newType ->
  (forall t, cget counts t = cnt t chars) ->
  forall t,
    cget (snd (replaceChar chars counts index newChar newType)) t
    = cnt t (array_set chars index newChar).
Proof.
  intros E Hnew Hc t. unfold replaceChar.
  rewrite E, getCharacterType_typeOf. cbn [snd].
  rewrite !cget_cadd, (@cnt_array_set _ _ _ _ _ E), Hc, !isType_typeOf, Hnew.
  unfold one_if.
  destruct (CharType_eqb (typeOf old) t), (CharType_eqb newType t); lia.
Qed.

(** Whenever the loop ends, the array has kept its length and holds
    characters of the array it started from or of the pool. *)
Lemma ensureType_whenever (P : char -> Prop) fuel config minimums type pool :
  pool <> [] ->
  (forall c, In c (effectivePool pool config) -> P c) ->
  forall chars counts,
    0 < List.length chars -> Forall P chars ->
    whenever (ensureType fuel config minimums type pool chars counts)
             (fun st => List.length (fst st) = List.length chars
                        /\ Forall P (fst st)).
Proof.
  intros Hpool HP.
  induction fuel as [|fuel IH]; intros chars counts Hlen Hall; simpl;
    destruct (cget counts type <? cget minimums type)%Z;
    try (apply whenever_ret; split; [ reflexivity | exact Hall ]).
  - apply whenever_out_of_fuel.
  - eapply whenever_bind;
      [ apply sure_whenever; apply findReplacementIndex_lt; exact Hlen | ].
    intros index Hidx.
    eapply whenever_bind;
      [ apply sure_whenever; apply (getRandomFromChars_sure config Hpool) | ].
    intros newChar Hnew.
    unfold replaceChar.
    pose proof (@array_set_length chars index newChar Hidx) as Hset.
    eapply whenever_weaken.
    + apply IH; [ rewrite Hset; exact Hlen | ].
      apply array_set_Forall; [ exact Hall | apply HP; exact Hnew ].
    + intros st [H1 H2]. split; [ congruence | exact H2 ].
Qed.

(** Some index can be replaced as long as the target type is short of
    its minimum and the array is at least as long as the sum of the
    minimums. *)
Lemma replaceable_exists config type chars counts :
  (forall t, cget counts t = cnt t chars) ->
  sumOfMinimums config <= List.length chars ->
  (cget counts type < cget (minimumsOf config) type)%Z ->
  exists index, canReplace chars counts (minimumsOf config) type index = true.
Proof.
  intros Hc Hsum Hshort.
  assert (Hone : forall t', t' <> type ->
            (cget (minimumsOf config) t' + 1 <= cnt t' chars)%Z ->
            exists index,
              canReplace chars counts (minimumsOf config) type index = true).
  { intros t' Hne Hle.
    pose proof (minimumsOf_range config t') as Hr.
    destruct (@cnt_positive_index t' chars) as [index [c [E Ht]]]; [ lia | ].
    exists index. apply canReplace_spec. exists c.
    rewrite isType_typeOf in Ht. apply CharType_eqb_eq in Ht.
    rewrite Ht, Hc. repeat split; [ exact E | exact Hne | lia ]. }
  pose proof (cnt_total chars) as Htot.
  pose proof (sumOfMinimums_cget config) as Hmin.
  rewrite Hc in Hshort.
  destruct (Z_le_gt_dec (cget (minimumsOf config) uppercase + 1)
                        (cnt uppercase chars)) as [HU|HU],
           (Z_le_gt_dec (cget (minimumsOf config) lowercase + 1)
                        (cnt lowercase chars)) as [HL|HL],
           (Z_le_gt_dec (cget (minimumsOf config) numbers + 1)
                        (cnt numbers chars)) as [HN|HN],
           (Z_le_gt_dec (cget (minimumsOf config) symbols + 1)
                        (cnt symbols chars)) as [HS|HS];
    destruct type;
    try (apply (Hone uppercase); [ discriminate | exact HU ]);
    try (apply (Hone lowercase); [ discriminate | exact HL ]);
    try (apply (Hone numbers); [ discriminate | exact HN ]);
    try (apply (Hone symbols); [ discriminate | exact HS ]);
    lia.
Qed.

(** With an array at least as long as the sum of the minimums, the loop
    ends within [fuel] rounds, reaches the minimum of its type and takes
    no other type below a minimum it had reached. *)
Lemma ensureType_sure config type pool :
  pool <> [] ->
  (forall c, In c pool -> typeOf c = type) ->
  forall fuel chars counts,
    (forall t, cget counts t = cnt t chars) ->
    sumOfMinimums config <= List.length chars ->
    (cget (minimumsOf config) type - cget counts type <= Z.of_nat fuel)%Z ->
    sure (ensureType fuel config (minimumsOf config) type pool chars counts)
      (fun st =>
         (forall t, cget (snd st) t = cnt t (fst st))
         /\ List.length (fst st) = List.length chars
         /\ (cget (minimumsOf config) type <= cnt type (fst st))%Z
         /\ (forall t, t <> type ->
               (cget (minimumsOf config) t <= cnt t chars)%Z ->
               (cget (minimumsOf config) t <= cnt t (fst st))%Z)).
Proof.
  intros Hpool Htype.
  induction fuel as [|fuel IH]; intros chars counts Hc Hsum Hfuel; simpl;
    destruct (Z.ltb_spec (cget counts type) (cget (minimumsOf config) type))
      as [Hshort|Hdone];
    try (apply sure_ret; cbn [fst snd];
         split; [ exact Hc | ]; split; [ reflexivity | ];
         split; [ rewrite <- Hc; lia | ]; intros t _ H; exact H).
  - lia.
  - eapply sure_bind;
      [ apply findReplacementIndex_good;
        apply (@replaceable_exists config type chars counts Hc Hsum Hshort) | ].
    intros index Hgood.
    eapply sure_bind; [ apply (getRandomFromChars_sure config Hpool) | ].
    intros newChar Hnew.
    apply effectivePool_subset in Hnew. apply Htype in Hnew.
    apply canReplace_spec in Hgood.
    destruct Hgood as [old [E [Hne Hmin]]].
    pose proof (@replaceChar_counts chars counts index newChar type old E Hnew Hc) as Hc'.
    assert (Hidx : index < List.length chars).
    { apply nth_error_Some. congruence. }
    pose proof (@array_set_length chars index newChar Hidx) as Hset.
    assert (Hcnt : forall t,
              cnt t (array_set chars index newChar)
              = (cnt t chars - one_if (CharType_eqb (typeOf old) t)
                 + one_if (CharType_eqb type t))%Z).
    { intros t. rewrite (@cnt_array_set _ _ _ _ _ E), !isType_typeOf, Hnew.
      reflexivity. }
    assert (Hold : CharType_eqb (typeOf old) type = false).
    { destruct (CharType_eqb (typeOf old) type) eqn:B; [ | reflexivity ].
      apply CharType_eqb_eq in B. contradiction. }
    unfold replaceChar in *. cbn [snd] in Hc'.
    eapply sure_weaken.
    + apply IH; [ exact Hc' | rewrite Hset; exact Hsum | ].
      rewrite Hc', Hcnt, Hold, CharType_eqb_refl. unfold one_if.
      rewrite <- Hc. lia.
    + intros st [H1 [H2 [H3 H4]]].
      split; [ exact H1 | ]. split; [ congruence | ]. split; [ exact H3 | ].
      intros t Ht Hle. apply H4; [ exact Ht | ].
      rewrite Hcnt.
      assert (Ett : CharType_eqb type t = false).
      { destruct (CharType_eqb type t) eqn:B; [ | reflexivity ].
        apply CharType_eqb_eq in B. congruence. }
      rewrite Ett. unfold one_if.
      destruct (CharType_eqb (typeOf old) t) eqn:B.
      * apply CharType_eqb_eq in B. subst t. rewrite Hc in Hmin. lia.
      * lia.
Qed.

Lemma pool_types :
  (forall c, In c getSymbolChars -> typeOf c = symbols)
  /\ (forall c, In c getNumberChars -> typeOf c = numbers).
Proof.
  split; intros c Hc.
  - assert (H : forallb (fun c => CharType_eqb (typeOf c) symbols)
                        getSymbolChars = true) by reflexivity.
    rewrite forallb_forall in H. apply CharType_eqb_eq. apply H. exact Hc.
  - assert (H : forallb (fun c => CharType_eqb (typeOf c) numbers)
                        getNumberChars = true) by reflexivity.
    rewrite forallb_forall in H. apply CharType_eqb_eq. apply H. exact Hc.
Qed.

(** Whenever [ensureRequiredCharacters] returns, the length is kept. *)
Lemma ensureRequiredCharacters_whenever (P : char -> Prop) fuel password config :
  0 < List.length password ->
  Forall P password ->
  (includeSymbols config = true ->
   forall c, In c (effectivePool getSymbolChars config) -> P c) ->
  (includeNumbers config = true ->
   forall c, In c (effectivePool getNumberChars config) -> P c) ->
  whenever (ensureRequiredCharacters fuel password config)
           (fun s => List.length s = List.length password /\ Forall P s).
Proof.
  intros Hlen Hall HS HN. unfold ensureRequiredCharacters.
  destruct pools_nonempty as [_ [_ [NN NS]]].
  eapply whenever_bind with
    (Q := fun st => List.length (fst st) = List.length password
                    /\ Forall P (fst st)).
  - destruct (includeSymbols config) eqn:ES.
    + apply (@ensureType_whenever P fuel config (minimumsOf config) symbols
               getSymbolChars NS (HS eq_refl)); assumption.
    + apply whenever_ret. split; [ reflexivity | exact Hall ].
  - intros st1 [L1 P1].
    eapply whenever_bind with
      (Q := fun st => List.length (fst st) = List.length password
                      /\ Forall P (fst st)).
    + destruct (includeNumbers config) eqn:EN.
      * eapply whenever_weaken.
        -- apply (@ensureType_whenever P fuel config (minimumsOf config)
                    numbers getNumberChars NN (HN eq_refl));
             [ exact (eq_ind_r (fun n => 0 < n) Hlen L1) | exact P1 ].
        -- intros st [H1 H2]. split; [ exact (eq_trans H1 L1) | exact H2 ].
      * apply whenever_ret. split; assumption.
    + intros st2 [L2 P2]. apply whenever_ret. split; assumption.
Qed.

(** With a password at least as long as the sum of the minimums and two
    rounds of fuel, [ensureRequiredCharacters] returns a password with
    two symbols and two digits where they are required. *)
Lemma ensureRequiredCharacters_sure fuel password config :
  2 <= fuel ->
  sumOfMinimums config <= List.length password ->
  sure (ensureRequiredCharacters fuel password config)
       (fun s => List.length s = List.length password
                 /\ (includeSymbols config = true -> (2 <= cnt symbols s)%Z)
                 /\ (includeNumbers config = true -> (2 <= cnt numbers s)%Z)).
Proof.
  intros Hfuel Hsum. unfold ensureRequiredCharacters.
  destruct pools_nonempty as [_ [_ [NN NS]]].
  destruct pool_types as [TS TN].
  assert (Hc0 : forall t, cget (countChars password) t = cnt t password)
    by (intros t; apply cget_countChars).
  eapply sure_bind with
    (Q := fun st => (forall t, cget (snd st) t = cnt t (fst st))
                    /\ List.length (fst st) = List.length password
                    /\ (cget (minimumsOf config) symbols
                        <= cnt symbols (fst st))%Z).
  - destruct (includeSymbols config) eqn:ES.
    + eapply sure_weaken.
      * apply (@ensureType_sure config symbols getSymbolChars NS TS); [ exact Hc0 | exact Hsum | ].
        pose proof (minimumsOf_range config symbols).
        pose proof (cnt_nonneg symbols password). rewrite Hc0. lia.
      * intros st [H1 [H2 [H3 _]]]. repeat split; assumption.
    + apply sure_ret. cbn [fst snd]. split; [ exact Hc0 | ].
      split; [ reflexivity | ].
      unfold minimumsOf. rewrite ES. cbn [cget n_symbols].
      apply cnt_nonneg.
  - intros st1 [C1 [L1 S1]].
    eapply sure_bind with
      (Q := fun st => List.length (fst st) = List.length password
                      /\ (cget (minimumsOf config) symbols
                          <= cnt symbols (fst st))%Z
                      /\ (cget (minimumsOf config) numbers
                          <= cnt numbers (fst st))%Z).
    + destruct (includeNumbers config) eqn:EN.
      * eapply sure_weaken.
        -- apply (@ensureType_sure config numbers getNumberChars NN TN);
             [ exact C1
             | exact (eq_ind_r (fun n => sumOfMinimums config <= n) Hsum L1) | ].
           pose proof (minimumsOf_range config numbers).
           pose proof (cnt_nonneg numbers (fst st1)). rewrite C1. lia.
        -- intros st [H1 [H2 [H3 H4]]].
           split; [ exact (eq_trans H2 L1) | ]. split; [ | exact H3 ].
           apply H4; [ discriminate | exact S1 ].
      * apply sure_ret. split; [ exact L1 | ]. split; [ exact S1 | ].
        unfold minimumsOf. rewrite EN. cbn [cget n_numbers].
        apply cnt_nonneg.
    + intros st2 [L2 [S2 N2]]. apply sure_ret.
      split; [ exact L2 | ]. unfold minimumsOf in S2, N2. split.
      * intros E. rewrite E in S2. exact S2.
      * intros E. rewrite E in N2. exact N2.
Qed.

(** ** The pool of a required category lies in the allowed pool *)

(** A character that the exclusions of the configuration leave in. *)
Definition passes (config : PasswordGeneratorConfig) (c : char) : bool :=
  (negb (avoidSimilar config) || negb (includes similarChars c))
  && (negb (avoidAmbiguous config) || negb (includes ambiguousChars c)).

Lemma filterCharsForConfig_In chars config c :
  In c (filterCharsForConfig chars config)
  <-> In c chars /\ passes config c = true.
Proof.
  unfold filterCharsForConfig, passes.
  destruct (avoidSimilar config), (avoidAmbiguous config);
    cbn [negb orb]; rewrite ?filter_In, ?andb_true_iff; tauto.
Qed.

(** The union of the enabled categories, lowercase letters when none is
    enabled: the pool of [buildAllowedCharacterPool] before the
    exclusions. *)
Definition rawPool (config : PasswordGeneratorConfig) : str :=
  let pool := [] in
  let pool := if includeLowercase config then pool ++ getLowercaseChars else pool in
  let pool := if includeUppercase config then pool ++ getUppercaseChars else pool in
  let pool := if includeNumbers config then pool ++ getNumberChars else pool in
  let pool := if includeSymbols config then pool ++ getSymbolChars else pool in
  match pool with [] => pool ++ getLowercaseChars | _ => pool end.

Lemma buildAllowedCharacterPool_eq config :
  buildAllowedCharacterPool config = effectivePool (rawPool config) config.
Proof. reflexivity. Qed.

Lemma rawPool_includes config c :
  (includeLowercase config = true /\ In c getLowercaseChars)
  \/ (includeUppercase config = true /\ In c getUppercaseChars)
  \/ (includeNumbers config = true /\ In c getNumberChars)
  \/ (includeSymbols config = true /\ In c getSymbolChars) ->
  In c (rawPool config).
Proof.
  unfold rawPool.
  destruct (includeLowercase config), (includeUppercase config),
    (includeNumbers config), (includeSymbols config);
    cbn [app]; intros H;
    repeat match goal with
           | H : _ \/ _ |- _ => destruct H
           | H : _ /\ _ |- _ => destruct H
           end;
    try discriminate;
    match goal with
    | |- In c (match ?p with [] => _ | _ => _ end) =>
        let E := fresh in
        assert (E : In c p) by (rewrite ?in_app_iff; tauto);
        destruct p; [ destruct E | exact E ]
    end.
Qed.

Lemma category_filters_nonempty config :
  filterCharsForConfig getUppercaseChars config <> []
  /\ filterCharsForConfig getLowercaseChars config <> []
  /\ filterCharsForConfig getNumberChars config <> []
  /\ filterCharsForConfig getSymbolChars config <> [].
Proof.
  unfold filterCharsForConfig.
  destruct (avoidSimilar config), (avoidAmbiguous config);
    repeat split; discriminate.
Qed.

Lemma category_in_allowed config (category : str) (c : char) :
  (forall x, In x category -> In x (rawPool config)) ->
  filterCharsForConfig category config <> [] ->
  In c (effectivePool category config) ->
  In c (buildAllowedCharacterPool config).
Proof.
  intros Hincl Hne Hc.
  assert (Hf : In c (filterCharsForConfig category config)).
  { unfold effectivePool in Hc.
    destruct (filterCharsForConfig category config) eqn:E;
      [ congruence | exact Hc ]. }
  apply filterCharsForConfig_In in Hf. destruct Hf as [Hin Hpass].
  assert (Hr : In c (filterCharsForConfig (rawPool config) config)).
  { apply filterCharsForConfig_In. split; [ apply Hincl; exact Hin | exact Hpass ]. }
  rewrite buildAllowedCharacterPool_eq. unfold effectivePool.
  destruct (filterCharsForConfig (rawPool config) config) eqn:E;
    [ destruct Hr | exact Hr ].
Qed.

(** ** The entropy step and the whole pipeline *)

(** A password of the target length passes through [addEntropy]
    unchanged. *)
Lemma addEntropy_full password config src i :
  List.length password = cfg_length config ->
  addEntropy password config src i = Returned (password, i).
Proof.
  intros Hlen. unfold addEntropy, bind.
  assert (E : (List.length password <? cfg_length config) = false).
  { apply Nat.ltb_ge. lia. }
  rewrite E, andb_false_r.
  assert (S : slice0 password (cfg_length config) = password).
  { unfold slice0. rewrite <- Hlen. apply firstn_all. }
  destruct (Estimator.entropyBelow60 password); unfold ret; rewrite S;
    reflexivity.
Qed.

Lemma entropy_step_full password config :
  List.length password = cfg_length config ->
  sure (if Estimator.entropyBelow60 password
        then addEntropy password config else ret password)
       (fun s => s = password).
Proof.
  intros Hlen src i. exists password, i. split; [ | reflexivity ].
  destruct (Estimator.entropyBelow60 password);
    [ apply addEntropy_full; exact Hlen | reflexivity ].
Qed.

Lemma generateBasePassword_whenever this config :
  whenever (generateBasePassword this config)
           (fun s => cfg_length config <= List.length s).
Proof.
  destruct (model this) as [|st rest] eqn:E.
  - unfold generateBasePassword. rewrite E. apply whenever_throw.
  - apply sure_whenever. apply generateBasePassword_sure. congruence.
Qed.

Definition allowed (config : PasswordGeneratorConfig) (c : char) : Prop :=
  In c (buildAllowedCharacterPool config).

Lemma required_pools_allowed config :
  (includeUppercase config = true ->
   forall c, In c (effectivePool getUppercaseChars config) -> allowed config c)
  /\ (includeLowercase config = true ->
      forall c, In c (effectivePool getLowercaseChars config) -> allowed config c)
  /\ (includeNumbers config = true ->
      forall c, In c (effectivePool getNumberChars config) -> allowed config c)
  /\ (includeSymbols config = true ->
      forall c, In c (effectivePool getSymbolChars config) -> allowed config c).
Proof.
  destruct (category_filters_nonempty config) as [FU [FL [FN FS]]].
  split; [ | split; [ | split ] ]; intros E c Hc; unfold allowed;
    (eapply category_in_allowed; [ | | exact Hc ];
     [ intros x Hx; apply rawPool_includes; tauto | assumption ]).
Qed.

(** Whenever the Markov generator returns a password, it has the target
    length and holds characters of the allowed pool only. *)
Lemma generatePasswordString_whenever fuel this config :
  0 < cfg_length config ->
  whenever (generatePasswordString fuel this config)
           (fun s => List.length s = cfg_length config
                     /\ Forall (allowed config) s).
Proof.
  intros Hpos. unfold generatePasswordString.
  destruct (required_pools_allowed config) as [AU [AL [AN AS]]].
  eapply whenever_bind; [ apply generateBasePassword_whenever | ].
  intros base Hbase. unfold applySecurityImprovements.
  eapply whenever_bind;
    [ apply sure_whenever; apply sanitizeToAllowedCharacters_sure | ].
  intros s1 [L1 P1].
  assert (L1' : List.length s1 = cfg_length config)
    by exact (eq_trans L1 (Nat.min_l _ _ Hbase)).
  eapply whenever_bind;
    [ apply sure_whenever;
      apply (@ensureCharacterCategories_sure config s1 (allowed config)
               P1 AU AL AN AS) | ].
  intros s2 [L2 P2].
  eapply whenever_bind;
    [ apply (@ensureRequiredCharacters_whenever (allowed config) fuel s2 config);
      [ lia | exact P2 | exact AS | exact AN ] | ].
  intros s3 [L3 P3].
  eapply whenever_weaken;
    [ apply sure_whenever; apply entropy_step_full; lia | ].
  intros s ->. split; [ lia | exact P3 ].
Qed.

(** With two rounds of fuel, a trained model and a target length that
    leaves room for the minimums, the Markov generator returns a password
    of the target length with two symbols and two digits where they are
    required. *)
Lemma generatePasswordString_sure fuel this config :
  2 <= fuel ->
  model this <> [] ->
  sumOfMinimums config <= cfg_length config ->
  sure (generatePasswordString fuel this config)
       (fun s => List.length s = cfg_length config
                 /\ (includeSymbols config = true -> (2 <= cnt symbols s)%Z)
                 /\ (includeNumbers config = true -> (2 <= cnt numbers s)%Z)).
Proof.
  intros Hfuel Hmodel Hsum. unfold generatePasswordString.
  eapply sure_bind; [ apply (@generateBasePassword_sure this config Hmodel) | ].
  intros base Hbase. unfold applySecurityImprovements.
  eapply sure_bind; [ apply sanitizeToAllowedCharacters_sure | ].
  intros s1 [L1 _].
  assert (L1' : List.length s1 = cfg_length config)
    by exact (eq_trans L1 (Nat.min_l _ _ Hbase)).
  eapply sure_bind.
  { apply (@ensureCharacterCategories_sure config s1 (fun _ => True)).
    - apply Forall_forall. intros; exact I.
    - intros; exact I.
    - intros; exact I.
    - intros; exact I.
    - intros; exact I. }
  intros s2 [L2 _].
  eapply sure_bind;
    [ apply (@ensureRequiredCharacters_sure fuel s2 config Hfuel); lia | ].
  intros s3 [L3 [S3 N3]].
  eapply sure_weaken; [ apply entropy_step_full; lia | ].
  intros s ->. split; [ lia | ]. split; assumption.
Qed.

(** ** The allowed pool, spelled out *)

Lemma filtered_rawPool_nonempty config :
  filterCharsForConfig (rawPool config) config <> [].
Proof.
  unfold rawPool, filterCharsForConfig.
  destruct (includeLowercase config), (includeUppercase config),
    (includeNumbers config), (includeSymbols config),
    (avoidSimilar config), (avoidAmbiguous config); discriminate.
Qed.

(** The allowed pool is the union of the enabled categories without the
    excluded characters. *)
Lemma allowed_spec config (c : char) :
  allowed config c <-> In c (rawPool config) /\ passes config c = true.
Proof.
  unfold allowed. rewrite buildAllowedCharacterPool_eq. unfold effectivePool.
  pose proof (filtered_rawPool_nonempty config) as Hne.
  rewrite <- filterCharsForConfig_In.
  destruct (filterCharsForConfig (rawPool config) config);
    [ congruence | reflexivity ].
Qed.

Lemma passes_spec config (c : char) :
  passes config c = true <->
  (avoidSimilar config = true -> ~ In c similarChars)
  /\ (avoidAmbiguous config = true -> ~ In c ambiguousChars).
Proof.
  unfold passes, includes.
  destruct (in_dec char_eq_dec c similarChars) as [S|S],
           (in_dec char_eq_dec c ambiguousChars) as [A|A];
    destruct (avoidSimilar config), (avoidAmbiguous config);
    simpl;
    (split;
     [ intros H; try discriminate H; split; intros E; try discriminate E;
       assumption
     | intros [H1 H2]; try reflexivity; exfalso;
       first [ exact (H1 eq_refl S) | exact (H2 eq_refl A) ] ]).
Qed.

(** ** A loop that cannot end *)

(** [never m]: from every state of the source [m] runs out of fuel. *)
Definition never {A : Type} (m : M A) : Prop :=
  forall src i, m src i = OutOfFuel.

Lemma never_bind {A B : Type} (m : M A) (k : A -> M B) (Q : A -> Prop) :
  sure m Q -> (forall a, Q a -> never (k a)) -> never (bind m k).
Proof.
  intros Hm Hk src i. destruct (Hm src i) as [a [j [E Ha]]].
  unfold bind. rewrite E. apply Hk. exact Ha.
Qed.

Lemma never_bind_l {A B : Type} (m : M A) (k : A -> M B) :
  never m -> never (bind m k).
Proof. intros Hm src i. unfold bind. rewrite Hm. reflexivity. Qed.

(** On an array of one character of the target type, whose count is one
    short of a minimum of two, no round makes progress. *)
Lemma ensureType_never config minimums type pool :
  pool <> [] ->
  (forall x, In x pool -> typeOf x = type) ->
  cget minimums type = 2%Z ->
  forall fuel c counts,
    typeOf c = type -> cget counts type = 1%Z ->
    never (ensureType fuel config minimums type pool [c] counts).
Proof.
  intros Hpool Htype Hmin.
  induction fuel as [|fuel IH]; intros c counts Hc Hcount; simpl;
    rewrite Hcount, Hmin; cbn [Z.ltb Z.compare Pos.compare Pos.compare_cont].
  - intros src i. reflexivity.
  - eapply never_bind; [ apply findReplacementIndex_lt; simpl; lia | ].
    intros index Hidx. simpl in Hidx.
    assert (index = 0) by lia. subst index.
    eapply never_bind; [ apply (getRandomFromChars_sure config Hpool) | ].
    intros newChar Hnew.
    apply effectivePool_subset in Hnew. apply Htype in Hnew.
    unfold replaceChar. cbn [nth_error array_set].
    rewrite getCharacterType_typeOf, Hc.
    apply IH; [ exact Hnew | ].
    rewrite !cget_cadd, CharType_eqb_refl, Hcount. reflexivity.
Qed.

Lemma oneSymbol_pool :
  buildAllowedCharacterPool Inputs.oneSymbol = getSymbolChars.
Proof. reflexivity. Qed.

(** Asked for one character that must be a symbol, the Markov generator
    never returns: the loop that wants two symbols has one position to
    write to. *)
Lemma generatePasswordString_never fuel this :
  model this <> [] ->
  never (generatePasswordString fuel this Inputs.oneSymbol).
Proof.
  intros Hmodel. unfold generatePasswordString.
  destruct pool_types as [TS _].
  destruct pools_nonempty as [_ [_ [_ NS]]].
  eapply never_bind;
    [ apply (@generateBasePassword_sure this Inputs.oneSymbol Hmodel) | ].
  intros base Hbase. cbn [cfg_length Inputs.oneSymbol] in Hbase.
  unfold applySecurityImprovements.
  eapply never_bind; [ apply sanitizeToAllowedCharacters_sure | ].
  intros s1 [L1 P1]. cbn [cfg_length Inputs.oneSymbol] in L1.
  rewrite oneSymbol_pool in P1.
  assert (T1 : Forall (fun c => typeOf c = symbols) s1).
  { apply Forall_forall. intros c Hc. rewrite Forall_forall in P1.
    apply TS. apply P1. exact Hc. }
  eapply never_bind.
  { apply (@ensureCharacterCategories_sure Inputs.oneSymbol s1
             (fun c => typeOf c = symbols) T1).
    - intros E; discriminate E.
    - intros E; discriminate E.
    - intros E; discriminate E.
    - intros _ c Hc. apply TS. apply (effectivePool_subset _ _ _ Hc). }
  intros s2 [L2 T2].
  destruct s2 as [|c [|c' rest]]; simpl in L2; try lia.
  inversion T2 as [|? ? Hc _]; subst.
  apply never_bind_l. unfold ensureRequiredCharacters.
  apply never_bind_l. cbn [includeSymbols Inputs.oneSymbol].
  apply (@ensureType_never Inputs.oneSymbol (minimumsOf Inputs.oneSymbol)
           symbols getSymbolChars NS TS eq_refl fuel c (countChars [c]) Hc).
  rewrite cget_countChars, cnt_cons, isType_typeOf, Hc. reflexivity.
Qed.

(** ** From the password to the record *)

Definition recordOf (password : str) (config : PasswordGeneratorConfig)
    : GeneratedPassword :=
  {| password := password;
     entropy := calculateEntropy password;
     timeToCrack := calculateTimeToCrack password config;
     strengthLevel := Estimator.determineStrengthLevel (calculateEntropy password);
     generationMethod := markov |}.

Lemma generatePassword_run fuel this config src i :
  generatePassword fuel this config src i
  = match generatePasswordString fuel this config src i with
    | Returned (password, j) => Returned (recordOf password config, j)
    | Thrown msg => Thrown msg
    | OutOfFuel => OutOfFuel
    end.
Proof.
  unfold generatePassword, bind, ret.
  destruct (generatePasswordString fuel this config src i) as [[pw j]| |];
    reflexivity.
Qed.

End MarkovFacts.

(* ================================================================== *)
(** * Properties of the heuristic generator *)
(* ================================================================== *)

Module HeuristicFacts.
Import Heuristic RandFacts.

Lemma at_index_length (s : str) (i : nat) :
  i < List.length s -> List.length (at_index s i) = 1.
Proof.
  intros Hi. unfold at_index.
  destruct (nth_error s i) eqn:E; [ reflexivity | ].
  apply nth_error_None in E. (cbv beta in *; lia).
Qed.

Lemma appendRandom_sure (charset : str) (n : nat) (result : str) :
  charset <> [] ->
  sure (appendRandom charset n result)
       (fun s => List.length s = List.length result + n).
Proof.
  intros Hne. revert result. induction n as [|n IH]; intros result; simpl.
  - apply sure_ret. (cbv beta in *; lia).
  - eapply sure_bind.
    + apply random_index_sure. destruct charset; [ congruence | simpl; (cbv beta in *; lia) ].
    + intros index Hidx. eapply sure_weaken; [ apply IH | ].
      intros s Hs. rewrite Hs, length_app, (at_index_length _ Hidx). (cbv beta in *; lia).
Qed.

(** Some category is enabled. *)
Definition someCategory (config : PasswordGeneratorConfig) : bool :=
  includeLowercase config || includeUppercase config
  || includeNumbers config || includeSymbols config.

Lemma baseCharset_nonempty config :
  someCategory config = true -> baseCharset config <> [].
Proof.
  unfold someCategory, baseCharset, configuredCharset.
  destruct (includeLowercase config), (includeUppercase config),
    (includeNumbers config), (includeSymbols config),
    (avoidSimilar config), (avoidAmbiguous config);
    simpl; intros H; try discriminate H; discriminate.
Qed.

Lemma configuredCharset_nonempty config :
  someCategory config = true -> configuredCharset config <> [].
Proof.
  unfold someCategory, configuredCharset.
  destruct (includeLowercase config), (includeUppercase config),
    (includeNumbers config), (includeSymbols config);
    simpl; intros H; try discriminate H; discriminate.
Qed.

Lemma heuristic_generateBasePassword_sure config :
  someCategory config = true ->
  sure (generateBasePassword config)
       (fun s => List.length s = cfg_length config).
Proof.
  intros Hsome. pose proof (baseCharset_nonempty config Hsome) as Hne.
  unfold generateBasePassword.
  destruct (baseCharset config) as [|c0 cs] eqn:E; [ congruence | ].
  eapply sure_weaken; [ apply appendRandom_sure; discriminate | ].
  intros s Hs. simpl in Hs. exact Hs.
Qed.

(** ** The repairs keep the length *)

Lemma heuristic_ensureCategory_sure (required : bool) (category chars result : str) :
  category <> [] -> result <> [] ->
  sure (ensureCategory required category chars result)
       (fun s => List.length s = List.length result).
Proof.
  intros Hcat Hres. unfold ensureCategory.
  destruct (required && negb (existsb (includes category) chars));
    [ | apply sure_ret; reflexivity ].
  eapply sure_bind.
  { apply random_index_sure. destruct result; [ congruence | simpl; (cbv beta in *; lia) ]. }
  intros randomPos Hpos.
  eapply sure_bind.
  { apply random_index_sure. destruct category; [ congruence | simpl; (cbv beta in *; lia) ]. }
  intros index Hidx. apply sure_ret.
  rewrite !length_app, length_firstn, length_skipn, (at_index_length _ Hidx).
  (cbv beta in *; lia).
Qed.

Lemma nonempty_of_length (s : str) : 0 < List.length s -> s <> [].
Proof. destruct s; simpl; [ (cbv beta in *; lia) | discriminate ]. Qed.

Lemma heuristic_ensureCharacterCategories_sure password config :
  0 < List.length password ->
  sure (ensureCharacterCategories password config)
       (fun s => List.length s = List.length password).
Proof.
  intros Hlen. unfold ensureCharacterCategories.
  eapply sure_bind.
  { apply heuristic_ensureCategory_sure; [ discriminate | apply nonempty_of_length; exact Hlen ]. }
  intros s1 L1.
  eapply sure_bind.
  { apply heuristic_ensureCategory_sure; [ discriminate | apply nonempty_of_length; (cbv beta in *; lia) ]. }
  intros s2 L2.
  eapply sure_bind.
  { apply heuristic_ensureCategory_sure; [ discriminate | apply nonempty_of_length; (cbv beta in *; lia) ]. }
  intros s3 L3.
  eapply sure_bind.
  { apply heuristic_ensureCategory_sure; [ discriminate | apply nonempty_of_length; (cbv beta in *; lia) ]. }
  intros s4 L4. apply sure_ret. (cbv beta in *; lia).
Qed.

Lemma getAlternativeChars_nonempty (c : char) : getAlternativeChars c <> [].
Proof.
  unfold getAlternativeChars.
  destruct (includes lowercase c); [ discriminate | ].
  destruct (includes uppercase c); [ discriminate | ].
  destruct (includes numbers c); [ discriminate | ].
  destruct (includes symbols c); discriminate.
Qed.

Lemma replacementFor_sure (c : char) (n : nat) (replacement : str) :
  sure (replacementFor c n replacement)
       (fun s => List.length s = List.length replacement + n).
Proof.
  revert replacement. induction n as [|n IH]; intros replacement; simpl.
  - apply sure_ret. (cbv beta in *; lia).
  - pose proof (getAlternativeChars_nonempty c) as Hne.
    eapply sure_bind.
    + apply random_index_sure.
      destruct (getAlternativeChars c); [ congruence | simpl; (cbv beta in *; lia) ].
    + intros index Hidx. eapply sure_weaken; [ apply IH | ].
      intros s Hs. rewrite Hs, length_app, (at_index_length _ Hidx). (cbv beta in *; lia).
Qed.

Lemma runLength_le (c : char) (s : str) : runLength c s <= List.length s.
Proof.
  induction s as [|x s IH]; simpl; [ (cbv beta in *; lia) | ].
  destruct (x =? c)%N; (cbv beta in *; lia).
Qed.

Lemma replaceRuns_sure (fuel : nat) (s : str) :
  sure (replaceRuns fuel s) (fun r => List.length r = List.length s).
Proof.
  revert s. induction fuel as [|fuel IH]; intros s; cbn [replaceRuns].
  - apply sure_ret. reflexivity.
  - destruct s as [|c t]; [ apply sure_ret; reflexivity | ].
    destruct ((2 <=? runLength c t) && negb (isLineTerminator c)).
    + eapply sure_bind; [ apply replacementFor_sure | ].
      intros replacement Hr.
      eapply sure_bind; [ apply IH | ].
      intros rest Hrest. apply sure_ret.
      rewrite length_app, Hr, Hrest, length_skipn.
      pose proof (runLength_le c t). simpl. (cbv beta in *; lia).
    + eapply sure_bind; [ apply IH | ].
      intros rest Hrest. apply sure_ret. simpl. (cbv beta in *; lia).
Qed.

Lemma sequentialLoop_sure (n i : nat) (chars : str) :
  sure (sequentialLoop n i chars)
       (fun s => List.length s = List.length chars).
Proof.
  revert i chars. induction n as [|n IH]; intros i chars; simpl.
  - apply sure_ret. reflexivity.
  - destruct (nth_error chars i) as [char1|]; [ | apply IH ].
    destruct (nth_error chars (i + 1)) as [char2|] eqn:E2; [ | apply IH ].
    destruct (nth_error chars (i + 2)) as [char3|]; [ | apply IH ].
    destruct (isSequential char1 char2 char3); [ | apply IH ].
    eapply sure_bind; [ apply random_index_total | ].
    intros index _.
    destruct (nth_error (getAlternativeChars char2) index) as [randomChar|];
      [ | apply IH ].
    eapply sure_weaken; [ apply IH | ].
    intros s Hs. rewrite Hs. apply MarkovFacts.array_set_length.
    apply nth_error_Some. congruence.
Qed.

(** [Math.ceil(60 / Math.log2(size))] of the configured character set. *)
Definition neededLength (config : PasswordGeneratorConfig) : nat :=
  Estimator.ceilDivLog2 60 (getCharacterSetSize config).

Lemma addEntropy_sure password config :
  someCategory config = true ->
  sure (addEntropy password config)
       (fun s => List.length s
                 = if Estimator.entropyBelow60 password
                   then Nat.max (List.length password) (neededLength config)
                   else List.length password).
Proof.
  intros Hsome. unfold addEntropy.
  destruct (Estimator.entropyBelow60 password); [ | apply sure_ret; reflexivity ].
  eapply sure_weaken.
  - apply appendRandom_sure. apply configuredCharset_nonempty. exact Hsome.
  - intros s Hs. unfold neededLength. (cbv beta in *; lia).
Qed.

(** The heuristic generator returns a password at least as long as the
    target and at most as long as the larger of the target and the
    needed length. *)
Lemma heuristic_generatePasswordString_sure config :
  someCategory config = true ->
  0 < cfg_length config ->
  sure (generatePasswordString config)
       (fun s => cfg_length config <= List.length s
                 /\ List.length s <= Nat.max (cfg_length config)
                                             (neededLength config)).
Proof.
  intros Hsome Hpos. unfold generatePasswordString.
  eapply sure_bind; [ apply (heuristic_generateBasePassword_sure config Hsome) | ].
  intros base Hbase. unfold applyHeuristics.
  eapply sure_bind; [ apply heuristic_ensureCharacterCategories_sure; (cbv beta in *; lia) | ].
  intros s1 L1.
  eapply sure_bind; [ apply replaceRuns_sure | ].
  intros s2 L2.
  eapply sure_bind; [ apply sequentialLoop_sure | ].
  intros s3 L3.
  assert (L : List.length s3 = cfg_length config) by (cbv beta in *; lia).
  destruct (Estimator.entropyBelow60 s3) eqn:E.
  - eapply sure_weaken; [ apply (addEntropy_sure s3 config Hsome) | ].
    intros s Hs. rewrite E in Hs. (cbv beta in *; lia).
  - apply sure_ret. (cbv beta in *; lia).
Qed.

Definition recordOf (password : str) : GeneratedPassword :=
  {| password := password;
     entropy := calculateEntropy password;
     timeToCrack := calculateTimeToCrack (calculateEntropy password);
     strengthLevel := Estimator.determineStrengthLevel (calculateEntropy password);
     generationMethod := heuristic |}.

Lemma heuristic_generatePassword_run config src i :
  generatePassword config src i
  = match generatePasswordString config src i with
    | Returned (password, j) => Returned (recordOf password, j)
    | Thrown msg => Thrown msg
    | OutOfFuel => OutOfFuel
    end.
Proof.
  unfold generatePassword, bind, ret.
  destruct (generatePasswordString config src i) as [[pw j]| |]; reflexivity.
Qed.

End HeuristicFacts.

(* ================================================================== *)
(** * The claims about training *)
(* ================================================================== *)

Unset Implicit Arguments.

(** C4.  After [trainModel] on a corpus holding at least one password of
    length [order + 1] or more, the outgoing probabilities of every state
    of the transition map add up to 1 within 1e-9, and so do the
    probabilities of [startStates]. *)
Theorem trained_probabilities_sum_to_one :
  forall (this : Markov.MarkovPasswordGenerator) (passwords : list str)
         (order : nat),
    (exists p, In p passwords /\ order + 1 <= List.length p) ->
    let g := Markov.trainModel this passwords order in
    (forall state transitions,
        In (state, transitions) (Markov.model g) ->
        (Qabs (Markov.total (map_values transitions) - 1) <= 1 # 1000000000)%Q)
    /\ (Qabs (Markov.total (map_values (Markov.startStates g)) - 1)
        <= 1 # 1000000000)%Q.
Proof.
  intros this passwords order Hex g. split.
  - intros state transitions Hin.
    apply TrainingFacts.within_tolerance.
    exact (TrainingFacts.trained_transitions_total _ _ _ _ _ Hin).
  - apply TrainingFacts.within_tolerance.
    apply TrainingFacts.trained_starts_total. exact Hex.
Qed.

Lemma trained_probabilities_sum_to_one_witness :
  (exists p, In p Inputs.scenarioCorpus /\ 1 + 1 <= List.length p)
  /\ (Qabs (Markov.total (map_values (Markov.startStates
              (Markov.trainModel Markov.fresh Inputs.scenarioCorpus 1))) - 1)
      <= 1 # 1000000000)%Q.
Proof.
  assert (H : exists p, In p Inputs.scenarioCorpus /\ 1 + 1 <= List.length p).
  { exists (codes "password123"). split; [ left; reflexivity | simpl; lia ]. }
  split; [ exact H | ].
  exact (proj2 (trained_probabilities_sum_to_one Markov.fresh Inputs.scenarioCorpus 1 H)).
Defined.

(** C10.  [trainModel] is a function of the corpus and the order alone:
    whatever the generator held before, the transition map and the
    start-state map it holds afterwards are the same, and they are those
    a fresh generator gets. *)
Theorem trainModel_deterministic :
  forall (g1 g2 : Markov.MarkovPasswordGenerator) (passwords : list str)
         (order : nat),
    Markov.model (Markov.trainModel g1 passwords order)
    = Markov.model (Markov.trainModel g2 passwords order)
    /\ Markov.startStates (Markov.trainModel g1 passwords order)
       = Markov.startStates (Markov.trainModel g2 passwords order)
    /\ Markov.trainModel g1 passwords order
       = Markov.trainModel Markov.fresh passwords order.
Proof.
  intros g1 g2 passwords order.
  unfold Markov.trainModel. simpl. repeat split.
Qed.

(* ================================================================== *)
(** * The claims about the estimator *)
(* ================================================================== *)

Local Open Scope R_scope.

(** C8.  [calculateEntropy] returns the length times the base-2 logarithm
    of the effective alphabet size: with fewer than 26 distinct
    characters, the larger of the number of distinct characters and the
    sum of 26, 26, 10 and 32 over the categories present; otherwise the
    number of distinct characters.  Both generators compute it alike, and
    the entropy of [aaaa] is [4 * log2(26)], about 18.8 bits and not 0. *)
Theorem calculateEntropy_effective_alphabet :
  forall password : str,
    Markov.calculateEntropy password = Heuristic.calculateEntropy password
    /\ Markov.calculateEntropy password
       = Num.mul (Num.of_nat (List.length password))
           (Num.Math_log2
              (Num.of_nat
                 (if (distinct password <? 26)%nat
                  then Nat.max (distinct password)
                               (Spec.theoreticalSize password)
                  else distinct password)))
    /\ Markov.calculateEntropy (codes "aaaa") = Num.Fin (4 * (ln 26 / ln 2))
    /\ 188 / 10 < 4 * (ln 26 / ln 2) < 1881 / 100.
Proof.
  intros password. split; [ reflexivity | ]. split.
  - unfold Markov.calculateEntropy, Estimator.calculateEntropy.
    rewrite EntropyFacts.entropyForm_spec.
    unfold Estimator.eval, Spec.effectiveAlphabetSize. reflexivity.
  - split.
    + unfold Markov.calculateEntropy.
      rewrite EntropyFacts.calculateEntropy_nonempty by discriminate.
      f_equal. replace (Spec.effectiveAlphabetSize (codes "aaaa")) with 26%nat
        by reflexivity.
      replace (INR (List.length (codes "aaaa"))) with 4 by (simpl; ring).
      replace (INR 26) with 26 by (rewrite INR_IZR_INZ; reflexivity).
      reflexivity.
    + assert (H26 : 0 < 26) by lra.
      assert (Lo : INR 188 < INR 40 * (ln 26 / ln 2)).
      { apply (EstimatorFacts.pow_lt_log2 40 188 H26).
        change 26 with (IZR 26). change 2 with (IZR 2). rewrite !pow_IZR.
        apply IZR_lt. vm_compute. reflexivity. }
      assert (Hi : INR 400 * (ln 26 / ln 2) < INR 1881).
      { apply (EstimatorFacts.log2_lt_pow 400 1881 H26).
        change 26 with (IZR 26). change 2 with (IZR 2). rewrite !pow_IZR.
        apply IZR_lt. vm_compute. reflexivity. }
      rewrite !INR_IZR_INZ in Lo, Hi.
      change (IZR (Z.of_nat 188)) with 188 in Lo.
      change (IZR (Z.of_nat 40)) with 40 in Lo.
      replace (Z.of_nat 400) with 400%Z in Hi by (vm_compute; reflexivity).
      replace (Z.of_nat 1881) with 1881%Z in Hi by (vm_compute; reflexivity).
      lra.
Qed.





(* ================================================================== *)
(** * The claim about the comparison engine *)
(* ================================================================== *)

(** The four differences of a comparison. *)
Definition differences (c : Comparison.ComparisonAnalysis) : list Num.xreal :=
  let k := Comparison.comparison c in
  [ Comparison.difference (Comparison.entropyComparison k);
    Comparison.difference (Comparison.timeComparison k);
    Comparison.difference (Comparison.readabilityComparison k);
    Comparison.difference (Comparison.securityComplianceComparison k) ].

(** The four per-metric verdicts of a comparison. *)
Definition verdicts (c : Comparison.ComparisonAnalysis)
    : list Comparison.Approach :=
  let k := Comparison.comparison c in
  [ Comparison.better (Comparison.entropyComparison k);
    Comparison.better (Comparison.timeComparison k);
    Comparison.better (Comparison.readabilityComparison k);
    Comparison.better (Comparison.securityComplianceComparison k) ].

(** C9, as the code has it.  Comparing a batch with itself names
    [random] better on every metric and as the overall winner; and when
    the batch is not empty and its mean entropy and mean cracking time
    are finite numbers, every difference is exactly zero. *)
Theorem compare_batch_with_itself :
  forall batch : list GeneratedPassword,
    let c := Comparison.compareApproaches batch batch in
    let stats := Comparison.calculateStatistics batch in
    verdicts c = [Comparison.random; Comparison.random;
                  Comparison.random; Comparison.random]
    /\ Comparison.overallWinner (Comparison.a_recommendations c)
       = Comparison.random
    /\ (batch <> [] ->
        Num.is_finite (Comparison.e_average (Comparison.s_entropy stats)) ->
        Num.is_finite (Comparison.t_average (Comparison.crackingTime stats)) ->
        differences c = [Num.Fin 0; Num.Fin 0; Num.Fin 0; Num.Fin 0]).
Proof.
  intros batch c stats. split; [ | split ].
  - unfold verdicts, c, Comparison.compareApproaches,
      Comparison.generateComparison.
    cbn [Comparison.comparison Comparison.entropyComparison
         Comparison.timeComparison Comparison.readabilityComparison
         Comparison.securityComplianceComparison].
    rewrite !ComparisonFacts.compareMetric_tie. reflexivity.
  - unfold c, Comparison.compareApproaches, Comparison.generateRecommendations.
    cbn [Comparison.a_recommendations Comparison.overallWinner].
    rewrite ComparisonFacts.gtb_irrefl. reflexivity.
  - intros Hne He Ht. unfold stats in He, Ht.
    unfold differences, c, Comparison.compareApproaches,
      Comparison.generateComparison.
    cbn [Comparison.comparison Comparison.entropyComparison
         Comparison.timeComparison Comparison.readabilityComparison
         Comparison.securityComplianceComparison].
    pose proof (ComparisonFacts.averageScore_finite Hne) as Hr.
    pose proof (ComparisonFacts.bothRequirements_finite Hne) as Hb.
    change (Num.is_finite
              (Comparison.averageScore
                 (Comparison.readabilityScore
                    (Comparison.calculateStatistics batch)))) in Hr.
    change (Num.is_finite
              (Comparison.bothRequirementsMetPercentage
                 (Comparison.securityCompliance
                    (Comparison.calculateStatistics batch)))) in Hb.
    rewrite (ComparisonFacts.compareMetric_zero _ He).
    rewrite (ComparisonFacts.compareMetric_zero _ Ht).
    rewrite (ComparisonFacts.compareMetric_zero _ Hr).
    rewrite (ComparisonFacts.compareMetric_zero _ Hb).
    reflexivity.
Qed.

Lemma compare_batch_with_itself_witness :
  differences (Comparison.compareApproaches Inputs.finiteBatch Inputs.finiteBatch)
  = [Num.Fin 0; Num.Fin 0; Num.Fin 0; Num.Fin 0].
Proof.
  apply (proj2 (proj2 (compare_batch_with_itself Inputs.finiteBatch))).
  - discriminate.
  - change (Num.is_finite (Num.div (Num.sum [Num.Fin 70]) (Num.of_nat 1))).
    rewrite ComparisonFacts.average_single. exact I.
  - change (Num.is_finite (Num.div (Num.sum [Num.Fin 1000]) (Num.of_nat 1))).
    rewrite ComparisonFacts.average_single. exact I.
Defined.

(** C9 fails as stated: for the batch of one 250-character password,
    whose cracking time is [Infinity], the difference of the mean
    cracking times is [Infinity - Infinity], not zero. *)
Lemma self_comparison_not_zero :
  Inputs.unboundedBatch <> []
  /\ Comparison.difference
       (Comparison.timeComparison
          (Comparison.comparison
             (Comparison.compareApproaches Inputs.unboundedBatch
                                           Inputs.unboundedBatch)))
     <> Num.Fin 0.
Proof.
  split; [ discriminate | ].
  unfold Comparison.compareApproaches, Comparison.generateComparison,
    Comparison.calculateStatistics, Comparison.calculateTimeStatistics.
  cbn [Comparison.comparison Comparison.timeComparison Comparison.crackingTime
       Comparison.t_average Comparison.compareMetric Comparison.difference
       Inputs.unboundedBatch map List.length].
  unfold Num.sum. cbn [fold_left Inputs.longPassword timeToCrack years Num.add].
  unfold Num.of_nat. cbn [Num.div]. rewrite EstimatorFacts.sgn_INR.
  cbn [Num.sub]. discriminate.
Qed.

(* ================================================================== *)
(** * The claims about the generators *)
(* ================================================================== *)

Local Close Scope R_scope.

(** C1, as the code has it.  For a configuration of positive length: a
    password the Markov generator returns has exactly the configured
    length, and with a trained model, two rounds of fuel and a length that
    leaves room for the minimums it does return one; the heuristic
    generator, with some category enabled, returns a password at least as
    long as configured and at most as long as the larger of the
    configured length and [ceil(60 / log2(size))], because its entropy
    step appends without a cap. *)
Theorem generated_password_length :
  forall config : PasswordGeneratorConfig,
    0 < cfg_length config ->
    (forall fuel this src i gp j,
        Markov.generatePassword fuel this config src i = Returned (gp, j) ->
        List.length (password gp) = cfg_length config)
    /\ (forall fuel this src i,
          2 <= fuel -> Markov.model this <> [] ->
          MarkovFacts.sumOfMinimums config <= cfg_length config ->
          exists gp j,
            Markov.generatePassword fuel this config src i = Returned (gp, j))
    /\ (HeuristicFacts.someCategory config = true ->
        forall src i,
        exists gp j,
          Heuristic.generatePassword config src i = Returned (gp, j)
          /\ cfg_length config <= List.length (password gp)
          /\ List.length (password gp)
             <= Nat.max (cfg_length config) (HeuristicFacts.neededLength config)).
Proof.
  intros config Hpos. split; [ | split ].
  - intros fuel this src i gp j E.
    rewrite MarkovFacts.generatePassword_run in E.
    destruct (Markov.generatePasswordString fuel this config src i)
      as [[pw j']| |] eqn:Es; try discriminate.
    injection E as <- _. cbn [password MarkovFacts.recordOf].
    apply (@MarkovFacts.generatePasswordString_whenever fuel this config Hpos _ _ _ _ Es).
  - intros fuel this src i Hfuel Hmodel Hsum.
    destruct (@MarkovFacts.generatePasswordString_sure fuel this config
                Hfuel Hmodel Hsum src i) as [pw [j [E _]]].
    exists (MarkovFacts.recordOf pw config), j.
    rewrite MarkovFacts.generatePassword_run, E. reflexivity.
  - intros Hsome src i.
    destruct (@HeuristicFacts.heuristic_generatePasswordString_sure config Hsome Hpos
                src i) as [pw [j [E [Hlo Hhi]]]].
    exists (HeuristicFacts.recordOf pw), j.
    rewrite HeuristicFacts.heuristic_generatePassword_run, E.
    split; [ reflexivity | ]. cbn [password HeuristicFacts.recordOf].
    split; assumption.
Qed.

Lemma generated_password_length_witness :
  exists gp j,
    Markov.generatePassword 2 Inputs.trained Inputs.part2Config
                            Inputs.zeroSource 0 = Returned (gp, j)
    /\ List.length (password gp) = 12.
Proof.
  assert (Hpos : 0 < cfg_length Inputs.part2Config) by (simpl; lia).
  destruct (generated_password_length Inputs.part2Config Hpos) as [H1 [H2 _]].
  destruct (H2 2 Inputs.trained Inputs.zeroSource 0) as [gp [j E]].
  - lia.
  - vm_compute. discriminate.
  - vm_compute. lia.
  - exists gp, j. split; [ exact E | ]. exact (H1 _ _ _ _ _ _ E).
Defined.

(** C1 fails as stated: asked for eight characters of the four
    categories, the heuristic generator returns ten, [!aaaaaaaaa] when
    every draw is 0. *)
Lemma heuristic_password_longer_than_asked :
  exists gp j,
    Heuristic.generatePassword Inputs.eightOfAll Inputs.zeroSource 0
    = Returned (gp, j)
    /\ cfg_length Inputs.eightOfAll = 8
    /\ password gp = codes "!aaaaaaaaa"
    /\ List.length (password gp) = 10.
Proof.
  assert (E : Heuristic.generatePasswordString Inputs.eightOfAll
                Inputs.zeroSource 0
              = Returned (codes "!aaaaaaaaa", 22))
    by (vm_compute; reflexivity).
  exists (HeuristicFacts.recordOf (codes "!aaaaaaaaa")), 22.
  rewrite HeuristicFacts.heuristic_generatePassword_run, E. repeat split.
Qed.

(** C2: the heuristic generator breaks the claim.  With the configuration
    of [part2-password-generation.ts], which avoids similar characters,
    and draws that give the base password [aaaaaaaaaaaa] and then the
    positions 0, 1 and 2 for the missing categories, the password is
    [A0!aaaaaaaaa]: the digit written by [ensureCharacterCategories] comes
    from the unfiltered digits, and [0] is a similar character that the
    pool of the configuration leaves out. *)
Theorem heuristic_leaks_similar_character :
  exists gp j,
    Heuristic.generatePassword Inputs.part2Config Inputs.positionSource 0
    = Returned (gp, j)
    /\ password gp = codes "A0!aaaaaaaaa"
    /\ avoidSimilar Inputs.part2Config = true
    /\ In 48%N Chars.similarChars
    /\ In 48%N (password gp)
    /\ ~ In 48%N (Heuristic.baseCharset Inputs.part2Config).
Proof.
  assert (E : Heuristic.generatePasswordString Inputs.part2Config
                Inputs.positionSource 0
              = Returned (codes "A0!aaaaaaaaa", 26))
    by (vm_compute; reflexivity).
  exists (HeuristicFacts.recordOf (codes "A0!aaaaaaaaa")), 26.
  rewrite HeuristicFacts.heuristic_generatePassword_run, E.
  split; [ reflexivity | ]. split; [ reflexivity | ].
  split; [ reflexivity | ]. split; [ left; reflexivity | ].
  split; [ right; left; reflexivity | ].
  intros H.
  assert (F : includes (Heuristic.baseCharset Inputs.part2Config) 48%N
              = false) by (vm_compute; reflexivity).
  unfold includes in F.
  destruct (in_dec char_eq_dec 48%N
              (Heuristic.baseCharset Inputs.part2Config));
    [ discriminate F | contradiction ].
Qed.

(** C5, as the code has it.  The Markov generator, with a trained model,
    two rounds of fuel and a configured length no smaller than the sum of
    its minimums (1 for uppercase, 1 for lowercase, 2 for numbers, 2 for
    symbols, each when enabled), returns a password with at least two
    symbols when symbols are enabled and at least two digits when numbers
    are enabled. *)
Theorem markov_minimum_symbols_and_digits :
  forall fuel this config src i,
    2 <= fuel ->
    Markov.model this <> [] ->
    MarkovFacts.sumOfMinimums config <= cfg_length config ->
    exists gp j,
      Markov.generatePassword fuel this config src i = Returned (gp, j)
      /\ (includeSymbols config = true ->
          2 <= List.length (filter Markov.isSymbol (password gp)))
      /\ (includeNumbers config = true ->
          2 <= List.length (filter Markov.isNumber (password gp))).
Proof.
  intros fuel this config src i Hfuel Hmodel Hsum.
  destruct (@MarkovFacts.generatePasswordString_sure fuel this config
              Hfuel Hmodel Hsum src i) as [pw [j [E [_ [HS HN]]]]].
  exists (MarkovFacts.recordOf pw config), j.
  rewrite MarkovFacts.generatePassword_run, E.
  split; [ reflexivity | ]. cbn [password MarkovFacts.recordOf].
  unfold MarkovFacts.cnt in HS, HN. cbn [MarkovFacts.isType] in HS, HN.
  split; intros F; [ specialize (HS F) | specialize (HN F) ]; lia.
Qed.

Lemma markov_minimum_symbols_and_digits_witness :
  exists gp j,
    Markov.generatePassword 2 Inputs.trained Inputs.part2Config
                            Inputs.zeroSource 0 = Returned (gp, j)
    /\ 2 <= List.length (filter Markov.isSymbol (password gp))
    /\ 2 <= List.length (filter Markov.isNumber (password gp)).
Proof.
  destruct (markov_minimum_symbols_and_digits 2 Inputs.trained
              Inputs.part2Config Inputs.zeroSource 0)
    as [gp [j [E [HS HN]]]].
  - lia.
  - vm_compute. discriminate.
  - vm_compute. lia.
  - exists gp, j. split; [ exact E | ].
    split; [ apply HS | apply HN ]; reflexivity.
Defined.

(** C5 fails as stated: with the configuration of
    [part2-password-generation.ts], all four categories enabled, and every
    draw 0, the heuristic generator returns [!aaaaaaaaaaa], one symbol and
    no digit; it has no step that asks for two. *)
Lemma heuristic_single_symbol :
  exists gp j,
    Heuristic.generatePassword Inputs.part2Config Inputs.zeroSource 0
    = Returned (gp, j)
    /\ includeSymbols Inputs.part2Config = true
    /\ includeNumbers Inputs.part2Config = true
    /\ password gp = codes "!aaaaaaaaaaa"
    /\ List.length (filter Chars.isSymbol (password gp)) = 1
    /\ List.length (filter Chars.isNumber (password gp)) = 0.
Proof.
  assert (E : Heuristic.generatePasswordString Inputs.part2Config
                Inputs.zeroSource 0
              = Returned (codes "!aaaaaaaaaaa", 28))
    by (vm_compute; reflexivity).
  exists (HeuristicFacts.recordOf (codes "!aaaaaaaaaaa")), 28.
  rewrite HeuristicFacts.heuristic_generatePassword_run, E. repeat split.
Qed.

(** C7: the Markov generator breaks the claim.  Asked for a password of
    one character with symbols enabled, and whatever the model and the
    draws, [generatePassword] exhausts every amount of fuel: the loop of
    [ensureType] wants two symbols and every round rewrites the one
    position there is. *)
Theorem markov_generation_diverges :
  forall fuel this src i,
    Markov.model this <> [] ->
    Markov.generatePassword fuel this Inputs.oneSymbol src i = OutOfFuel.
Proof.
  intros fuel this src i Hmodel.
  rewrite MarkovFacts.generatePassword_run.
  rewrite (@MarkovFacts.generatePasswordString_never fuel this Hmodel src i).
  reflexivity.
Qed.

Lemma markov_generation_diverges_witness :
  Markov.generatePassword 1000 Inputs.trained Inputs.oneSymbol
                          Inputs.zeroSource 0 = OutOfFuel.
Proof.
  apply markov_generation_diverges. vm_compute. discriminate.
Defined.

(* ================================================================== *)
(** * Further properties *)
(* ================================================================== *)

(** X1.  Every character of a password the Markov generator returns, for
    a configuration of positive length, belongs to the union of the
    enabled categories (lowercase letters when none is enabled), is no
    similar character when similar characters are to be avoided, and no
    ambiguous character when ambiguous characters are to be avoided. *)
Theorem markov_password_within_pool :
  forall fuel this config src i gp j,
    0 < cfg_length config ->
    Markov.generatePassword fuel this config src i = Returned (gp, j) ->
    Forall (fun c =>
              In c (MarkovFacts.rawPool config)
              /\ (avoidSimilar config = true -> ~ In c Chars.similarChars)
              /\ (avoidAmbiguous config = true -> ~ In c Chars.ambiguousChars))
           (password gp).
Proof.
  intros fuel this config src i gp j Hpos E.
  rewrite MarkovFacts.generatePassword_run in E.
  destruct (Markov.generatePasswordString fuel this config src i)
    as [[pw j']| |] eqn:Es; try discriminate.
  injection E as <- _. cbn [password MarkovFacts.recordOf].
  destruct (@MarkovFacts.generatePasswordString_whenever fuel this config
              Hpos _ _ _ _ Es) as [_ Hall].
  apply Forall_forall. intros c Hc. rewrite Forall_forall in Hall.
  apply Hall in Hc. apply MarkovFacts.allowed_spec in Hc.
  destruct Hc as [Hin Hpass]. split; [ exact Hin | ].
  apply MarkovFacts.passes_spec. exact Hpass.
Qed.

Lemma markov_password_within_pool_witness :
  exists gp j,
    Markov.generatePassword 2 Inputs.trained Inputs.part2Config
                            Inputs.zeroSource 0 = Returned (gp, j)
    /\ Forall (fun c => ~ In c Chars.similarChars) (password gp).
Proof.
  assert (E : Markov.generatePasswordString 2 Inputs.trained Inputs.part2Config
                Inputs.zeroSource 0
              = Returned (codes "!!22ssssssss", 93))
    by (vm_compute; reflexivity).
  exists (MarkovFacts.recordOf (codes "!!22ssssssss") Inputs.part2Config), 93.
  assert (R : Markov.generatePassword 2 Inputs.trained Inputs.part2Config
                Inputs.zeroSource 0
              = Returned (MarkovFacts.recordOf (codes "!!22ssssssss")
                            Inputs.part2Config, 93)).
  { rewrite MarkovFacts.generatePassword_run, E. reflexivity. }
  split; [ exact R | ].
  assert (Hpos : 0 < cfg_length Inputs.part2Config) by (simpl; lia).
  pose proof (markov_password_within_pool _ _ _ _ _ _ _ Hpos R) as H.
  apply Forall_forall. intros c Hc. rewrite Forall_forall in H.
  destruct (H c Hc) as [_ [Hs _]]. apply Hs. reflexivity.
Defined.

(** The scenario of the specification: training on [password123],
    [letmein42] and [dragon99] with order 1 gives the start states [p],
    [l] and [d], each with probability 1/3, and from the state [a] the
    transitions to [s] and to [g], each with probability 1/2. *)
Theorem scenario_training :
  Markov.startStates Inputs.trained
  = [(codes "p", (1 # 3)%Q); (codes "l", (1 # 3)%Q); (codes "d", (1 # 3)%Q)]
  /\ map_get str_eq_dec (Markov.model Inputs.trained) (codes "a")
     = Some [(115%N, (1 # 2)%Q); (103%N, (1 # 2)%Q)].
Proof. split; vm_compute; reflexivity. Qed.

(** The test [calculateEntropy(password) < 60] that both generators
    make is decided exactly by comparing integer powers: it holds when
    the effective alphabet size to the power of the length is below
    [2 ^ 60] (and never for the empty password, whose entropy is NaN). *)
Theorem entropy_threshold_test :
  forall password : list N,
    Estimator.entropyBelow60 password
    = Num.ltb (Estimator.calculateEntropy password) (Num.Fin 60)
    /\ Estimator.entropyBelow60 password
       = match password with
         | [] => false
         | _ => (Z.of_nat (Spec.effectiveAlphabetSize password)
                 ^ Z.of_nat (List.length password) <? 2 ^ 60)%Z
         end.
Proof.
  intros password. split.
  - unfold Estimator.entropyBelow60, Estimator.calculateEntropy.
    rewrite EstimatorFacts.below_spec. unfold Num.of_nat.
    do 2 f_equal. rewrite INR_IZR_INZ. reflexivity.
  - unfold Estimator.entropyBelow60.
    rewrite EntropyFacts.entropyForm_spec. unfold Estimator.below.
    cbn [Estimator.coef Estimator.arg].
    destruct password as [|c t]; [ reflexivity | ].
    assert (Hpos : 1 <= Spec.effectiveAlphabetSize (c :: t))
      by (apply EntropyFacts.effectiveAlphabetSize_positive; discriminate).
    destruct (Spec.effectiveAlphabetSize (c :: t)); [ lia | reflexivity ].
Qed.

(** X2.  With some category enabled, the needed length of [addEntropy] is
    the ceiling of [60 / log2(size)] for the configured character set
    size (26, 26, 10 and 26 for the four categories). *)
Theorem needed_length_is_ceiling :
  forall config : PasswordGeneratorConfig,
    HeuristicFacts.someCategory config = true ->
    let size := Heuristic.getCharacterSetSize config in
    let needed := HeuristicFacts.neededLength config in
    (INR needed - 1 < 60 / (ln (INR size) / ln 2) <= INR needed)%R
    /\ Markov.getCharacterSetSize config = size.
Proof.
  intros config Hsome size needed.
  assert (Hsize : 2 <= size).
  { unfold size, Heuristic.getCharacterSetSize.
    unfold HeuristicFacts.someCategory in Hsome.
    destruct (includeLowercase config), (includeUppercase config),
      (includeNumbers config), (includeSymbols config);
      try discriminate Hsome; simpl; lia. }
  split; [ | reflexivity ].
  pose proof (@EstimatorFacts.ceilDivLog2_ceiling 60 size Hsize) as H.
  replace (INR 60) with 60%R in H by (rewrite INR_IZR_INZ; reflexivity).
  exact H.
Qed.

Lemma needed_length_is_ceiling_witness :
  (INR 13 - 1 < 60 / (ln (INR 26) / ln 2) <= INR 13)%R.
Proof.
  assert (H : HeuristicFacts.someCategory Inputs.fourLetters = true)
    by reflexivity.
  exact (proj1 (needed_length_is_ceiling Inputs.fourLetters H)).
Defined.

(* ================================================================== *)
(** * Bounds on the statistics of a batch *)
(* ================================================================== *)

Module StatisticsFacts.
Import Num Estimator EstimatorFacts EntropyFacts Comparison ComparisonFacts.
Local Open Scope R_scope.

(** ** Counting *)

Lemma countIf_le {A : Type} (p : A -> bool) (l : list A) :
  (countIf p l <= List.length l)%nat.
Proof. unfold countIf. apply filter_length_le. Qed.

Lemma countIf_cons {A : Type} (p : A -> bool) (x : A) (l : list A) :
  countIf p (x :: l) = ((if p x then 1 else 0) + countIf p l)%nat.
Proof. unfold countIf. simpl. destruct (p x); reflexivity. Qed.

(** Every password carries exactly one of the five levels. *)
Lemma levels_partition (passwords : list GeneratedPassword) :
  let tally level :=
    countIf (fun p => StrengthLevel_eqb (strengthLevel p) level) passwords in
  (tally VeryWeak + tally Weak + tally Average + tally Strong
   + tally VeryStrong = List.length passwords)%nat.
Proof.
  cbv zeta. induction passwords as [|p l IH]; [ reflexivity | ].
  rewrite !countIf_cons. cbn [List.length].
  destruct (strengthLevel p); cbn [StrengthLevel_eqb]; lia.
Qed.

Lemma countIf_and {A : Type} (p q : A -> bool) (l : list A) :
  (countIf (fun x => p x && q x) l <= countIf p l)%nat
  /\ (countIf (fun x => p x && q x) l <= countIf q l)%nat
  /\ (countIf p l + countIf q l
      <= countIf (fun x => p x && q x) l + List.length l)%nat.
Proof.
  induction l as [|x l IH]; [ unfold countIf; simpl; lia | ].
  rewrite !countIf_cons. cbn [List.length].
  destruct (p x), (q x); cbn [andb]; lia.
Qed.

Lemma percent_range (k n : nat) :
  (0 < n)%nat -> (k <= n)%nat -> 0 <= INR k / INR n * 100 <= 100.
Proof.
  intros Hn Hk.
  assert (Hn' : 0 < INR n) by (apply lt_0_INR; exact Hn).
  assert (Hk' : INR k <= INR n) by (apply le_INR; exact Hk).
  pose proof (pos_INR k) as Hk0.
  assert (H0 : 0 <= INR k / INR n).
  { apply Rmult_le_pos; [ exact Hk0 | ].
    left. apply Rinv_0_lt_compat. exact Hn'. }
  assert (H1 : INR k / INR n <= 1).
  { apply Rmult_le_reg_r with (INR n); [ exact Hn' | ].
    unfold Rdiv. rewrite Rmult_assoc, Rinv_l by lra. lra. }
  lra.
Qed.

(** ** The readability score of one password *)

Lemma readabilityOf_le (password : str) : (readabilityOf password <= 6)%nat.
Proof.
  unfold readabilityOf.
  destruct (hasCommonWords password), (hasPronounceablePatterns password),
    (hasReasonableLength password), (negb (hasExcessiveSymbols password)),
    (hasMixedCase password); simpl; lia.
Qed.

Lemma totalScore_acc (passwords : list GeneratedPassword) (acc : nat) :
  (fold_left (fun acc p => acc + readabilityOf (password p)) passwords acc
   <= acc + 6 * List.length passwords)%nat.
Proof.
  revert acc. induction passwords as [|p l IH]; intros acc; simpl; [ lia | ].
  specialize (IH (acc + readabilityOf (password p))%nat).
  pose proof (readabilityOf_le (password p)). lia.
Qed.

(** ** Values that are not below zero *)

(** [x >= 0] holds of the non-negative finite numbers and of
    [+Infinity]. *)
Definition nonneg (x : xreal) : Prop :=
  x = PosInf \/ exists r, x = Fin r /\ 0 <= r.

Lemma geb_zero_nonneg (x : xreal) : geb x (Fin 0) = true -> nonneg x.
Proof.
  destruct x as [| | |r]; simpl; try discriminate.
  - intros _. left. reflexivity.
  - destruct (Rle_dec 0 r) as [H|H]; [ | discriminate ].
    intros _. right. exists r. split; [ reflexivity | exact H ].
Qed.

Lemma add_nonneg (x y : xreal) : nonneg x -> nonneg y -> nonneg (add x y).
Proof.
  intros [->|[a [-> Ha]]] [->|[b [-> Hb]]]; simpl.
  - left. reflexivity.
  - left. reflexivity.
  - left. reflexivity.
  - right. exists (a + b). split; [ reflexivity | lra ].
Qed.

Lemma fold_add_nonneg (xs : list xreal) (acc : xreal) :
  nonneg acc -> Forall nonneg xs -> nonneg (fold_left add xs acc).
Proof.
  revert acc. induction xs as [|x xs IH]; intros acc Hacc Hall; simpl.
  - exact Hacc.
  - inversion Hall as [|? ? Hx Hxs]; subst.
    apply IH; [ apply add_nonneg; assumption | exact Hxs ].
Qed.

Lemma sum_nonneg (xs : list xreal) : Forall nonneg xs -> nonneg (sum xs).
Proof.
  intros H. unfold sum. apply fold_add_nonneg; [ | exact H ].
  right. exists 0. split; [ reflexivity | lra ].
Qed.

Lemma div_nonneg_pos (x : xreal) (d : R) :
  0 < d -> nonneg x -> nonneg (div x (Fin d)).
Proof.
  intros Hd [->|[a [-> Ha]]].
  - left. simpl. rewrite (sgn_pos Hd). reflexivity.
  - right. exists (a / d). rewrite (div_Fin_pos _ Hd).
    split; [ reflexivity | ].
    apply Rmult_le_pos; [ exact Ha | ].
    left. apply Rinv_0_lt_compat. exact Hd.
Qed.

(** [Math.min(x, 1) * 25] of a value that is not below zero lies
    between 0 and 25. *)
Lemma capped_quarter (x : xreal) :
  nonneg x ->
  exists s, mul (capAt1 x) (Fin 25) = Fin s /\ 0 <= s <= 25.
Proof.
  intros [->|[a [-> Ha]]]; unfold capAt1; simpl.
  - exists 25. split; [ f_equal; lra | lra ].
  - destruct (Rlt_dec 1 a) as [H|H]; simpl.
    + exists 25. split; [ f_equal; lra | lra ].
    + exists (a * 25). split; [ reflexivity | lra ].
Qed.

(** A percentage turned into a quarter of the overall score. *)
Lemma percent_quarter (p : R) :
  0 <= p <= 100 ->
  exists s, mul (div (Fin p) (Fin 100)) (Fin 25) = Fin s /\ 0 <= s <= 25.
Proof.
  intros Hp. rewrite div_Fin_pos by lra. simpl.
  exists (p / 100 * 25). split; [ reflexivity | lra ].
Qed.

(** ** Sums, minima and maxima of finite values *)

Definition rsum (rs : list R) : R := fold_right Rplus 0 rs.

Lemma fold_add_Fin (rs : list R) (a : R) :
  fold_left add (map Fin rs) (Fin a) = Fin (a + rsum rs).
Proof.
  revert a. induction rs as [|r rs IH]; intros a; simpl.
  - f_equal. lra.
  - rewrite IH. f_equal. lra.
Qed.

Lemma sum_Fin (rs : list R) : sum (map Fin rs) = Fin (rsum rs).
Proof. unfold sum. rewrite fold_add_Fin. f_equal. lra. Qed.

Lemma rsum_bounds (rs : list R) (lo hi : R) :
  (forall x, In x rs -> lo <= x <= hi) ->
  INR (List.length rs) * lo <= rsum rs <= INR (List.length rs) * hi.
Proof.
  induction rs as [|r rs IH]; intros H.
  - simpl. lra.
  - assert (Hr : lo <= r <= hi) by (apply H; left; reflexivity).
    assert (IH' : INR (List.length rs) * lo <= rsum rs
                  <= INR (List.length rs) * hi).
    { apply IH. intros x Hx. apply H. right. exact Hx. }
    cbn [List.length rsum fold_right]. fold (rsum rs).
    rewrite S_INR. lra.
Qed.

Lemma fold_min_Fin (rs : list R) (a : R) :
  exists m, fold_left min2 (map Fin rs) (Fin a) = Fin m
            /\ m <= a /\ (forall x, In x rs -> m <= x)
            /\ (m = a \/ In m rs).
Proof.
  revert a. induction rs as [|r rs IH]; intros a; simpl.
  - exists a. repeat split; [ lra | intros x [] | left; reflexivity ].
  - destruct (Rlt_dec r a) as [H|H].
    + destruct (IH r) as [m [E [Hm [Hall Hin]]]].
      exists m. split; [ exact E | ]. split; [ lra | ]. split.
      * intros x [<-|Hx]; [ exact Hm | apply Hall; exact Hx ].
      * right. destruct Hin as [->|Hin]; [ left; reflexivity | right; exact Hin ].
    + destruct (IH a) as [m [E [Hm [Hall Hin]]]].
      exists m. split; [ exact E | ]. split; [ exact Hm | ]. split.
      * intros x [<-|Hx]; [ lra | apply Hall; exact Hx ].
      * destruct Hin as [->|Hin]; [ left; reflexivity | right; right; exact Hin ].
Qed.

Lemma Math_min_Fin (rs : list R) :
  rs <> [] ->
  exists m, Math_min (map Fin rs) = Fin m
            /\ (forall x, In x rs -> m <= x) /\ In m rs.
Proof.
  destruct rs as [|r rs]; [ congruence | intros _ ].
  unfold Math_min. cbn [map fold_left min2 ltb].
  destruct (fold_min_Fin rs r) as [m [E [Hm [Hall Hin]]]].
  exists m. split; [ exact E | ]. split.
  - intros x [<-|Hx]; [ exact Hm | apply Hall; exact Hx ].
  - destruct Hin as [->|Hin]; [ left; reflexivity | right; exact Hin ].
Qed.

Lemma fold_max_Fin (rs : list R) (a : R) :
  exists m, fold_left max2 (map Fin rs) (Fin a) = Fin m
            /\ a <= m /\ (forall x, In x rs -> x <= m)
            /\ (m = a \/ In m rs).
Proof.
  revert a. induction rs as [|r rs IH]; intros a; simpl.
  - exists a. repeat split; [ lra | intros x [] | left; reflexivity ].
  - destruct (Rlt_dec a r) as [H|H].
    + destruct (IH r) as [m [E [Hm [Hall Hin]]]].
      exists m. split; [ exact E | ]. split; [ lra | ]. split.
      * intros x [<-|Hx]; [ exact Hm | apply Hall; exact Hx ].
      * right. destruct Hin as [->|Hin]; [ left; reflexivity | right; exact Hin ].
    + destruct (IH a) as [m [E [Hm [Hall Hin]]]].
      exists m. split; [ exact E | ]. split; [ exact Hm | ]. split.
      * intros x [<-|Hx]; [ lra | apply Hall; exact Hx ].
      * destruct Hin as [->|Hin]; [ left; reflexivity | right; right; exact Hin ].
Qed.

Lemma Math_max_Fin (rs : list R) :
  rs <> [] ->
  exists m, Math_max (map Fin rs) = Fin m
            /\ (forall x, In x rs -> x <= m) /\ In m rs.
Proof.
  destruct rs as [|r rs]; [ congruence | intros _ ].
  unfold Math_max. cbn [map fold_left max2 ltb].
  destruct (fold_max_Fin rs r) as [m [E [Hm [Hall Hin]]]].
  exists m. split; [ exact E | ]. split.
  - intros x [<-|Hx]; [ exact Hm | apply Hall; exact Hx ].
  - destruct Hin as [->|Hin]; [ left; reflexivity | right; exact Hin ].
Qed.

End StatisticsFacts.

(* ================================================================== *)
(** * Order statistics of finite values *)
(* ================================================================== *)

Module OrderFacts.
Import Num Estimator EstimatorFacts EntropyFacts Comparison ComparisonFacts.
Import StatisticsFacts.
Local Open Scope R_scope.

(** Whatever the comparator answers, the sorted copy holds the elements
    of the array. *)
Lemma insert_perm (x : xreal) (l : list xreal) :
  Permutation (insert x l) (x :: l).
Proof.
  induction l as [|y l IH]; simpl; [ apply Permutation_refl | ].
  destruct (ltb (sub y x) (Fin 0)).
  - eapply Permutation_trans; [ apply perm_skip; exact IH | apply perm_swap ].
  - apply Permutation_refl.
Qed.

Lemma sort_perm (l : list xreal) : Permutation (sort l) l.
Proof.
  unfold sort. induction l as [|x l IH]; simpl; [ apply Permutation_refl | ].
  eapply Permutation_trans; [ apply insert_perm | apply perm_skip; exact IH ].
Qed.

(** ** The sorted copy of finite values *)

Fixpoint rinsert (x : R) (l : list R) : list R :=
  match l with
  | [] => [x]
  | y :: rest => if Rlt_dec y x then y :: rinsert x rest else x :: y :: rest
  end.

Definition rsort (l : list R) : list R := fold_right rinsert [] l.

Lemma insert_Fin (x : R) (l : list R) :
  insert (Fin x) (map Fin l) = map Fin (rinsert x l).
Proof.
  induction l as [|y l IH]; [ reflexivity | ].
  cbn [map insert rinsert sub ltb].
  destruct (Rlt_dec (y - x) 0) as [H|H]; destruct (Rlt_dec y x) as [H'|H'];
    try lra.
  - cbn [map]. rewrite IH. reflexivity.
  - reflexivity.
Qed.

Lemma sort_Fin (l : list R) : sort (map Fin l) = map Fin (rsort l).
Proof.
  unfold sort, rsort. induction l as [|x l IH]; [ reflexivity | ].
  cbn [map fold_right]. rewrite IH. apply insert_Fin.
Qed.

Lemma rinsert_perm (x : R) (l : list R) :
  Permutation (rinsert x l) (x :: l).
Proof.
  induction l as [|y l IH]; cbn [rinsert]; [ apply Permutation_refl | ].
  destruct (Rlt_dec y x).
  - eapply Permutation_trans; [ apply perm_skip; exact IH | apply perm_swap ].
  - apply Permutation_refl.
Qed.

Lemma rsort_perm (l : list R) : Permutation (rsort l) l.
Proof.
  unfold rsort. induction l as [|x l IH]; cbn [fold_right];
    [ apply Permutation_refl | ].
  eapply Permutation_trans; [ apply rinsert_perm | apply perm_skip; exact IH ].
Qed.

Fixpoint ascending (l : list R) : Prop :=
  match l with
  | [] => True
  | x :: t => (forall y, In y t -> x <= y) /\ ascending t
  end.

Lemma rinsert_In (x : R) (l : list R) (y : R) :
  In y (rinsert x l) -> y = x \/ In y l.
Proof.
  induction l as [|a l IH]; cbn [rinsert].
  - intros [E|[]]. left. symmetry. exact E.
  - destruct (Rlt_dec a x).
    + intros [E|H]; [ right; left; exact E | ].
      destruct (IH H) as [E|H']; [ left; exact E | right; right; exact H' ].
    + intros [E|H]; [ left; symmetry; exact E | right; exact H ].
Qed.

Lemma rinsert_ascending (x : R) (l : list R) :
  ascending l -> ascending (rinsert x l).
Proof.
  induction l as [|a l IH]; intros H; cbn [rinsert].
  - split; [ intros y [] | exact I ].
  - destruct H as [Ha Hl]. destruct (Rlt_dec a x) as [L|L].
    + split; [ | apply IH; exact Hl ].
      intros y Hy. apply rinsert_In in Hy.
      destruct Hy as [->|Hy]; [ lra | apply Ha; exact Hy ].
    + split; [ | split; assumption ].
      intros y [<-|Hy]; [ lra | pose proof (Ha y Hy); lra ].
Qed.

Lemma rsort_ascending (l : list R) : ascending (rsort l).
Proof.
  unfold rsort. induction l as [|x l IH]; [ exact I | ].
  cbn [fold_right]. apply rinsert_ascending. exact IH.
Qed.

Lemma ascending_nth (l : list R) :
  ascending l ->
  forall i j, (i <= j < List.length l)%nat -> nth i l 0 <= nth j l 0.
Proof.
  induction l as [|a l IH]; intros H i j Hij; [ simpl in Hij; lia | ].
  destruct H as [Ha Hl]. cbn [List.length] in Hij.
  destruct i as [|i], j as [|j]; cbn [nth].
  - lra.
  - apply Ha. apply nth_In. lia.
  - lia.
  - apply IH; [ exact Hl | lia ].
Qed.

Lemma item_Fin (l : list R) (i : nat) :
  (i < List.length l)%nat ->
  item (map Fin l) (Z.of_nat i) = Fin (nth i l 0).
Proof.
  intros H. unfold item.
  destruct (Z.ltb_spec (Z.of_nat i) 0) as [N|_]; [ lia | ].
  rewrite Nat2Z.id, nth_error_map, (nth_error_nth' l 0 H). reflexivity.
Qed.

(** The median is read off the sorted copy. *)
Lemma medianOf_sorted (rs : list R) :
  rs <> [] ->
  medianOf (map Fin rs)
  = if (List.length rs mod 2 =? 0)%nat
    then Fin ((nth (List.length rs / 2 - 1) (rsort rs) 0
               + nth (List.length rs / 2) (rsort rs) 0) / 2)
    else Fin (nth (List.length rs / 2) (rsort rs) 0).
Proof.
  intros Hne. unfold medianOf. rewrite length_map, sort_Fin.
  assert (Hn : (0 < List.length rs)%nat) by (apply length_positive; exact Hne).
  assert (Hlen : List.length (rsort rs) = List.length rs)
    by (apply Permutation_length; apply rsort_perm).
  set (n := List.length rs) in *.
  assert (Hhalf : (n / 2 < n)%nat) by (apply Nat.div_lt; lia).
  destruct (Nat.eqb_spec (n mod 2) 0) as [Heven|Hodd].
  - assert (H2 : (1 <= n / 2)%nat).
    { destruct n as [|[|n']]; [ lia | simpl in Heven; lia | ].
      change (S (S n')) with (2 + n')%nat.
      replace (2 + n')%nat with (n' + 1 * 2)%nat by lia.
      rewrite Nat.div_add by lia. lia. }
    replace (Z.of_nat n / 2 - 1)%Z with (Z.of_nat (n / 2 - 1))
      by (rewrite Nat2Z.inj_sub by lia; rewrite Nat2Z.inj_div; reflexivity).
    replace (Z.of_nat n / 2)%Z with (Z.of_nat (n / 2))
      by (rewrite Nat2Z.inj_div; reflexivity).
    rewrite !item_Fin by lia.
    cbn [add]. apply div_Fin_pos. lra.
  - apply item_Fin. lia.
Qed.

(** The minimum is the first and the maximum the last element of the
    sorted copy. *)
Lemma Math_min_sorted (rs : list R) :
  rs <> [] -> Math_min (map Fin rs) = Fin (nth 0 (rsort rs) 0).
Proof.
  intros Hne. destruct (Math_min_Fin rs Hne) as [m [E [Hall Hin]]].
  rewrite E. f_equal.
  assert (Hn : (0 < List.length rs)%nat) by (apply length_positive; exact Hne).
  pose proof (rsort_perm rs) as P.
  pose proof (Permutation_length P) as Hlen.
  apply Rle_antisym.
  - apply Hall. apply (Permutation_in _ P). apply nth_In. lia.
  - apply (Permutation_in _ (Permutation_sym P)) in Hin.
    destruct (In_nth _ _ 0 Hin) as [k [Hk Ek]]. rewrite <- Ek.
    apply (ascending_nth (rsort rs) (rsort_ascending rs)). lia.
Qed.

Lemma Math_max_sorted (rs : list R) :
  rs <> [] ->
  Math_max (map Fin rs) = Fin (nth (List.length rs - 1) (rsort rs) 0).
Proof.
  intros Hne. destruct (Math_max_Fin rs Hne) as [m [E [Hall Hin]]].
  rewrite E. f_equal.
  assert (Hn : (0 < List.length rs)%nat) by (apply length_positive; exact Hne).
  pose proof (rsort_perm rs) as P.
  pose proof (Permutation_length P) as Hlen.
  apply Rle_antisym.
  - apply (Permutation_in _ (Permutation_sym P)) in Hin.
    destruct (In_nth _ _ 0 Hin) as [k [Hk Ek]]. rewrite <- Ek.
    apply (ascending_nth (rsort rs) (rsort_ascending rs)). lia.
  - apply Hall. apply (Permutation_in _ P). apply nth_In. lia.
Qed.

End OrderFacts.

(* ================================================================== *)
(** * Properties of the statistics of a batch *)
(* ================================================================== *)

(** X3.  On a batch that is not empty, every password counts for exactly
    one of the five strength levels, so the five counts of
    [calculateStrengthDistribution] add up to the size of the batch; each
    percentage is the count of its level divided by that size and
    multiplied by 100, a finite number between 0 and 100. *)
Theorem strength_distribution_counts_every_password :
  forall passwords : list GeneratedPassword,
    passwords <> [] ->
    let d := Comparison.calculateStrengthDistribution passwords in
    let n := List.length passwords in
    let count level :=
      Comparison.countIf
        (fun p => Comparison.StrengthLevel_eqb (strengthLevel p) level)
        passwords in
    count VeryWeak + count Weak + count Average + count Strong
    + count VeryStrong = n
    /\ Comparison.pctVeryWeak d = Num.Fin (INR (count VeryWeak) / INR n * 100)
    /\ Comparison.pctWeak d = Num.Fin (INR (count Weak) / INR n * 100)
    /\ Comparison.pctAverage d = Num.Fin (INR (count Average) / INR n * 100)
    /\ Comparison.pctStrong d = Num.Fin (INR (count Strong) / INR n * 100)
    /\ Comparison.pctVeryStrong d
       = Num.Fin (INR (count VeryStrong) / INR n * 100)
    /\ forall level, (0 <= INR (count level) / INR n * 100 <= 100)%R.
Proof.
  intros passwords Hne. cbv zeta.
  assert (Hn : 0 < List.length passwords)
    by (apply ComparisonFacts.length_positive; exact Hne).
  split; [ exact (StatisticsFacts.levels_partition passwords) | ].
  unfold Comparison.calculateStrengthDistribution.
  cbn [Comparison.pctVeryWeak Comparison.pctWeak Comparison.pctAverage
       Comparison.pctStrong Comparison.pctVeryStrong].
  rewrite !(fun k => @ComparisonFacts.percentOf_finite k _ Hn).
  repeat (split; [ reflexivity | ]).
  intros level. apply (StatisticsFacts.percent_range _ _ Hn).
  apply StatisticsFacts.countIf_le.
Qed.

Lemma strength_distribution_counts_every_password_witness :
  Comparison.pctVeryStrong
    (Comparison.calculateStrengthDistribution Inputs.finiteBatch)
  = Num.Fin
      (INR (Comparison.countIf
              (fun p => Comparison.StrengthLevel_eqb (strengthLevel p) VeryStrong)
              Inputs.finiteBatch)
       / INR (List.length Inputs.finiteBatch) * 100).
Proof.
  assert (Hne : Inputs.finiteBatch <> []) by discriminate.
  exact (proj1 (proj2 (proj2 (proj2 (proj2 (proj2
           (strength_distribution_counts_every_password
              Inputs.finiteBatch Hne))))))).
Defined.

(** X4.  On a batch that is not empty the total readability score is a
    whole number of at most 6 for every password; the average score is
    that total divided by the size of the batch, a finite number between
    0 and 6, and the percentage is the total divided by 6 times the size
    and multiplied by 100, a finite number between 0 and 100.  The
    description is the one of the average score. *)
Theorem readability_score_bounds :
  forall passwords : list GeneratedPassword,
    passwords <> [] ->
    let r := Comparison.calculateReadabilityScore passwords in
    let n := List.length passwords in
    exists totalScore : nat,
      totalScore <= 6 * n
      /\ Comparison.averageScore r = Num.Fin (INR totalScore / INR n)
      /\ Comparison.percentage r
         = Num.Fin (INR totalScore / INR (n * 6) * 100)
      /\ Comparison.description r
         = Comparison.getReadabilityDescription
             (Num.Fin (INR totalScore / INR n))
      /\ (0 <= INR totalScore / INR n <= 6)%R
      /\ (0 <= INR totalScore / INR (n * 6) * 100 <= 100)%R.
Proof.
  intros passwords Hne. cbv zeta.
  assert (Hn : 0 < List.length passwords)
    by (apply ComparisonFacts.length_positive; exact Hne).
  unfold Comparison.calculateReadabilityScore.
  cbn [Comparison.averageScore Comparison.percentage Comparison.description].
  set (total := fold_left _ passwords 0).
  assert (Ht : total <= 6 * List.length passwords).
  { pose proof (StatisticsFacts.totalScore_acc passwords 0) as H.
    fold total in H. lia. }
  set (n := List.length passwords) in *.
  assert (Hn6 : 0 < n * 6) by lia.
  assert (Hn' : (0 < INR n)%R) by (apply lt_0_INR; exact Hn).
  assert (Ht' : (INR total <= 6 * INR n)%R).
  { replace 6%R with (INR 6) by (simpl; lra).
    rewrite <- mult_INR. apply le_INR. exact Ht. }
  exists total. split; [ exact Ht | ].
  unfold Num.of_nat at 1 3 5.
  rewrite (@ComparisonFacts.div_count _ _ Hn).
  rewrite (@ComparisonFacts.div_count _ _ Hn6). cbn [Num.mul].
  split; [ reflexivity | ]. split; [ reflexivity | ].
  split; [ reflexivity | ]. split.
  - pose proof (pos_INR total) as H0. split.
    + apply Rmult_le_pos; [ exact H0 | ].
      left. apply Rinv_0_lt_compat. exact Hn'.
    + apply Rmult_le_reg_r with (INR n); [ exact Hn' | ].
      unfold Rdiv. rewrite Rmult_assoc, Rinv_l by lra. lra.
  - apply (StatisticsFacts.percent_range _ _ Hn6). lia.
Qed.

Lemma readability_score_bounds_witness :
  exists totalScore : nat,
    totalScore <= 6
    /\ Comparison.averageScore
         (Comparison.calculateReadabilityScore Inputs.finiteBatch)
       = Num.Fin (INR totalScore / INR 1).
Proof.
  assert (Hne : Inputs.finiteBatch <> []) by discriminate.
  destruct (readability_score_bounds Inputs.finiteBatch Hne)
    as [totalScore [Ht [Ea _]]].
  exists totalScore. split; [ exact Ht | exact Ea ].
Defined.

(** X5.  In [calculateSecurityCompliance] the number of passwords that
    meet both requirements is at most the number that meets either one,
    the two single counts together exceed it by at most the size of the
    batch, and on a batch that is not empty the three percentages are
    finite numbers between 0 and 100. *)
Theorem security_compliance_counts :
  forall passwords : list GeneratedPassword,
    let c := Comparison.calculateSecurityCompliance passwords in
    Comparison.bothRequirementsMet c <= Comparison.entropyAbove60Bits c
    /\ Comparison.bothRequirementsMet c <= Comparison.timeAbove10Years c
    /\ Comparison.entropyAbove60Bits c + Comparison.timeAbove10Years c
       <= Comparison.bothRequirementsMet c + List.length passwords
    /\ (passwords <> [] ->
        exists pe pt pb : R,
          Comparison.entropyAbove60BitsPercentage c = Num.Fin pe
          /\ Comparison.timeAbove10YearsPercentage c = Num.Fin pt
          /\ Comparison.bothRequirementsMetPercentage c = Num.Fin pb
          /\ (0 <= pb <= pe /\ pb <= pt /\ pe <= 100 /\ pt <= 100)%R).
Proof.
  intros passwords c. unfold c, Comparison.calculateSecurityCompliance.
  cbn [Comparison.bothRequirementsMet Comparison.entropyAbove60Bits
       Comparison.timeAbove10Years Comparison.entropyAbove60BitsPercentage
       Comparison.timeAbove10YearsPercentage
       Comparison.bothRequirementsMetPercentage].
  set (strong := fun p : GeneratedPassword => Num.geb (entropy p) (Num.Fin 60)).
  set (slow := fun p : GeneratedPassword =>
                 Num.geb (years (timeToCrack p)) (Num.Fin 10)).
  destruct (StatisticsFacts.countIf_and strong slow passwords)
    as [H1 [H2 H3]].
  split; [ exact H1 | ]. split; [ exact H2 | ]. split; [ exact H3 | ].
  intros Hne.
  assert (Hn : 0 < List.length passwords)
    by (apply ComparisonFacts.length_positive; exact Hne).
  rewrite !(fun k => @ComparisonFacts.percentOf_finite k _ Hn).
  do 3 eexists. split; [ reflexivity | ]. split; [ reflexivity | ].
  split; [ reflexivity | ].
  set (n := List.length passwords) in *.
  set (ke := Comparison.countIf strong passwords) in *.
  set (kt := Comparison.countIf slow passwords) in *.
  set (kb := Comparison.countIf (fun x => strong x && slow x) passwords) in *.
  assert (Hke : ke <= n) by apply StatisticsFacts.countIf_le.
  assert (Hkt : kt <= n) by apply StatisticsFacts.countIf_le.
  assert (Hn' : (0 < INR n)%R) by (apply lt_0_INR; exact Hn).
  assert (Hinv : (0 < / INR n)%R) by (apply Rinv_0_lt_compat; exact Hn').
  pose proof (pos_INR kb) as Hb0.
  apply le_INR in H1. apply le_INR in H2.
  apply le_INR in Hke. apply le_INR in Hkt.
  assert (M : forall x y : R, (x <= y)%R -> (x / INR n * 100 <= y / INR n * 100)%R).
  { intros x y Hxy. unfold Rdiv.
    apply Rmult_le_compat_r; [ lra | ].
    apply Rmult_le_compat_r; [ lra | exact Hxy ]. }
  assert (One : (INR n / INR n * 100 = 100)%R) by (field; lra).
  assert (Zero : (0 / INR n * 100 = 0)%R) by (field; lra).
  pose proof (M _ _ Hb0) as A0. rewrite Zero in A0.
  pose proof (M _ _ H1) as A1. pose proof (M _ _ H2) as A2.
  pose proof (M _ _ Hke) as A3. pose proof (M _ _ Hkt) as A4.
  rewrite One in A3, A4.
  repeat split; assumption.
Qed.

(** X6.  For a batch that is not empty and whose entropies and years
    to crack are not below zero (they may be [+Infinity]), the overall
    score of [calculateOverallScore] is a finite number between 0
    and 100. *)
Theorem overall_score_between_0_and_100 :
  forall passwords : list GeneratedPassword,
    passwords <> [] ->
    Forall (fun p => Num.geb (entropy p) (Num.Fin 0) = true
                     /\ Num.geb (years (timeToCrack p)) (Num.Fin 0) = true)
           passwords ->
    exists s : R,
      Comparison.calculateOverallScore
        (Comparison.calculateStatistics passwords) = Num.Fin s
      /\ (0 <= s <= 100)%R.
Proof.
  intros passwords Hne Hall.
  assert (Hn : 0 < List.length passwords)
    by (apply ComparisonFacts.length_positive; exact Hne).
  assert (Hn' : (0 < INR (List.length passwords))%R)
    by (apply lt_0_INR; exact Hn).
  unfold Comparison.calculateOverallScore, Comparison.calculateStatistics.
  cbn [Comparison.s_entropy Comparison.crackingTime
       Comparison.readabilityScore Comparison.securityCompliance].
  (* the entropy quarter *)
  assert (He : StatisticsFacts.nonneg
                 (Num.div (Comparison.e_average
                             (Comparison.calculateEntropyStatistics
                                (map entropy passwords))) (Num.Fin 60))).
  { apply StatisticsFacts.div_nonneg_pos; [ lra | ].
    unfold Comparison.calculateEntropyStatistics.
    cbn [Comparison.e_average]. rewrite length_map.
    apply StatisticsFacts.div_nonneg_pos; [ exact Hn' | ].
    apply StatisticsFacts.sum_nonneg.
    apply Forall_forall. intros x Hx. apply in_map_iff in Hx.
    destruct Hx as [p [<- Hp]]. rewrite Forall_forall in Hall.
    apply StatisticsFacts.geb_zero_nonneg. apply (Hall p Hp). }
  destruct (StatisticsFacts.capped_quarter _ He) as [se [Ee Hse]].
  (* the time quarter *)
  assert (Ht : StatisticsFacts.nonneg
                 (Num.div (Comparison.t_average
                             (Comparison.calculateTimeStatistics
                                (map (fun p => years (timeToCrack p))
                                     passwords))) (Num.Fin 10))).
  { apply StatisticsFacts.div_nonneg_pos; [ lra | ].
    unfold Comparison.calculateTimeStatistics.
    cbn [Comparison.t_average]. rewrite length_map.
    apply StatisticsFacts.div_nonneg_pos; [ exact Hn' | ].
    apply StatisticsFacts.sum_nonneg.
    apply Forall_forall. intros x Hx. apply in_map_iff in Hx.
    destruct Hx as [p [<- Hp]]. rewrite Forall_forall in Hall.
    apply StatisticsFacts.geb_zero_nonneg. apply (Hall p Hp). }
  destruct (StatisticsFacts.capped_quarter _ Ht) as [st [Et Hst]].
  (* the readability quarter *)
  assert (Hr : exists sr,
             Num.mul (Num.div (Comparison.percentage
                                 (Comparison.calculateReadabilityScore passwords))
                              (Num.Fin 100)) (Num.Fin 25) = Num.Fin sr
             /\ (0 <= sr <= 25)%R).
  { unfold Comparison.calculateReadabilityScore.
    cbn [Comparison.percentage].
    set (total := fold_left _ passwords 0).
    assert (Hle : total <= List.length passwords * 6).
    { pose proof (StatisticsFacts.totalScore_acc passwords 0) as H.
      fold total in H. lia. }
    assert (Hn6 : 0 < List.length passwords * 6) by lia.
    fold (Comparison.percentOf total (List.length passwords * 6)).
    rewrite (@ComparisonFacts.percentOf_finite total _ Hn6).
    apply StatisticsFacts.percent_quarter.
    apply StatisticsFacts.percent_range; assumption. }
  destruct Hr as [sr [Er Hsr]].
  (* the compliance quarter *)
  assert (Hc : exists sc,
             Num.mul (Num.div (Comparison.bothRequirementsMetPercentage
                                 (Comparison.calculateSecurityCompliance
                                    passwords))
                              (Num.Fin 100)) (Num.Fin 25) = Num.Fin sc
             /\ (0 <= sc <= 25)%R).
  { unfold Comparison.calculateSecurityCompliance.
    cbn [Comparison.bothRequirementsMetPercentage].
    rewrite (@ComparisonFacts.percentOf_finite _ _ Hn).
    apply StatisticsFacts.percent_quarter.
    apply StatisticsFacts.percent_range;
      [ exact Hn | apply StatisticsFacts.countIf_le ]. }
  destruct Hc as [sc [Ec Hsc]].
  unfold Comparison.capAt1 in *.
  rewrite Ee, Et, Er, Ec. cbn [Num.add].
  exists (se + st + sr + sc)%R. split; [ reflexivity | lra ].
Qed.

Lemma overall_score_between_0_and_100_witness :
  exists s : R,
    Comparison.calculateOverallScore
      (Comparison.calculateStatistics Inputs.finiteBatch) = Num.Fin s
    /\ (0 <= s <= 100)%R.
Proof.
  apply (overall_score_between_0_and_100 Inputs.finiteBatch).
  - discriminate.
  - repeat constructor; cbn [entropy years timeToCrack Inputs.finitePassword
                             Num.geb].
    + destruct (Rle_dec 0 70) as [_|H]; [ reflexivity | exfalso; lra ].
    + destruct (Rle_dec 0 1000) as [_|H]; [ reflexivity | exfalso; lra ].
Defined.

(** X7.  For values that are all finite and an array that is not empty,
    [calculateEntropyStatistics] and [calculateTimeStatistics] report the
    same minimum, median and maximum, read off the values in ascending
    order: the minimum is the first and the maximum the last of them, and
    the median is the middle one for an odd count and the sum of the two
    middle ones divided by 2 for an even count. *)
Theorem statistics_of_finite_values_ordered :
  forall rs : list R,
    rs <> [] ->
    let e := Comparison.calculateEntropyStatistics (map Num.Fin rs) in
    let t := Comparison.calculateTimeStatistics (map Num.Fin rs) in
    let n := List.length rs in
    exists ss : list R,
      Permutation ss rs
      /\ (forall i j, i <= j < n -> (nth i ss 0 <= nth j ss 0)%R)
      /\ Comparison.e_min e = Num.Fin (nth 0 ss 0%R)
      /\ Comparison.e_max e = Num.Fin (nth (n - 1) ss 0%R)
      /\ Comparison.e_median e
         = (if n mod 2 =? 0
            then Num.Fin ((nth (n / 2 - 1) ss 0 + nth (n / 2) ss 0) / 2)%R
            else Num.Fin (nth (n / 2) ss 0%R))
      /\ Comparison.t_min t = Comparison.e_min e
      /\ Comparison.t_max t = Comparison.e_max e
      /\ Comparison.t_median t = Comparison.e_median e.
Proof.
  intros rs Hne e t n. unfold e, t, n.
  unfold Comparison.calculateEntropyStatistics,
    Comparison.calculateTimeStatistics.
  cbn [Comparison.e_min Comparison.e_median Comparison.e_max
       Comparison.t_min Comparison.t_median Comparison.t_max].
  exists (OrderFacts.rsort rs).
  split; [ apply OrderFacts.rsort_perm | ].
  split.
  { intros i j Hij.
    apply (OrderFacts.ascending_nth _ (OrderFacts.rsort_ascending rs)).
    rewrite (Permutation_length (OrderFacts.rsort_perm rs)). exact Hij. }
  split; [ apply OrderFacts.Math_min_sorted; exact Hne | ].
  split; [ apply OrderFacts.Math_max_sorted; exact Hne | ].
  split; [ apply OrderFacts.medianOf_sorted; exact Hne | ].
  repeat split.
Qed.

Lemma statistics_of_finite_values_ordered_witness :
  exists ss : list R,
    Permutation ss [50; 70; 60]%R
    /\ Comparison.e_median (Comparison.calculateEntropyStatistics
                              (map Num.Fin [50; 70; 60]%R))
       = Num.Fin (nth 1 ss 0%R).
Proof.
  assert (Hne : [50; 70; 60]%R <> []) by discriminate.
  destruct (statistics_of_finite_values_ordered [50; 70; 60]%R Hne)
    as [ss [P [_ [_ [_ [M _]]]]]].
  exists ss. split; [ exact P | exact M ].
Defined.

(* ================================================================== *)
(** * The strength level and the two security requirements *)
(* ================================================================== *)

Module RequirementFacts.
Import Num Estimator EstimatorFacts EntropyFacts.
Local Open Scope R_scope.

(** The position of a level on the scale from "Very Weak" to
    "Very Strong". *)
Definition rank (level : StrengthLevel) : nat :=
  match level with
  | VeryWeak => 0
  | Weak => 1
  | Average => 2
  | Strong => 3
  | VeryStrong => 4
  end.

Lemma ltb_Fin_false (a b : R) : ltb (Fin a) (Fin b) = false <-> b <= a.
Proof.
  simpl. destruct (Rlt_dec a b); split; intros; try reflexivity;
    try discriminate; lra.
Qed.

Lemma determineStrengthLevel_monotone (a b : R) :
  a <= b ->
  (rank (determineStrengthLevel (Fin a))
   <= rank (determineStrengthLevel (Fin b)))%nat.
Proof.
  intros Hab. unfold determineStrengthLevel. cbn [ltb].
  destruct (Rlt_dec a 30), (Rlt_dec a 40), (Rlt_dec a 50), (Rlt_dec a 60),
    (Rlt_dec b 30), (Rlt_dec b 40), (Rlt_dec b 50), (Rlt_dec b 60);
    cbn [rank]; try lia; exfalso; lra.
Qed.

(** The years of [calculateTimeToCrack(entropy)] for a finite entropy. *)
Lemma heuristic_years (e : R) :
  years (Heuristic.calculateTimeToCrack (Fin e))
  = if Rlt_dec (Rpower 2 e) huge
    then Fin (Rpower 2 e / 10 ^ 12 / (36525 / 100 * 86400))
    else PosInf.
Proof.
  unfold Heuristic.calculateTimeToCrack, timesFromCombinations.
  cbn [years pow2 mul]. rewrite speeds_fast_value.
  rewrite seconds_overflow by (unfold Rpower; left; apply exp_pos).
  assert (Hy : 0 < 36525 / 100 * 86400) by lra.
  destruct (Rlt_dec (Rpower 2 e) huge) as [_|_].
  - apply div_Fin_pos. exact Hy.
  - cbn [div]. rewrite (sgn_pos Hy). reflexivity.
Qed.

Lemma two_pow_68_small : 2 ^ 68 < huge.
Proof. unfold huge. apply Rlt_pow; [ lra | lia ]. Qed.

Lemma two_pow_68 : 2 ^ 68 < 10 * 10 ^ 12 * (36525 / 100 * 86400).
Proof.
  replace (2 ^ 68) with (IZR (2 ^ 68)%Z) by (rewrite pow_IZR; reflexivity).
  replace (10 ^ 12) with (IZR (10 ^ 12)%Z) by (rewrite pow_IZR; reflexivity).
  replace (2 ^ 68)%Z with 295147905179352825856%Z by reflexivity.
  replace (10 ^ 12)%Z with 1000000000000%Z by reflexivity.
  lra.
Qed.

(** Ten years at [10 ^ 12] guesses a second are more than [2 ^ 68]
    guesses. *)
Lemma ten_years_need_68_bits (e : R) :
  geb (years (Heuristic.calculateTimeToCrack (Fin e))) (Fin 10) = true ->
  68 < e.
Proof.
  rewrite heuristic_years.
  assert (Hup : e <= 68 -> Rpower 2 e <= 2 ^ 68).
  { intros Hle. rewrite <- (Rpower_pow 68 2) by lra.
    apply Rle_Rpower; [ lra | ].
    replace (INR 68) with 68 by (rewrite INR_IZR_INZ; reflexivity).
    exact Hle. }
  destruct (Rlt_dec (Rpower 2 e) huge) as [_|Hbig].
  2:{ intros _. apply Rnot_le_lt. intros Hle.
      apply Hbig. pose proof (Hup Hle). pose proof two_pow_68_small. lra. }
  cbn [geb].
  destruct (Rle_dec 10 (Rpower 2 e / 10 ^ 12 / (36525 / 100 * 86400)))
    as [H|H]; [ intros _ | discriminate ].
  pose proof pow_10_12_pos as Hp.
  assert (Hge : 10 * 10 ^ 12 * (36525 / 100 * 86400) <= Rpower 2 e).
  { set (d := 10 ^ 12 * (36525 / 100 * 86400)).
    assert (Hd : 0 < d) by (unfold d; nra).
    replace (Rpower 2 e / 10 ^ 12 / (36525 / 100 * 86400))
      with (Rpower 2 e / d) in H by (unfold d; field; lra).
    assert (E : Rpower 2 e / d * d = Rpower 2 e) by (field; lra).
    apply Rmult_le_compat_r with (r := d) in H; [ | lra ].
    rewrite E in H. unfold d in H. lra. }
  apply Rnot_le_lt. intros Hle.
  pose proof (Hup Hle). pose proof two_pow_68. lra.
Qed.

(** The record of a heuristic password meets the 60-bit requirement as
    soon as it meets the ten-year requirement. *)
Lemma heuristic_record_slow_strong (pw : str) :
  geb (years (timeToCrack (HeuristicFacts.recordOf pw))) (Fin 10) = true ->
  ltb (Fin 68) (entropy (HeuristicFacts.recordOf pw)) = true
  /\ geb (entropy (HeuristicFacts.recordOf pw)) (Fin 60) = true.
Proof.
  unfold HeuristicFacts.recordOf. cbn [years timeToCrack entropy].
  unfold Heuristic.calculateEntropy.
  destruct pw as [|c t].
  - rewrite calculateEntropy_empty. cbn. discriminate.
  - assert (Hne : c :: t <> []) by discriminate.
    rewrite (calculateEntropy_nonempty Hne).
    intros H. apply ten_years_need_68_bits in H.
    split.
    + apply ltb_Fin. exact H.
    + cbn [geb]. destruct (Rle_dec 60 _) as [_|Hn]; [ reflexivity | lra ].
Qed.

End RequirementFacts.

(** X8.  [determineStrengthLevel] never rates a larger finite entropy
    below a smaller one; an entropy that is [NaN] passes every threshold
    test, so the empty password, whose entropy is [NaN], is rated
    "Very Strong". *)
Theorem strength_level_is_monotone :
  (forall a b : R,
      (a <= b)%R ->
      RequirementFacts.rank (Estimator.determineStrengthLevel (Num.Fin a))
      <= RequirementFacts.rank (Estimator.determineStrengthLevel (Num.Fin b)))
  /\ Estimator.determineStrengthLevel Num.NaN = VeryStrong
  /\ Estimator.determineStrengthLevel (Estimator.calculateEntropy [])
     = VeryStrong.
Proof.
  split; [ | split ].
  - intros a b Hab.
    apply RequirementFacts.determineStrengthLevel_monotone. exact Hab.
  - reflexivity.
  - rewrite EntropyFacts.calculateEntropy_empty. reflexivity.
Qed.

(** X9.  A password returned by the heuristic generator whose time to
    crack is ten years or more has an entropy above 68 bits; so in a
    batch of such passwords every password that meets the ten-year
    requirement meets the 60-bit requirement too, and
    [calculateSecurityCompliance] counts as many passwords for both
    requirements as for the ten years alone. *)
Theorem heuristic_ten_years_imply_sixty_bits :
  forall batch : list GeneratedPassword,
    Forall (fun gp => exists config src i j,
                Heuristic.generatePassword config src i = Returned (gp, j))
           batch ->
    Forall (fun gp => Num.geb (years (timeToCrack gp)) (Num.Fin 10) = true ->
                      Num.ltb (Num.Fin 68) (entropy gp) = true)
           batch
    /\ Comparison.bothRequirementsMet
         (Comparison.calculateSecurityCompliance batch)
       = Comparison.timeAbove10Years
           (Comparison.calculateSecurityCompliance batch).
Proof.
  intros batch Hgen.
  assert (Hrec : Forall (fun gp => exists pw, gp = HeuristicFacts.recordOf pw)
                        batch).
  { eapply Forall_impl; [ | exact Hgen ].
    intros gp [config [src [i [j E]]]].
    rewrite HeuristicFacts.heuristic_generatePassword_run in E.
    destruct (Heuristic.generatePasswordString config src i)
      as [[pw j']| |]; try discriminate.
    exists pw. congruence. }
  split.
  - eapply Forall_impl; [ | exact Hrec ].
    intros gp [pw ->] H.
    apply (RequirementFacts.heuristic_record_slow_strong pw H).
  - unfold Comparison.calculateSecurityCompliance.
    cbn [Comparison.bothRequirementsMet Comparison.timeAbove10Years].
    unfold Comparison.countIf. f_equal.
    induction batch as [|gp l IH]; [ reflexivity | ].
    inversion Hrec as [|? ? [pw Epw] Hl]; subst.
    inversion Hgen as [|? ? _ Hgl]; subst.
    cbn [filter].
    destruct (Num.geb (years (timeToCrack (HeuristicFacts.recordOf pw)))
                      (Num.Fin 10)) eqn:Es.
    + destruct (RequirementFacts.heuristic_record_slow_strong pw Es)
        as [_ Hstrong].
      rewrite Hstrong. cbn [andb]. f_equal. apply IH; assumption.
    + rewrite andb_false_r. apply IH; assumption.
Qed.

Lemma heuristic_ten_years_imply_sixty_bits_witness :
  exists gp,
    (exists j, Heuristic.generatePassword Inputs.part2Config Inputs.zeroSource 0
               = Returned (gp, j))
    /\ Comparison.bothRequirementsMet
         (Comparison.calculateSecurityCompliance [gp])
       = Comparison.timeAbove10Years
           (Comparison.calculateSecurityCompliance [gp]).
Proof.
  assert (E : Heuristic.generatePasswordString Inputs.part2Config
                Inputs.zeroSource 0
              = Returned (codes "!aaaaaaaaaaa", 28))
    by (vm_compute; reflexivity).
  assert (R : Heuristic.generatePassword Inputs.part2Config
                Inputs.zeroSource 0
              = Returned (HeuristicFacts.recordOf (codes "!aaaaaaaaaaa"), 28)).
  { rewrite HeuristicFacts.heuristic_generatePassword_run, E. reflexivity. }
  exists (HeuristicFacts.recordOf (codes "!aaaaaaaaaaa")).
  split; [ exists 28; exact R | ].
  apply (heuristic_ten_years_imply_sixty_bits
           [HeuristicFacts.recordOf (codes "!aaaaaaaaaaa")]).
  constructor; [ | constructor ].
  exists Inputs.part2Config, Inputs.zeroSource, 0, 28. exact R.
Defined.

(* ================================================================== *)
(** * What the heuristic generator keeps and what it does not *)
(* ================================================================== *)

Module HeuristicPoolFacts.
Import Heuristic RandFacts HeuristicFacts.

(** ** Characters read from a string *)

Lemma at_index_In (s : str) (i : nat) :
  i < List.length s -> exists c, at_index s i = [c] /\ In c s.
Proof.
  intros Hi. unfold at_index.
  destruct (nth_error s i) as [c|] eqn:E.
  - exists c. split; [ reflexivity | ]. apply (nth_error_In _ _ E).
  - apply nth_error_None in E. lia.
Qed.

Lemma length_positive_of (s : str) : s <> [] -> 0 < List.length s.
Proof. destruct s; [ congruence | simpl; lia ]. Qed.

Lemma appendRandom_Forall (P : char -> Prop) (charset : str) (n : nat)
    (result : str) :
  charset <> [] ->
  (forall c, In c charset -> P c) ->
  Forall P result ->
  sure (appendRandom charset n result)
       (fun s => List.length s = List.length result + n /\ Forall P s).
Proof.
  intros Hne Hset. revert result.
  induction n as [|n IH]; intros result Hres; simpl.
  - apply sure_ret. split; [ lia | exact Hres ].
  - eapply sure_bind.
    + apply random_index_sure. apply length_positive_of. exact Hne.
    + intros index Hidx. cbv beta in Hidx.
      destruct (at_index_In charset index Hidx) as [c [Ec Hc]].
      rewrite Ec.
      eapply sure_weaken.
      * apply IH. apply Forall_app. split; [ exact Hres | ].
        constructor; [ apply Hset; exact Hc | constructor ].
      * intros s [Hs Hall]. split; [ | exact Hall ].
        rewrite Hs, length_app. simpl. lia.
Qed.

(** ** The four blocks of [ensureCharacterCategories] *)

Lemma firstn_Forall (P : char -> Prop) (n : nat) (l : str) :
  Forall P l -> Forall P (firstn n l).
Proof.
  intros H. apply Forall_forall. intros x Hx.
  rewrite Forall_forall in H. apply H.
  apply (MarkovFacts.firstn_In n l x Hx).
Qed.

Lemma skipn_Forall (P : char -> Prop) (n : nat) (l : str) :
  Forall P l -> Forall P (skipn n l).
Proof.
  intros H. apply Forall_forall. intros x Hx.
  rewrite Forall_forall in H. apply H.
  rewrite <- (firstn_skipn n l). apply in_or_app. right. exact Hx.
Qed.

(** A block that writes keeps the length of a string that is not empty
    and turns the empty string into a string of one character. *)
Lemma ensureCategory_Forall (P : char -> Prop) (required : bool)
    (category chars result : str) :
  category <> [] ->
  (required = true -> forall c, In c category -> P c) ->
  Forall P result ->
  sure (ensureCategory required category chars result)
       (fun s => Forall P s
                 /\ List.length s
                    = if (required && negb (existsb (includes category) chars))
                         && (List.length result =? 0)
                      then 1 else List.length result).
Proof.
  intros Hcat Hset Hres. unfold ensureCategory.
  destruct (required && negb (existsb (includes category) chars)) eqn:Ereq;
    [ | apply sure_ret; split; [ exact Hres | reflexivity ] ].
  assert (Hr : required = true).
  { apply andb_true_iff in Ereq. apply Ereq. }
  assert (Hpos : sure (random_index (List.length result))
                      (fun k => result <> [] -> k < List.length result)).
  { destruct result as [|r0 rest].
    - eapply sure_weaken; [ apply random_index_total | ].
      intros k _ H. congruence.
    - eapply sure_weaken; [ apply random_index_sure; simpl; lia | ].
      intros k Hk _. exact Hk. }
  eapply sure_bind; [ exact Hpos | ].
  intros randomPos Hrp. cbv beta in Hrp.
  eapply sure_bind.
  { apply random_index_sure. apply length_positive_of. exact Hcat. }
  intros index Hidx. cbv beta in Hidx.
  destruct (at_index_In category index Hidx) as [c [Ec Hc]].
  rewrite Ec. apply sure_ret. split.
  - apply Forall_app. split; [ apply firstn_Forall; exact Hres | ].
    apply Forall_app. split.
    + constructor; [ apply (Hset Hr); exact Hc | constructor ].
    + apply skipn_Forall. exact Hres.
  - rewrite !length_app, length_firstn, length_skipn. cbn [List.length andb].
    destruct result as [|r0 rest].
    + simpl. lia.
    + assert (randomPos < List.length (r0 :: rest))
        by (apply Hrp; discriminate).
      cbn [List.length Nat.eqb] in *. lia.
Qed.

(** [ensureCharacterCategories] keeps the length of a password that is
    not empty; from the empty password it makes a password of one
    character as soon as a category is enabled. *)
Lemma ensureCharacterCategories_Forall (P : char -> Prop) password config :
  (includeUppercase config = true -> forall c, In c uppercase -> P c) ->
  (includeLowercase config = true -> forall c, In c lowercase -> P c) ->
  (includeNumbers config = true -> forall c, In c numbers -> P c) ->
  (includeSymbols config = true -> forall c, In c symbols -> P c) ->
  Forall P password ->
  sure (ensureCharacterCategories password config)
       (fun s => Forall P s
                 /\ List.length s
                    = if (List.length password =? 0) && someCategory config
                      then 1 else List.length password).
Proof.
  intros HU HL HN HS Hpw. unfold ensureCharacterCategories.
  eapply sure_bind.
  { apply (ensureCategory_Forall P _ uppercase password password);
      [ discriminate | exact HU | exact Hpw ]. }
  intros s1 [A1 L1].
  eapply sure_bind.
  { apply (ensureCategory_Forall P _ lowercase password s1);
      [ discriminate | exact HL | exact A1 ]. }
  intros s2 [A2 L2].
  eapply sure_bind.
  { apply (ensureCategory_Forall P _ numbers password s2);
      [ discriminate | exact HN | exact A2 ]. }
  intros s3 [A3 L3].
  eapply sure_bind.
  { apply (ensureCategory_Forall P _ symbols password s3);
      [ discriminate | exact HS | exact A3 ]. }
  intros s4 [A4 L4]. apply sure_ret. split; [ exact A4 | ].
  cbv beta in *. unfold someCategory.
  destruct password as [|p0 ps].
  - cbn [existsb negb List.length Nat.eqb andb] in *.
    rewrite !andb_true_r in *.
    destruct (includeUppercase config), (includeLowercase config),
      (includeNumbers config), (includeSymbols config);
      cbn [andb orb] in *;
      repeat match goal with
             | H : List.length ?s = _ |- _ =>
                 rewrite H in *; clear H; cbn [Nat.eqb andb] in *
             end; reflexivity.
  - cbn [List.length Nat.eqb andb] in *.
    rewrite andb_false_r in L1. rewrite L1 in L2.
    cbn [Nat.eqb] in L2. rewrite andb_false_r in L2. rewrite L2 in L3.
    cbn [Nat.eqb] in L3. rewrite andb_false_r in L3. rewrite L3 in L4.
    cbn [Nat.eqb] in L4. rewrite andb_false_r in L4. exact L4.
Qed.

(** ** Alternatives stay in the category of the character *)

(** [d] may stand where [c] stood: it is [c] or one of its alternatives. *)
Definition alike (c d : char) : Prop :=
  d = c \/ In d (getAlternativeChars c).

Definition everything : str := lowercase ++ uppercase ++ numbers ++ symbols.

Lemma getAlternativeChars_pools :
  (forall c, In c lowercase -> getAlternativeChars c = lowercase)
  /\ (forall c, In c uppercase -> getAlternativeChars c = uppercase)
  /\ (forall c, In c numbers -> getAlternativeChars c = numbers)
  /\ (forall c, In c symbols -> getAlternativeChars c = symbols).
Proof.
  repeat split; intros c Hc;
    repeat (destruct Hc as [<-|Hc]; [ reflexivity | ]); destruct Hc.
Qed.

Lemma getAlternativeChars_cases (c : char) :
  (In c lowercase /\ getAlternativeChars c = lowercase)
  \/ (In c uppercase /\ getAlternativeChars c = uppercase)
  \/ (In c numbers /\ getAlternativeChars c = numbers)
  \/ (In c symbols /\ getAlternativeChars c = symbols)
  \/ (~ In c everything /\ getAlternativeChars c = everything).
Proof.
  unfold getAlternativeChars, includes, everything.
  destruct (in_dec char_eq_dec c lowercase) as [H1|H1];
    [ left; split; [ exact H1 | reflexivity ] | ].
  destruct (in_dec char_eq_dec c uppercase) as [H2|H2];
    [ right; left; split; [ exact H2 | reflexivity ] | ].
  destruct (in_dec char_eq_dec c numbers) as [H3|H3];
    [ right; right; left; split; [ exact H3 | reflexivity ] | ].
  destruct (in_dec char_eq_dec c symbols) as [H4|H4];
    [ right; right; right; left; split; [ exact H4 | reflexivity ] | ].
  right; right; right; right. split; [ | reflexivity ].
  intros H. rewrite !in_app_iff in H. tauto.
Qed.

(** The alternatives of an alternative of [c] are alternatives of [c]. *)
Lemma alternatives_closed (c d e : char) :
  In d (getAlternativeChars c) -> In e (getAlternativeChars d) ->
  In e (getAlternativeChars c).
Proof.
  destruct getAlternativeChars_pools as [PL [PU [PN PS]]].
  intros Hd He.
  destruct (getAlternativeChars_cases c)
    as [[_ E]|[[_ E]|[[_ E]|[[_ E]|[_ E]]]]]; rewrite E in *.
  - rewrite (PL d Hd) in He. exact He.
  - rewrite (PU d Hd) in He. exact He.
  - rewrite (PN d Hd) in He. exact He.
  - rewrite (PS d Hd) in He. exact He.
  - unfold everything in *. rewrite !in_app_iff in Hd. rewrite !in_app_iff.
    destruct Hd as [Hd|[Hd|[Hd|Hd]]].
    + rewrite (PL d Hd) in He. tauto.
    + rewrite (PU d Hd) in He. tauto.
    + rewrite (PN d Hd) in He. tauto.
    + rewrite (PS d Hd) in He. tauto.
Qed.

Lemma alike_refl (c : char) : alike c c.
Proof. left. reflexivity. Qed.

Lemma alike_trans (c d e : char) : alike c d -> alike d e -> alike c e.
Proof.
  intros [->|Hd] [->|He].
  - left. reflexivity.
  - right. exact He.
  - right. exact Hd.
  - right. apply (alternatives_closed c d e Hd He).
Qed.

Lemma Forall2_alike_refl (s : str) : Forall2 alike s s.
Proof. induction s; constructor; [ apply alike_refl | assumption ]. Qed.

Lemma Forall2_alike_trans (s t u : str) :
  Forall2 alike s t -> Forall2 alike t u -> Forall2 alike s u.
Proof.
  intros H. revert u. induction H as [|c d s t Hcd Hst IH]; intros u Hu.
  - inversion Hu. constructor.
  - inversion Hu as [|? e ? u' Hde Htu]; subst.
    constructor; [ apply (alike_trans c d e Hcd Hde) | apply IH; exact Htu ].
Qed.

(** ** [breakCommonPatterns] and [avoidSequentialChars], position by
    position *)

Lemma replacementFor_alternatives (c : char) (n : nat) (replacement : str) :
  sure (replacementFor c n replacement)
       (fun s => exists ext,
            s = replacement ++ ext /\ List.length ext = n
            /\ Forall (fun d => In d (getAlternativeChars c)) ext).
Proof.
  revert replacement. induction n as [|n IH]; intros replacement; simpl.
  - apply sure_ret. exists []. rewrite app_nil_r. repeat split. constructor.
  - pose proof (getAlternativeChars_nonempty c) as Hne.
    eapply sure_bind.
    + apply random_index_sure. apply length_positive_of. exact Hne.
    + intros index Hidx. cbv beta in Hidx.
      destruct (at_index_In (getAlternativeChars c) index Hidx)
        as [d [Ed Hd]].
      rewrite Ed. eapply sure_weaken; [ apply IH | ].
      intros s [ext [Es [Hlen Hall]]]. exists (d :: ext).
      split; [ rewrite Es, <- app_assoc; reflexivity | ].
      split; [ simpl; lia | constructor; assumption ].
Qed.

Lemma runLength_firstn (c : char) (s : str) :
  Forall (fun x => x = c) (firstn (runLength c s) s).
Proof.
  induction s as [|x s IH]; simpl; [ constructor | ].
  destruct (N.eqb_spec x c) as [->|Hne]; simpl; constructor;
    [ reflexivity | exact IH ].
Qed.

Lemma run_alike (c : char) (run ext : str) :
  Forall (fun x => x = c) run ->
  Forall (fun d => In d (getAlternativeChars c)) ext ->
  List.length run = List.length ext ->
  Forall2 alike run ext.
Proof.
  intros Hrun. revert ext. induction Hrun as [|x run Hx Hrun IH];
    intros ext Hext Hlen.
  - destruct ext; [ constructor | discriminate Hlen ].
  - destruct ext as [|d ext]; [ discriminate Hlen | ].
    inversion Hext as [|? ? Hd Hrest]; subst.
    constructor; [ right; exact Hd | ].
    apply IH; [ exact Hrest | simpl in Hlen; lia ].
Qed.

Lemma replaceRuns_alike (fuel : nat) (s : str) :
  sure (replaceRuns fuel s) (fun r => Forall2 alike s r).
Proof.
  revert s. induction fuel as [|fuel IH]; intros s; cbn [replaceRuns].
  - apply sure_ret. apply Forall2_alike_refl.
  - destruct s as [|c t]; [ apply sure_ret; constructor | ].
    destruct ((2 <=? runLength c t) && negb (isLineTerminator c)).
    + eapply sure_bind; [ apply replacementFor_alternatives | ].
      intros replacement [ext [Er [Hlen Hall]]].
      eapply sure_bind; [ apply IH | ].
      intros rest Hrest. apply sure_ret. subst replacement.
      cbn [app].
      constructor; [ apply alike_refl | ].
      rewrite <- (firstn_skipn (runLength c t) t) at 1.
      apply Forall2_app; [ | exact Hrest ].
      apply (run_alike c); [ apply runLength_firstn | exact Hall | ].
      rewrite length_firstn, Hlen.
      pose proof (runLength_le c t). lia.
    + eapply sure_bind; [ apply IH | ].
      intros rest Hrest. apply sure_ret.
      constructor; [ apply alike_refl | exact Hrest ].
Qed.

Lemma array_set_alike (chars : str) (k : nat) (x v : char) :
  nth_error chars k = Some x -> alike x v ->
  Forall2 alike chars (array_set chars k v).
Proof.
  revert k. induction chars as [|y chars IH]; intros k Hk Hv.
  - destruct k; discriminate Hk.
  - destruct k as [|k]; simpl in *.
    + injection Hk as ->. constructor; [ exact Hv | apply Forall2_alike_refl ].
    + constructor; [ apply alike_refl | apply (IH k Hk Hv) ].
Qed.

Lemma sequentialLoop_alike (n i : nat) (chars : str) :
  sure (sequentialLoop n i chars) (fun r => Forall2 alike chars r).
Proof.
  revert i chars. induction n as [|n IH]; intros i chars; simpl.
  - apply sure_ret. apply Forall2_alike_refl.
  - destruct (nth_error chars i) as [char1|]; [ | apply IH ].
    destruct (nth_error chars (i + 1)) as [char2|] eqn:E2; [ | apply IH ].
    destruct (nth_error chars (i + 2)) as [char3|]; [ | apply IH ].
    destruct (isSequential char1 char2 char3); [ | apply IH ].
    eapply sure_bind; [ apply random_index_total | ].
    intros index _.
    destruct (nth_error (getAlternativeChars char2) index)
      as [randomChar|] eqn:Er; [ | apply IH ].
    eapply sure_weaken; [ apply IH | ].
    intros r Hr. cbv beta in Hr.
    eapply Forall2_alike_trans; [ | exact Hr ].
    apply (array_set_alike chars (i + 1) char2 randomChar E2).
    right. apply (nth_error_In _ _ Er).
Qed.

Lemma Forall2_length_eq (s r : str) :
  Forall2 alike s r -> List.length r = List.length s.
Proof. intros H. symmetry. apply (Forall2_length H). Qed.

(** ** The enabled categories *)

Lemma configuredCharset_In config (c : char) :
  In c (configuredCharset config) <->
  (includeLowercase config = true /\ In c lowercase)
  \/ (includeUppercase config = true /\ In c uppercase)
  \/ (includeNumbers config = true /\ In c numbers)
  \/ (includeSymbols config = true /\ In c symbols).
Proof.
  unfold configuredCharset.
  destruct (includeLowercase config), (includeUppercase config),
    (includeNumbers config), (includeSymbols config);
    cbn [app]; rewrite ?in_app_iff; split; intros H;
    try (exfalso; exact H); intuition congruence.
Qed.

Lemma baseCharset_subset config (c : char) :
  In c (baseCharset config) -> In c (configuredCharset config).
Proof.
  unfold baseCharset. intros H.
  destruct (avoidAmbiguous config); [ apply filter_In in H; destruct H as [H _] | ];
    (destruct (avoidSimilar config);
     [ apply filter_In in H; destruct H as [H _] | ]); exact H.
Qed.

Lemma configured_alike config (c d : char) :
  In c (configuredCharset config) -> alike c d ->
  In d (configuredCharset config).
Proof.
  intros Hc [->|Hd]; [ exact Hc | ].
  destruct getAlternativeChars_pools as [PL [PU [PN PS]]].
  apply configuredCharset_In in Hc. apply configuredCharset_In.
  destruct Hc as [[F Hc]|[[F Hc]|[[F Hc]|[F Hc]]]].
  - rewrite (PL c Hc) in Hd. tauto.
  - rewrite (PU c Hc) in Hd. tauto.
  - rewrite (PN c Hc) in Hd. tauto.
  - rewrite (PS c Hc) in Hd. tauto.
Qed.

Lemma Forall_alike config (s r : str) :
  Forall (fun c => In c (configuredCharset config)) s ->
  Forall2 alike s r ->
  Forall (fun c => In c (configuredCharset config)) r.
Proof.
  intros Hs H. induction H as [|c d s r Hcd Hsr IH]; [ constructor | ].
  inversion Hs as [|? ? Hc Hrest]; subst.
  constructor; [ apply (configured_alike config c d Hc Hcd) | apply IH; exact Hrest ].
Qed.

(** ** Short passwords are below 60 bits *)

Lemma nodup_length_le (s : str) :
  List.length (nodup char_eq_dec s) <= List.length s.
Proof.
  induction s as [|c s IH]; simpl; [ lia | ].
  destruct (in_dec char_eq_dec c s); simpl; lia.
Qed.

Lemma theoreticalSize_le (s : str) : Spec.theoreticalSize s <= 94.
Proof.
  unfold Spec.theoreticalSize. cbn [fold_right].
  destruct (Spec.represented s Spec.lowercase),
    (Spec.represented s Spec.uppercase), (Spec.represented s Spec.numbers),
    (Spec.represented s Spec.symbols); cbn [Spec.categorySize]; lia.
Qed.

(** A password of one to nine characters has fewer than [2 ^ 60]
    combinations, whatever its characters. *)
Lemma entropyBelow60_short (s : str) :
  1 <= List.length s <= 9 -> Estimator.entropyBelow60 s = true.
Proof.
  intros [Hlo Hhi]. unfold Estimator.entropyBelow60.
  rewrite EntropyFacts.entropyForm_spec. unfold Estimator.below.
  cbn [Estimator.coef Estimator.arg].
  assert (Hne : s <> []) by (destruct s; [ simpl in Hlo; lia | discriminate ]).
  pose proof (EntropyFacts.effectiveAlphabetSize_positive Hne) as Hpos.
  assert (Hsize : Spec.effectiveAlphabetSize s <= 94).
  { unfold Spec.effectiveAlphabetSize.
    pose proof (nodup_length_le s) as Hd. unfold distinct.
    pose proof (theoreticalSize_le s) as Ht.
    destruct (List.length (nodup char_eq_dec s) <? 26) eqn:E.
    - lia.
    - apply Nat.ltb_ge in E. lia. }
  destruct (Spec.effectiveAlphabetSize s) as [|a] eqn:Ea; [ lia | ].
  apply Z.ltb_lt.
  apply Z.le_lt_trans with (94 ^ 9)%Z; [ | reflexivity ].
  apply Z.le_trans with (94 ^ Z.of_nat (List.length s))%Z.
  - apply Z.pow_le_mono_l. lia.
  - apply Z.pow_le_mono_r; lia.
Qed.

Lemma neededLength_range config :
  someCategory config = true -> 10 <= neededLength config <= 19.
Proof.
  unfold someCategory, neededLength, getCharacterSetSize.
  destruct (includeLowercase config), (includeUppercase config),
    (includeNumbers config), (includeSymbols config);
    intros H; try discriminate H; vm_compute; split; lia.
Qed.

(** ** The whole of [generatePassword] *)

Definition enabled (config : PasswordGeneratorConfig) (c : char) : Prop :=
  In c (configuredCharset config).

Lemma heuristic_password_sure config :
  someCategory config = true ->
  sure (generatePasswordString config)
       (fun s => Forall (enabled config) s
                 /\ cfg_length config <= List.length s
                 /\ 10 <= List.length s
                 /\ List.length s
                    <= Nat.max (cfg_length config) (neededLength config)
                 /\ (Estimator.entropyBelow60 s = false
                     \/ List.length s
                        = Nat.max (cfg_length config) (neededLength config))).
Proof.
  intros Hsome.
  pose proof (neededLength_range config Hsome) as Hneed.
  unfold generatePasswordString, generateBasePassword.
  pose proof (baseCharset_nonempty config Hsome) as Hbase.
  destruct (baseCharset config) as [|c0 cs] eqn:Eb; [ congruence | ].
  eapply sure_bind.
  { apply (appendRandom_Forall (enabled config) (c0 :: cs) (cfg_length config) []).
    - discriminate.
    - intros c Hc. apply baseCharset_subset. rewrite Eb. exact Hc.
    - constructor. }
  intros base [Lb Ab]. cbn [List.length] in Lb.
  unfold applyHeuristics.
  eapply sure_bind.
  { apply (ensureCharacterCategories_Forall (enabled config) base config);
      try exact Ab;
      intros F c Hc; apply configuredCharset_In; tauto. }
  intros s1 [A1 L1]. cbv beta in L1. rewrite Hsome, andb_true_r, Lb in L1.
  assert (L1' : List.length s1 = Nat.max 1 (cfg_length config)).
  { destruct (cfg_length config); simpl in *; lia. }
  clear L1.
  eapply sure_bind; [ apply replaceRuns_alike | ].
  intros s2 R2. cbv beta in R2.
  eapply sure_bind; [ apply sequentialLoop_alike | ].
  intros s3 R3. cbv beta in R3.
  assert (A3 : Forall (enabled config) s3).
  { apply (Forall_alike config s2 s3); [ | exact R3 ].
    apply (Forall_alike config s1 s2); [ exact A1 | exact R2 ]. }
  assert (L3 : List.length s3 = Nat.max 1 (cfg_length config)).
  { rewrite (Forall2_length_eq s2 s3 R3), (Forall2_length_eq s1 s2 R2).
    exact L1'. }
  destruct (Estimator.entropyBelow60 s3) eqn:E.
  - unfold addEntropy. rewrite E.
    eapply sure_weaken.
    + apply (appendRandom_Forall (enabled config)).
      * apply configuredCharset_nonempty. exact Hsome.
      * intros c Hc. exact Hc.
      * exact A3.
    + intros s [Ls As]. fold (neededLength config) in Ls.
      split; [ exact As | ]. lia.
  - apply sure_ret. split; [ exact A3 | ].
    assert (H10 : 10 <= List.length s3).
    { destruct (Nat.le_gt_cases 10 (List.length s3)) as [H|H]; [ exact H | ].
      rewrite entropyBelow60_short in E; [ discriminate | lia ]. }
    split; [ lia | ]. split; [ exact H10 | ]. split; [ lia | ].
    left. exact E.
Qed.

(** With no category enabled the character set is empty. *)
Lemma heuristic_no_category config src i :
  someCategory config = false ->
  generatePasswordString config src i
  = Thrown "No character set available for password generation".
Proof.
  unfold someCategory. intros H.
  apply orb_false_iff in H. destruct H as [H HS].
  apply orb_false_iff in H. destruct H as [H HN].
  apply orb_false_iff in H. destruct H as [HL HU].
  unfold generatePasswordString, generateBasePassword, baseCharset,
    configuredCharset.
  rewrite HL, HU, HN, HS.
  destruct (avoidSimilar config), (avoidAmbiguous config); reflexivity.
Qed.

End HeuristicPoolFacts.

(* ================================================================== *)
(** * Properties of the heuristic generator *)
(* ================================================================== *)

(** X10.  [generatePassword] of the heuristic generator returns a
    password for every configuration that enables a category, whatever
    the length asked for and whatever the draws, and throws "No character
    set available for password generation" for every configuration that
    enables none. *)
Theorem heuristic_generator_throws_without_category :
  forall (config : PasswordGeneratorConfig) (src : Source) (i : nat),
    if HeuristicFacts.someCategory config
    then exists gp j,
           Heuristic.generatePassword config src i = Returned (gp, j)
    else Heuristic.generatePassword config src i
         = Thrown "No character set available for password generation".
Proof.
  intros config src i.
  rewrite HeuristicFacts.heuristic_generatePassword_run.
  destruct (HeuristicFacts.someCategory config) eqn:Hsome.
  - destruct (HeuristicPoolFacts.heuristic_password_sure config Hsome src i)
      as [pw [j [E _]]].
    rewrite E. eauto.
  - rewrite (HeuristicPoolFacts.heuristic_no_category config src i Hsome).
    reflexivity.
Qed.

(** X11.  Every character of a password returned by the heuristic
    generator belongs to one of the categories the configuration enables
    (the 26 lowercase letters, the 26 uppercase letters, the 10 digits,
    the 26 symbols of the generator), whether or not the configuration
    asks to avoid similar or ambiguous characters. *)
Theorem heuristic_password_within_enabled_categories :
  forall config src i gp j,
    Heuristic.generatePassword config src i = Returned (gp, j) ->
    Forall (fun c =>
              (includeLowercase config = true /\ In c Chars.lowercase)
              \/ (includeUppercase config = true /\ In c Chars.uppercase)
              \/ (includeNumbers config = true /\ In c Chars.numbers)
              \/ (includeSymbols config = true /\ In c Chars.symbols))
           (password gp).
Proof.
  intros config src i gp j E.
  rewrite HeuristicFacts.heuristic_generatePassword_run in E.
  destruct (HeuristicFacts.someCategory config) eqn:Hsome.
  - destruct (HeuristicPoolFacts.heuristic_password_sure config Hsome src i)
      as [pw [j' [Es [Hall _]]]].
    rewrite Es in E. injection E as <- _.
    cbn [password HeuristicFacts.recordOf].
    eapply Forall_impl; [ | exact Hall ].
    intros c Hc. apply HeuristicPoolFacts.configuredCharset_In. exact Hc.
  - rewrite (HeuristicPoolFacts.heuristic_no_category config src i Hsome) in E.
    discriminate.
Qed.

Lemma heuristic_password_within_enabled_categories_witness :
  exists gp j,
    Heuristic.generatePassword Inputs.lettersAndSymbols Inputs.zeroSource 0
    = Returned (gp, j)
    /\ Forall (fun c => In c Chars.lowercase \/ In c Chars.symbols)
              (password gp).
Proof.
  assert (E : Heuristic.generatePasswordString Inputs.lettersAndSymbols
                Inputs.zeroSource 0
              = Returned (codes "!aaaaaaaaaaa", 24))
    by (vm_compute; reflexivity).
  assert (R : Heuristic.generatePassword Inputs.lettersAndSymbols
                Inputs.zeroSource 0
              = Returned (HeuristicFacts.recordOf (codes "!aaaaaaaaaaa"), 24)).
  { rewrite HeuristicFacts.heuristic_generatePassword_run, E. reflexivity. }
  exists (HeuristicFacts.recordOf (codes "!aaaaaaaaaaa")), 24.
  split; [ exact R | ].
  pose proof (heuristic_password_within_enabled_categories _ _ _ _ _ R) as H.
  eapply Forall_impl; [ | exact H ].
  intros c [[_ Hc]|[[F _]|[[F _]|[_ Hc]]]];
    [ left; exact Hc | discriminate F | discriminate F | right; exact Hc ].
Defined.

(** X12.  A password returned by the heuristic generator has at least
    ten characters and at least the length asked for, also when the
    length asked for is zero; it is never longer than the larger of the
    length asked for and the needed length [ceil(60 / log2(size))], and
    it either reaches that length or has an entropy that is not below
    60 bits. *)
Theorem heuristic_password_has_ten_characters :
  forall config src i gp j,
    Heuristic.generatePassword config src i = Returned (gp, j) ->
    let n := List.length (password gp) in
    let bound := Nat.max (cfg_length config)
                         (HeuristicFacts.neededLength config) in
    10 <= n /\ cfg_length config <= n /\ n <= bound
    /\ (Num.ltb (entropy gp) (Num.Fin 60) = false \/ n = bound).
Proof.
  intros config src i gp j E n bound. unfold n, bound.
  rewrite HeuristicFacts.heuristic_generatePassword_run in E.
  destruct (HeuristicFacts.someCategory config) eqn:Hsome.
  - destruct (HeuristicPoolFacts.heuristic_password_sure config Hsome src i)
      as [pw [j' [Es [_ [H1 [H2 [H3 H4]]]]]]].
    rewrite Es in E. injection E as <- _.
    cbn [password entropy HeuristicFacts.recordOf].
    unfold Heuristic.calculateEntropy.
    rewrite <- EstimatorFacts.entropyBelow60_spec.
    repeat split; assumption.
  - rewrite (HeuristicPoolFacts.heuristic_no_category config src i Hsome) in E.
    discriminate.
Qed.

Lemma heuristic_password_has_ten_characters_witness :
  exists gp j,
    Heuristic.generatePassword Inputs.eightOfAll Inputs.zeroSource 0
    = Returned (gp, j)
    /\ 10 <= List.length (password gp).
Proof.
  assert (E : Heuristic.generatePasswordString Inputs.eightOfAll
                Inputs.zeroSource 0
              = Returned (codes "!aaaaaaaaa", 22))
    by (vm_compute; reflexivity).
  assert (R : Heuristic.generatePassword Inputs.eightOfAll
                Inputs.zeroSource 0
              = Returned (HeuristicFacts.recordOf (codes "!aaaaaaaaa"), 22)).
  { rewrite HeuristicFacts.heuristic_generatePassword_run, E. reflexivity. }
  exists (HeuristicFacts.recordOf (codes "!aaaaaaaaa")), 22.
  split; [ exact R | ].
  exact (proj1 (heuristic_password_has_ten_characters _ _ _ _ _ R)).
Defined.

(** X13.  [breakCommonPatterns] and [avoidSequentialChars] always
    return, keep the length of the password, and put at every position
    either the character that stood there or one of its alternatives: a
    lowercase letter stays a lowercase letter, an uppercase letter an
    uppercase letter, a digit a digit and a symbol of the generator one
    of its symbols. *)
Theorem pattern_steps_keep_the_categories :
  forall (password : list N) (src : Source) (i : nat),
    (exists r j,
        Heuristic.breakCommonPatterns password src i = Returned (r, j)
        /\ Forall2 (fun c d => d = c \/ In d (Heuristic.getAlternativeChars c))
                   password r)
    /\ (exists r j,
           Heuristic.avoidSequentialChars password src i = Returned (r, j)
           /\ Forall2 (fun c d => d = c \/ In d (Heuristic.getAlternativeChars c))
                      password r)
    /\ (forall c, In c Chars.lowercase ->
                  Heuristic.getAlternativeChars c = Chars.lowercase)
    /\ (forall c, In c Chars.uppercase ->
                  Heuristic.getAlternativeChars c = Chars.uppercase)
    /\ (forall c, In c Chars.numbers ->
                  Heuristic.getAlternativeChars c = Chars.numbers)
    /\ (forall c, In c Chars.symbols ->
                  Heuristic.getAlternativeChars c = Chars.symbols).
Proof.
  intros password src i. split; [ | split ].
  - destruct (HeuristicPoolFacts.replaceRuns_alike
                (List.length password) password src i) as [r [j [E H]]].
    exists r, j. split; [ exact E | exact H ].
  - destruct (HeuristicPoolFacts.sequentialLoop_alike
                (List.length password - 2) 0 password src i) as [r [j [E H]]].
    exists r, j. split; [ exact E | exact H ].
  - exact HeuristicPoolFacts.getAlternativeChars_pools.
Qed.

(** X14.  The test of [avoidSequentialChars] is the alphabetic test alone:
    whenever three characters pass the numeric test of
    [isNumericSequential] they pass [isAlphaSequential] too.  The test
    sees ascending runs only: the reverse of a run it reports is never
    reported. *)
Theorem sequential_test_is_the_alphabetic_test :
  forall c1 c2 c3 : N,
    Heuristic.isSequential c1 c2 c3 = Heuristic.isAlphaSequential c1 c2 c3
    /\ (Heuristic.isSequential c1 c2 c3 = true ->
        Heuristic.isSequential c3 c2 c1 = false).
Proof.
  intros c1 c2 c3.
  assert (Hnum : Heuristic.isNumericSequential c1 c2 c3 = true ->
                 Heuristic.isAlphaSequential c1 c2 c3 = true).
  { unfold Heuristic.isNumericSequential, Heuristic.isAlphaSequential,
      Heuristic.parseInt, Heuristic.lowerCode.
    destruct (N.leb_spec 48 c1), (N.leb_spec c1 57); cbn [andb];
      try discriminate;
      destruct (N.leb_spec 48 c2), (N.leb_spec c2 57); cbn [andb];
      try discriminate;
      destruct (N.leb_spec 48 c3), (N.leb_spec c3 57); cbn [andb];
      try discriminate.
    intros Hseq. apply andb_true_iff in Hseq. destruct Hseq as [S1 S2].
    apply N.eqb_eq in S1, S2.
    destruct (N.leb_spec 65 c1), (N.leb_spec c1 90); cbn [andb]; try lia;
      destruct (N.leb_spec 65 c2), (N.leb_spec c2 90); cbn [andb]; try lia;
      destruct (N.leb_spec 65 c3), (N.leb_spec c3 90); cbn [andb]; try lia;
      apply andb_true_iff; split; apply N.eqb_eq; lia. }
  assert (Heq : forall a b c,
             (Heuristic.isNumericSequential a b c = true ->
              Heuristic.isAlphaSequential a b c = true) ->
             Heuristic.isSequential a b c = Heuristic.isAlphaSequential a b c).
  { intros a b c H. unfold Heuristic.isSequential.
    destruct (Heuristic.isAlphaSequential a b c); [ reflexivity | ].
    destruct (Heuristic.isNumericSequential a b c); [ | reflexivity ].
    symmetry. apply H. reflexivity. }
  split; [ apply Heq; exact Hnum | ].
  rewrite (Heq c1 c2 c3 Hnum). intros H.
  unfold Heuristic.isSequential.
  assert (Ha : Heuristic.isAlphaSequential c3 c2 c1 = false).
  { unfold Heuristic.isAlphaSequential in *.
    apply andb_true_iff in H. destruct H as [H1 H2].
    apply N.eqb_eq in H1, H2.
    apply andb_false_iff. left. apply N.eqb_neq. lia. }
  assert (Hn : Heuristic.isNumericSequential c3 c2 c1 = false).
  { unfold Heuristic.isNumericSequential.
    destruct (Heuristic.parseInt c3) as [n3|] eqn:E3; [ | reflexivity ].
    destruct (Heuristic.parseInt c2) as [n2|] eqn:E2; [ | reflexivity ].
    destruct (Heuristic.parseInt c1) as [n1|] eqn:E1; [ | reflexivity ].
    unfold Heuristic.parseInt in E1, E2, E3.
    destruct ((48 <=? c1) && (c1 <=? 57))%N eqn:D1; [ | discriminate ].
    destruct ((48 <=? c2) && (c2 <=? 57))%N eqn:D2; [ | discriminate ].
    destruct ((48 <=? c3) && (c3 <=? 57))%N eqn:D3; [ | discriminate ].
    injection E1 as <-. injection E2 as <-. injection E3 as <-.
    apply andb_true_iff in D1, D2, D3.
    destruct D1 as [D1 D1'], D2 as [D2 D2'], D3 as [D3 D3'].
    apply N.leb_le in D1, D1', D2, D2', D3, D3'.
    unfold Heuristic.isAlphaSequential, Heuristic.lowerCode in H.
    assert (L1 : ((65 <=? c1) && (c1 <=? 90))%N = false).
    { apply andb_false_iff. left. apply N.leb_gt. lia. }
    assert (L2 : ((65 <=? c2) && (c2 <=? 90))%N = false).
    { apply andb_false_iff. left. apply N.leb_gt. lia. }
    assert (L3 : ((65 <=? c3) && (c3 <=? 90))%N = false).
    { apply andb_false_iff. left. apply N.leb_gt. lia. }
    rewrite L1, L2, L3 in H.
    apply andb_true_iff in H. destruct H as [H1 H2].
    apply N.eqb_eq in H1, H2.
    apply andb_false_iff. left. apply N.eqb_neq. lia. }
  rewrite Ha, Hn. reflexivity.
Qed.

(* ================================================================== *)
(** * Batches of generated passwords *)
(* ================================================================== *)

Module BatchFacts.
Import RandFacts.

Lemma heuristic_generatePassword_sure config (P : str -> Prop) :
  sure (Heuristic.generatePasswordString config) P ->
  sure (Heuristic.generatePassword config)
       (fun gp => P (password gp) /\ generationMethod gp = heuristic).
Proof.
  intros H src i. destruct (H src i) as [pw [j [E Hp]]].
  rewrite HeuristicFacts.heuristic_generatePassword_run, E.
  exists (HeuristicFacts.recordOf pw), j.
  split; [ reflexivity | split; [ exact Hp | reflexivity ] ].
Qed.

Lemma heuristic_pushPasswords_sure config (Good : GeneratedPassword -> Prop) :
  sure (Heuristic.generatePassword config) Good ->
  forall n passwords,
    sure (Heuristic.pushPasswords config n passwords)
         (fun batch => exists new,
              batch = passwords ++ new /\ List.length new = n
              /\ Forall Good new).
Proof.
  intros Hgen. induction n as [|n IH]; intros passwords; simpl.
  - apply sure_ret. exists []. rewrite app_nil_r.
    repeat split. constructor.
  - eapply sure_bind; [ exact Hgen | ].
    intros p Hp. eapply sure_weaken; [ apply IH | ].
    intros batch [new [E [Hlen Hall]]]. exists (p :: new).
    split; [ rewrite E, <- app_assoc; reflexivity | ].
    split; [ simpl; lia | constructor; assumption ].
Qed.

Lemma markov_generatePassword_sure fuel this config (P : str -> Prop) :
  sure (Markov.generatePasswordString fuel this config) P ->
  sure (Markov.generatePassword fuel this config)
       (fun gp => P (password gp) /\ generationMethod gp = markov).
Proof.
  intros H src i. destruct (H src i) as [pw [j [E Hp]]].
  rewrite MarkovFacts.generatePassword_run, E.
  exists (MarkovFacts.recordOf pw config), j.
  split; [ reflexivity | split; [ exact Hp | reflexivity ] ].
Qed.

Lemma markov_pushPasswords_sure fuel this config
    (Good : GeneratedPassword -> Prop) :
  sure (Markov.generatePassword fuel this config) Good ->
  forall n passwords,
    sure (Markov.pushPasswords fuel this config n passwords)
         (fun batch => exists new,
              batch = passwords ++ new /\ List.length new = n
              /\ Forall Good new).
Proof.
  intros Hgen. induction n as [|n IH]; intros passwords; simpl.
  - apply sure_ret. exists []. rewrite app_nil_r.
    repeat split. constructor.
  - eapply sure_bind; [ exact Hgen | ].
    intros p Hp. eapply sure_weaken; [ apply IH | ].
    intros batch [new [E [Hlen Hall]]]. exists (p :: new).
    split; [ rewrite E, <- app_assoc; reflexivity | ].
    split; [ simpl; lia | constructor; assumption ].
Qed.

(** The statistics of the generators and of the comparison engine fold
    the same values in the same order. *)
Lemma fold_years_map (passwords : list GeneratedPassword) (acc : Num.xreal) :
  fold_left (fun sum p => Num.add sum (years (timeToCrack p))) passwords acc
  = fold_left Num.add (map (fun p => years (timeToCrack p)) passwords) acc.
Proof.
  revert acc. induction passwords as [|p l IH]; intros acc; simpl;
    [ reflexivity | apply IH ].
Qed.

Lemma filter_map_length {A B : Type} (f : A -> B) (p : B -> bool)
    (l : list A) :
  List.length (filter p (map f l))
  = List.length (filter (fun x => p (f x)) l).
Proof.
  induction l as [|x l IH]; simpl; [ reflexivity | ].
  destruct (p (f x)); simpl; rewrite IH; reflexivity.
Qed.

End BatchFacts.

(** X15.  With a category enabled, [generateMultiplePasswords] of the
    heuristic generator returns exactly [count] passwords, each marked
    "heuristic", of ten characters or more and of the length asked for or
    more.  With no category enabled it throws at the first password, and
    returns the empty array when [count] is 0. *)
Theorem heuristic_batch_has_count_passwords :
  forall (config : PasswordGeneratorConfig) (count : nat)
         (src : Source) (i : nat),
    if HeuristicFacts.someCategory config
    then exists batch j,
           Heuristic.generateMultiplePasswords config count src i
           = Returned (batch, j)
           /\ List.length batch = count
           /\ Forall (fun gp => generationMethod gp = heuristic
                                /\ 10 <= List.length (password gp)
                                /\ cfg_length config
                                   <= List.length (password gp))
                     batch
    else Heuristic.generateMultiplePasswords config count src i
         = match count with
           | O => Returned ([], i)
           | S _ => Thrown "No character set available for password generation"
           end.
Proof.
  intros config count src i.
  destruct (HeuristicFacts.someCategory config) eqn:Hsome.
  - pose proof (BatchFacts.heuristic_generatePassword_sure config _
                  (HeuristicPoolFacts.heuristic_password_sure config Hsome))
      as Hgen.
    destruct (BatchFacts.heuristic_pushPasswords_sure config _ Hgen
                count [] src i) as [batch [j [E [new [Eb [Hlen Hall]]]]]].
    exists batch, j. split; [ exact E | ].
    simpl in Eb. subst batch. split; [ exact Hlen | ].
    eapply Forall_impl; [ | exact Hall ].
    intros gp [[_ [H1 [H2 _]]] Hm]. repeat split; assumption.
  - unfold Heuristic.generateMultiplePasswords.
    destruct count as [|count]; [ reflexivity | ].
    cbn [Heuristic.pushPasswords]. unfold bind.
    rewrite HeuristicFacts.heuristic_generatePassword_run.
    rewrite (HeuristicPoolFacts.heuristic_no_category config src i Hsome).
    reflexivity.
Qed.

(** X16.  With a trained model, two rounds of fuel for every password
    and a length that leaves room for the minimums,
    [generateMultiplePasswords] of the Markov generator returns exactly
    [count] passwords, each marked "markov" and of exactly the length
    asked for.  With an empty model it throws "Markov model not trained"
    at the first password. *)
Theorem markov_batch_has_count_passwords :
  forall fuel this config count src i,
    2 <= fuel ->
    MarkovFacts.sumOfMinimums config <= cfg_length config ->
    match Markov.model this with
    | _ :: _ =>
        exists batch j,
          Markov.generateMultiplePasswords fuel this config count src i
          = Returned (batch, j)
          /\ List.length batch = count
          /\ Forall (fun gp => generationMethod gp = markov
                               /\ List.length (password gp)
                                  = cfg_length config)
                    batch
    | [] =>
        Markov.generateMultiplePasswords fuel this config count src i
        = match count with
          | O => Returned ([], i)
          | S _ => Thrown "Markov model not trained. Call trainModel() first."
          end
    end.
Proof.
  intros fuel this config count src i Hfuel Hsum.
  destruct (Markov.model this) as [|st m] eqn:Em.
  - unfold Markov.generateMultiplePasswords.
    destruct count as [|count]; [ reflexivity | ].
    cbn [Markov.pushPasswords]. unfold bind.
    rewrite MarkovFacts.generatePassword_run.
    unfold Markov.generatePasswordString, Markov.generateBasePassword, bind.
    rewrite Em. reflexivity.
  - assert (Hmodel : Markov.model this <> []) by (rewrite Em; discriminate).
    pose proof (BatchFacts.markov_generatePassword_sure fuel this config _
                  (@MarkovFacts.generatePasswordString_sure fuel this config
                     Hfuel Hmodel Hsum)) as Hgen.
    destruct (BatchFacts.markov_pushPasswords_sure fuel this config _ Hgen
                count [] src i) as [batch [j [E [new [Eb [Hlen Hall]]]]]].
    exists batch, j. split; [ exact E | ].
    simpl in Eb. subst batch. split; [ exact Hlen | ].
    eapply Forall_impl; [ | exact Hall ].
    intros gp [[H1 _] Hm]. split; assumption.
Qed.

Lemma markov_batch_has_count_passwords_witness :
  exists batch j,
    Markov.generateMultiplePasswords 2 Inputs.trained Inputs.part2Config 3
                                     Inputs.zeroSource 0
    = Returned (batch, j)
    /\ List.length batch = 3.
Proof.
  assert (Hfuel : 2 <= 2) by lia.
  assert (Hsum : MarkovFacts.sumOfMinimums Inputs.part2Config
                 <= cfg_length Inputs.part2Config) by (vm_compute; lia).
  pose proof (markov_batch_has_count_passwords 2 Inputs.trained
                Inputs.part2Config 3 Inputs.zeroSource 0 Hfuel Hsum) as H.
  destruct (Markov.model Inputs.trained) eqn:Em;
    [ vm_compute in Em; discriminate Em | ].
  destruct H as [batch [j [E [Hlen _]]]].
  exists batch, j. split; assumption.
Defined.

(** X17.  [getPasswordStatistics] of the generators and
    [calculateStatistics] of the comparison engine agree on every figure
    they share, for every batch: the count, the average, the minimum and
    the maximum entropy, the average years to crack, and the numbers of
    passwords at 60 bits or more and at ten years or more. *)
Theorem generator_statistics_agree_with_comparison :
  forall passwords : list GeneratedPassword,
    let g := Batch.getPasswordStatistics passwords in
    let c := Comparison.calculateStatistics passwords in
    Batch.count g = Comparison.count c
    /\ Batch.averageEntropy g = Comparison.e_average (Comparison.s_entropy c)
    /\ Batch.minEntropy g = Comparison.e_min (Comparison.s_entropy c)
    /\ Batch.maxEntropy g = Comparison.e_max (Comparison.s_entropy c)
    /\ Batch.averageCrackingTimeYears g
       = Comparison.t_average (Comparison.crackingTime c)
    /\ Batch.passwordsAbove60Bits g
       = Comparison.above60Bits (Comparison.s_entropy c)
    /\ Batch.passwordsAbove60Bits g
       = Comparison.entropyAbove60Bits (Comparison.securityCompliance c)
    /\ Batch.passwordsAbove10Years g
       = Comparison.above10Years (Comparison.crackingTime c)
    /\ Batch.passwordsAbove10Years g
       = Comparison.timeAbove10Years (Comparison.securityCompliance c).
Proof.
  intros passwords g c. unfold g, c.
  unfold Batch.getPasswordStatistics, Comparison.calculateStatistics,
    Comparison.calculateEntropyStatistics, Comparison.calculateTimeStatistics,
    Comparison.calculateSecurityCompliance, Comparison.countIf.
  cbn [Batch.count Batch.averageEntropy Batch.minEntropy Batch.maxEntropy
       Batch.averageCrackingTimeYears Batch.passwordsAbove60Bits
       Batch.passwordsAbove10Years Comparison.count Comparison.s_entropy
       Comparison.crackingTime Comparison.securityCompliance
       Comparison.e_average Comparison.e_min Comparison.e_max
       Comparison.t_average Comparison.above60Bits Comparison.above10Years
       Comparison.entropyAbove60Bits Comparison.timeAbove10Years].
  rewrite !length_map, !BatchFacts.filter_map_length.
  rewrite BatchFacts.fold_years_map.
  repeat split.
Qed.

(* ================================================================== *)
(** * What a trained model holds *)
(* ================================================================== *)

Module ModelFacts.
Import Markov TrainingFacts.

(** ** Maps *)

Section Maps.
Variables K V : Type.
Variable K_eq_dec : forall a b : K, {a = b} + {a <> b}.

Lemma map_get_In (m : list (K * V)) (k : K) (v : V) :
  map_get K_eq_dec m k = Some v -> In (k, v) m.
Proof.
  induction m as [|[k' v'] m IH]; simpl; [ discriminate | ].
  destruct (K_eq_dec k k') as [->|Hne].
  - intros E. injection E as ->. left. reflexivity.
  - intros E. right. apply IH. exact E.
Qed.

Lemma map_get_None (m : list (K * V)) (k : K) :
  map_get K_eq_dec m k = None -> ~ In k (map_keys m).
Proof.
  induction m as [|[k' v'] m IH]; simpl; [ intros _ [] | ].
  destruct (K_eq_dec k k') as [->|Hne]; [ discriminate | ].
  intros E [H|H]; [ congruence | exact (IH E H) ].
Qed.

Lemma map_set_In (m : list (K * V)) (k : K) (v : V) (k0 : K) (v0 : V) :
  In (k0, v0) (map_set K_eq_dec m k v) ->
  In (k0, v0) m \/ (k0 = k /\ v0 = v).
Proof.
  induction m as [|[k' v'] m IH]; simpl.
  - intros [E|[]]. injection E as E1 E2. right. split; congruence.
  - destruct (K_eq_dec k k') as [->|Hne]; simpl.
    + intros [E|H]; [ injection E as E1 E2; right; split; congruence
                    | left; right; exact H ].
    + intros [E|H]; [ left; left; exact E | ].
      destruct (IH H) as [H'|H']; [ left; right; exact H' | right; exact H' ].
Qed.

Lemma map_set_keys (m : list (K * V)) (k : K) (v : V) :
  map_keys (map_set K_eq_dec m k v)
  = if in_dec K_eq_dec k (map_keys m) then map_keys m
    else map_keys m ++ [k].
Proof.
  unfold map_keys. induction m as [|[k' v'] m IH]; simpl; [ reflexivity | ].
  destruct (K_eq_dec k k') as [E|Hne]; simpl.
  - destruct (K_eq_dec k' k) as [E'|H]; [ reflexivity | congruence ].
  - rewrite IH. destruct (K_eq_dec k' k) as [E|Hne']; [ congruence | ].
    destruct (in_dec K_eq_dec k (map fst m)); reflexivity.
Qed.

Lemma map_set_NoDup (m : list (K * V)) (k : K) (v : V) :
  NoDup (map_keys m) -> NoDup (map_keys (map_set K_eq_dec m k v)).
Proof.
  intros H. rewrite map_set_keys.
  destruct (in_dec K_eq_dec k (map_keys m)) as [Hin|Hin]; [ exact H | ].
  apply NoDup_app; [ exact H | constructor; [ intros [] | constructor ] | ].
  intros x Hx [<-|[]]. exact (Hin Hx).
Qed.

Lemma map_set_key_In (m : list (K * V)) (k : K) (v : V) :
  In k (map_keys (map_set K_eq_dec m k v)).
Proof.
  rewrite map_set_keys.
  destruct (in_dec K_eq_dec k (map_keys m)) as [Hin|Hin]; [ exact Hin | ].
  apply in_or_app. right. left. reflexivity.
Qed.

Lemma map_set_keys_incl (m : list (K * V)) (k : K) (v : V) (x : K) :
  In x (map_keys m) -> In x (map_keys (map_set K_eq_dec m k v)).
Proof.
  intros H. rewrite map_set_keys.
  destruct (in_dec K_eq_dec k (map_keys m)); [ exact H | ].
  apply in_or_app. left. exact H.
Qed.

End Maps.

(** ** A password of [order] characters or fewer teaches nothing, a longer
    one teaches at least one transition *)

Lemma recordTransition_keeps order password m i :
  m <> [] -> recordTransition order password m i <> [].
Proof.
  intros H. unfold recordTransition.
  destruct (nth_error password (i + order)); [ | exact H ].
  apply (@map_set_nonempty _ str_eq_dec).
Qed.

Lemma transitions_keep order password (l : list nat) m :
  m <> [] -> fold_left (recordTransition order password) l m <> [].
Proof.
  revert m. induction l as [|i l IH]; intros m Hm; simpl; [ exact Hm | ].
  apply IH. apply recordTransition_keeps. exact Hm.
Qed.

Lemma trainOne_short g p : List.length p <= order g -> trainOne g p = g.
Proof.
  intros H. unfold trainOne.
  destruct (Nat.ltb_spec (List.length p) (order g + 1)); [ reflexivity | lia ].
Qed.

Lemma trainOne_long g p :
  order g + 1 <= List.length p -> model (trainOne g p) <> [].
Proof.
  intros H. unfold trainOne.
  destruct (Nat.ltb_spec (List.length p) (order g + 1)); [ lia | ].
  cbn [model].
  destruct (List.length p - order g) as [|n] eqn:En; [ lia | ].
  cbn [seq fold_left]. apply transitions_keep.
  unfold recordTransition.
  destruct (nth_error p (0 + order g)) eqn:E.
  - apply (@map_set_nonempty _ str_eq_dec).
  - apply nth_error_None in E. lia.
Qed.

Lemma trainOne_keeps g p : model g <> [] -> model (trainOne g p) <> [].
Proof.
  intros H. unfold trainOne.
  destruct (List.length p <? order g + 1); [ exact H | ].
  cbn [model]. apply transitions_keep. exact H.
Qed.

Lemma train_all_keeps (passwords : list str) g :
  model g <> [] -> model (fold_left trainOne passwords g) <> [].
Proof.
  revert g. induction passwords as [|p l IH]; intros g Hg; simpl;
    [ exact Hg | ].
  apply IH. apply trainOne_keeps. exact Hg.
Qed.

Lemma train_all_long (passwords : list str) g :
  Exists (fun p => order g + 1 <= List.length p) passwords ->
  model (fold_left trainOne passwords g) <> [].
Proof.
  revert g. induction passwords as [|p l IH]; intros g H; simpl.
  - inversion H.
  - inversion H as [? ? Hp|? ? Hl]; subst.
    + apply train_all_keeps. apply trainOne_long. exact Hp.
    + apply IH. rewrite trainOne_order. exact Hl.
Qed.

Lemma train_all_short (passwords : list str) g :
  Forall (fun p => List.length p <= order g) passwords ->
  fold_left trainOne passwords g = g.
Proof.
  revert g. induction passwords as [|p l IH]; intros g H; simpl;
    [ reflexivity | ].
  inversion H as [|? ? Hp Hl]; subst.
  rewrite (trainOne_short g p Hp). apply IH. exact Hl.
Qed.

Lemma short_or_long (n : nat) (passwords : list str) :
  Forall (fun p => List.length p <= n) passwords
  \/ Exists (fun p => n + 1 <= List.length p) passwords.
Proof.
  induction passwords as [|p l [IH|IH]].
  - left. constructor.
  - destruct (Nat.le_gt_cases (List.length p) n) as [H|H].
    + left. constructor; assumption.
    + right. apply Exists_cons_hd. lia.
  - right. apply Exists_cons_tl. exact IH.
Qed.

(** The model of [trainModel] is empty exactly when no password has more
    than [order] characters. *)
Lemma trainModel_empty this passwords order :
  model (trainModel this passwords order) = []
  <-> Forall (fun p => List.length p <= order) passwords.
Proof.
  unfold trainModel, normalizeProbabilities. cbn [model Markov.order trainingData].
  set (g0 := {| model := []; startStates := []; order := order;
                trainingData := passwords |}).
  split.
  - intros E. destruct (short_or_long order passwords) as [H|H];
      [ exact H | ].
    exfalso. apply (train_all_long passwords g0 H).
    destruct (model (fold_left trainOne passwords g0));
      [ reflexivity | discriminate E ].
  - intros H. rewrite (train_all_short passwords g0 H). reflexivity.
Qed.

(** ** Every transition of the model was seen in a password *)

(** The state [state] is followed by [c] somewhere in a password of the
    corpus. *)
Definition gram (corpus : list str) (order : nat) (state : str) (c : char)
    : Prop :=
  exists p i,
    In p corpus /\ substring p i order = state
    /\ nth_error p (i + order) = Some c.

Definition model_observed (corpus : list str) (order : nat)
    (m : list (str * list (char * Q))) : Prop :=
  forall state ts c q,
    In (state, ts) m -> In (c, q) ts -> gram corpus order state c.

(** A start state is the first [order] characters of a password that
    has more than [order] characters. *)
Definition starts_observed (corpus : list str) (order : nat)
    (s : list (str * Q)) : Prop :=
  forall state q,
    In (state, q) s ->
    exists p, In p corpus /\ order + 1 <= List.length p
              /\ substring p 0 order = state.

Lemma recordTransition_observed corpus order password m i :
  In password corpus ->
  model_observed corpus order m ->
  model_observed corpus order (recordTransition order password m i).
Proof.
  intros Hp Hm. unfold recordTransition.
  destruct (nth_error password (i + order)) as [nextChar|] eqn:En;
    [ | exact Hm ].
  intros state ts c q Hin Hc.
  apply map_set_In in Hin.
  destruct Hin as [Hin|[-> ->]]; [ apply (Hm state ts c q Hin Hc) | ].
  unfold bump in Hc. apply map_set_In in Hc.
  destruct Hc as [Hc|[-> _]].
  - destruct (map_get str_eq_dec m (substring password i order))
      as [t|] eqn:Eg; [ | destruct Hc ].
    apply map_get_In in Eg. apply (Hm _ _ _ _ Eg Hc).
  - exists password, i. repeat split; assumption.
Qed.

Lemma transitions_observed corpus order password (l : list nat) m :
  In password corpus ->
  model_observed corpus order m ->
  model_observed corpus order (fold_left (recordTransition order password) l m).
Proof.
  intros Hp. revert m. induction l as [|i l IH]; intros m Hm; simpl;
    [ exact Hm | ].
  apply IH. apply recordTransition_observed; assumption.
Qed.

Definition observed (corpus : list str) (g : MarkovPasswordGenerator)
    : Prop :=
  model_observed corpus (order g) (model g)
  /\ starts_observed corpus (order g) (startStates g).

Lemma trainOne_observed corpus g p :
  In p corpus -> observed corpus g -> observed corpus (trainOne g p).
Proof.
  intros Hp [Hm Hs]. unfold trainOne.
  destruct (Nat.ltb_spec (List.length p) (order g + 1)) as [Hlt|Hge];
    [ split; assumption | ].
  split; cbn [model startStates Markov.order].
  - apply transitions_observed; assumption.
  - intros state q Hin. unfold bump in Hin.
    apply map_set_In in Hin.
    destruct Hin as [Hin|[-> _]]; [ apply (Hs state q Hin) | ].
    exists p. repeat split; [ exact Hp | exact Hge ].
Qed.

Lemma train_all_observed corpus (passwords : list str) g :
  (forall p, In p passwords -> In p corpus) ->
  observed corpus g -> observed corpus (fold_left trainOne passwords g).
Proof.
  revert g. induction passwords as [|p l IH]; intros g Hsub Hg; simpl;
    [ exact Hg | ].
  apply IH.
  - intros q Hq. apply Hsub. right. exact Hq.
  - apply trainOne_observed; [ apply Hsub; left; reflexivity | exact Hg ].
Qed.

Lemma normalize_In {K : Type} (m : list (K * Q)) (k : K) (q : Q) :
  In (k, q) (normalize m) -> exists q', In (k, q') m.
Proof.
  unfold normalize. intros H. apply in_map_iff in H.
  destruct H as [[k' q'] [E H]]. simpl in E. injection E as E1 E2.
  exists q'. rewrite <- E1. exact H.
Qed.

Lemma trainModel_observed this passwords order :
  observed passwords (trainModel this passwords order)
  /\ Markov.order (trainModel this passwords order) = order.
Proof.
  unfold trainModel, normalizeProbabilities.
  cbn [model startStates Markov.order trainingData].
  set (g0 := {| model := []; startStates := []; order := order;
                trainingData := passwords |}).
  assert (H0 : observed passwords g0).
  { split; intros ? ? ; cbn; intros; contradiction. }
  pose proof (train_all_observed passwords passwords g0
                (fun p H => H) H0) as [Hm Hs].
  pose proof (train_all_order passwords g0) as Ho. cbn [Markov.order g0] in Ho.
  rewrite Ho in Hm, Hs.
  split; [ | rewrite Ho; reflexivity ].
  split; cbn [model startStates Markov.order]; rewrite Ho.
  - intros state ts c q Hin Hc. apply in_map_iff in Hin.
    destruct Hin as [[state' ts'] [E Hin]]. cbn [fst snd] in E.
    injection E as E1 E2. subst state ts.
    destruct (normalize_In ts' c q Hc) as [q' Hc'].
    apply (Hm state' ts' c q' Hin Hc').
  - intros state q Hin.
    destruct (normalize_In _ state q Hin) as [q' Hin'].
    apply (Hs state q' Hin').
Qed.

(** ** Distinct keys, and every start state is a state *)

Definition keyed (g : MarkovPasswordGenerator) : Prop :=
  NoDup (map_keys (model g)) /\ NoDup (map_keys (startStates g))
  /\ (forall s, In s (map_keys (startStates g)) -> In s (map_keys (model g))).

Lemma recordTransition_NoDup order password m i :
  NoDup (map_keys m) -> NoDup (map_keys (recordTransition order password m i)).
Proof.
  intros H. unfold recordTransition.
  destruct (nth_error password (i + order)); [ | exact H ].
  apply map_set_NoDup. exact H.
Qed.

Lemma recordTransition_incl order password m i s :
  In s (map_keys m) -> In s (map_keys (recordTransition order password m i)).
Proof.
  intros H. unfold recordTransition.
  destruct (nth_error password (i + order)); [ | exact H ].
  apply map_set_keys_incl. exact H.
Qed.

Lemma transitions_NoDup order password (l : list nat) m :
  NoDup (map_keys m) ->
  NoDup (map_keys (fold_left (recordTransition order password) l m)).
Proof.
  revert m. induction l as [|i l IH]; intros m Hm; simpl; [ exact Hm | ].
  apply IH. apply recordTransition_NoDup. exact Hm.
Qed.

Lemma transitions_incl order password (l : list nat) m s :
  In s (map_keys m) ->
  In s (map_keys (fold_left (recordTransition order password) l m)).
Proof.
  revert m. induction l as [|i l IH]; intros m Hm; simpl; [ exact Hm | ].
  apply IH. apply recordTransition_incl. exact Hm.
Qed.

Lemma trainOne_keyed g p : keyed g -> keyed (trainOne g p).
Proof.
  intros [Hm [Hs Hin]]. unfold trainOne.
  destruct (Nat.ltb_spec (List.length p) (order g + 1)) as [Hlt|Hge];
    [ repeat split; assumption | ].
  repeat split; cbn [model startStates].
  - apply transitions_NoDup. exact Hm.
  - unfold bump. apply map_set_NoDup. exact Hs.
  - intros s Hs'. unfold bump in Hs'. rewrite map_set_keys in Hs'.
    destruct (in_dec str_eq_dec (substring p 0 (order g))
                     (map_keys (startStates g))) as [Hold|Hnew].
    + apply transitions_incl. apply Hin. exact Hs'.
    + apply in_app_or in Hs'. destruct Hs' as [Hs'|[<-|[]]].
      * apply transitions_incl. apply Hin. exact Hs'.
      * destruct (List.length p - order g) as [|n] eqn:En; [ lia | ].
        cbn [seq fold_left]. apply transitions_incl.
        unfold recordTransition.
        destruct (nth_error p (0 + order g)) eqn:E.
        -- apply map_set_key_In.
        -- apply nth_error_None in E. lia.
Qed.

Lemma train_all_keyed (passwords : list str) g :
  keyed g -> keyed (fold_left trainOne passwords g).
Proof.
  revert g. induction passwords as [|p l IH]; intros g Hg; simpl;
    [ exact Hg | ].
  apply IH. apply trainOne_keyed. exact Hg.
Qed.

Lemma normalize_keys {K : Type} (m : list (K * Q)) :
  map_keys (normalize m) = map_keys m.
Proof.
  unfold map_keys, normalize. rewrite map_map. apply map_ext. reflexivity.
Qed.

Lemma normalized_model_keys (m : list (str * list (char * Q))) :
  map_keys (map (fun st => (fst st, normalize (snd st))) m) = map_keys m.
Proof.
  unfold map_keys. rewrite map_map. apply map_ext. reflexivity.
Qed.

Lemma trainModel_keyed this passwords order :
  keyed (trainModel this passwords order).
Proof.
  unfold trainModel, normalizeProbabilities.
  cbn [Markov.order trainingData].
  set (g0 := {| model := []; startStates := []; order := order;
                trainingData := passwords |}).
  assert (H0 : keyed g0).
  { repeat split; cbn; try constructor. intros s []. }
  destruct (train_all_keyed passwords g0 H0) as [Hm [Hs Hin]].
  unfold keyed. cbn [model startStates].
  rewrite normalized_model_keys, normalize_keys.
  repeat split; assumption.
Qed.

(** Every state of a trained model has a transition. *)
Lemma trainModel_states_nonempty this passwords order state ts :
  In (state, ts) (model (trainModel this passwords order)) -> ts <> [].
Proof.
  unfold trainModel, normalizeProbabilities.
  cbn [model Markov.order trainingData].
  set (g0 := {| model := []; startStates := []; order := order;
                trainingData := passwords |}).
  intros Hin. apply in_map_iff in Hin.
  destruct Hin as [[state' ts'] [E Hin]]. cbn [fst snd] in E.
  injection E as _ E2. subst ts.
  assert (Hinv : training_inv (fold_left trainOne passwords g0)).
  { apply train_all_inv. split; constructor. }
  destruct Hinv as [Hm _]. unfold model_counted in Hm.
  rewrite Forall_forall in Hm. destruct (Hm _ Hin) as [Hne _].
  cbn [snd] in Hne. unfold normalize.
  destruct ts'; [ congruence | discriminate ].
Qed.

(** ** Sampling from a table of probabilities *)

Lemma walk_key {K : Type} (random cumulative : Q) (entries : list (K * Q))
    (k : K) :
  walk random cumulative entries = Some k -> exists q, In (k, q) entries.
Proof.
  revert cumulative. induction entries as [|[k' p] rest IH];
    intros cumulative; simpl; [ discriminate | ].
  destruct (Qle_bool random (cumulative + p)).
  - intros E. injection E as <-. exists p. left. reflexivity.
  - intros E. destruct (IH _ E) as [q Hq]. exists q. right. exact Hq.
Qed.

(** A draw that is not above the total mass selects an entry. *)
Lemma walk_some {K : Type} (random cumulative : Q) (entries : list (K * Q)) :
  entries <> [] ->
  (random <= cumulative + total (map_values entries))%Q ->
  exists k, walk random cumulative entries = Some k.
Proof.
  revert cumulative. induction entries as [|[k p] rest IH];
    intros cumulative Hne Hle; [ congruence | ].
  simpl. destruct (Qle_bool random (cumulative + p)) eqn:E;
    [ exists k; reflexivity | ].
  assert (Hnot : ~ (random <= cumulative + p)%Q).
  { intros H. apply Qle_bool_iff in H. congruence. }
  unfold map_values in Hle. cbn [map snd] in Hle.
  rewrite total_cons in Hle.
  destruct rest as [|e rest'].
  - exfalso. apply Hnot. unfold total in Hle. cbn [map fold_left] in Hle.
    rewrite Qplus_0_r in Hle. exact Hle.
  - apply IH; [ discriminate | ].
    unfold map_values. rewrite <- Qplus_assoc. exact Hle.
Qed.

(** ** Windows of a string *)

Lemma substring_length (s : str) (i n : nat) :
  i + n <= List.length s -> List.length (substring s i n) = n.
Proof.
  intros H. unfold substring. rewrite length_firstn, length_skipn. lia.
Qed.

Lemma firstn_snoc (l : str) (n : nat) (c : char) :
  nth_error l n = Some c -> firstn (n + 1) l = firstn n l ++ [c].
Proof.
  revert l. induction n as [|n IH]; intros l H.
  - destruct l as [|x l]; [ discriminate H | ].
    cbn in H. injection H as ->. reflexivity.
  - destruct l as [|x l]; [ discriminate H | ].
    cbn [nth_error] in H. cbn [Nat.add firstn app]. f_equal.
    apply IH. exact H.
Qed.

Lemma nth_error_skipn_add (l : str) (i n : nat) :
  nth_error (skipn i l) n = nth_error l (i + n).
Proof.
  revert l. induction i as [|i IH]; intros l; [ reflexivity | ].
  destruct l as [|x l]; [ destruct n; reflexivity | ].
  cbn [skipn Nat.add nth_error]. apply IH.
Qed.

Lemma substring_snoc (p : str) (i n : nat) (c : char) :
  nth_error p (i + n) = Some c ->
  substring p i (n + 1) = substring p i n ++ [c].
Proof.
  intros H. unfold substring. apply firstn_snoc.
  rewrite nth_error_skipn_add. exact H.
Qed.

Lemma substring_app_inside (s t : str) (o n : nat) :
  o + n <= List.length s -> substring (s ++ t) o n = substring s o n.
Proof.
  intros H. unfold substring.
  rewrite skipn_app, firstn_app, length_skipn.
  replace (n - (List.length s - o)) with 0 by lia.
  cbn [firstn]. apply app_nil_r.
Qed.

Lemma nth_error_snoc_inside (s : str) (c : char) (k : nat) :
  k < List.length s -> nth_error (s ++ [c]) k = nth_error s k.
Proof. intros H. apply nth_error_app1. exact H. Qed.

Lemma nth_error_snoc_last (s : str) (c : char) :
  nth_error (s ++ [c]) (List.length s) = Some c.
Proof.
  rewrite nth_error_app2 by lia. rewrite Nat.sub_diag. reflexivity.
Qed.

Lemma lastn_length (n : nat) (s : str) :
  n <= List.length s -> List.length (lastn n s) = n.
Proof. intros H. unfold lastn. rewrite length_skipn. lia. Qed.

(** ** The chain only takes transitions of the model *)

(** Every window of [order + 1] characters of [s] is a state followed
    by a character it is followed by in the corpus. *)
Definition grams_ok (corpus : list str) (order : nat) (s : str) : Prop :=
  forall o, o + order + 1 <= List.length s ->
    exists c, nth_error s (o + order) = Some c
              /\ gram corpus order (substring s o order) c.

Lemma grams_ok_snoc corpus order (s : str) (c : char) :
  order <= List.length s ->
  grams_ok corpus order s ->
  gram corpus order (lastn order s) c ->
  grams_ok corpus order (s ++ [c]).
Proof.
  intros Hlen Hs Hc o Ho. rewrite length_app in Ho. cbn [List.length] in Ho.
  destruct (Nat.eq_dec (o + order) (List.length s)) as [E|Hne].
  - exists c. rewrite E, nth_error_snoc_last. split; [ reflexivity | ].
    rewrite substring_app_inside by lia.
    unfold substring. rewrite firstn_all2 by (rewrite length_skipn; lia).
    unfold lastn in Hc. replace (List.length s - order) with o in Hc by lia.
    exact Hc.
  - destruct (Hs o) as [d [Ed Hd]]; [ lia | ].
    exists d. rewrite nth_error_snoc_inside by lia.
    split; [ exact Ed | ].
    rewrite substring_app_inside by lia. exact Hd.
Qed.

Lemma selectNextCharacter_gram corpus this currentState :
  model_observed corpus (order this) (model this) ->
  RandFacts.sure (selectNextCharacter this currentState)
    (fun r => forall c, r = Some c ->
                        gram corpus (order this) currentState c).
Proof.
  intros Hm. unfold selectNextCharacter.
  destruct (map_get str_eq_dec (model this) currentState) as [ts|] eqn:Eg;
    [ | apply RandFacts.sure_ret; discriminate ].
  destruct ts as [|t ts']; [ apply RandFacts.sure_ret; discriminate | ].
  eapply RandFacts.sure_bind; [ apply RandFacts.Math_random_sure | ].
  intros random _. apply RandFacts.sure_ret.
  intros c Hc. apply walk_key in Hc. destruct Hc as [q Hq].
  apply map_get_In in Eg. apply (Hm _ _ _ _ Eg Hq).
Qed.

Lemma chain_grams corpus this (n : nat) :
  model_observed corpus (order this) (model this) ->
  forall password,
    order this <= List.length password ->
    grams_ok corpus (order this) password ->
    RandFacts.sure (chain this n password (lastn (order this) password))
      (fun s => grams_ok corpus (order this) s
                /\ List.length password <= List.length s
                /\ List.length s <= List.length password + n
                /\ firstn (List.length password) s = password).
Proof.
  intros Hm. induction n as [|n IH]; intros password Hlen Hok; simpl.
  - apply RandFacts.sure_ret. split; [ exact Hok | ].
    split; [ lia | ]. split; [ lia | apply firstn_all ].
  - eapply RandFacts.sure_bind;
      [ apply (selectNextCharacter_gram corpus this _ Hm) | ].
    intros r Hr. cbv beta in Hr. destruct r as [c|].
    + eapply RandFacts.sure_weaken.
      * apply (IH (password ++ [c])).
        -- rewrite length_app. lia.
        -- apply grams_ok_snoc; [ exact Hlen | exact Hok | ].
           apply Hr. reflexivity.
      * intros s [H1 [H2 [H3 H4]]]. rewrite length_app in *.
        cbn [List.length] in *.
        split; [ exact H1 | ]. split; [ lia | ]. split; [ lia | ].
        assert (E : firstn (List.length password) s
                    = firstn (List.length password)
                             (firstn (List.length password + 1) s)).
        { rewrite firstn_firstn. f_equal. lia. }
        rewrite E, H4. rewrite firstn_app, Nat.sub_diag, firstn_all.
        cbn [firstn]. apply app_nil_r.
    + apply RandFacts.sure_ret. split; [ exact Hok | ].
      split; [ lia | ]. split; [ lia | apply firstn_all ].
Qed.

(** The padding appends characters of the allowed pool. *)
Lemma pad_ext config (n : nat) (result : str) :
  RandFacts.sure (pad config n result)
    (fun s => List.length s = List.length result + n
              /\ firstn (List.length result) s = result
              /\ Forall (fun c => In c (buildAllowedCharacterPool config))
                        (skipn (List.length result) s)).
Proof.
  revert result. induction n as [|n IH]; intros result; simpl.
  - apply RandFacts.sure_ret. split; [ lia | ].
    split; [ apply firstn_all | ]. rewrite skipn_all. constructor.
  - eapply RandFacts.sure_bind;
      [ apply MarkovFacts.getRandomCharacter_sure | ].
    intros c Hc. cbv beta in Hc.
    eapply RandFacts.sure_weaken; [ apply IH | ].
    intros s [H1 [H2 H3]]. rewrite length_app in *. cbn [List.length] in *.
    split; [ lia | ].
    assert (Es : s = (result ++ [c]) ++ skipn (List.length result + 1) s).
    { rewrite <- H2 at 1. apply eq_sym, firstn_skipn. }
    split.
    + rewrite Es, <- app_assoc, firstn_app, Nat.sub_diag, firstn_all.
      cbn [firstn]. apply app_nil_r.
    + rewrite Es, <- app_assoc, skipn_app, Nat.sub_diag, skipn_all.
      cbn [skipn app]. constructor; [ exact Hc | exact H3 ].
Qed.

(** ** The base password of a trained generator *)

Lemma Math_random_range :
  RandFacts.sure Math_random (fun r => (0 <= r)%Q /\ (r < 1)%Q).
Proof.
  intros src i. exists (draw src i), (S i).
  split; [ reflexivity | apply draw_range ].
Qed.

Lemma selectRandomStartState_trained this :
  startStates this <> [] ->
  (total (map_values (startStates this)) == 1)%Q ->
  RandFacts.sure (selectRandomStartState this)
    (fun s => exists q, In (s, q) (startStates this)).
Proof.
  intros Hne Htot. unfold selectRandomStartState.
  eapply RandFacts.sure_bind; [ apply Math_random_range | ].
  intros random [H0 H1].
  destruct (walk_some random 0 (startStates this) Hne) as [k Ek].
  - rewrite Htot. apply Qlt_le_weak. rewrite Qplus_0_l. exact H1.
  - rewrite Ek. apply RandFacts.sure_ret. apply (walk_key _ _ _ _ Ek).
Qed.

Definition allowedChar (config : PasswordGeneratorConfig) (c : char) : Prop :=
  In c (buildAllowedCharacterPool config).

Lemma generateBasePassword_trained corpus this config :
  model this <> [] ->
  startStates this <> [] ->
  (total (map_values (startStates this)) == 1)%Q ->
  observed corpus this ->
  RandFacts.sure (generateBasePassword this config)
    (fun s => exists k,
         order this <= k /\ k <= List.length s
         /\ grams_ok corpus (order this) (firstn k s)
         /\ (exists p, In p corpus /\ order this + 1 <= List.length p
                       /\ substring p 0 (order this) = firstn (order this) s)
         /\ Forall (allowedChar config) (skipn k s)
         /\ List.length s = Nat.max (order this) (cfg_length config)).
Proof.
  intros Hmodel Hstart Htot [Hm Hs]. unfold generateBasePassword.
  destruct (model this) as [|st0 m0] eqn:Em; [ congruence | ].
  rewrite <- Em in Hm.
  eapply RandFacts.sure_bind;
    [ apply (selectRandomStartState_trained this Hstart Htot) | ].
  intros s0 [q Hq]. destruct (Hs s0 q Hq) as [p [Hp [Hlen Ep]]].
  assert (L0 : List.length s0 = order this).
  { rewrite <- Ep. apply substring_length. lia. }
  assert (Hlast : lastn (order this) s0 = s0).
  { unfold lastn. rewrite L0, Nat.sub_diag. reflexivity. }
  assert (Hok0 : grams_ok corpus (order this) s0).
  { intros o Ho. lia. }
  eapply RandFacts.sure_bind.
  { pose proof (chain_grams corpus this
                  (cfg_length config - List.length s0) Hm s0) as Hc.
    rewrite Hlast in Hc. apply Hc; [ lia | exact Hok0 ]. }
  intros s1 [G1 [Lo [Hi F1]]]. cbv beta in *.
  eapply RandFacts.sure_weaken; [ apply pad_ext | ].
  intros s [L2 [F2 A2]]. exists (List.length s1).
  split; [ lia | ]. split; [ lia | ].
  split; [ rewrite F2; exact G1 | ].
  split.
  - exists p. split; [ exact Hp | ]. split; [ exact Hlen | ].
    rewrite Ep.
    assert (E : firstn (order this) s
                = firstn (order this) (firstn (List.length s1) s)).
    { rewrite firstn_firstn. f_equal. lia. }
    rewrite E, F2, <- L0. symmetry. exact F1.
  - split; [ exact A2 | lia ].
Qed.

End ModelFacts.

(* ================================================================== *)
(** * The repairs of the Markov generator *)
(* ================================================================== *)

Module MarkovRepairFacts.
Import Markov RandFacts MarkovFacts.

(** ** [sanitizeToAllowedCharacters] *)

(** [d] stands where [c] stood: it is allowed, and it is [c] when [c]
    is allowed. *)
Definition kept (pool : str) (c d : char) : Prop :=
  In d pool /\ (In c pool -> d = c).

Lemma mapM_kept (pool password : str) :
  pool <> [] ->
  sure (mapM (fun c => if includes pool c then ret c
                       else getRandomFromPool pool) password)
       (fun s => Forall2 (kept pool) password s).
Proof.
  intros Hne. induction password as [|c password IH]; simpl.
  - apply sure_ret. constructor.
  - eapply sure_bind with (Q := kept pool c).
    + unfold includes.
      destruct (in_dec char_eq_dec c pool) as [Hin|Hout].
      * apply sure_ret. split; [ exact Hin | reflexivity ].
      * eapply sure_weaken; [ apply (getRandomFromPool_sure Hne) | ].
        intros d Hd. split; [ exact Hd | intros H; contradiction ].
    + intros d Hd. eapply sure_bind; [ exact IH | ].
      intros s Hs. apply sure_ret. constructor; assumption.
Qed.

Lemma Forall2_firstn {A B : Type} (R : A -> B -> Prop) (n : nat)
    (l : list A) (l' : list B) :
  Forall2 R l l' -> Forall2 R (firstn n l) (firstn n l').
Proof.
  intros H. revert n. induction H as [|x y l l' Hxy Hl IH]; intros n.
  - rewrite !firstn_nil. constructor.
  - destruct n as [|n]; [ constructor | ].
    cbn [firstn]. constructor; [ exact Hxy | apply IH ].
Qed.

Lemma sanitize_kept password config :
  sure (sanitizeToAllowedCharacters password config)
       (fun s => Forall2 (kept (buildAllowedCharacterPool config))
                         (firstn (cfg_length config) password) s).
Proof.
  unfold sanitizeToAllowedCharacters.
  pose proof (buildAllowedCharacterPool_nonempty config) as Hne.
  destruct (buildAllowedCharacterPool config) as [|p0 pool] eqn:E;
    [ congruence | ].
  eapply sure_bind; [ apply (mapM_kept (p0 :: pool) password Hne) | ].
  intros sanitized Hs. apply sure_ret. unfold slice0.
  apply Forall2_firstn. exact Hs.
Qed.

Lemma mapM_allowed (pool password : str) (src : Source) (i : nat) :
  Forall (fun c => In c pool) password ->
  mapM (fun c => if includes pool c then ret c
                 else getRandomFromPool pool) password src i
  = Returned (password, i).
Proof.
  intros H. revert i. induction H as [|c password Hc Hrest IH]; intros i.
  - reflexivity.
  - cbn [mapM]. unfold bind at 1. unfold includes at 1.
    destruct (in_dec char_eq_dec c pool) as [_|Hout]; [ | contradiction ].
    unfold ret at 1. unfold bind. rewrite IH. reflexivity.
Qed.

Lemma sanitize_allowed password config src i :
  Forall (fun c => In c (buildAllowedCharacterPool config)) password ->
  List.length password <= cfg_length config ->
  sanitizeToAllowedCharacters password config src i = Returned (password, i).
Proof.
  intros Hall Hlen. unfold sanitizeToAllowedCharacters.
  pose proof (buildAllowedCharacterPool_nonempty config) as Hne.
  destruct (buildAllowedCharacterPool config) as [|p0 pool] eqn:E;
    [ congruence | ].
  unfold bind. rewrite (mapM_allowed (p0 :: pool) password src i Hall).
  unfold ret, slice0. rewrite firstn_all2 by exact Hlen. reflexivity.
Qed.

(** ** A password that lacks nothing *)

Lemma ensureCategory_present config (isRequired : bool)
    (predicate : char -> bool) (pool chars : str) src i :
  (isRequired = true -> existsb predicate chars = true) ->
  ensureCategory config isRequired predicate pool chars src i
  = Returned (chars, i).
Proof.
  intros H. unfold ensureCategory.
  destruct isRequired; [ | reflexivity ].
  cbn [negb]. rewrite (H eq_refl). reflexivity.
Qed.

Lemma ensureCharacterCategories_present password config src i :
  (includeUppercase config = true -> existsb isUppercase password = true) ->
  (includeLowercase config = true -> existsb isLowercase password = true) ->
  (includeNumbers config = true -> existsb isNumber password = true) ->
  (includeSymbols config = true -> existsb isSymbol password = true) ->
  ensureCharacterCategories password config src i = Returned (password, i).
Proof.
  intros HU HL HN HS. unfold ensureCharacterCategories, bind.
  rewrite (ensureCategory_present config _ _ _ password src i HU).
  rewrite (ensureCategory_present config _ _ _ password src i HL).
  rewrite (ensureCategory_present config _ _ _ password src i HN).
  rewrite (ensureCategory_present config _ _ _ password src i HS).
  reflexivity.
Qed.

Lemma ensureType_met fuel config minimums type pool chars counts src i :
  (cget minimums type <= cget counts type)%Z ->
  ensureType fuel config minimums type pool chars counts src i
  = Returned ((chars, counts), i).
Proof.
  intros H.
  assert (E : (cget counts type <? cget minimums type)%Z = false)
    by (apply Z.ltb_ge; exact H).
  destruct fuel; cbn [ensureType]; rewrite E; reflexivity.
Qed.

Lemma ensureRequiredCharacters_met fuel password config src i :
  (includeSymbols config = true -> (2 <= cnt symbols password)%Z) ->
  (includeNumbers config = true -> (2 <= cnt numbers password)%Z) ->
  ensureRequiredCharacters fuel password config src i
  = Returned (password, i).
Proof.
  intros HS HN. unfold ensureRequiredCharacters, bind.
  assert (E1 : (if includeSymbols config
                then ensureType fuel config (minimumsOf config) symbols
                                getSymbolChars password (countChars password)
                else ret (password, countChars password)) src i
               = Returned ((password, countChars password), i)).
  { destruct (includeSymbols config) eqn:ES; [ | reflexivity ].
    apply ensureType_met. rewrite cget_countChars.
    unfold minimumsOf. rewrite ES. cbn [cget n_symbols]. apply HS. reflexivity. }
  rewrite E1. cbn [fst snd].
  assert (E2 : (if includeNumbers config
                then ensureType fuel config (minimumsOf config) numbers
                                getNumberChars password (countChars password)
                else ret (password, countChars password)) src i
               = Returned ((password, countChars password), i)).
  { destruct (includeNumbers config) eqn:EN; [ | reflexivity ].
    apply ensureType_met. rewrite cget_countChars.
    unfold minimumsOf. rewrite EN. cbn [cget n_numbers]. apply HN. reflexivity. }
  rewrite E2. reflexivity.
Qed.

Lemma applySecurityImprovements_conforming fuel password config src i :
  Forall (fun c => In c (buildAllowedCharacterPool config)) password ->
  List.length password = cfg_length config ->
  (includeUppercase config = true -> existsb isUppercase password = true) ->
  (includeLowercase config = true -> existsb isLowercase password = true) ->
  (includeNumbers config = true -> (2 <= cnt numbers password)%Z) ->
  (includeSymbols config = true -> (2 <= cnt symbols password)%Z) ->
  applySecurityImprovements fuel password config src i
  = Returned (password, i).
Proof.
  intros Hall Hlen HU HL HN HS. unfold applySecurityImprovements, bind.
  rewrite (sanitize_allowed password config src i Hall) by lia.
  assert (Hex : forall t, (1 <= cnt t password)%Z ->
                          existsb (isType t) password = true).
  { intros t Ht. destruct (cnt_positive_index t password) as [idx [c [E Hc]]];
      [ lia | ].
    apply existsb_exists. exists c. split; [ | exact Hc ].
    apply (nth_error_In _ _ E). }
  rewrite (ensureCharacterCategories_present password config src i HU HL).
  - rewrite (ensureRequiredCharacters_met fuel password config src i HS HN).
    destruct (Estimator.entropyBelow60 password); [ | reflexivity ].
    apply addEntropy_full. exact Hlen.
  - intros E. apply (Hex numbers). specialize (HN E). lia.
  - intros E. apply (Hex symbols). specialize (HS E). lia.
Qed.

(** ** [ensureRequiredCharacters] keeps what is there *)

Lemma ensureRequiredCharacters_keeps fuel password config :
  2 <= fuel ->
  sumOfMinimums config <= List.length password ->
  sure (ensureRequiredCharacters fuel password config)
       (fun s => List.length s = List.length password
                 /\ (forall t, (cget (minimumsOf config) t <= cnt t password)%Z ->
                               (cget (minimumsOf config) t <= cnt t s)%Z)
                 /\ (cget (minimumsOf config) symbols <= cnt symbols s)%Z
                 /\ (cget (minimumsOf config) numbers <= cnt numbers s)%Z).
Proof.
  intros Hfuel Hsum. unfold ensureRequiredCharacters.
  destruct pools_nonempty as [_ [_ [NN NS]]].
  destruct pool_types as [TS TN].
  assert (Hc0 : forall t, cget (countChars password) t = cnt t password)
    by (intros t; apply cget_countChars).
  eapply sure_bind with
    (Q := fun st => (forall t, cget (snd st) t = cnt t (fst st))
                    /\ List.length (fst st) = List.length password
                    /\ (cget (minimumsOf config) symbols
                        <= cnt symbols (fst st))%Z
                    /\ (forall t,
                          (cget (minimumsOf config) t <= cnt t password)%Z ->
                          (cget (minimumsOf config) t <= cnt t (fst st))%Z)).
  - destruct (includeSymbols config) eqn:ES.
    + eapply sure_weaken.
      * apply (@ensureType_sure config symbols getSymbolChars NS TS);
          [ exact Hc0 | exact Hsum | ].
        pose proof (minimumsOf_range config symbols).
        pose proof (cnt_nonneg symbols password). rewrite Hc0. lia.
      * intros st [H1 [H2 [H3 H4]]].
        split; [ exact H1 | ]. split; [ exact H2 | ]. split; [ exact H3 | ].
        intros t Ht. destruct t; try (apply H4; [ discriminate | exact Ht ]).
        exact H3.
    + apply sure_ret. cbn [fst snd]. split; [ exact Hc0 | ].
      split; [ reflexivity | ]. split; [ | intros t Ht; exact Ht ].
      unfold minimumsOf. rewrite ES. cbn [cget n_symbols].
      apply cnt_nonneg.
  - intros st1 [C1 [L1 [S1 K1]]].
    eapply sure_bind with
      (Q := fun st => List.length (fst st) = List.length password
                      /\ (forall t,
                            (cget (minimumsOf config) t <= cnt t password)%Z ->
                            (cget (minimumsOf config) t <= cnt t (fst st))%Z)
                      /\ (cget (minimumsOf config) symbols
                          <= cnt symbols (fst st))%Z
                      /\ (cget (minimumsOf config) numbers
                          <= cnt numbers (fst st))%Z).
    + destruct (includeNumbers config) eqn:EN.
      * eapply sure_weaken.
        -- apply (@ensureType_sure config numbers getNumberChars NN TN);
             [ exact C1
             | exact (eq_ind_r (fun n => sumOfMinimums config <= n) Hsum L1) | ].
           pose proof (minimumsOf_range config numbers).
           pose proof (cnt_nonneg numbers (fst st1)). rewrite C1. lia.
        -- intros st [H1 [H2 [H3 H4]]].
           split; [ exact (eq_trans H2 L1) | ].
           assert (HS2 : (cget (minimumsOf config) symbols
                          <= cnt symbols (fst st))%Z)
             by (apply H4; [ discriminate | exact S1 ]).
           split; [ | split; [ exact HS2 | exact H3 ] ].
           intros t Ht. destruct t;
             try (apply H4; [ discriminate | apply K1; exact Ht ]).
           exact H3.
      * apply sure_ret. split; [ exact L1 | ]. split; [ exact K1 | ].
        split; [ exact S1 | ].
        unfold minimumsOf. rewrite EN. cbn [cget n_numbers].
        apply cnt_nonneg.
    + intros st2 H. apply sure_ret. exact H.
Qed.

End MarkovRepairFacts.

(* ================================================================== *)
(** * Properties of the Markov generator *)
(* ================================================================== *)

(** X18.  After [trainModel] the transition table is empty exactly when
    no password of the corpus has more than [order] characters (such
    passwords are skipped), and with an empty table [generatePassword]
    throws "Markov model not trained. Call trainModel() first." for every
    configuration. *)
Theorem untrained_exactly_when_passwords_are_short :
  forall (this : Markov.MarkovPasswordGenerator) (passwords : list (list N))
         (order : nat),
    let g := Markov.trainModel this passwords order in
    (Markov.model g = []
     <-> Forall (fun p => List.length p <= order) passwords)
    /\ (Markov.model g = [] ->
        forall fuel config src i,
          Markov.generatePassword fuel g config src i
          = Thrown "Markov model not trained. Call trainModel() first.").
Proof.
  intros this passwords order g. split.
  - apply ModelFacts.trainModel_empty.
  - intros E fuel config src i.
    rewrite MarkovFacts.generatePassword_run.
    unfold Markov.generatePasswordString, Markov.generateBasePassword, bind.
    rewrite E. reflexivity.
Qed.

(** X19.  [getModelStatistics] after [trainModel] reports the order and
    the size of the corpus it was given; every state has at least one
    transition and every start state is a state, so the number of start
    states is at most the number of states, which is at most the number of
    transitions; the average number of transitions per state is a finite
    number of 1 or more when there is a state, and [NaN] (0 / 0) when the
    table is empty. *)
Theorem model_statistics_of_a_trained_model :
  forall (this : Markov.MarkovPasswordGenerator) (passwords : list (list N))
         (order : nat),
    let st := Markov.getModelStatistics
                (Markov.trainModel this passwords order) in
    Markov.modelOrder st = order
    /\ Markov.trainingDataSize st = List.length passwords
    /\ Markov.startStatesSize st <= Markov.totalStates st
    /\ Markov.totalStates st <= Markov.totalTransitions st
    /\ match Markov.totalStates st with
       | O => Markov.averageTransitionsPerState st = Num.NaN
       | S _ => exists a : R,
                  Markov.averageTransitionsPerState st = Num.Fin a
                  /\ (1 <= a)%R
       end.
Proof.
  intros this passwords order st. unfold st, Markov.getModelStatistics.
  cbn [Markov.modelOrder Markov.trainingDataSize Markov.startStatesSize
       Markov.totalStates Markov.totalTransitions
       Markov.averageTransitionsPerState].
  set (g := Markov.trainModel this passwords order).
  split; [ apply ModelFacts.trainModel_observed | ].
  assert (Hdata : forall (l : list (list N)) g0,
             Markov.trainingData (fold_left Markov.trainOne l g0)
             = Markov.trainingData g0).
  { induction l as [|p l IH]; intros g0; [ reflexivity | ].
    cbn [fold_left]. rewrite IH. unfold Markov.trainOne.
    destruct (List.length p <? Markov.order g0 + 1); reflexivity. }
  split.
  { unfold g, Markov.trainModel, Markov.normalizeProbabilities.
    cbn [Markov.trainingData]. rewrite Hdata. reflexivity. }
  assert (Hstart : List.length (Markov.startStates g)
                   <= List.length (Markov.model g)).
  { destruct (ModelFacts.trainModel_keyed this passwords order)
      as [_ [Hs Hin]]. fold g in Hs, Hin.
    pose proof (NoDup_incl_length Hs Hin) as H.
    unfold map_keys in H. rewrite !length_map in H. exact H. }
  split; [ exact Hstart | ].
  assert (Hcount : forall (m : list (list N * list (N * Q))) (acc : nat),
             Forall (fun kv => snd kv <> []) m ->
             acc + List.length m
             <= fold_left (fun sum transitions => sum + List.length transitions)
                          (map_values m) acc).
  { induction m as [|[k ts] m IH]; intros acc Hm; [ simpl; lia | ].
    inversion Hm as [|? ? Hts Hrest]; subst. cbn [snd] in Hts.
    unfold map_values. cbn [map snd fold_left].
    specialize (IH (acc + List.length ts) Hrest). unfold map_values in IH.
    destruct ts; [ congruence | ]. cbn [List.length] in *. lia. }
  assert (Hne : Forall (fun kv : list N * list (N * Q) => snd kv <> [])
                       (Markov.model g)).
  { apply Forall_forall. intros [k ts] Hin. cbn [snd].
    apply (ModelFacts.trainModel_states_nonempty this passwords order k ts Hin). }
  pose proof (Hcount (Markov.model g) 0 Hne) as Hle. cbn [Nat.add] in Hle.
  split; [ exact Hle | ].
  set (transitions := fold_left _ (map_values (Markov.model g)) 0) in *.
  destruct (List.length (Markov.model g)) as [|n] eqn:En.
  - assert (Et : transitions = 0).
    { destruct (Markov.model g); [ reflexivity | discriminate En ]. }
    rewrite Et. apply ComparisonFacts.div_zero_zero.
  - exists (INR transitions / INR (S n))%R. split.
    + unfold Num.of_nat at 1. apply ComparisonFacts.div_count. lia.
    + assert (Hp : (0 < INR (S n))%R) by (apply lt_0_INR; lia).
      apply Rmult_le_reg_r with (INR (S n)); [ exact Hp | ].
      unfold Rdiv. rewrite Rmult_assoc, Rinv_l by lra.
      rewrite Rmult_1_l, Rmult_1_r. apply le_INR. exact Hle.
Qed.

(** X20.  With a corpus that holds a password of more than [order]
    characters, [generateBasePassword] of the trained generator always
    returns a password of [max(order, config.length)] characters that
    begins with the first [order] characters of a password of the corpus;
    up to some position [k], every [order + 1] consecutive characters of
    it occur consecutively in a password of the corpus, and the
    characters from position [k] on are padding drawn from the allowed
    pool of the configuration. *)
Theorem base_password_follows_the_corpus :
  forall (this : Markov.MarkovPasswordGenerator) (passwords : list (list N))
         (order : nat) (config : PasswordGeneratorConfig)
         (src : Source) (i : nat),
    (exists p, In p passwords /\ order + 1 <= List.length p) ->
    exists s j k,
      Markov.generateBasePassword (Markov.trainModel this passwords order)
                                  config src i = Returned (s, j)
      /\ List.length s = Nat.max order (cfg_length config)
      /\ order <= k /\ k <= List.length s
      /\ (exists p, In p passwords /\ substring p 0 order = firstn order s)
      /\ (forall o, o + order + 1 <= k ->
            exists p i',
              In p passwords
              /\ substring p i' (order + 1) = substring s o (order + 1))
      /\ Forall (fun c => In c (Markov.buildAllowedCharacterPool config))
                (skipn k s).
Proof.
  intros this passwords order config src i Hex.
  set (g := Markov.trainModel this passwords order).
  destruct (ModelFacts.trainModel_observed this passwords order) as [Hobs Ho].
  fold g in Hobs, Ho.
  assert (Hmodel : Markov.model g <> []).
  { intros E. apply ModelFacts.trainModel_empty in E.
    destruct Hex as [p [Hp Hlen]]. rewrite Forall_forall in E.
    specialize (E p Hp). lia. }
  pose proof (@TrainingFacts.trained_starts_total this passwords order Hex)
    as Htot.
  fold g in Htot.
  assert (Hstart : Markov.startStates g <> []).
  { intros E. rewrite E in Htot. discriminate Htot. }
  destruct (ModelFacts.generateBasePassword_trained passwords g config
              Hmodel Hstart Htot Hobs src i)
    as [s [j [E [k [H1 [H2 [H3 [H4 [H5 H6]]]]]]]]].
  rewrite Ho in *.
  exists s, j, k. split; [ exact E | ]. split; [ exact H6 | ].
  split; [ exact H1 | ]. split; [ exact H2 | ]. split.
  - destruct H4 as [p [Hp [_ Ep]]]. exists p. split; assumption.
  - split; [ | exact H5 ].
    intros o Ho'.
    assert (Lk : List.length (firstn k s) = k)
      by (rewrite length_firstn; lia).
    destruct (H3 o) as [c [Ec [p [i' [Hp [Es En]]]]]]; [ lia | ].
    exists p, i'. split; [ exact Hp | ].
    rewrite (ModelFacts.substring_snoc p i' order c En), Es.
    rewrite <- (ModelFacts.substring_snoc (firstn k s) o order c Ec).
    rewrite <- (firstn_skipn k s) at 2.
    symmetry. apply ModelFacts.substring_app_inside. lia.
Qed.

Lemma base_password_follows_the_corpus_witness :
  exists s j k,
    Markov.generateBasePassword
      (Markov.trainModel Markov.fresh Inputs.scenarioCorpus 1)
      Inputs.part2Config Inputs.zeroSource 0 = Returned (s, j)
    /\ List.length s = 12
    /\ (forall o, o + 1 + 1 <= k ->
          exists p i',
            In p Inputs.scenarioCorpus
            /\ substring p i' (1 + 1) = substring s o (1 + 1)).
Proof.
  assert (Hex : exists p, In p Inputs.scenarioCorpus
                          /\ 1 + 1 <= List.length p).
  { exists (codes "password123"). split; [ left; reflexivity | simpl; lia ]. }
  destruct (base_password_follows_the_corpus Markov.fresh
              Inputs.scenarioCorpus 1 Inputs.part2Config Inputs.zeroSource 0
              Hex) as [s [j [k [E [L [_ [_ [_ [G _]]]]]]]]].
  exists s, j, k. split; [ exact E | ]. split; [ exact L | exact G ].
Defined.

(** X21.  [sanitizeToAllowedCharacters] never throws (the allowed pool is
    never empty) and works position by position on the first
    [config.length] characters: every character of the result is in the
    allowed pool, and a character that was in the pool already is kept.
    A password of allowed characters that is not too long comes back
    unchanged and no random number is drawn. *)
Theorem sanitize_keeps_allowed_characters :
  forall (password : list N) (config : PasswordGeneratorConfig)
         (src : Source) (i : nat),
    let pool := Markov.buildAllowedCharacterPool config in
    (exists s j,
        Markov.sanitizeToAllowedCharacters password config src i
        = Returned (s, j)
        /\ Forall2 (fun c d => In d pool /\ (In c pool -> d = c))
                   (firstn (cfg_length config) password) s)
    /\ (Forall (fun c => In c pool) password ->
        List.length password <= cfg_length config ->
        Markov.sanitizeToAllowedCharacters password config src i
        = Returned (password, i)).
Proof.
  intros password config src i pool. split.
  - destruct (MarkovRepairFacts.sanitize_kept password config src i)
      as [s [j [E H]]].
    exists s, j. split; [ exact E | exact H ].
  - intros Hall Hlen.
    apply MarkovRepairFacts.sanitize_allowed; assumption.
Qed.

(** X22.  With two rounds of fuel and a password that leaves room for the
    minimums, [ensureRequiredCharacters] returns a password of the same
    length with two symbols and two digits where these are enabled, and it
    never takes the last uppercase letter or the last lowercase letter of
    an enabled category away: an enabled category that held its minimum on
    entry holds it on return. *)
Theorem required_characters_keep_the_other_categories :
  forall (fuel : nat) (password : list N) (config : PasswordGeneratorConfig)
         (src : Source) (i : nat),
    2 <= fuel ->
    MarkovFacts.sumOfMinimums config <= List.length password ->
    exists s j,
      Markov.ensureRequiredCharacters fuel password config src i
      = Returned (s, j)
      /\ List.length s = List.length password
      /\ (includeSymbols config = true ->
          2 <= List.length (filter Markov.isSymbol s))
      /\ (includeNumbers config = true ->
          2 <= List.length (filter Markov.isNumber s))
      /\ (includeUppercase config = true ->
          1 <= List.length (filter Markov.isUppercase password) ->
          1 <= List.length (filter Markov.isUppercase s))
      /\ (includeLowercase config = true ->
          1 <= List.length (filter Markov.isLowercase password) ->
          1 <= List.length (filter Markov.isLowercase s)).
Proof.
  intros fuel password config src i Hfuel Hsum.
  destruct (MarkovRepairFacts.ensureRequiredCharacters_keeps fuel password
              config Hfuel Hsum src i) as [s [j [E [L [K [S N]]]]]].
  exists s, j. split; [ exact E | ]. split; [ exact L | ].
  unfold MarkovFacts.cnt in *.
  split; [ | split; [ | split ] ].
  - intros F. unfold Markov.minimumsOf in S. rewrite F in S.
    cbn [Markov.cget Markov.n_symbols MarkovFacts.isType] in S. lia.
  - intros F. unfold Markov.minimumsOf in N. rewrite F in N.
    cbn [Markov.cget Markov.n_numbers MarkovFacts.isType] in N. lia.
  - intros F H. specialize (K Markov.uppercase).
    unfold Markov.minimumsOf in K. rewrite F in K.
    cbn [Markov.cget Markov.n_uppercase MarkovFacts.isType] in K. lia.
  - intros F H. specialize (K Markov.lowercase).
    unfold Markov.minimumsOf in K. rewrite F in K.
    cbn [Markov.cget Markov.n_lowercase MarkovFacts.isType] in K. lia.
Qed.

Lemma required_characters_keep_the_other_categories_witness :
  exists s j,
    Markov.ensureRequiredCharacters 2 (codes "Abcdefghijkl")
                                    Inputs.part2Config Inputs.zeroSource 0
    = Returned (s, j)
    /\ 1 <= List.length (filter Markov.isUppercase s).
Proof.
  assert (Hfuel : 2 <= 2) by lia.
  assert (Hsum : MarkovFacts.sumOfMinimums Inputs.part2Config
                 <= List.length (codes "Abcdefghijkl"))
    by (vm_compute; lia).
  destruct (required_characters_keep_the_other_categories 2
              (codes "Abcdefghijkl") Inputs.part2Config Inputs.zeroSource 0
              Hfuel Hsum) as [s [j [E [_ [_ [_ [U _]]]]]]].
  exists s, j. split; [ exact E | ]. apply U; [ reflexivity | ].
  vm_compute. lia.
Defined.

(** X23.  [applySecurityImprovements] leaves a conforming password alone:
    when every character is in the allowed pool, the length is the length
    asked for, every enabled letter category is present and the password
    holds two digits and two symbols where these are enabled, the
    password comes back unchanged, no random number is drawn and the loop
    of [ensureRequiredCharacters] is never entered. *)
Theorem conforming_password_is_left_alone :
  forall (fuel : nat) (password : list N) (config : PasswordGeneratorConfig)
         (src : Source) (i : nat),
    Forall (fun c => In c (Markov.buildAllowedCharacterPool config))
           password ->
    List.length password = cfg_length config ->
    (includeUppercase config = true ->
     existsb Markov.isUppercase password = true) ->
    (includeLowercase config = true ->
     existsb Markov.isLowercase password = true) ->
    (includeNumbers config = true ->
     2 <= List.length (filter Markov.isNumber password)) ->
    (includeSymbols config = true ->
     2 <= List.length (filter Markov.isSymbol password)) ->
    Markov.applySecurityImprovements fuel password config src i
    = Returned (password, i).
Proof.
  intros fuel password config src i Hall Hlen HU HL HN HS.
  assert (HN' : includeNumbers config = true ->
                (2 <= MarkovFacts.cnt Markov.numbers password)%Z).
  { intros E. specialize (HN E). unfold MarkovFacts.cnt.
    cbn [MarkovFacts.isType]. lia. }
  assert (HS' : includeSymbols config = true ->
                (2 <= MarkovFacts.cnt Markov.symbols password)%Z).
  { intros E. specialize (HS E). unfold MarkovFacts.cnt.
    cbn [MarkovFacts.isType]. lia. }
  exact (MarkovRepairFacts.applySecurityImprovements_conforming
           fuel password config src i Hall Hlen HU HL HN' HS').
Qed.

Module ConformingExample.

Definition example : list N := codes "aB#7x$9kLmNp".

Lemma includes_In (s : list N) (c : N) : includes s c = true -> In c s.
Proof.
  unfold includes. destruct (in_dec char_eq_dec c s) as [H|H];
    [ intros _; exact H | discriminate ].
Qed.

Lemma example_included :
  forallb (includes (Markov.buildAllowedCharacterPool Inputs.part2Config))
          example = true.
Proof. vm_compute. reflexivity. Qed.

Lemma example_allowed :
  Forall (fun c => In c (Markov.buildAllowedCharacterPool Inputs.part2Config))
         example.
Proof.
  apply Forall_forall. intros c Hc. apply includes_In.
  exact (proj1 (forallb_forall _ _) example_included c Hc).
Qed.

Lemma example_length : List.length example = cfg_length Inputs.part2Config.
Proof. vm_compute. reflexivity. Qed.

Lemma example_uppercase :
  includeUppercase Inputs.part2Config = true ->
  existsb Markov.isUppercase example = true.
Proof. intros _. vm_compute. reflexivity. Qed.

Lemma example_lowercase :
  includeLowercase Inputs.part2Config = true ->
  existsb Markov.isLowercase example = true.
Proof. intros _. vm_compute. reflexivity. Qed.

Lemma example_numbers :
  includeNumbers Inputs.part2Config = true ->
  2 <= List.length (filter Markov.isNumber example).
Proof. intros _. vm_compute. lia. Qed.

Lemma example_symbols :
  includeSymbols Inputs.part2Config = true ->
  2 <= List.length (filter Markov.isSymbol example).
Proof. intros _. vm_compute. lia. Qed.

End ConformingExample.

Lemma conforming_password_is_left_alone_witness :
  Markov.applySecurityImprovements 0 ConformingExample.example
                                   Inputs.part2Config Inputs.zeroSource 5
  = Returned (ConformingExample.example, 5).
Proof.
  exact (conforming_password_is_left_alone 0 ConformingExample.example
           Inputs.part2Config Inputs.zeroSource 5
           ConformingExample.example_allowed ConformingExample.example_length
           ConformingExample.example_uppercase
           ConformingExample.example_lowercase
           ConformingExample.example_numbers
           ConformingExample.example_symbols).
Defined.

(* ================================================================== *)
(** * Tables of counts *)
(* ================================================================== *)

Module TallyFacts.

(** What a table holds for a key that was counted [c] times. *)
Definition counted (c : nat) : option nat := if c =? 0 then None else Some c.

Section Tally.
Variable K : Type.
Variable K_eq_dec : forall a b : K, {a = b} + {a <> b}.

Definition total (m : list (K * nat)) : nat := list_sum (map snd m).

Definition stored (m : list (K * nat)) (k : K) : nat :=
  match map_get K_eq_dec m k with Some v => v | None => 0 end.

Lemma get_set (m : list (K * nat)) (k : K) (v : nat) (k' : K) :
  map_get K_eq_dec (map_set K_eq_dec m k v) k'
  = if K_eq_dec k' k then Some v else map_get K_eq_dec m k'.
Proof.
  induction m as [|[k0 v0] m IH]; simpl.
  - destruct (K_eq_dec k' k); reflexivity.
  - destruct (K_eq_dec k k0) as [E|E]; simpl.
    + subst k0. destruct (K_eq_dec k' k); reflexivity.
    + destruct (K_eq_dec k' k0) as [E'|E'].
      * subst k0. destruct (K_eq_dec k' k); [ congruence | reflexivity ].
      * exact IH.
Qed.

Lemma total_set (m : list (K * nat)) (k : K) (v : nat) :
  total (map_set K_eq_dec m k v) + stored m k = total m + v.
Proof.
  unfold total, stored.
  induction m as [|[k0 v0] m IH]; simpl.
  - lia.
  - destruct (K_eq_dec k k0); simpl; lia.
Qed.

Lemma tally_get (m : list (K * nat)) (k k' : K) :
  map_get K_eq_dec (tally K_eq_dec m k) k'
  = if K_eq_dec k' k then Some (stored m k + 1) else map_get K_eq_dec m k'.
Proof. unfold tally. rewrite get_set. reflexivity. Qed.

Lemma tally_total (m : list (K * nat)) (k : K) :
  total (tally K_eq_dec m k) = total m + 1.
Proof.
  unfold tally. pose proof (total_set m k (stored m k + 1)) as H.
  unfold stored in *. lia.
Qed.

(** A table that holds the counts of the keys seen so far. *)
Definition counts (m : list (K * nat)) (seen : list K) : Prop :=
  forall k, map_get K_eq_dec m k = counted (count_occ K_eq_dec seen k).

Lemma counts_tally (m : list (K * nat)) (seen : list K) (x : K) :
  counts m seen -> counts (tally K_eq_dec m x) (seen ++ [x]).
Proof.
  intros H k. rewrite tally_get, count_occ_app. simpl.
  destruct (K_eq_dec k x) as [->|Hne].
  - destruct (K_eq_dec x x) as [_|N]; [ | congruence ].
    unfold stored. rewrite (H x). unfold counted.
    destruct (count_occ K_eq_dec seen x) as [|c] eqn:E; simpl.
    + reflexivity.
    + replace (c + 1) with (S c) by lia. simpl. reflexivity.
  - destruct (K_eq_dec x k) as [E|_]; [ congruence | ].
    rewrite Nat.add_0_r. apply H.
Qed.

Lemma counts_fold (ks : list K) :
  forall (m : list (K * nat)) (seen : list K),
    counts m seen -> counts (fold_left (tally K_eq_dec) ks m) (seen ++ ks).
Proof.
  induction ks as [|x ks IH]; intros m seen H; simpl.
  - rewrite app_nil_r. exact H.
  - replace (seen ++ x :: ks) with ((seen ++ [x]) ++ ks)
      by (rewrite <- app_assoc; reflexivity).
    apply IH. apply counts_tally. exact H.
Qed.

Lemma counts_empty : counts [] [].
Proof. intros k. reflexivity. Qed.

Lemma fold_tally_get (ks : list K) (k : K) :
  map_get K_eq_dec (fold_left (tally K_eq_dec) ks []) k
  = counted (count_occ K_eq_dec ks k).
Proof. exact (counts_fold ks [] [] counts_empty k). Qed.

Lemma fold_tally_total (ks : list K) :
  forall m : list (K * nat),
    total (fold_left (tally K_eq_dec) ks m) = total m + List.length ks.
Proof.
  induction ks as [|x ks IH]; intros m; simpl.
  - lia.
  - rewrite IH, tally_total. lia.
Qed.

End Tally.
End TallyFacts.

(* ================================================================== *)
(** * Random samples *)
(* ================================================================== *)

Module SamplingFacts.
Import Sampling.
Import RandFacts.

Lemma put_app (l1 : list str) (x : str) (l2 : list str) (v : str) :
  put (l1 ++ x :: l2) (List.length l1) v = l1 ++ v :: l2.
Proof.
  induction l1 as [|a l1 IH]; simpl; [ reflexivity | rewrite IH; reflexivity ].
Qed.

Lemma swap_perm (a : list str) (i j : nat) :
  j <= i -> Permutation (swap a i j) a.
Proof.
  intros Hji. unfold swap.
  destruct (nth_error a i) as [x|] eqn:Ei; [ | apply Permutation_refl ].
  destruct (nth_error a j) as [y|] eqn:Ej; [ | apply Permutation_refl ].
  destruct (Nat.eq_dec j i) as [Heq|Hne].
  - subst j. assert (x = y) by congruence. subst y.
    destruct (nth_error_split a i Ei) as (l1 & l2 & Ea & Hl).
    subst a. subst i. rewrite put_app, put_app. apply Permutation_refl.
  - destruct (nth_error_split a j Ej) as (l1 & m & Ea & Hl1).
    subst a. subst j.
    assert (Ei' : nth_error m (i - List.length l1 - 1) = Some x).
    { rewrite nth_error_app2 in Ei by lia.
      replace (i - List.length l1) with (S (i - List.length l1 - 1)) in Ei by lia.
      exact Ei. }
    destruct (nth_error_split m _ Ei') as (l2 & l3 & Em & Hl2).
    subst m.
    assert (Hi : i = List.length (l1 ++ y :: l2)).
    { rewrite length_app. simpl. lia. }
    replace (l1 ++ y :: l2 ++ x :: l3) with ((l1 ++ y :: l2) ++ x :: l3)
      by (rewrite <- app_assoc; reflexivity).
    rewrite Hi at 1. rewrite put_app.
    rewrite <- !app_assoc. simpl. rewrite put_app.
    apply Permutation_app_head.
    apply Permutation_trans with (x :: y :: l2 ++ l3).
    + apply perm_skip. apply Permutation_sym. apply Permutation_middle.
    + apply Permutation_trans with (y :: x :: l2 ++ l3).
      * apply perm_swap.
      * apply perm_skip. apply Permutation_middle.
Qed.

Lemma shuffleFrom_sure (i : nat) :
  forall shuffled : list str,
    i < List.length shuffled ->
    sure (shuffleFrom i shuffled) (fun s => Permutation s shuffled).
Proof.
  induction i as [|i IH]; intros shuffled Hi.
  - apply sure_ret. apply Permutation_refl.
  - cbn [shuffleFrom].
    apply sure_bind with (Q := fun j => j < S i + 1).
    + apply random_index_sure. lia.
    + intros j Hj.
      assert (P : Permutation (swap shuffled (S i) j) shuffled)
        by (apply swap_perm; lia).
      apply sure_weaken
        with (P := fun s => Permutation s (swap shuffled (S i) j)).
      * apply IH. rewrite (Permutation_length P). lia.
      * intros s Hs. apply Permutation_trans with (1 := Hs). exact P.
Qed.

End SamplingFacts.

(** X24. A random sample always returns: it has as many passwords as
    asked, or all of them when there are no more than that, and it is the
    beginning of a rearrangement of the given passwords, so no password is
    invented or taken more often than it was given.  A list that is short
    enough is returned as it is without a draw.  The samplers of the two
    analysis programs do the same but throw on an empty list. *)
Theorem sample_is_part_of_a_shuffle (passwords : list str) (sampleSize : nat)
    (src : Source) (i : nat) :
  exists sample j,
    Sampling.randomSample passwords sampleSize src i = Returned (sample, j)
    /\ List.length sample = Nat.min (List.length passwords) sampleSize
    /\ (exists rest, Permutation (sample ++ rest) passwords)
    /\ (List.length passwords <= sampleSize -> sample = passwords /\ j = i)
    /\ Sampling.getRandomSample passwords sampleSize src i
       = if List.length passwords =? 0
         then Thrown "No passwords provided for sampling"
         else Returned (sample, j).
Proof.
  unfold Sampling.randomSample, Sampling.getRandomSample.
  destruct (Nat.leb_spec (List.length passwords) sampleSize) as [Hle|Hgt].
  - exists passwords, i. split; [ reflexivity | ].
    split; [ lia | ]. split.
    + exists []. rewrite app_nil_r. apply Permutation_refl.
    + split; [ intros _; split; reflexivity | ].
      destruct (List.length passwords =? 0); reflexivity.
  - assert (Hlen : List.length passwords - 1 < List.length passwords) by lia.
    destruct (SamplingFacts.shuffleFrom_sure _ passwords Hlen src i)
      as (s & j & E & P).
    exists (firstn sampleSize s), j.
    unfold bind. rewrite E. split; [ reflexivity | ].
    pose proof (Permutation_length P) as L.
    split; [ rewrite length_firstn; lia | ]. split.
    + exists (skipn sampleSize s). rewrite firstn_skipn. exact P.
    + split; [ intros H; lia | ].
      destruct (Nat.eqb_spec (List.length passwords) 0) as [Z|_];
        [ lia | cbv beta; rewrite E; reflexivity ].
Qed.

(* ================================================================== *)
(** * The analysis of a sample *)
(* ================================================================== *)

Module AnalyzerFacts.
Import Analyzer.

Lemma fold_lengths (passwords : list str) :
  forall a : nat,
    fold_left (fun sum pwd => sum + List.length pwd) passwords a
    = a + list_sum (map (@List.length char) passwords).
Proof.
  induction passwords as [|p ps IH]; intros a; simpl.
  - lia.
  - rewrite IH. lia.
Qed.

Lemma fold_lengthFrequency (passwords : list str) :
  forall t : Tables,
    t_lengthFrequency (fold_left analyzeOne passwords t)
    = fold_left (tally Nat.eq_dec) (map (@List.length char) passwords)
                (t_lengthFrequency t).
Proof.
  induction passwords as [|p ps IH]; intros t; simpl.
  - reflexivity.
  - rewrite IH. reflexivity.
Qed.

Lemma fold_characterFrequency (passwords : list str) :
  forall t : Tables,
    t_characterFrequency (fold_left analyzeOne passwords t)
    = fold_left (tally str_eq_dec) (flat_map codePoints passwords)
                (t_characterFrequency t).
Proof.
  induction passwords as [|p ps IH]; intros t; simpl.
  - reflexivity.
  - rewrite IH. rewrite fold_left_app. reflexivity.
Qed.

Lemma one_filter (p : str -> bool) (x : str) (l : list str) :
  List.length (filter p (x :: l)) = one (p x) + List.length (filter p l).
Proof. simpl. destruct (p x); reflexivity. Qed.

Lemma fold_composition (passwords : list str) :
  forall t : Tables,
    let c := t_composition (fold_left analyzeOne passwords t) in
    uppercase c = uppercase (t_composition t)
                  + List.length (filter Estimator.match_upper passwords)
    /\ lowercase c = lowercase (t_composition t)
                     + List.length (filter Estimator.match_lower passwords)
    /\ numbers c = numbers (t_composition t)
                   + List.length (filter Estimator.match_digit passwords)
    /\ symbols c = symbols (t_composition t)
                   + List.length (filter Estimator.match_other passwords).
Proof.
  induction passwords as [|p ps IH]; intros t.
  - simpl. repeat split; lia.
  - cbn [fold_left]. specialize (IH (analyzeOne t p)).
    cbv zeta in IH. destruct IH as (U & L & N & S).
    cbv zeta. rewrite U, L, N, S, !one_filter.
    unfold analyzeOne. cbn [t_composition uppercase lowercase numbers symbols].
    repeat split; lia.
Qed.

(** The code points of a string, put together again, are the string. *)
Lemma codePoints_concat (s : str) : List.concat (codePoints s) = s.
Proof.
  assert (G : forall n (s : str), List.length s <= n -> List.concat (codePoints s) = s).
  { induction n as [|n IH]; intros [|c [|d t]] H; simpl in *;
      try reflexivity; try lia.
    destruct (isHighSurrogate c && isLowSurrogate d).
    - simpl. f_equal. f_equal. apply IH. lia.
    - simpl. f_equal. apply (IH (d :: t)). simpl. lia. }
  exact (G (List.length s) s (Nat.le_refl _)).
Qed.

End AnalyzerFacts.

(** X25. For a sample that is not empty the analysis reports the number
    of passwords, the exact mean of their lengths and the first twenty
    passwords; the table of lengths holds for every length the number of
    passwords of that length and nothing for a length that no password
    has, so its counts add up to the sample size; the table of characters
    holds for every character the number of times it occurs in the sample,
    a surrogate pair counting as one character; and each composition
    counter is the number of passwords that contain a character of that
    kind. *)
Theorem analysis_counts_the_sample (passwords : list str)
    (H : passwords <> []) :
  exists a,
    Analyzer.analyzePasswords passwords = Ok a
    /\ Analyzer.sampleSize a = List.length passwords
    /\ Analyzer.averageLength a
       = Num.Fin (INR (list_sum (map (@List.length char) passwords))
                  / INR (List.length passwords))
    /\ Analyzer.samplePasswords a = firstn 20 passwords
    /\ (forall n,
          map_get Nat.eq_dec (Analyzer.lengthFrequency a) n
          = TallyFacts.counted
              (count_occ Nat.eq_dec (map (@List.length char) passwords) n))
    /\ list_sum (map snd (Analyzer.lengthFrequency a)) = List.length passwords
    /\ (forall ch,
          map_get str_eq_dec (Analyzer.characterFrequency a) ch
          = TallyFacts.counted
              (count_occ str_eq_dec
                 (flat_map Analyzer.codePoints passwords) ch))
    /\ Analyzer.uppercase (Analyzer.composition a)
       = List.length (filter Estimator.match_upper passwords)
    /\ Analyzer.lowercase (Analyzer.composition a)
       = List.length (filter Estimator.match_lower passwords)
    /\ Analyzer.numbers (Analyzer.composition a)
       = List.length (filter Estimator.match_digit passwords)
    /\ Analyzer.symbols (Analyzer.composition a)
       = List.length (filter Estimator.match_other passwords).
Proof.
  unfold Analyzer.analyzePasswords.
  destruct (Nat.eqb_spec (List.length passwords) 0) as [Z|NZ].
  { destruct passwords; [ congruence | discriminate ]. }
  eexists. split; [ reflexivity | ].
  cbn [Analyzer.sampleSize Analyzer.averageLength Analyzer.samplePasswords
       Analyzer.lengthFrequency Analyzer.characterFrequency
       Analyzer.composition].
  split; [ reflexivity | ]. split.
  { rewrite AnalyzerFacts.fold_lengths. simpl.
    unfold Num.div, Num.of_nat, Num.sgn.
    destruct (total_order_T (INR (List.length passwords)) 0) as [[L|E]|G];
      try reflexivity.
    exfalso. apply (not_0_INR _ NZ). exact E. }
  split; [ reflexivity | ]. split.
  { intros n. rewrite AnalyzerFacts.fold_lengthFrequency.
    apply TallyFacts.fold_tally_get. }
  split.
  { rewrite AnalyzerFacts.fold_lengthFrequency.
    pose proof (TallyFacts.fold_tally_total nat Nat.eq_dec
                  (map (@List.length char) passwords) []) as T.
    unfold TallyFacts.total in T. cbn [Analyzer.t_lengthFrequency].
    rewrite T. simpl.
    apply length_map. }
  split.
  { intros ch. rewrite AnalyzerFacts.fold_characterFrequency.
    apply TallyFacts.fold_tally_get. }
  pose proof (AnalyzerFacts.fold_composition passwords
                (Analyzer.mkTables (Analyzer.mkComposition 0 0 0 0) [] []))
    as C.
  cbv zeta in C. cbn [Analyzer.t_composition Analyzer.uppercase
    Analyzer.lowercase Analyzer.numbers Analyzer.symbols] in C.
  destruct C as (U & L & N & S). rewrite U, L, N, S. repeat split.
Qed.

Lemma analysis_counts_the_sample_witness :
  exists a, Analyzer.analyzePasswords [codes "abc"; codes "Ab1"; codes "x"] = Ok a
            /\ Analyzer.sampleSize a = 3.
Proof.
  destruct (analysis_counts_the_sample [codes "abc"; codes "Ab1"; codes "x"])
    as (a & E & S & _); [ discriminate | ].
  exists a. split; [ exact E | exact S ].
Defined.

(* ================================================================== *)
(** * The local data file *)
(* ================================================================== *)

Module DataFetcherFacts.
Import DataFetcher.

Section Split.
Variable sep : char.

Lemma split_no_sep (s : str) : ~ In sep s -> split sep s = [s].
Proof.
  induction s as [|c t IH]; intros H; cbn [split].
  - reflexivity.
  - destruct (N.eqb_spec c sep) as [E|E].
    + exfalso. apply H. left. exact E.
    + rewrite IH; [ reflexivity | intros K; apply H; right; exact K ].
Qed.

Lemma split_app_sep (s rest : str) :
  ~ In sep s -> split sep (s ++ sep :: rest) = s :: split sep rest.
Proof.
  induction s as [|c t IH]; intros H; cbn [split app].
  - rewrite N.eqb_refl. reflexivity.
  - destruct (N.eqb_spec c sep) as [E|E].
    + exfalso. apply H. left. exact E.
    + rewrite IH; [ reflexivity | intros K; apply H; right; exact K ].
Qed.

Lemma split_join (ls : list str) :
  ls <> [] -> Forall (fun l => ~ In sep l) ls -> split sep (join sep ls) = ls.
Proof.
  induction ls as [|l ls IH]; intros Hne F; [ congruence | ].
  inversion F as [|? ? Hl Fl]; subst.
  destruct ls as [|l' ls'].
  - cbn [join]. apply split_no_sep. exact Hl.
  - change (join sep (l :: l' :: ls')) with (l ++ sep :: join sep (l' :: ls')).
    rewrite split_app_sep by exact Hl.
    rewrite IH; [ reflexivity | discriminate | exact Fl ].
Qed.

Lemma split_Forall (s : str) : Forall (fun l => ~ In sep l) (split sep s).
Proof.
  induction s as [|c t IH]; cbn [split].
  - constructor; [ intros [] | constructor ].
  - destruct (N.eqb_spec c sep) as [E|E].
    + constructor; [ intros [] | exact IH ].
    + revert IH. destruct (split sep t) as [|h r]; intros IH.
      * constructor; [ intros [K|[]]; congruence | constructor ].
      * inversion IH; subst.
        constructor; [ intros [K|K]; [ congruence | contradiction ] | assumption ].
Qed.

Lemma split_In (s : str) (c : char) :
  forall f : str, In f (split sep s) -> In c f -> In c s.
Proof.
  induction s as [|a t IH]; intros f; cbn [split].
  - intros [<-|[]] [].
  - destruct (N.eqb_spec a sep) as [E|E].
    + intros [<-|K] Hc; [ destruct Hc | right; exact (IH f K Hc) ].
    + revert IH. destruct (split sep t) as [|h r]; intros IH.
      * intros [<-|[]] [Hc|[]]. left. exact Hc.
      * intros [<-|K] Hc.
        -- destruct Hc as [Hc|Hc];
             [ left; exact Hc
             | right; apply (IH h); [ left; reflexivity | exact Hc ] ].
        -- right. apply (IH f); [ right; exact K | exact Hc ].
Qed.

End Split.

Lemma trimStart_ws (c : char) (t : str) :
  isWhiteSpace c = true -> trimStart (c :: t) = trimStart t.
Proof. intros W. cbn [trimStart]. rewrite W. reflexivity. Qed.

Lemma trimStart_keep (c : char) (t : str) :
  isWhiteSpace c = false -> trimStart (c :: t) = c :: t.
Proof. intros W. cbn [trimStart]. rewrite W. reflexivity. Qed.

Lemma trimStart_In (s : str) (c : char) : In c (trimStart s) -> In c s.
Proof.
  induction s as [|a t IH]; [ intros [] | ].
  destruct (isWhiteSpace a) eqn:W.
  - rewrite (trimStart_ws a t W). intros K. right. exact (IH K).
  - rewrite (trimStart_keep a t W). intros K. exact K.
Qed.

Lemma trim_In (s : str) (c : char) : In c (trim s) -> In c s.
Proof.
  unfold trim, trimEnd. intros K.
  apply trimStart_In. apply (proj2 (in_rev _ c)).
  apply trimStart_In. apply (proj2 (in_rev _ c)). exact K.
Qed.

Lemma trimStart_length (s : str) :
  List.length (trimStart s) <= List.length s.
Proof.
  induction s as [|a t IH]; [ simpl; lia | ].
  destruct (isWhiteSpace a) eqn:W.
  - rewrite (trimStart_ws a t W). simpl. lia.
  - rewrite (trimStart_keep a t W). lia.
Qed.

Lemma trimmed_head (p : str) :
  p <> [] -> trim p = p ->
  exists c t, p = c :: t /\ isWhiteSpace c = false.
Proof.
  intros Hne E. destruct p as [|c t]; [ congruence | ].
  exists c, t. split; [ reflexivity | ].
  destruct (isWhiteSpace c) eqn:W; [ | reflexivity ]. exfalso.
  assert (L : List.length (trim (c :: t)) <= List.length t).
  { unfold trim, trimEnd. rewrite length_rev.
    etransitivity; [ apply trimStart_length | ].
    rewrite length_rev. rewrite (trimStart_ws c t W).
    apply trimStart_length. }
  rewrite E in L. simpl in L. lia.
Qed.

Lemma trimStart_snoc (l : str) (c : char) :
  isWhiteSpace c = false -> trimStart (l ++ [c]) <> [].
Proof.
  intros W. induction l as [|a l IH]; cbn [app].
  - rewrite (trimStart_keep c [] W). discriminate.
  - destruct (isWhiteSpace a) eqn:Wa.
    + rewrite (trimStart_ws a _ Wa). exact IH.
    + rewrite (trimStart_keep a _ Wa). discriminate.
Qed.

Lemma trim_truthy (c : char) (t : str) :
  isWhiteSpace c = false -> truthy (trim (c :: t)) = true.
Proof.
  intros W. unfold trim. rewrite (trimStart_keep c t W).
  unfold trimEnd. cbn [rev].
  pose proof (trimStart_snoc (rev t) c W) as K.
  destruct (trimStart (rev t ++ [c])) as [|x y]; [ congruence | ].
  cbn [rev]. destruct (rev y ++ [x]) as [|a b] eqn:E2; [ | reflexivity ].
  apply app_eq_nil in E2. destruct E2 as [_ E2]. discriminate.
Qed.

Definition header : str := codes "Password,Strength_Level".

Lemma csvContent_header (sampled : list str) :
  csvContent sampled = header ++ lineFeed :: join lineFeed sampled.
Proof. reflexivity. Qed.

Lemma header_no_lineFeed : ~ In lineFeed header.
Proof. vm_compute. intuition discriminate. Qed.

Lemma header_kept : truthy (trim header) = true.
Proof. vm_compute. reflexivity. Qed.

Lemma header_word : Comparison.includesWord header (codes "Password") = true.
Proof. vm_compute. reflexivity. Qed.

Lemma filter_all {A : Type} (f : A -> bool) (l : list A) :
  Forall (fun x => f x = true) l -> filter f l = l.
Proof.
  induction 1 as [|x l Hx F IH]; cbn [filter];
    [ reflexivity | rewrite Hx, IH; reflexivity ].
Qed.

(** The lines written after the header are the lines read back. *)
Lemma dataLines_csvContent (sampled : list str) :
  Forall (fun l => ~ In lineFeed l /\ truthy (trim l) = true) sampled ->
  dataLinesOf (csvContent sampled) = sampled.
Proof.
  intros F. unfold dataLinesOf. cbv zeta. rewrite csvContent_header.
  rewrite (split_app_sep lineFeed header _ header_no_lineFeed).
  cbn [filter]. rewrite header_kept.
  destruct sampled as [|l ls].
  - change (filter (fun line => truthy (trim line))
                   (split lineFeed (join lineFeed [])))
      with (@nil str).
    rewrite header_word. reflexivity.
  - rewrite split_join;
      [ | discriminate
        | eapply Forall_impl; [ | exact F ]; intros a [Ha _]; exact Ha ].
    rewrite filter_all;
      [ | eapply Forall_impl; [ | exact F ]; intros a [_ Ha]; exact Ha ].
    rewrite header_word. reflexivity.
Qed.

(** What [loadPasswordsFromFile] makes of one line. *)
Definition firstField (line : str) : str :=
  match split comma line with
  | password :: _ => if truthy password then trim password else []
  | [] => []
  end.

Lemma load_fields (content : str) :
  loadPasswordsFromFile (Some content)
  = Ok (filter (fun password => 0 <? List.length password)
               (map firstField (dataLinesOf content))).
Proof. reflexivity. Qed.

Lemma firstField_entry (p rest : str) :
  p <> [] -> trim p = p -> ~ In comma p ->
  firstField (p ++ comma :: rest) = p.
Proof.
  intros Hne Ht Hc. unfold firstField.
  rewrite (split_app_sep comma p rest Hc).
  destruct p as [|c t]; [ congruence | ]. cbn [truthy]. exact Ht.
Qed.

Lemma dataLines_incl (content line : str) :
  In line (dataLinesOf content) -> In line (split lineFeed content).
Proof.
  unfold dataLinesOf. cbv zeta.
  destruct (filter (fun l => truthy (trim l)) (split lineFeed content))
    as [|first rest] eqn:F.
  - intros [].
  - intros K.
    assert (K' : In line (first :: rest)).
    { destruct (Comparison.includesWord first (codes "Password"));
        [ right; exact K | exact K ]. }
    rewrite <- F in K'. apply filter_In in K'. exact (proj1 K').
Qed.

(** The key under which [getDistribution] counts a line, if any. *)
Definition keyOf (passwordLine : str) : list string :=
  match nth_error (split comma passwordLine) 1 with
  | Some strengthLevel =>
      if truthy strengthLevel
      then [getStrengthLevelName (parseInt strengthLevel)]
      else []
  | None => []
  end.

Lemma getDistribution_fold (passwords : list str) :
  getDistribution passwords
  = fold_left (tally string_dec) (flat_map keyOf passwords) [].
Proof.
  unfold getDistribution. generalize (@nil (string * nat)).
  induction passwords as [|line ps IH]; intros m; cbn [fold_left flat_map].
  - reflexivity.
  - rewrite IH, fold_left_app. f_equal. unfold keyOf.
    destruct (nth_error (split comma line) 1) as [level|]; [ | reflexivity ].
    destruct (truthy level); reflexivity.
Qed.

Lemma parseInt_levelText (n : nat) :
  1 <= n <= 5 -> parseInt (levelText n) = Some (Z.of_nat n).
Proof.
  intros H. destruct n as [|[|[|[|[|[|n]]]]]]; try lia;
    vm_compute; reflexivity.
Qed.

Lemma keyOf_entry (p : str) (n : nat) :
  ~ In comma p -> 1 <= n <= 5 ->
  keyOf (entry p n) = [getStrengthLevelName (Some (Z.of_nat n))].
Proof.
  intros Hc Hn. unfold keyOf, entry.
  rewrite (split_app_sep comma p _ Hc).
  rewrite (split_no_sep comma (levelText n)).
  - cbn [nth_error]. unfold levelText at 1. cbn [truthy].
    rewrite (parseInt_levelText n Hn). reflexivity.
  - unfold levelText, comma. intros [K|[]]. lia.
Qed.

Definition isName (k : string) : Prop :=
  In k ["Unknown"%string; "Very Weak"%string; "Weak"%string;
        "Average"%string; "Strong"%string; "Very Strong"%string].

Lemma getStrengthLevelName_isName (level : option Z) :
  isName (getStrengthLevelName level).
Proof.
  destruct level as [z|]; unfold getStrengthLevelName, isName;
    [ | simpl; auto 10 ].
  repeat (match goal with
          | |- context [if ?b then _ else _] => destruct b
          end); simpl; auto 10.
Qed.

Lemma isName_unknown (k : string) :
  isName k -> getStrengthLevelName (parseInt (codes k)) = "Unknown"%string.
Proof.
  unfold isName. simpl.
  intros [<-|[<-|[<-|[<-|[<-|[<-|[]]]]]]]; vm_compute; reflexivity.
Qed.

Lemma tally_names (m : list (string * nat)) (k : string) :
  Forall (fun row => isName (fst row)) m -> isName k ->
  Forall (fun row => isName (fst row)) (tally string_dec m k).
Proof.
  intros F Hk. apply Forall_forall. intros [k0 v0] Hin.
  unfold tally in Hin. apply ModelFacts.map_set_In in Hin.
  destruct Hin as [Hin|[E _]].
  - exact (proj1 (Forall_forall _ _) F _ Hin).
  - cbn [fst]. rewrite E. exact Hk.
Qed.

Lemma fold_tally_names (ks : list string) :
  Forall isName ks ->
  forall m, Forall (fun row => isName (fst row)) m ->
            Forall (fun row => isName (fst row))
                   (fold_left (tally string_dec) ks m).
Proof.
  induction 1 as [|k ks Hk F IH]; intros m Hm; cbn [fold_left].
  - exact Hm.
  - apply IH. apply tally_names; assumption.
Qed.

Lemma keyOf_names (passwords : list str) :
  Forall isName (flat_map keyOf passwords).
Proof.
  apply Forall_forall. intros k Hin.
  apply in_flat_map in Hin. destruct Hin as (line & _ & Hk).
  unfold keyOf in Hk.
  destruct (nth_error (split comma line) 1) as [level|]; [ | destruct Hk ].
  destruct (truthy level); [ | destruct Hk ].
  destruct Hk as [<-|[]]. apply getStrengthLevelName_isName.
Qed.

End DataFetcherFacts.

(** X26. Lines that begin with a password, a comma and any further text,
    written to the local file under the header line as the download does,
    are read back as exactly those passwords in the same order, provided
    each password is not empty, has no white space at either end and holds
    no comma or line feed, and the further text holds no line feed. *)
Theorem load_returns_the_written_passwords (ps : list (str * str))
    (H : Forall (fun pr =>
                   fst pr <> []
                   /\ DataFetcher.trim (fst pr) = fst pr
                   /\ ~ In DataFetcher.comma (fst pr)
                   /\ ~ In DataFetcher.lineFeed (fst pr)
                   /\ ~ In DataFetcher.lineFeed (snd pr)) ps) :
  DataFetcher.loadPasswordsFromFile
    (Some (DataFetcher.csvContent
             (map (fun pr => fst pr ++ DataFetcher.comma :: snd pr) ps)))
  = Ok (map fst ps).
Proof.
  rewrite DataFetcherFacts.load_fields.
  rewrite DataFetcherFacts.dataLines_csvContent.
  - f_equal.
    assert (E : map DataFetcherFacts.firstField
                    (map (fun pr => fst pr ++ DataFetcher.comma :: snd pr) ps)
                = map fst ps).
    { induction H as [|[p rest] ps' (Hne & Ht & Hc & Hl & Hr) F IH];
        [ reflexivity | ].
      cbn [map fst snd] in *.
      rewrite (DataFetcherFacts.firstField_entry p rest Hne Ht Hc), IH.
      reflexivity. }
    rewrite E. apply DataFetcherFacts.filter_all.
    apply Forall_forall. intros p Hin.
    apply in_map_iff in Hin. destruct Hin as ([p' rest] & Ep & Hin).
    pose proof (proj1 (Forall_forall _ _) H _ Hin) as (Hne & _).
    cbn [fst] in *. subst p'. destruct p; [ congruence | reflexivity ].
  - apply Forall_forall. intros line Hin.
    apply in_map_iff in Hin. destruct Hin as ([p rest] & E & Hin).
    pose proof (proj1 (Forall_forall _ _) H _ Hin) as (Hne & Ht & Hc & Hl & Hr).
    cbn [fst snd] in *. subst line. split.
    + intros K. apply in_app_or in K.
      destruct K as [K|[K|K]];
        [ exact (Hl K) | discriminate K | exact (Hr K) ].
    + destruct (DataFetcherFacts.trimmed_head p Hne Ht) as (c & t & Ep & W).
      subst p. cbn [app]. apply DataFetcherFacts.trim_truthy. exact W.
Qed.

Lemma load_returns_the_written_passwords_witness :
  DataFetcher.loadPasswordsFromFile
    (Some (DataFetcher.csvContent
             (map (fun pr => fst pr ++ DataFetcher.comma :: snd pr)
                  [(codes "hunter2", codes "1"); (codes "P@ss word", codes "3")])))
  = Ok [codes "hunter2"; codes "P@ss word"].
Proof.
  apply (load_returns_the_written_passwords
           [(codes "hunter2", codes "1"); (codes "P@ss word", codes "3")]).
  repeat constructor;
    try (vm_compute; reflexivity); vm_compute; intuition discriminate.
Defined.

(** X27. Loading throws when there is no local file.  From a file with
    any text it returns a list, and no password in that list is empty or
    holds a comma or a line feed. *)
Theorem loaded_passwords_are_clean (content : str) :
  DataFetcher.loadPasswordsFromFile None
  = Error "No local data file found. Please fetch data first."
  /\ exists passwords,
       DataFetcher.loadPasswordsFromFile (Some content) = Ok passwords
       /\ Forall (fun p => p <> []
                           /\ ~ In DataFetcher.comma p
                           /\ ~ In DataFetcher.lineFeed p) passwords.
Proof.
  split; [ reflexivity | ].
  rewrite DataFetcherFacts.load_fields. eexists. split; [ reflexivity | ].
  apply Forall_forall. intros p Hp.
  apply filter_In in Hp. destruct Hp as [Hm Hlen].
  apply in_map_iff in Hm. destruct Hm as (line & E & Hline).
  apply DataFetcherFacts.dataLines_incl in Hline.
  split; [ intros Z; rewrite Z in Hlen; cbv in Hlen; discriminate Hlen | ].
  unfold DataFetcherFacts.firstField in E.
  destruct (DataFetcher.split DataFetcher.comma line) as [|f r] eqn:S;
    [ subst p; cbv in Hlen; discriminate Hlen | ].
  destruct (DataFetcher.truthy f); [ | subst p; cbv in Hlen; discriminate Hlen ].
  subst p.
  pose proof (DataFetcherFacts.split_Forall DataFetcher.comma line) as FC.
  rewrite S in FC. inversion FC as [|? ? Hf _]; subst.
  split.
  - intros K. apply DataFetcherFacts.trim_In in K. exact (Hf K).
  - intros K. apply DataFetcherFacts.trim_In in K.
    assert (In DataFetcher.lineFeed line).
    { apply (DataFetcherFacts.split_In DataFetcher.comma line _ f);
        [ rewrite S; left; reflexivity | exact K ]. }
    pose proof (DataFetcherFacts.split_Forall DataFetcher.lineFeed content) as FL.
    exact (proj1 (Forall_forall _ _) FL _ Hline H).
Qed.

(** X28. For lines made of a password without a comma, a comma and a
    strength level from 1 to 5, the distribution holds under every level
    name the number of lines of that level, and nothing under a name that
    no line has. *)
Theorem distribution_counts_the_levels (ps : list (str * nat))
    (name : string)
    (H : Forall (fun pl => ~ In DataFetcher.comma (fst pl)
                           /\ 1 <= snd pl <= 5) ps) :
  map_get string_dec
    (DataFetcher.getDistribution
       (map (fun pl => DataFetcher.entry (fst pl) (snd pl)) ps)) name
  = TallyFacts.counted
      (count_occ string_dec
         (map (fun pl => DataFetcher.getStrengthLevelName
                           (Some (Z.of_nat (snd pl)))) ps) name).
Proof.
  rewrite DataFetcherFacts.getDistribution_fold.
  assert (E : flat_map DataFetcherFacts.keyOf
                (map (fun pl => DataFetcher.entry (fst pl) (snd pl)) ps)
              = map (fun pl => DataFetcher.getStrengthLevelName
                                 (Some (Z.of_nat (snd pl)))) ps).
  { induction H as [|[p n] ps' [Hc Hn] F IH]; [ reflexivity | ].
    cbn [map flat_map fst snd] in *.
    rewrite (DataFetcherFacts.keyOf_entry p n Hc Hn), IH. reflexivity. }
  rewrite E. apply TallyFacts.fold_tally_get.
Qed.

Lemma distribution_counts_the_levels_witness :
  map_get string_dec
    (DataFetcher.getDistribution
       (map (fun pl => DataFetcher.entry (fst pl) (snd pl))
            [(codes "abc", 1); (codes "Tr0ub4dor", 3); (codes "qwerty", 1)]))
    "Very Weak"%string
  = Some 2.
Proof.
  apply (distribution_counts_the_levels
           [(codes "abc", 1); (codes "Tr0ub4dor", 3); (codes "qwerty", 1)]
           "Very Weak").
  repeat constructor; try lia; vm_compute; intuition discriminate.
Defined.

(** X29. The keys of a distribution are level names, and the download
    report reads each key as a number before it looks up its name: that
    gives [NaN] for every key, so the name printed beside every row of the
    distribution is Unknown. *)
Theorem printed_level_names_are_unknown (passwords : list str) :
  Forall (fun levelName => levelName = "Unknown"%string)
         (DataFetcher.printedLevelNames
            (DataFetcher.getDistribution passwords)).
Proof.
  unfold DataFetcher.printedLevelNames. apply Forall_map.
  rewrite DataFetcherFacts.getDistribution_fold.
  pose proof (DataFetcherFacts.fold_tally_names
                (flat_map DataFetcherFacts.keyOf passwords)
                (DataFetcherFacts.keyOf_names passwords)
                [] (Forall_nil _)) as F.
  eapply Forall_impl; [ | exact F ].
  intros row Hrow. apply DataFetcherFacts.isName_unknown. exact Hrow.
Qed.

(* ================================================================== *)
(** * The entropy histogram *)
(* ================================================================== *)

Module HistogramFacts.
Import Num.
Import Histogram.

Lemma createHistogramData_fold (entropies : list xreal) :
  createHistogramData entropies
  = fold_left (tally xreal_eq_dec) (map binOf entropies) [].
Proof.
  unfold createHistogramData. generalize (@nil (xreal * nat)).
  induction entropies as [|e es IH]; intros m; cbn [fold_left map].
  - reflexivity.
  - apply IH.
Qed.

Lemma binOf_Fin (e : R) :
  binOf (Fin e) = Fin (IZR (Int_part (e / 5)) * 5).
Proof.
  unfold binOf, binSize, div, sgn.
  destruct (total_order_T 5 0) as [[L|E]|G]; try lra.
  reflexivity.
Qed.

End HistogramFacts.

(** X30. The histogram holds under every bin the number of entropies
    that fall in it and nothing under a bin that is empty, so its counts
    add up to the number of entropies.  The bin of a finite entropy starts
    at a whole multiple of 5, at most the entropy and less than 5 below
    it. *)
Theorem histogram_counts_the_bins (entropies : list Num.xreal) :
  (forall bin,
     map_get Histogram.xreal_eq_dec
             (Histogram.createHistogramData entropies) bin
     = TallyFacts.counted
         (count_occ Histogram.xreal_eq_dec
                    (map Histogram.binOf entropies) bin))
  /\ list_sum (map snd (Histogram.createHistogramData entropies))
     = List.length entropies
  /\ (forall e : R,
        exists k : Z,
          Histogram.binOf (Num.Fin e) = Num.Fin (IZR k * 5)
          /\ (IZR k * 5 <= e < IZR k * 5 + 5)%R).
Proof.
  rewrite HistogramFacts.createHistogramData_fold. split; [ | split ].
  - intros bin. apply TallyFacts.fold_tally_get.
  - pose proof (TallyFacts.fold_tally_total Num.xreal Histogram.xreal_eq_dec
                  (map Histogram.binOf entropies) []) as T.
    unfold TallyFacts.total in T. rewrite T. simpl. apply length_map.
  - intros e. exists (Int_part (e / 5)).
    split; [ apply HistogramFacts.binOf_Fin | ].
    destruct (base_Int_part (e / 5)) as [B1 B2].
    assert (Ee : e = (5 * (e / 5))%R) by field.
    set (q := (e / 5)%R) in *. lra.
Qed.
